(** * zenodb: cluster following and replication metrics

    A shallow embedding of [cluster_follow.go] (package zenodb) and of the
    replication metrics (package metrics), with the properties of the
    follower multiplexer stated against it.

    Conventions of the embedding.
    - Go's [int] is the 64-bit two's complement integer; its arithmetic is
      written with [wrap64].
    - A Go map whose entries are only reached through the map is a [gmap];
      where a map or a record is shared between goroutines by reference
      (the subscription tree) it lives in an explicit store.
    - A [for k, v := range m] loop visits the entries of [m] in an order Go
      leaves unspecified; where the order can be observed it is an explicit
      argument.
    - A function that can panic returns [option]; [None] is the panic. *)

From Stdlib Require Import ZArith Lia.
From Stdlib.Strings Require Import Byte.
From stdpp Require Import gmap strings list sorting.

Local Open Scope Z_scope.

(** ** Go integers *)

Definition wrap64 (z : Z) : Z := (z + 2 ^ 63) mod 2 ^ 64 - 2 ^ 63.

Definition int_inc (z : Z) : Z := wrap64 (z + 1).
Definition int_dec (z : Z) : Z := wrap64 (z - 1).

Lemma wrap64_small z : - 2 ^ 63 <= z < 2 ^ 63 -> wrap64 z = z.
Proof.
  intros Hz. unfold wrap64.
  rewrite Z.mod_small; lia.
Qed.

(** ** Package sort

    [sort.Sort] is driven by the [Less] method of its argument.  The library
    promises an ascending arrangement of the same elements when [Less] is a
    strict weak order, and nothing about the order of elements that [Less]
    does not separate. *)

Section StrictWeak.
Context {A : Type} (less : A -> A -> bool).

Record StrictWeak : Prop := {
  sw_irrefl : forall a, less a a = false;
  sw_trans : forall a b c, less a b = true -> less b c = true -> less a c = true;
  sw_incomp : forall a b c, less b a = false -> less c b = false -> less c a = false
}.

(** [ascending l]: no element is [Less] than one that precedes it. *)
Definition not_after (a b : A) : Prop := less b a = false.
Definition ascending (l : list A) : Prop := StronglySorted not_after l.

(** The inner loop of Go's [insertionSort]:
    [for j := i; j > a && data.Less(j, j-1); j-- { data.Swap(j, j-1) }].
    The already sorted prefix is held reversed, nearest element first. *)
Fixpoint bubble (x : A) (rprefix : list A) : list A :=
  match rprefix with
  | [] => [x]
  | y :: r => if less x y then y :: bubble x r else x :: y :: r
  end.

(** [insertionSort(data, 0, len)]: the outer loop [for i := 1; i < b; i++]. *)
Definition insertionSort (l : list A) : list A :=
  rev (fold_left (fun acc x => bubble x acc) l []).

Lemma bubble_perm x r : bubble x r ≡ₚ x :: r.
Proof.
  induction r as [|y r IH]; simpl; [done|].
  destruct (less x y); [|done].
  rewrite IH. apply perm_swap.
Qed.

Lemma insertionSort_perm l : insertionSort l ≡ₚ l.
Proof.
  unfold insertionSort.
  assert (G : forall acc, fold_left (fun acc x => bubble x acc) l acc ≡ₚ l ++ acc).
  { induction l as [|x l IH]; intros acc; simpl; [done|].
    rewrite IH, bubble_perm. by rewrite Permutation_middle. }
  rewrite <- Permutation_rev, G. by rewrite app_nil_r.
Qed.

(** The reversed prefix is descending: each element is not [Less] than the
    next one. *)
Definition descending (r : list A) : Prop :=
  StronglySorted (fun a b => less a b = false) r.

Lemma bubble_descending x r :
  StrictWeak -> descending r -> descending (bubble x r).
Proof.
  intros SW. induction r as [|y r IH]; intros Hr; simpl.
  - repeat constructor.
  - apply StronglySorted_inv in Hr as [Hr Hy].
    destruct (less x y) eqn:Hxy.
    + constructor; [by apply IH|].
      rewrite bubble_perm. constructor; [|done].
      destruct (less y x) eqn:Hyx; [|done].
      rewrite <- (sw_irrefl SW x). symmetry. by apply (sw_trans SW x y x).
    + constructor; [by constructor|].
      constructor; [done|].
      rewrite Forall_forall in Hy |- *. intros z Hz.
      apply (sw_incomp SW z y x); auto.
Qed.

Lemma insertionSort_ascending l : StrictWeak -> ascending (insertionSort l).
Proof.
  intros SW. unfold insertionSort, ascending.
  assert (G : forall acc, descending acc ->
              descending (fold_left (fun acc x => bubble x acc) l acc)).
  { induction l as [|x l IH]; intros acc Hacc; simpl; [done|].
    apply IH. by apply bubble_descending. }
  specialize (G [] ltac:(constructor)).
  revert G. generalize (fold_left (fun acc x => bubble x acc) l []).
  intros r. induction r as [|y r IH]; intros Hr; simpl; [constructor|].
  apply StronglySorted_inv in Hr as [Hr Hy].
  specialize (IH Hr). clear Hr.
  revert IH. generalize (rev r) (Forall_rev Hy). clear Hy.
  intros l'. induction l' as [|z l' IH']; intros Hy Hl'.
  - repeat constructor.
  - apply Forall_cons in Hy as [Hz Hy].
    apply StronglySorted_inv in Hl' as [Hl' Hzl].
    simpl. constructor; [by apply IH'|].
    apply Forall_app. split; [done|]. by constructor.
Qed.
End StrictWeak.

Lemma StronglySorted_weaken {A} (R R' : A -> A -> Prop) l :
  (forall a b, R a b -> R' a b) -> StronglySorted R l -> StronglySorted R' l.
Proof.
  intros HR. induction 1 as [|a l Hl IH Ha]; constructor; [done|].
  eapply Forall_impl; [exact Ha|]. auto.
Qed.



(** The interface of package sort as the program uses it. *)
Class Sorter := {
  sort_Sort : forall {A : Type}, (A -> A -> bool) -> list A -> list A;
  sort_Sort_perm : forall A (less : A -> A -> bool) l, sort_Sort less l ≡ₚ l;
  sort_Sort_ascending : forall A (less : A -> A -> bool) l,
    StrictWeak less -> ascending less (sort_Sort less l)
}.

(** What [sort.Sort] runs on a slice of at most twelve elements. *)
Definition insertion_Sorter : Sorter :=
  {| sort_Sort := @insertionSort;
     sort_Sort_perm := @insertionSort_perm;
     sort_Sort_ascending := @insertionSort_ascending |}.

(** ** [wal.Offset]

    Modelled from the spec: package wal is not part of the repository.  An
    offset is an opaque, totally ordered value; [After] is the strict order. *)

Definition Offset : Type := Z.
Definition After (o other : Offset) : bool := other <? o.

(** * Package metrics *)

Module metrics.

Record LeaderStats := mkLeaderStats {
  NumPartitions : Z;
  ConnectedPartitions : Z;
  ConnectedFollowers : Z;
  CurrentlyReadingWAL : string
}.

Record FollowerStats := mkFollowerStats {
  followerId : Z;
  Partition : Z;
  Queued : Z;
  Failed : bool
}.

(** The field [Partition] of [PartitionStats] is [PS_Partition] here. *)
Record PartitionStats := mkPartitionStats {
  PS_Partition : Z;
  NumFollowers : Z
}.

(** The package variables [leaderStats], [followerStats], [partitionStats].
    The records are reached only through these tables while [mx] is held. *)
Record state := mkState {
  leaderStats : LeaderStats;
  followerStats : gmap Z FollowerStats;
  partitionStats : gmap Z PartitionStats
}.

Record Stats := mkStats {
  Leader : LeaderStats;
  Followers : list FollowerStats;
  Partitions : list PartitionStats
}.

Definition reset : state :=
  mkState (mkLeaderStats 0 0 0 "") ∅ ∅.

Definition set_ConnectedPartitions (v : Z) (l : LeaderStats) : LeaderStats :=
  mkLeaderStats (NumPartitions l) v (ConnectedFollowers l) (CurrentlyReadingWAL l).
Definition set_ConnectedFollowers (v : Z) (l : LeaderStats) : LeaderStats :=
  mkLeaderStats (NumPartitions l) (ConnectedPartitions l) v (CurrentlyReadingWAL l).
Definition set_Partition (p : Z) (fs : FollowerStats) : FollowerStats :=
  mkFollowerStats (followerId fs) p (Queued fs) (Failed fs).
Definition set_Queued (q : Z) (fs : FollowerStats) : FollowerStats :=
  mkFollowerStats (followerId fs) (Partition fs) q (Failed fs).
Definition set_Failed (b : bool) (fs : FollowerStats) : FollowerStats :=
  mkFollowerStats (followerId fs) (Partition fs) (Queued fs) b.
Definition set_NumFollowers (n : Z) (ps : PartitionStats) : PartitionStats :=
  mkPartitionStats (PS_Partition ps) n.

Definition sortedFollowerStats_Less (si sj : FollowerStats) : bool :=
  if Partition si <? Partition sj then true
  else followerId si <? followerId sj.

Definition sortedPartitionStats_Less (si sj : PartitionStats) : bool :=
  PS_Partition si <? PS_Partition sj.

Definition SetNumPartitions (numPartitions : Z) (st : state) : state :=
  mkState
    (mkLeaderStats numPartitions (ConnectedPartitions (leaderStats st))
       (ConnectedFollowers (leaderStats st)) (CurrentlyReadingWAL (leaderStats st)))
    (followerStats st) (partitionStats st).

(** [CurrentlyReadingWAL(offset)] stores [offset.TS().Format(time.RFC3339)];
    the formatting of package time is the argument [format]. *)
Definition CurrentlyReadingWAL_set (format : Offset -> string) (offset : Offset)
    (st : state) : state :=
  mkState
    (mkLeaderStats (NumPartitions (leaderStats st)) (ConnectedPartitions (leaderStats st))
       (ConnectedFollowers (leaderStats st)) (format offset))
    (followerStats st) (partitionStats st).

(** [getFollowerStats]: the existing record, or a new one after counting one
    more connected follower. *)
Definition getFollowerStats (followerID : Z) (st : state) : FollowerStats * state :=
  match followerStats st !! followerID with
  | Some fs => (fs, st)
  | None =>
      let fs := mkFollowerStats followerID 0 0 false in
      (fs, mkState
             (set_ConnectedFollowers (int_inc (ConnectedFollowers (leaderStats st)))
                (leaderStats st))
             (<[followerID := fs]> (followerStats st))
             (partitionStats st))
  end.

Definition FollowerJoined (followerID partition : Z) (st : state) : state :=
  let '(fs, st) := getFollowerStats followerID st in
  let fstats := <[followerID := set_Partition partition fs]> (followerStats st) in
  match partitionStats st !! partition with
  | None =>
      let ps := mkPartitionStats partition 0 in
      mkState
        (set_ConnectedPartitions (int_inc (ConnectedPartitions (leaderStats st)))
           (leaderStats st))
        fstats
        (<[partition := set_NumFollowers (int_inc (NumFollowers ps)) ps]>
           (partitionStats st))
  | Some ps =>
      mkState (leaderStats st) fstats
        (<[partition := set_NumFollowers (int_inc (NumFollowers ps)) ps]>
           (partitionStats st))
  end.

(** [FollowerFailed]; [partitionStats[fs.Partition]] is dereferenced without
    a nil check, so a missing entry is a panic. *)
Definition FollowerFailed (followerID : Z) (st : state) : option state :=
  match followerStats st !! followerID with
  | Some fs =>
      if Failed fs then Some st
      else
        let ls := set_ConnectedFollowers (int_dec (ConnectedFollowers (leaderStats st)))
                    (leaderStats st) in
        let fstats := <[followerID := set_Failed true fs]> (followerStats st) in
        match partitionStats st !! Partition fs with
        | None => None
        | Some ps =>
            let ps' := set_NumFollowers (int_dec (NumFollowers ps)) ps in
            let ls' := if NumFollowers ps' =? 0
                       then set_ConnectedPartitions (int_dec (ConnectedPartitions ls)) ls
                       else ls in
            Some (mkState ls' fstats (<[Partition fs := ps']> (partitionStats st)))
        end
  | None => Some st
  end.

Definition QueuedForFollower (followerID queued : Z) (st : state) : state :=
  match followerStats st !! followerID with
  | Some fs =>
      mkState (leaderStats st) (<[followerID := set_Queued queued fs]> (followerStats st))
        (partitionStats st)
  | None => st
  end.

(** The values of a map in the order in which a [range] loop visits its
    keys; [visits order m] says that [order] is such an order. *)
Definition range_values {V : Type} (order : list Z) (m : gmap Z V) : list V :=
  omap (fun k => m !! k) order.

Definition visits {V : Type} (order : list Z) (m : gmap Z V) : Prop :=
  order ≡ₚ (map_to_list m).*1.

(** [GetStats]; [forder] and [porder] are the orders in which the two range
    loops visit [followerStats] and [partitionStats]. *)
Definition GetStats `{Sorter} (forder porder : list Z) (st : state) : Stats :=
  mkStats (leaderStats st)
    (sort_Sort sortedFollowerStats_Less (range_values forder (followerStats st)))
    (sort_Sort sortedPartitionStats_Less (range_values porder (partitionStats st))).

(** The calls of the package, and running a sequence of them. *)
Inductive call :=
| CallSetNumPartitions (numPartitions : Z)
| CallCurrentlyReadingWAL (ts : string)
| CallFollowerJoined (followerID partition : Z)
| CallFollowerFailed (followerID : Z)
| CallQueuedForFollower (followerID queued : Z).

Definition step (c : call) (st : state) : option state :=
  match c with
  | CallSetNumPartitions n => Some (SetNumPartitions n st)
  | CallCurrentlyReadingWAL ts => Some (CurrentlyReadingWAL_set (fun _ => ts) 0 st)
  | CallFollowerJoined id p => Some (FollowerJoined id p st)
  | CallFollowerFailed id => FollowerFailed id st
  | CallQueuedForFollower id q => Some (QueuedForFollower id q st)
  end.

Fixpoint run (cs : list call) (st : state) : option state :=
  match cs with
  | [] => Some st
  | c :: cs => match step c st with Some st' => run cs st' | None => None end
  end.

(** [k] successive calls of [FollowerFailed(id)]. *)
Fixpoint FollowerFailed_times (k : nat) (followerID : Z) (st : state) : option state :=
  match k with
  | O => Some st
  | S k => match FollowerFailed followerID st with
           | Some st' => FollowerFailed_times k followerID st'
           | None => None
           end
  end.


(** *** Facts about the counters *)

(** After at most [n] calls every counter lies within [[-n, n]], and the
    partition of every known follower has a [PartitionStats] record. *)
Record bounded (n : Z) (st : state) : Prop := {
  bd_partitions : - n <= ConnectedPartitions (leaderStats st) <= n;
  bd_followers : - n <= ConnectedFollowers (leaderStats st) <= n;
  bd_num : forall p ps, partitionStats st !! p = Some ps -> - n <= NumFollowers ps <= n;
  bd_known : forall id fs, followerStats st !! id = Some fs ->
               is_Some (partitionStats st !! Partition fs)
}.

Lemma bounded_reset : bounded 0 reset.
Proof. split; simpl; try lia; intros ? ?; by rewrite lookup_empty. Qed.

Lemma int_inc_exact n z : - n <= z <= n -> n + 1 < 2 ^ 63 -> int_inc z = z + 1.
Proof. intros. apply wrap64_small. lia. Qed.

Lemma int_dec_exact n z : - n <= z <= n -> n + 1 < 2 ^ 63 -> int_dec z = z - 1.
Proof. intros. apply wrap64_small. lia. Qed.

Lemma FollowerJoined_bounded n id p st :
  bounded n st -> n + 1 < 2 ^ 63 -> bounded (n + 1) (FollowerJoined id p st).
Proof.
  intros [Hp Hf Hn Hk] Hlt. unfold FollowerJoined, getFollowerStats.
  destruct (followerStats st !! id) as [fs|] eqn:Hid; simpl;
    destruct (partitionStats st !! p) as [ps|] eqn:Hps; simpl;
    rewrite ?(int_inc_exact n) by (eauto || lia);
    (split; simpl; [lia | lia | |]).
  all: try (intros q qs; rewrite lookup_insert; case_decide;
            [intros [= <-]; simpl; try specialize (Hn _ _ Hps); lia
            | intros Hq; specialize (Hn _ _ Hq); lia]).
  all: intros i fi Hi; rewrite !lookup_insert in Hi; repeat case_decide;
       simplify_eq; simpl; rewrite lookup_insert; case_decide; eauto; done.
Qed.

Lemma FollowerFailed_bounded n id st :
  bounded n st -> n + 1 < 2 ^ 63 ->
  exists st', FollowerFailed id st = Some st' /\ bounded (n + 1) st'.
Proof.
  intros [Hp Hf Hn Hk] Hlt. unfold FollowerFailed.
  assert (Hst : bounded (n + 1) st).
  { split; [lia | lia | |done]. intros q qs Hq. specialize (Hn _ _ Hq). lia. }
  destruct (followerStats st !! id) as [fs|] eqn:Hid; [|by eauto].
  destruct (Failed fs); [by eauto|].
  destruct (Hk _ _ Hid) as [ps Hps]. rewrite Hps.
  eexists; split; [done|].
  pose proof (Hn _ _ Hps) as Hb.
  rewrite !(int_dec_exact n) by (simpl; lia).
  split; simpl.
  - destruct (_ =? 0); simpl; rewrite ?(int_dec_exact n) by lia; lia.
  - destruct (_ =? 0); simpl; lia.
  - intros q qs. rewrite lookup_insert. case_decide.
    + intros [= <-]. simpl. lia.
    + intros Hq. specialize (Hn _ _ Hq). lia.
  - intros i fi Hi. rewrite lookup_insert in Hi. case_decide; simplify_eq; simpl.
    + rewrite lookup_insert. case_decide; eauto; done.
    + rewrite lookup_insert. case_decide; eauto.
Qed.

Lemma step_bounded n c st :
  bounded n st -> n + 1 < 2 ^ 63 ->
  exists st', step c st = Some st' /\ bounded (n + 1) st'.
Proof.
  intros Hb Hlt. destruct c as [m|ts|id p|id|id q]; simpl.
  - eexists; split; [done|]. destruct Hb as [Hp Hf Hn Hk].
    split; simpl; [lia | lia | |done]. intros q qs Hq. specialize (Hn _ _ Hq). lia.
  - eexists; split; [done|]. destruct Hb as [Hp Hf Hn Hk].
    split; simpl; [lia | lia | |done]. intros q qs Hq. specialize (Hn _ _ Hq). lia.
  - eexists; split; [done|]. by apply FollowerJoined_bounded.
  - by apply FollowerFailed_bounded.
  - eexists; split; [done|]. destruct Hb as [Hp Hf Hn Hk]. unfold QueuedForFollower.
    destruct (followerStats st !! id) as [fs|] eqn:Hid; simpl.
    + split; simpl; [lia | lia | |].
      * intros r rs Hr. specialize (Hn _ _ Hr). lia.
      * intros i fi Hi. rewrite lookup_insert in Hi. case_decide; simplify_eq; simpl; eauto.
    + split; [lia | lia | |done]. intros r rs Hr. specialize (Hn _ _ Hr). lia.
Qed.

(** Fewer than [2^63] calls never panic and never overflow a counter. *)
Lemma run_bounded cs n st :
  bounded n st -> n + Z.of_nat (length cs) < 2 ^ 63 ->
  exists st', run cs st = Some st' /\ bounded (n + Z.of_nat (length cs)) st'.
Proof.
  revert n st. induction cs as [|c cs IH]; intros n st Hb Hlt.
  - exists st. split; [done|]. simpl. by rewrite Z.add_0_r.
  - change (length (c :: cs)) with (S (length cs)) in *.
    rewrite Nat2Z.inj_succ in *. simpl run.
    destruct (step_bounded n c st Hb) as (st1 & -> & Hb1); [lia|].
    destruct (IH (n + 1) st1 Hb1) as (st' & Hrun & Hb'); [lia|].
    exists st'. split; [done|].
    by replace (n + Z.succ (Z.of_nat (length cs)))
      with (n + 1 + Z.of_nat (length cs)) by lia.
Qed.

Lemma step_keeps_present id c st st' :
  step c st = Some st' ->
  is_Some (followerStats st !! id) -> is_Some (followerStats st' !! id).
Proof.
  destruct c as [m|ts|i p|i|i q]; simpl.
  - by intros [= <-].
  - by intros [= <-].
  - intros [= <-] Hid. unfold FollowerJoined, getFollowerStats.
    destruct (followerStats st !! i) eqn:Hi; simpl;
      destruct (partitionStats st !! p); simpl;
      rewrite !lookup_insert; repeat case_decide; eauto.
  - unfold FollowerFailed.
    destruct (followerStats st !! i) as [fs|] eqn:Hi; [|by intros [= <-]].
    destruct (Failed fs); [by intros [= <-]|].
    destruct (partitionStats st !! Partition fs); [|done].
    intros [= <-] Hid. simpl. rewrite lookup_insert. case_decide; eauto.
  - intros [= <-] Hid. unfold QueuedForFollower.
    destruct (followerStats st !! i) eqn:Hi; simpl; [|done].
    rewrite lookup_insert. case_decide; eauto.
Qed.

Lemma step_keeps_unfailed id c st st' :
  step c st = Some st' -> c <> CallFollowerFailed id ->
  (forall fs, followerStats st !! id = Some fs -> Failed fs = false) ->
  forall fs, followerStats st' !! id = Some fs -> Failed fs = false.
Proof.
  destruct c as [m|ts|i p|i|i q]; simpl.
  - by intros [= <-].
  - by intros [= <-].
  - intros [= <-] _ Hid fs. unfold FollowerJoined, getFollowerStats.
    destruct (followerStats st !! i) as [fi|] eqn:Hi; simpl;
      destruct (partitionStats st !! p); simpl;
      rewrite !lookup_insert; repeat case_decide; simplify_eq;
      try (intros [= <-]; simpl; by eauto); eauto.
  - intros Hst Hne Hid fs. unfold FollowerFailed in Hst.
    destruct (followerStats st !! i) as [fi|] eqn:Hi; [|simplify_eq; by eauto].
    destruct (Failed fi); [simplify_eq; by eauto|].
    destruct (partitionStats st !! Partition fi); [|done].
    simplify_eq. simpl. rewrite lookup_insert. case_decide; [congruence|eauto].
  - intros [= <-] _ Hid fs. unfold QueuedForFollower.
    destruct (followerStats st !! i) as [fi|] eqn:Hi; simpl; [|by eauto].
    rewrite lookup_insert. case_decide; simplify_eq; [|by eauto].
    intros [= <-]. simpl. eauto.
Qed.

Lemma FollowerJoined_present id p st :
  is_Some (followerStats (FollowerJoined id p st) !! id).
Proof.
  unfold FollowerJoined, getFollowerStats.
  destruct (followerStats st !! id); simpl; destruct (partitionStats st !! p); simpl;
    rewrite lookup_insert; case_decide; eauto; done.
Qed.

(** A follower that joined and for which [FollowerFailed] was never called
    is in the table and not marked failed. *)
Lemma run_joined_unfailed cs id st0 st :
  run cs st0 = Some st ->
  CallFollowerFailed id ∉ cs ->
  (forall fs, followerStats st0 !! id = Some fs -> Failed fs = false) ->
  is_Some (followerStats st0 !! id) \/ (exists p, CallFollowerJoined id p ∈ cs) ->
  exists fs, followerStats st !! id = Some fs /\ Failed fs = false.
Proof.
  revert st0. induction cs as [|c cs IH]; intros st0 Hrun Hnf Hun Hin; simpl in Hrun.
  - simplify_eq. destruct Hin as [[fs Hfs]|[p Hp]]; [by eauto|].
    by apply elem_of_nil in Hp.
  - destruct (step c st0) as [st1|] eqn:Hstep; [|done].
    apply not_elem_of_cons in Hnf as [Hc Hnf].
    apply (IH st1 Hrun Hnf).
    + by apply (step_keeps_unfailed id c st0).
    + destruct Hin as [Hs|[p Hp]].
      * left. by apply (step_keeps_present id c st0).
      * apply elem_of_cons in Hp as [<-|Hp]; [|by eauto].
        left. simpl in Hstep. simplify_eq. apply FollowerJoined_present.
Qed.

(** The four calls of claim C1, from the reset state. *)
Definition join_fail_twice : list call :=
  [CallFollowerJoined 1 0; CallFollowerFailed 1;
   CallFollowerJoined 2 0; CallFollowerFailed 2].

(** C1 (defect in the code).  The claim: after every call of a sequence of
    [FollowerJoined] (fresh ids) and [FollowerFailed] (joined ids) from the
    reset state, [ConnectedPartitions] is not negative.  The code: after
    join(1,0), fail(1), join(2,0), fail(2) the counter is [-1].  The second
    join finds the [PartitionStats] record of partition 0 still in the table,
    with [NumFollowers = 0], and does not count the partition as connected
    again; the second failure brings [NumFollowers] back to 0 and decrements
    [ConnectedPartitions] a second time. *)
Theorem ConnectedPartitions_goes_negative :
  (fun st => ConnectedPartitions (leaderStats st)) <$> run join_fail_twice reset
  = Some (-1).
Proof. reflexivity. Qed.

(** C8.  For a follower id registered by [FollowerJoined] (and on which
    [FollowerFailed] has not been called yet), [k >= 1] calls of
    [FollowerFailed(id)] succeed and end in the state [st1] that the first
    call produces: [ConnectedFollowers] is one less than before the first
    call, the follower's [Failed] flag is set, and the [NumFollowers] of its
    partition is one less; a further call leaves [st1] as it is. *)
Theorem FollowerFailed_idempotent cs st id p k :
  run cs reset = Some st ->
  Z.of_nat (length cs) < 2 ^ 63 ->
  CallFollowerJoined id p ∈ cs ->
  CallFollowerFailed id ∉ cs ->
  (1 <= k)%nat ->
  exists fs ps st1,
    followerStats st !! id = Some fs /\
    partitionStats st !! Partition fs = Some ps /\
    FollowerFailed id st = Some st1 /\
    ConnectedFollowers (leaderStats st1) = ConnectedFollowers (leaderStats st) - 1 /\
    followerStats st1 !! id = Some (set_Failed true fs) /\
    partitionStats st1 !! Partition fs
      = Some (set_NumFollowers (NumFollowers ps - 1) ps) /\
    FollowerFailed id st1 = Some st1 /\
    FollowerFailed_times k id st = Some st1.
Proof.
  intros Hrun Hlen Hj Hnf Hk.
  destruct (run_joined_unfailed cs id reset st Hrun Hnf) as (fs & Hfs & Hff).
  { intros fs. simpl. by rewrite lookup_empty. }
  { right. by exists p. }
  destruct (run_bounded cs 0 reset bounded_reset) as (st' & Hrun' & Hb); [lia|].
  assert (st' = st) as -> by congruence. rewrite Z.add_0_l in Hb.
  destruct Hb as [Hbp Hbf Hbn Hbk].
  destruct (Hbk _ _ Hfs) as [ps Hps]. pose proof (Hbn _ _ Hps) as Hnum.
  assert (H1 : exists st1, FollowerFailed id st = Some st1 /\
     ConnectedFollowers (leaderStats st1) = ConnectedFollowers (leaderStats st) - 1 /\
     followerStats st1 !! id = Some (set_Failed true fs) /\
     partitionStats st1 !! Partition fs
       = Some (set_NumFollowers (NumFollowers ps - 1) ps)).
  { unfold FollowerFailed. rewrite Hfs, Hff, Hps. eexists. split; [done|].
    unfold int_dec. rewrite !wrap64_small by (simpl; lia). simpl.
    split; [by destruct (_ =? 0)|].
    by rewrite !lookup_insert, !decide_True. }
  destruct H1 as (st1 & Hst1 & Hcf & Hfl & Hpn).
  assert (Hagain : FollowerFailed id st1 = Some st1).
  { unfold FollowerFailed. by rewrite Hfl. }
  exists fs, ps, st1. repeat (split; [done|]).
  destruct k as [|k]; [lia|]. simpl. rewrite Hst1.
  clear Hk. induction k as [|k IH]; [done|]. simpl. by rewrite Hagain.
Qed.

Lemma FollowerFailed_idempotent_witness :
  exists fs ps st1,
    followerStats (FollowerJoined 1 0 reset) !! 1 = Some fs /\
    partitionStats (FollowerJoined 1 0 reset) !! Partition fs = Some ps /\
    FollowerFailed 1 (FollowerJoined 1 0 reset) = Some st1 /\
    ConnectedFollowers (leaderStats st1)
      = ConnectedFollowers (leaderStats (FollowerJoined 1 0 reset)) - 1 /\
    followerStats st1 !! 1 = Some (set_Failed true fs) /\
    partitionStats st1 !! Partition fs
      = Some (set_NumFollowers (NumFollowers ps - 1) ps) /\
    FollowerFailed 1 st1 = Some st1 /\
    FollowerFailed_times 3 1 (FollowerJoined 1 0 reset) = Some st1.
Proof.
  apply (FollowerFailed_idempotent [CallFollowerJoined 1 0] _ 1 0 3).
  - reflexivity.
  - simpl. lia.
  - apply list_elem_of_singleton. reflexivity.
  - intros H. apply list_elem_of_singleton in H. discriminate H.
  - lia.
Defined.

(** *** [GetStats] *)

(** The order claimed for [Stats.Followers]: by [Partition], then by
    [followerId]. *)
Definition by_partition_then_id (a b : FollowerStats) : Prop :=
  Partition a < Partition b \/ (Partition a = Partition b /\ followerId a <= followerId b).

#[local] Instance by_partition_then_id_dec a b : Decision (by_partition_then_id a b).
Proof. unfold by_partition_then_id. apply _. Defined.

Lemma sortedPartitionStats_Less_StrictWeak : StrictWeak sortedPartitionStats_Less.
Proof.
  unfold sortedPartitionStats_Less.
  split; intros *; rewrite ?Z.ltb_lt, ?Z.ltb_ge; lia.
Qed.

(** [Stats.Partitions] is in ascending order of [Partition], whatever order
    the range loop visits the table in. *)
Lemma GetStats_Partitions_sorted `{Sorter} forder porder st :
  StronglySorted (fun a b => PS_Partition a <= PS_Partition b)
    (Partitions (GetStats forder porder st)).
Proof.
  simpl.
  pose proof (sort_Sort_ascending _ sortedPartitionStats_Less
                (range_values porder (partitionStats st))
                sortedPartitionStats_Less_StrictWeak) as Hs.
  eapply StronglySorted_weaken; [|exact Hs].
  intros a b. unfold not_after, sortedPartitionStats_Less.
  rewrite Z.ltb_ge. lia.
Qed.

(** [Less] of [sortedFollowerStats] is not an order: a follower with the
    larger partition and the smaller id is [Less] than the other one, and the
    other one is [Less] than it. *)
Lemma sortedFollowerStats_Less_symmetric_pair :
  sortedFollowerStats_Less (mkFollowerStats 1 2 0 false) (mkFollowerStats 2 1 0 false) = true /\
  sortedFollowerStats_Less (mkFollowerStats 2 1 0 false) (mkFollowerStats 1 2 0 false) = true.
Proof. split; reflexivity. Qed.

(** Follower 1 joins for partition 2, then follower 2 for partition 1. *)
Definition two_followers : state := FollowerJoined 2 1 (FollowerJoined 1 2 reset).

(** C6 (defect in the code).  The claim: [Stats.Followers] is sorted by
    [(Partition, followerId)].  The code: with follower 1 on partition 2 and
    follower 2 on partition 1, and the range loop visiting follower 2 first,
    [sort.Sort] returns follower 1 (partition 2) before follower 2
    (partition 1).  [sortedFollowerStats.Less] falls through to the id
    comparison also when the partition of the first is the larger one. *)
Theorem GetStats_Followers_out_of_order :
  visits [2; 1] (followerStats two_followers) /\
  visits [1; 2] (partitionStats two_followers) /\
  Followers (GetStats (H := insertion_Sorter) [2; 1] [1; 2] two_followers)
    = [mkFollowerStats 1 2 0 false; mkFollowerStats 2 1 0 false] /\
  ~ Sorted by_partition_then_id
      (Followers (GetStats (H := insertion_Sorter) [2; 1] [1; 2] two_followers)).
Proof.
  split; [|split; [|split]].
  - unfold visits. vm_compute. first [reflexivity | apply perm_swap].
  - unfold visits. vm_compute. first [reflexivity | apply perm_swap].
  - reflexivity.
  - intros Hs. apply Sorted_inv in Hs as [_ Hd].
    apply HdRel_inv in Hd. unfold by_partition_then_id in Hd. simpl in Hd. lia.
Qed.

(** *** What the counters count *)

(** The followers that are in the table and not marked failed, and those of
    them that joined for partition [p]. *)
Definition unfailed (st : state) : gmap Z FollowerStats :=
  filter (fun kv => Failed kv.2 = false) (followerStats st).

Definition unfailed_on (p : Z) (st : state) : gmap Z FollowerStats :=
  filter (fun kv => Failed kv.2 = false /\ Partition kv.2 = p) (followerStats st).

Definition counted (b : Prop) `{Decision b} : Z := if decide b then 1 else 0.

(** The size of a filtered table after one entry is written. *)
Lemma size_filter_insert {V} (P : Z * V -> Prop) `{forall kv, Decision (P kv)}
    (m : gmap Z V) i x :
  Z.of_nat (size (filter P (<[i := x]> m)))
  = Z.of_nat (size (filter P m)) + counted (P (i, x))
    - match m !! i with Some y => counted (P (i, y)) | None => 0 end.
Proof.
  unfold counted. rewrite map_filter_insert. destruct (decide (P (i, x))) as [Hx|Hx].
  - rewrite map_size_insert, map_lookup_filter.
    destruct (m !! i) as [y|]; simpl; [|lia].
    rewrite option_guard_decide. destruct (decide (P (i, y))); simpl; lia.
  - rewrite map_filter_delete, map_size_delete, map_lookup_filter.
    destruct (m !! i) as [y|] eqn:Hmi; simpl; [|lia].
    rewrite option_guard_decide. destruct (decide (P (i, y))) as [Hy|Hy]; simpl; [|lia].
    assert (filter P m !! i = Some y) as Hl by (by apply map_lookup_filter_Some).
    assert (size (filter P m) <> 0%nat); [|lia].
    apply map_size_ne_0_lookup. eauto.
Qed.

Lemma step_counts_unfailed n c st st' :
  bounded n st -> n + 1 < 2 ^ 63 -> step c st = Some st' ->
  ConnectedFollowers (leaderStats st) = Z.of_nat (size (unfailed st)) ->
  ConnectedFollowers (leaderStats st') = Z.of_nat (size (unfailed st')).
Proof.
  intros [Hp Hf Hn Hk] Hlt Hstep Hc. unfold unfailed in *.
  destruct c as [m|ts|id p|id|id q]; simpl in Hstep.
  - by simplify_eq.
  - by simplify_eq.
  - simplify_eq. unfold FollowerJoined, getFollowerStats.
    destruct (followerStats st !! id) as [fs|] eqn:Hid; simpl;
      destruct (partitionStats st !! p) as [ps|]; simpl;
      rewrite ?insert_insert_eq, size_filter_insert, ?Hid, ?lookup_empty;
      rewrite ?(int_inc_exact n) by done; unfold counted; simpl;
      repeat case_decide; try done; lia.
  - unfold FollowerFailed in Hstep.
    destruct (followerStats st !! id) as [fs|] eqn:Hid; [|by simplify_eq].
    destruct (Failed fs) eqn:Hfl; [by simplify_eq|].
    destruct (partitionStats st !! Partition fs) as [ps|]; [|done].
    simplify_eq. simpl. rewrite size_filter_insert, Hid. unfold counted. simpl.
    destruct (_ =? 0); simpl; rewrite (int_dec_exact n _ Hf Hlt);
      repeat case_decide; try done; lia.
  - simplify_eq. unfold QueuedForFollower.
    destruct (followerStats st !! id) as [fs|] eqn:Hid; simpl; [|done].
    rewrite size_filter_insert, Hid. unfold counted. simpl.
    repeat case_decide; try done; lia.
Qed.

(** Fewer than [2^63] calls of the package, in any order and with any
    arguments, do not panic, and [ConnectedFollowers] is then the number of
    followers in the table that are not marked failed. *)
Theorem ConnectedFollowers_counts_unfailed cs :
  Z.of_nat (length cs) < 2 ^ 63 ->
  exists st,
    run cs reset = Some st /\
    ConnectedFollowers (leaderStats st) = Z.of_nat (size (unfailed st)).
Proof.
  intros Hlen.
  assert (G : forall cs n st,
    bounded n st -> n + Z.of_nat (length cs) < 2 ^ 63 ->
    ConnectedFollowers (leaderStats st) = Z.of_nat (size (unfailed st)) ->
    exists st', run cs st = Some st' /\
      ConnectedFollowers (leaderStats st') = Z.of_nat (size (unfailed st'))).
  { clear. induction cs as [|c cs IH]; intros n st Hb Hlt Hc.
    - by exists st.
    - change (length (c :: cs)) with (S (length cs)) in Hlt.
      rewrite Nat2Z.inj_succ in Hlt. simpl run.
      destruct (step_bounded n c st Hb) as (st1 & Hstep & Hb1); [lia|].
      rewrite Hstep. apply (IH (n + 1) st1 Hb1); [lia|].
      apply (step_counts_unfailed n c st st1 Hb); [lia|done|done]. }
  apply (G cs 0 reset bounded_reset); [lia|]. reflexivity.
Qed.

Lemma ConnectedFollowers_counts_unfailed_witness :
  exists st,
    run join_fail_twice reset = Some st /\
    ConnectedFollowers (leaderStats st) = Z.of_nat (size (unfailed st)).
Proof. apply (ConnectedFollowers_counts_unfailed join_fail_twice). simpl. lia. Defined.

(** The ids that a sequence of calls registers with [FollowerJoined]; the
    dispatcher numbers the followers, so no id is registered twice. *)
Definition joined_ids (cs : list call) : list Z :=
  omap (fun c => match c with CallFollowerJoined id _ => Some id | _ => None end) cs.

(** [accurate st]: the record of a partition is under its own number and
    counts the followers on the partition that are not marked failed. *)
Definition accurate (st : state) : Prop :=
  forall p ps, partitionStats st !! p = Some ps ->
    PS_Partition ps = p /\ NumFollowers ps = Z.of_nat (size (unfailed_on p st)).

Lemma unfailed_on_unknown p st :
  (forall id fs, followerStats st !! id = Some fs ->
     is_Some (partitionStats st !! Partition fs)) ->
  partitionStats st !! p = None ->
  size (unfailed_on p st) = 0%nat.
Proof.
  intros Hk Hp. apply map_size_empty_iff, map_empty. intros id.
  apply map_lookup_filter_None. right. intros fs Hfs [_ Hpart]. simpl in Hpart.
  destruct (Hk _ _ Hfs) as [ps Hps]. congruence.
Qed.

Lemma step_accurate n c st st' :
  bounded n st -> n + 1 < 2 ^ 63 -> step c st = Some st' ->
  (forall id p, c = CallFollowerJoined id p -> followerStats st !! id = None) ->
  accurate st -> accurate st'.
Proof.
  intros [Hp Hf Hn Hk] Hlt Hstep Hfresh Hacc. unfold accurate, unfailed_on in *.
  destruct c as [m|ts|id p|id|id q]; simpl in Hstep.
  - by simplify_eq.
  - by simplify_eq.
  - simplify_eq. specialize (Hfresh id p eq_refl).
    unfold FollowerJoined, getFollowerStats. rewrite Hfresh. simpl.
    destruct (partitionStats st !! p) as [ps|] eqn:Hps; simpl; intros r rs;
      rewrite insert_insert_eq, size_filter_insert, lookup_insert, Hfresh;
      unfold counted; simpl; case_decide; simplify_eq.
    + intros [= <-]. simpl. destruct (Hacc _ _ Hps) as [-> Hnum].
      rewrite (int_inc_exact n) by eauto. rewrite Hnum, decide_True by done. lia.
    + intros Hr. destruct (Hacc _ _ Hr) as [-> Hnum]. rewrite Hnum.
      rewrite decide_False by (intros [_ ?]; congruence). lia.
    + intros [= <-]. simpl. rewrite (int_inc_exact n) by lia.
      rewrite decide_True by done.
      pose proof (unfailed_on_unknown _ st Hk Hps) as Hz. unfold unfailed_on in Hz.
      rewrite Hz. split; [done|lia].
    + intros Hr. destruct (Hacc _ _ Hr) as [-> Hnum]. rewrite Hnum.
      rewrite decide_False by (intros [_ ?]; congruence). lia.
  - unfold FollowerFailed in Hstep.
    destruct (followerStats st !! id) as [fs|] eqn:Hid; [|by simplify_eq].
    destruct (Failed fs) eqn:Hfl; [by simplify_eq|].
    destruct (partitionStats st !! Partition fs) as [ps|] eqn:Hps; [|done].
    simplify_eq. simpl. intros r rs.
    rewrite size_filter_insert, lookup_insert, Hid. unfold counted. simpl.
    case_decide; simplify_eq.
    + intros [= <-]. simpl. destruct (Hacc _ _ Hps) as [Hkey Hnum].
      rewrite (int_dec_exact n) by eauto. rewrite Hnum, decide_True by done. lia.
    + intros Hr. destruct (Hacc _ _ Hr) as [-> Hnum]. rewrite Hnum.
      rewrite decide_False by (intros [_ ?]; congruence). lia.
  - simplify_eq. unfold QueuedForFollower.
    destruct (followerStats st !! id) as [fs|] eqn:Hid; simpl; [|done].
    intros r rs Hr. rewrite size_filter_insert, Hid. unfold counted. simpl.
    destruct (Hacc _ _ Hr) as [-> Hnum]. rewrite Hnum.
    split; [done|]. repeat case_decide; try done; lia.
Qed.

Lemma step_keeps_absent id c st st' :
  step c st = Some st' -> (forall p, c <> CallFollowerJoined id p) ->
  followerStats st !! id = None -> followerStats st' !! id = None.
Proof.
  destruct c as [m|ts|i p|i|i q]; simpl.
  - by intros [= <-].
  - by intros [= <-].
  - intros [= <-] Hne Hid. assert (i <> id) by (intros ->; by eapply Hne).
    unfold FollowerJoined, getFollowerStats.
    destruct (followerStats st !! i); simpl; destruct (partitionStats st !! p); simpl;
      by rewrite ?lookup_insert_ne.
  - unfold FollowerFailed. intros Hst _ Hid.
    destruct (followerStats st !! i) as [fs|] eqn:Hi; [|by simplify_eq].
    destruct (Failed fs); [by simplify_eq|].
    destruct (partitionStats st !! Partition fs); [|done].
    simplify_eq. simpl. rewrite lookup_insert_ne; [done|congruence].
  - intros [= <-] _ Hid. unfold QueuedForFollower.
    destruct (followerStats st !! i) eqn:Hi; simpl; [|done].
    rewrite lookup_insert_ne; [done|congruence].
Qed.

Lemma run_accurate cs n st :
  bounded n st -> n + Z.of_nat (length cs) < 2 ^ 63 ->
  NoDup (joined_ids cs) ->
  (forall id, id ∈ joined_ids cs -> followerStats st !! id = None) ->
  accurate st ->
  exists st', run cs st = Some st' /\ accurate st'.
Proof.
  revert n st. induction cs as [|c cs IH]; intros n st Hb Hlt Hnd Hfresh Hacc.
  - by exists st.
  - change (length (c :: cs)) with (S (length cs)) in Hlt.
    rewrite Nat2Z.inj_succ in Hlt. simpl run.
    destruct (step_bounded n c st Hb) as (st1 & Hstep & Hb1); [lia|].
    rewrite Hstep. apply (IH (n + 1) st1 Hb1); [lia| | |].
    + destruct c; simpl in Hnd; try done. by apply NoDup_cons in Hnd as [_ ?].
    + intros id Hid. apply (step_keeps_absent id c st st1 Hstep).
      * intros p ->. simpl in Hnd. apply NoDup_cons in Hnd as [Hnotin _]. done.
      * apply Hfresh. destruct c; simpl; try done. by right.
    + apply (step_accurate n c st st1 Hb); [lia|done| |done].
      intros id p ->. apply Hfresh. simpl. by left.
Qed.

(** When no follower id is registered twice, the calls do not panic and the
    record of every partition is under its own number and holds, in
    [NumFollowers], the number of followers that joined for the partition
    and are not marked failed; so [NumFollowers] is never negative. *)
Theorem NumFollowers_counts_unfailed cs :
  Z.of_nat (length cs) < 2 ^ 63 ->
  NoDup (joined_ids cs) ->
  exists st,
    run cs reset = Some st /\
    forall p ps, partitionStats st !! p = Some ps ->
      PS_Partition ps = p /\
      NumFollowers ps = Z.of_nat (size (unfailed_on p st)).
Proof.
  intros Hlen Hnd.
  apply (run_accurate cs 0 reset bounded_reset); [lia|done| |].
  - intros id _. apply lookup_empty.
  - intros p ps Hp. simpl in Hp. by rewrite lookup_empty in Hp.
Qed.

Lemma NumFollowers_counts_unfailed_witness :
  exists st,
    run join_fail_twice reset = Some st /\
    forall p ps, partitionStats st !! p = Some ps ->
      PS_Partition ps = p /\
      NumFollowers ps = Z.of_nat (size (unfailed_on p st)).
Proof.
  apply (NumFollowers_counts_unfailed join_fail_twice).
  - simpl. lia.
  - apply (@bool_decide_unpack _ (NoDup_dec _)). vm_compute. exact I.
Defined.

(** *** What [GetStats] returns *)

(** A range loop that appends the values visits every entry once. *)
Lemma range_values_perm {V} (order : list Z) (m : gmap Z V) :
  visits order m -> range_values order m ≡ₚ (map_to_list m).*2.
Proof.
  unfold visits, range_values. intros ->.
  assert (G : forall l : list (Z * V),
            (forall kv, kv ∈ l -> m !! kv.1 = Some kv.2) ->
            omap (fun k => m !! k) l.*1 = l.*2).
  { induction l as [|kv l IH]; intros Hl; [done|]. csimpl.
    rewrite (Hl kv) by left. rewrite IH; [done|]. intros kv' ?. apply Hl. by right. }
  rewrite G; [done|]. intros [k v] Hkv. by apply elem_of_map_to_list.
Qed.

(** The record of a partition is under its own number, after any calls. *)
Definition keyed (st : state) : Prop :=
  forall p ps, partitionStats st !! p = Some ps -> PS_Partition ps = p.

Lemma step_keyed c st st' : step c st = Some st' -> keyed st -> keyed st'.
Proof.
  unfold keyed. intros Hstep Hk. destruct c as [m|ts|id p|id|id q]; simpl in Hstep.
  - by simplify_eq.
  - by simplify_eq.
  - simplify_eq. unfold FollowerJoined, getFollowerStats.
    destruct (followerStats st !! id); simpl;
      destruct (partitionStats st !! p) as [ps|] eqn:Hps; simpl;
      intros r rs; rewrite lookup_insert; case_decide; simplify_eq;
      try (intros [= <-]; simpl); eauto.
  - unfold FollowerFailed in Hstep.
    destruct (followerStats st !! id) as [fs|]; [|by simplify_eq].
    destruct (Failed fs); [by simplify_eq|].
    destruct (partitionStats st !! Partition fs) as [ps|] eqn:Hps; [|done].
    simplify_eq. simpl. intros r rs. rewrite lookup_insert.
    case_decide; simplify_eq; [|by eauto]. intros [= <-]. simpl. eauto.
  - simplify_eq. unfold QueuedForFollower.
    by destruct (followerStats st !! id).
Qed.

Lemma run_keyed cs st st' : run cs st = Some st' -> keyed st -> keyed st'.
Proof.
  revert st. induction cs as [|c cs IH]; intros st Hrun Hk; simpl in Hrun.
  - by simplify_eq.
  - destruct (step c st) as [st1|] eqn:Hstep; [|done].
    eapply IH; [done|]. by eapply step_keyed.
Qed.

Lemma StronglySorted_strict {A} (f : A -> Z) (l : list A) :
  StronglySorted (fun a b => f a <= f b) l -> NoDup (f <$> l) ->
  StronglySorted (fun a b => f a < f b) l.
Proof.
  induction 1 as [|a l Hl IH Ha]; intros Hnd; [constructor|].
  csimpl in Hnd. apply NoDup_cons in Hnd as [Hnotin Hnd].
  constructor; [by apply IH|].
  rewrite Forall_forall in Ha |- *. intros b Hb.
  assert (f a <> f b); [|specialize (Ha b Hb); lia].
  intros Heq. apply Hnotin. rewrite Heq. by apply list_elem_of_fmap_2.
Qed.

(** After any calls from the reset state, [GetStats] returns the leader
    record, every follower record once and every partition record once,
    whatever order the range loops visit the tables in.  [Stats.Partitions]
    is in strictly ascending order of [Partition], so it is the same list
    for every order of visit. *)
Theorem GetStats_lists_every_record `{Sorter} cs st forder porder :
  run cs reset = Some st ->
  visits forder (followerStats st) -> visits porder (partitionStats st) ->
  Leader (GetStats forder porder st) = leaderStats st /\
  Followers (GetStats forder porder st) ≡ₚ (map_to_list (followerStats st)).*2 /\
  Partitions (GetStats forder porder st) ≡ₚ (map_to_list (partitionStats st)).*2 /\
  StronglySorted (fun a b => PS_Partition a < PS_Partition b)
    (Partitions (GetStats forder porder st)) /\
  forall forder' porder',
    visits porder' (partitionStats st) ->
    Partitions (GetStats forder' porder' st) = Partitions (GetStats forder porder st).
Proof.
  intros Hrun Hf Hp.
  assert (Hk : keyed st).
  { eapply run_keyed; [exact Hrun|]. intros p ps Hps. simpl in Hps.
    by rewrite lookup_empty in Hps. }
  assert (Hperm : forall fo po, visits po (partitionStats st) ->
            Partitions (GetStats fo po st) ≡ₚ (map_to_list (partitionStats st)).*2).
  { intros fo po Hpo. simpl. by rewrite sort_Sort_perm, range_values_perm. }
  assert (Hstrict : forall fo po, visits po (partitionStats st) ->
            StronglySorted (fun a b => PS_Partition a < PS_Partition b)
              (Partitions (GetStats fo po st))).
  { intros fo po Hpo. apply StronglySorted_strict.
    - apply GetStats_Partitions_sorted.
    - rewrite (Hperm fo po Hpo).
      replace (PS_Partition <$> (map_to_list (partitionStats st)).*2)
        with (map_to_list (partitionStats st)).*1; [apply NoDup_fst_map_to_list|].
      rewrite <- list_fmap_compose. apply list_fmap_ext. intros i [p ps] Hi.
      apply list_elem_of_lookup_2, elem_of_map_to_list in Hi. simpl.
      symmetry. by apply Hk. }
  split; [done|]. split; [|split; [by apply Hperm|split; [by apply Hstrict|]]].
  - simpl. by rewrite sort_Sort_perm, range_values_perm.
  - intros fo' po' Hpo'.
    apply (StronglySorted_unique_strong (fun a b => PS_Partition a < PS_Partition b)).
    + intros a b _ _. lia.
    + by apply Hstrict.
    + by apply Hstrict.
    + by rewrite !Hperm.
Qed.

Lemma GetStats_lists_every_record_witness :
  Leader (GetStats (H := insertion_Sorter) [2; 1] [1; 2] two_followers)
    = leaderStats two_followers /\
  Followers (GetStats (H := insertion_Sorter) [2; 1] [1; 2] two_followers)
    ≡ₚ (map_to_list (followerStats two_followers)).*2 /\
  Partitions (GetStats (H := insertion_Sorter) [2; 1] [1; 2] two_followers)
    ≡ₚ (map_to_list (partitionStats two_followers)).*2 /\
  StronglySorted (fun a b => PS_Partition a < PS_Partition b)
    (Partitions (GetStats (H := insertion_Sorter) [2; 1] [1; 2] two_followers)) /\
  forall forder' porder',
    visits porder' (partitionStats two_followers) ->
    Partitions (GetStats (H := insertion_Sorter) forder' porder' two_followers)
    = Partitions (GetStats (H := insertion_Sorter) [2; 1] [1; 2] two_followers).
Proof.
  apply (GetStats_lists_every_record (H := insertion_Sorter)
           [CallFollowerJoined 1 2; CallFollowerJoined 2 1]).
  - reflexivity.
  - unfold visits. vm_compute. first [reflexivity | apply perm_swap].
  - unfold visits. vm_compute. first [reflexivity | apply perm_swap].
Defined.

End metrics.

(** * Package zenodb: cluster_follow.go *)

Module zenodb.

(** ** Channels

    A buffered channel: the queued values, the capacity and whether it has
    been closed.  An operation completes, blocks, or panics. *)

Record chan (A : Type) := mkChan {
  buf : list A;
  cap : nat;
  closed : bool
}.
Arguments mkChan {A}.
Arguments buf {A}.
Arguments cap {A}.
Arguments closed {A}.

Inductive outcome (A : Type) :=
| Done (a : A)
| Blocked
| Panic.
Arguments Done {A}.
Arguments Blocked {A}.
Arguments Panic {A}.

(** [c <- x]: a send on a closed channel panics; a send on a full one blocks. *)
Definition chan_send {A} (x : A) (c : chan A) : outcome (chan A) :=
  if closed c then Panic
  else if (length (buf c) <? cap c)%nat then Done (mkChan (buf c ++ [x]) (cap c) false)
  else Blocked.

(** [close(c)]: closing a closed channel panics. *)
Definition chan_close {A} (c : chan A) : outcome (chan A) :=
  if closed c then Panic else Done (mkChan (buf c) (cap c) true).

(** ** Control types *)

Record walEntry := mkWalEntry {
  stream : string;
  data : list Byte.byte;
  offset : Offset
}.

(** The field [offset] of [followSpec] is [spec_offset] here. *)
Record followSpec := mkFollowSpec {
  followerID : Z;
  spec_offset : Offset
}.

(** A [[]string]: the window of [len] elements from index [off] of the
    backing array [arr] of the store. *)
Record slice := mkSlice {
  arr : nat;
  off : nat;
  len : nat
}.

(** [common.PartitionTable], [common.Partition] and [common.Follow]. *)
Record PartitionTable := mkPartitionTable {
  PT_Name : string;
  PT_Offset : Offset
}.

Record Partition := mkPartition {
  Keys : slice;
  Tables : list PartitionTable
}.

Record Follow := mkFollow {
  Stream : string;
  EarliestOffset : Offset;
  PartitionNumber : Z;
  Partitions : gmap string Partition
}.

(** ** Follower sessions *)

Section Session.
(** The delivery callback [cb] is a closure: [CbState] is what it closes
    over, and it returns the error, if any. *)
Context {CbState : Type}.

Record follower := mkFollower {
  follow : Follow;
  followerId : Z;
  cb : CbState -> list Byte.byte -> Offset -> CbState * option string;
  entries : chan walEntry;
  hasFailed : Z
}.

Definition failed (f : follower) : bool := hasFailed f =? 1.

Definition set_entries (c : chan walEntry) (f : follower) : follower :=
  mkFollower (follow f) (followerId f) (cb f) c (hasFailed f).

Definition submit (entry : walEntry) (f : follower) : outcome follower :=
  if failed f then
    match chan_close (entries f) with
    | Done c => Done (set_entries c f)
    | Blocked => Blocked
    | Panic => Panic
    end
  else
    match chan_send entry (entries f) with
    | Done c => Done (set_entries c f)
    | Blocked => Blocked
    | Panic => Panic
    end.

(** What the [read] goroutine of a session works on: the failure flag, the
    metrics tables, the state of the callback, and the log lines written. *)
Inductive logline :=
| LogDiscard
| LogFollowError (partition : Z) (err : string).

Record reader := mkReader {
  r_follower : follower;
  r_metrics : metrics.state;
  r_cb : CbState;
  r_calls : list (list Byte.byte * Offset);
  r_log : list logline
}.

Definition set_hasFailed (v : Z) (f : follower) : follower :=
  mkFollower (follow f) (followerId f) (cb f) (entries f) v.

(** [markFailed]: the flag is stored first, then the metric is recorded. *)
Definition markFailed (f : follower) (m : metrics.state)
    : option (follower * metrics.state) :=
  match metrics.FollowerFailed (followerId f) m with
  | Some m' => Some (set_hasFailed 1 f, m')
  | None => None
  end.

(** The body of the loop of [read] for one [entry] taken from [f.entries].
    [r_calls] records the calls of [cb]. *)
Definition read_body (entry : walEntry) (r : reader) : option reader :=
  let f := r_follower r in
  if failed f then Some r
  else if 2000000 <? Z.of_nat (length (data entry)) then
    Some (mkReader f (r_metrics r) (r_cb r) (r_calls r) (r_log r ++ [LogDiscard]))
  else
    let '(s, err) := cb f (r_cb r) (data entry) (offset entry) in
    let calls := r_calls r ++ [(data entry, offset entry)] in
    match err with
    | None => Some (mkReader f (r_metrics r) s calls (r_log r))
    | Some e =>
        match markFailed f (r_metrics r) with
        | Some (f', m') =>
            Some (mkReader f' m' s calls
                    (r_log r ++ [LogFollowError (PartitionNumber (follow f)) e]))
        | None => None
        end
    end.

(** [read]: [for entry := range f.entries], on the entries received. *)
Fixpoint read (received : list walEntry) (r : reader) : option reader :=
  match received with
  | [] => Some r
  | entry :: rest =>
      match read_body entry r with
      | Some r' => read rest r'
      | None => None
      end
  end.

(** *** [submit] *)

(** The queue of [f] after [close(f.entries)] and after [f.entries <- entry]. *)
Definition closed_queue (f : follower) : chan walEntry :=
  mkChan (buf (entries f)) (cap (entries f)) true.

Definition queue_with (entry : walEntry) (f : follower) : chan walEntry :=
  mkChan (buf (entries f) ++ [entry]) (cap (entries f)) false.

Lemma failed_set_entries c f : failed (set_entries c f) = failed f.
Proof. reflexivity. Qed.

(** C7 (as amended).  On a session whose queue is still open: when the
    session is marked failed, [submit] closes the queue and sends nothing,
    and one more [submit] on that session panics (the queue is closed
    already); when the session is not failed, [submit] sends the entry on the
    queue, blocking while the queue is full. *)
Theorem submit_closes_or_sends entry f :
  closed (entries f) = false ->
  (failed f = true ->
     submit entry f = Done (set_entries (closed_queue f) f) /\
     forall entry', submit entry' (set_entries (closed_queue f) f) = Panic) /\
  (failed f = false -> (length (buf (entries f)) < cap (entries f))%nat ->
     submit entry f = Done (set_entries (queue_with entry f) f)) /\
  (failed f = false -> (cap (entries f) <= length (buf (entries f)))%nat ->
     submit entry f = Blocked).
Proof.
  intros Hopen. unfold submit, chan_close, chan_send. rewrite Hopen.
  split; [|split].
  - intros Hf. rewrite Hf. split; [done|].
    intros entry'. by rewrite failed_set_entries, Hf.
  - intros Hf Hroom. rewrite Hf.
    by apply Nat.ltb_lt in Hroom as ->.
  - intros Hf Hfull. rewrite Hf.
    by apply Nat.ltb_ge in Hfull as ->.
Qed.

(** *** [read] *)

Definition oversize (entry : walEntry) : Prop :=
  2000000 < Z.of_nat (length (data entry)).

(** Once the session has failed, [read] drops whatever it still receives. *)
Lemma read_failed received r :
  failed (r_follower r) = true -> read received r = Some r.
Proof.
  intros Hf. induction received as [|entry rest IH]; simpl; [done|].
  unfold read_body. by rewrite Hf.
Qed.

(** C9.  For an entry taken by the loop of [read] in state [r]:
    - if the session has failed, the entry is dropped: nothing changes and
      [cb] is not called;
    - otherwise, if [len(entry.data)] is above 2 MB (2000000 bytes), the
      entry is dropped with the log line, [cb] is not called and the session
      is not marked failed;
    - otherwise [cb] is called with [(entry.data, entry.offset)]; when it
      returns no error only the callback has acted; when it returns an error
      the session is marked failed and [metrics.FollowerFailed] is applied
      for its id;
    - in every case the loop goes on with the entries that follow, and
      after a failure they are all dropped without a call of [cb]. *)
Theorem read_body_cases entry r :
  (failed (r_follower r) = true -> read_body entry r = Some r) /\
  (failed (r_follower r) = false -> oversize entry ->
     read_body entry r =
       Some (mkReader (r_follower r) (r_metrics r) (r_cb r) (r_calls r)
               (r_log r ++ [LogDiscard]))) /\
  (failed (r_follower r) = false -> ~ oversize entry ->
     forall s, cb (r_follower r) (r_cb r) (data entry) (offset entry) = (s, None) ->
     read_body entry r =
       Some (mkReader (r_follower r) (r_metrics r) s
               (r_calls r ++ [(data entry, offset entry)]) (r_log r))) /\
  (failed (r_follower r) = false -> ~ oversize entry ->
     forall s e m',
     cb (r_follower r) (r_cb r) (data entry) (offset entry) = (s, Some e) ->
     metrics.FollowerFailed (followerId (r_follower r)) (r_metrics r) = Some m' ->
     exists r',
       read_body entry r = Some r' /\
       failed (r_follower r') = true /\
       r_metrics r' = m' /\
       r_cb r' = s /\
       r_calls r' = r_calls r ++ [(data entry, offset entry)] /\
       forall rest, read (entry :: rest) r = Some r') /\
  (forall rest r', read_body entry r = Some r' ->
     read (entry :: rest) r = read rest r').
Proof.
  unfold oversize. repeat split.
  - unfold read_body. by intros ->.
  - unfold read_body. intros -> Hbig. by apply Z.ltb_lt in Hbig as ->.
  - unfold read_body. intros -> Hsmall s Hcb.
    apply Z.ltb_nlt in Hsmall as ->. by rewrite Hcb.
  - intros Hf Hsmall s e m' Hcb Hm.
    assert (Hbody : read_body entry r =
              Some (mkReader (set_hasFailed 1 (r_follower r)) m' s
                      (r_calls r ++ [(data entry, offset entry)])
                      (r_log r ++ [LogFollowError
                                     (PartitionNumber (follow (r_follower r))) e]))).
    { unfold read_body. rewrite Hf. apply Z.ltb_nlt in Hsmall as ->. rewrite Hcb.
      unfold markFailed. by rewrite Hm. }
    eexists. split; [exact Hbody|]. repeat (split; [reflexivity|]).
    intros rest. simpl. rewrite Hbody. by apply read_failed.
  - intros rest r' Hr'. simpl. by rewrite Hr'.
Qed.

(** *** The whole loop of [read] *)

(** The call of [cb] that an entry is delivered with. *)
Definition delivery (entry : walEntry) : list Byte.byte * Offset :=
  (data entry, offset entry).

Definition fits (entry : walEntry) : Prop :=
  Z.of_nat (length (data entry)) <= 2000000.

#[local] Instance fits_dec entry : Decision (fits entry).
Proof. unfold fits. apply _. Defined.

Lemma read_body_failed entry r r' :
  read_body entry r = Some r' -> failed (r_follower r) = true -> r' = r.
Proof. unfold read_body. intros Hr Hf. rewrite Hf in Hr. by simplify_eq. Qed.

Lemma read_body_calls entry r r' :
  read_body entry r = Some r' -> failed (r_follower r) = false ->
  r_calls r' = r_calls r ++ (if decide (fits entry) then [delivery entry] else []).
Proof.
  unfold read_body, fits, delivery. intros Hr Hf. rewrite Hf in Hr.
  destruct (Z.ltb_spec 2000000 (Z.of_nat (length (data entry)))) as [Hbig|Hsmall].
  - simplify_eq. simpl. rewrite decide_False by lia. by rewrite app_nil_r.
  - rewrite decide_True by lia.
    destruct (cb _ _ _ _) as [s [e|]]; [|by simplify_eq].
    destruct (markFailed _ _) as [[f' m']|]; [|done]. by simplify_eq.
Qed.

(** Over the entries that [read] receives, [cb] is called with the entries
    of at most 2000000 bytes, in the order received and none skipped, up to
    the first call that returns an error: the calls made are a prefix of the
    deliveries of the entries that fit, and all of them when the session has
    not failed at the end. *)
Theorem read_delivers_in_order received r r' :
  read received r = Some r' ->
  exists calls,
    r_calls r' = r_calls r ++ calls /\
    calls `prefix_of` (delivery <$> filter fits received) /\
    (failed (r_follower r') = false -> calls = delivery <$> filter fits received).
Proof.
  revert r. induction received as [|entry rest IH]; intros r Hr; simpl in Hr.
  - simplify_eq. exists []. by rewrite app_nil_r.
  - destruct (read_body entry r) as [r1|] eqn:Hb; [|done].
    destruct (failed (r_follower r)) eqn:Hf.
    + apply (read_body_failed _ _ _ Hb) in Hf as Hr1. subst r1.
      rewrite read_failed in Hr by done. simplify_eq.
      exists []. rewrite app_nil_r. split; [done|]. split; [apply prefix_nil|].
      congruence.
    + destruct (IH r1 Hr) as (calls & Hcalls & Hpre & Hall).
      rewrite (read_body_calls _ _ _ Hb Hf) in Hcalls. rewrite filter_cons.
      destruct (decide (fits entry)) as [Hfit|Hfit].
      * destruct (failed (r_follower r1)) eqn:Hf1.
        -- rewrite read_failed in Hr by done. simplify_eq.
           exists [delivery entry]. split; [|split].
           ++ rewrite (read_body_calls _ _ _ Hb Hf). by rewrite decide_True.
           ++ csimpl. apply prefix_cons, prefix_nil.
           ++ congruence.
        -- exists (delivery entry :: calls). split; [|split].
           ++ by rewrite Hcalls, <- app_assoc.
           ++ csimpl. by apply prefix_cons.
           ++ intros Hend. csimpl. f_equal. by apply Hall.
      * exists calls. rewrite app_nil_r in Hcalls. done.
Qed.

End Session.
Arguments follower : clear implicits.
Arguments reader : clear implicits.

(** [k] successive calls of [submit] with the same entry. *)
Fixpoint submit_times {CbState} (k : nat) (entry : walEntry) (f : follower CbState)
    : outcome (follower CbState) :=
  match k with
  | O => Done f
  | S k => match submit entry f with
           | Done f' => submit_times k entry f'
           | Blocked => Blocked
           | Panic => Panic
           end
  end.

(** Sessions to evaluate on: follower 1 of partition 1 on stream "inbound",
    whose callback counts its calls and fails on the fifth. *)
Definition fifth_fails (n : nat) (d : list Byte.byte) (o : Offset) : nat * option string :=
  (S n, if (n =? 4)%nat then Some "broken pipe" else None).

Definition session (queue : chan walEntry) (flag : Z) : follower nat :=
  mkFollower (mkFollow "inbound" 0 1 ∅) 1 fifth_fails queue flag.

Definition entry_at (o : Offset) : walEntry := mkWalEntry "inbound" [Byte.x01] o.

Definition big_entry : walEntry :=
  mkWalEntry "inbound" (replicate (Z.to_nat 2000001) Byte.x00) 7.

Definition reading (flag : Z) (calls : nat) : reader nat :=
  mkReader (session (mkChan [] 8 false) flag)
    (metrics.FollowerJoined 1 1 metrics.reset) calls [] [].

(** C7 (the claim as stated fails).  Two successive calls of [submit] on a
    failed session: the first closes the queue, the second panics. *)
Lemma submit_twice_on_failed_panics :
  submit_times 1 (entry_at 5) (session (mkChan [] 8 false) 1)
    = Done (session (mkChan [] 8 true) 1) /\
  submit_times 2 (entry_at 5) (session (mkChan [] 8 false) 1) = Panic.
Proof. split; reflexivity. Qed.

Lemma submit_closes_or_sends_witness :
  (submit (entry_at 5) (session (mkChan [] 8 false) 1)
     = Done (session (mkChan [] 8 true) 1) /\
   forall entry', submit entry' (session (mkChan [] 8 true) 1) = Panic) /\
  submit (entry_at 5) (session (mkChan [] 8 false) 0)
    = Done (session (mkChan [entry_at 5] 8 false) 0) /\
  submit (entry_at 5) (session (mkChan [entry_at 4] 1 false) 0) = Blocked.
Proof.
  pose proof (submit_closes_or_sends (entry_at 5) (session (mkChan [] 8 false) 1)
                eq_refl) as (Hclose & _ & _).
  pose proof (submit_closes_or_sends (entry_at 5) (session (mkChan [] 8 false) 0)
                eq_refl) as (_ & Hsend & _).
  pose proof (submit_closes_or_sends (entry_at 5)
                (session (mkChan [entry_at 4] 1 false) 0) eq_refl) as (_ & _ & Hfull).
  split; [exact (Hclose eq_refl)|].
  split; [apply Hsend; [reflexivity | simpl; lia]|].
  apply Hfull; [reflexivity | simpl; lia].
Defined.

Lemma big_entry_oversize : oversize big_entry.
Proof.
  unfold oversize.
  change (data big_entry) with (replicate (Z.to_nat 2000001) Byte.x00).
  rewrite length_replicate. lia.
Defined.

Lemma entry_at_not_oversize o : ~ oversize (entry_at o).
Proof. unfold oversize. simpl. lia. Defined.

Lemma read_body_cases_witness :
  read_body (entry_at 5) (reading 1 0) = Some (reading 1 0) /\
  read_body big_entry (reading 0 0)
    = Some (mkReader (r_follower (reading 0 0)) (r_metrics (reading 0 0)) 0%nat []
              [LogDiscard]) /\
  read_body (entry_at 5) (reading 0 0)
    = Some (mkReader (r_follower (reading 0 0)) (r_metrics (reading 0 0)) 1%nat
              [([Byte.x01], 5)] []) /\
  (exists r',
     read_body (entry_at 5) (reading 0 4) = Some r' /\
     failed (r_follower r') = true /\
     Some (r_metrics r') = metrics.FollowerFailed 1 (r_metrics (reading 0 4)) /\
     r_cb r' = 5%nat /\
     r_calls r' = [([Byte.x01], 5)] /\
     forall rest, read (entry_at 5 :: rest) (reading 0 4) = Some r').
Proof.
  pose proof (read_body_cases (entry_at 5) (reading 1 0)) as (Hdrop & _).
  pose proof (read_body_cases big_entry (reading 0 0)) as (_ & Hbig & _).
  pose proof (read_body_cases (entry_at 5) (reading 0 0)) as (_ & _ & Hok & _).
  pose proof (read_body_cases (entry_at 5) (reading 0 4)) as (_ & _ & _ & Herr & _).
  split; [exact (Hdrop eq_refl)|].
  split; [exact (Hbig eq_refl big_entry_oversize)|].
  split; [exact (Hok eq_refl (entry_at_not_oversize 5) 1%nat eq_refl)|].
  destruct (Herr eq_refl (entry_at_not_oversize 5) 5%nat "broken pipe"
              (default metrics.reset
                 (metrics.FollowerFailed 1 (r_metrics (reading 0 4))))
              eq_refl eq_refl)
    as (r' & Hr' & Hfl & Hm & Hcb & Hcalls & Hrest).
  exists r'. split; [exact Hr'|]. split; [exact Hfl|].
  split; [rewrite Hm; reflexivity|].
  split; [exact Hcb|]. split; [exact Hcalls|exact Hrest].
Defined.

(** The callback fails on its fifth call: of the entries at offsets 5, 6 and
    7 received after three calls, the first two are delivered. *)
Definition read_three : reader nat :=
  default (reading 0 3) (read [entry_at 5; entry_at 6; entry_at 7] (reading 0 3)).

Example read_three_calls :
  r_calls read_three = [([Byte.x01], 5); ([Byte.x01], 6)] /\
  failed (r_follower read_three) = true.
Proof. split; reflexivity. Qed.

Lemma read_delivers_in_order_witness :
  exists calls,
    r_calls read_three = r_calls (reading 0 3) ++ calls /\
    calls `prefix_of` (delivery <$> filter fits [entry_at 5; entry_at 6; entry_at 7]) /\
    (failed (r_follower read_three) = false ->
     calls = delivery <$> filter fits [entry_at 5; entry_at 6; entry_at 7]).
Proof.
  apply (read_delivers_in_order [entry_at 5; entry_at 6; entry_at 7] (reading 0 3)).
  reflexivity.
Defined.

(** ** The partition hasher *)

(** [hash.Hash32], the interface [partitionFor] is given. *)
Class Hash32 (H : Type) := {
  Reset : H -> H;
  Write : list Byte.byte -> H -> H;
  Sum32 : H -> Z
}.

(** What package hash promises of an implementation: [Sum32] is a 32-bit
    function [digest] of the bytes written since the last [Reset]. *)
Class Hash32Laws (H : Type) `{Hash32 H} := {
  digest : list Byte.byte -> Z;
  written : H -> list Byte.byte;
  written_Reset : forall h, written (Reset h) = [];
  written_Write : forall b h, written (Write b h) = written h ++ b;
  Sum32_digest : forall h, Sum32 h = digest (written h);
  digest_range : forall b, 0 <= digest b < 2 ^ 32
}.

(** [murmur3.New32()] of [partitionHash]: MurmurHash3 x86_32 with seed 0, the
    hasher holding the bytes written to it. *)
Definition u32 (z : Z) : Z := z mod 2 ^ 32.
Definition rotl32 (x r : Z) : Z :=
  u32 (Z.lor (Z.shiftl x r) (Z.shiftr x (32 - r))).
Definition byteZ (b : Byte.byte) : Z := Z.of_N (Byte.to_N b).

Definition murmur_k (k : Z) : Z :=
  u32 (rotl32 (u32 (k * 0xcc9e2d51)) 15 * 0x1b873593).

Definition murmur_block (h k : Z) : Z :=
  u32 (rotl32 (Z.lxor h (murmur_k k)) 13 * 5 + 0xe6546b64).

Fixpoint murmur_body (h : Z) (bs : list Byte.byte) : Z :=
  match bs with
  | b0 :: b1 :: b2 :: b3 :: rest =>
      murmur_body
        (murmur_block h
           (Z.lor (Z.lor (byteZ b0) (Z.shiftl (byteZ b1) 8))
              (Z.lor (Z.shiftl (byteZ b2) 16) (Z.shiftl (byteZ b3) 24))))
        rest
  | [b0; b1; b2] =>
      Z.lxor h (murmur_k (Z.lxor (Z.lxor (Z.shiftl (byteZ b2) 16)
                                    (Z.shiftl (byteZ b1) 8)) (byteZ b0)))
  | [b0; b1] => Z.lxor h (murmur_k (Z.lxor (Z.shiftl (byteZ b1) 8) (byteZ b0)))
  | [b0] => Z.lxor h (murmur_k (byteZ b0))
  | [] => h
  end.

Definition fmix32 (h : Z) : Z :=
  let h := u32 (Z.lxor h (Z.shiftr h 16) * 0x85ebca6b) in
  let h := u32 (Z.lxor h (Z.shiftr h 13) * 0xc2b2ae35) in
  u32 (Z.lxor h (Z.shiftr h 16)).

Definition murmur3_32 (bs : list Byte.byte) : Z :=
  fmix32 (Z.lxor (murmur_body 0 bs) (u32 (Z.of_nat (length bs)))).

#[export] Instance murmur3_New32 : Hash32 (list Byte.byte) := {
  Reset := fun _ => [];
  Write := fun b h => h ++ b;
  Sum32 := murmur3_32
}.

(** [bytemap.ByteMap] is the encoded dimension map, a byte slice.  Package
    bytemap is outside the repository: [ByteMap_get dims key] stands for the
    bytes of the value it stores under [key], if any, and [GetBytes] returns
    them, or nil when the key is absent. *)
Section Hasher.
Context {H : Type} `{Hash32 H}.
Variable ByteMap_get : list Byte.byte -> string -> option (list Byte.byte).

Definition GetBytes (dims : list Byte.byte) (key : string) : list Byte.byte :=
  default [] (ByteMap_get dims key).

(** [db.partitionFor(h, dims, partitionKeys)] with [db.opts.NumPartitions] as
    [numPartitions].  It returns the hasher as it leaves it; the integer
    division panics when [numPartitions] is 0. *)
Definition partitionFor (numPartitions : Z) (h : H) (dims : list Byte.byte)
    (partitionKeys : list string) : option (H * Z) :=
  let h := Reset h in
  let h :=
    if (0 <? length partitionKeys)%nat then
      fold_left
        (fun h partitionKey =>
           let b := GetBytes dims partitionKey in
           if (0 <? length b)%nat then Write b h else h)
        partitionKeys h
    else Write dims h in
  if numPartitions =? 0 then None
  else Some (h, Z.rem (Sum32 h) numPartitions).

Definition inPartition (numPartitions : Z) (h : H) (dims : list Byte.byte)
    (partitionKeys : list string) (partition : Z) : option (H * bool) :=
  match partitionFor numPartitions h dims partitionKeys with
  | Some (h', pid) => Some (h', pid =? partition)
  | None => None
  end.

(** The bytes that the specification has digested: the values of the keys
    that [dims] holds, in the order of the keys, or all of [dims] when there
    are no keys. *)
Definition digested (dims : list Byte.byte) (keys : list string) : list Byte.byte :=
  match keys with
  | [] => dims
  | _ => mjoin (omap (ByteMap_get dims) keys)
  end.

Context `{!Hash32Laws H}.

Lemma written_keys dims keys h :
  written
    (fold_left
       (fun h partitionKey =>
          let b := GetBytes dims partitionKey in
          if (0 <? length b)%nat then Write b h else h)
       keys h)
  = written h ++ mjoin (omap (ByteMap_get dims) keys).
Proof.
  revert h. induction keys as [|key keys IH]; intros h; simpl.
  - by rewrite app_nil_r.
  - rewrite IH. unfold GetBytes.
    destruct (ByteMap_get dims key) as [b|]; simpl; [|done].
    destruct b as [|x b]; simpl; [done|].
    by rewrite written_Write, <- app_assoc.
Qed.

(** C4.  With a positive number of partitions, [partitionFor] returns, for
    every hasher state, dimension map and key list, the 32-bit hash of the
    digested bytes modulo [numPartitions], a value in
    [[0, numPartitions)].  The hasher is reset first, so it ends holding
    exactly the digested bytes: the values of the keys in the given order, a
    key that is absent or has an empty value adding nothing, or all of
    [dims] when there are no keys. *)
Theorem partitionFor_digest numPartitions h dims keys :
  0 < numPartitions ->
  exists h',
    partitionFor numPartitions h dims keys
      = Some (h', digest (digested dims keys) mod numPartitions) /\
    written h' = digested dims keys /\
    Sum32 h' = digest (digested dims keys) /\
    0 <= digest (digested dims keys) mod numPartitions < numPartitions.
Proof.
  intros Hpos. unfold partitionFor.
  set (h' := if (0 <? length keys)%nat then _ else _).
  assert (Hw : written h' = digested dims keys).
  { subst h'. destruct keys as [|key keys].
    - simpl. by rewrite written_Write, written_Reset.
    - change (0 <? length (key :: keys))%nat with true. cbv iota.
      by rewrite written_keys, written_Reset. }
  exists h'. destruct (Z.eqb_spec numPartitions 0) as [->|_]; [lia|].
  pose proof (digest_range (digested dims keys)) as Hr.
  rewrite Sum32_digest, Hw.
  repeat split; try (apply Z.mod_pos_bound; lia).
  by rewrite Z.rem_mod_nonneg by lia.
Qed.

Lemma partitionFor_mod numPartitions h dims keys :
  0 < numPartitions ->
  exists h',
    partitionFor numPartitions h dims keys
      = Some (h', digest (digested dims keys) mod numPartitions).
Proof.
  intros Hpos. unfold partitionFor.
  set (h' := if (0 <? length keys)%nat then _ else _).
  assert (Hw : written h' = digested dims keys).
  { subst h'. destruct keys as [|key keys].
    - simpl. by rewrite written_Write, written_Reset.
    - change (0 <? length (key :: keys))%nat with true. cbv iota.
      by rewrite written_keys, written_Reset. }
  exists h'. destruct (Z.eqb_spec numPartitions 0) as [->|_]; [lia|].
  pose proof (digest_range (digested dims keys)) as Hr.
  by rewrite Sum32_digest, Hw, Z.rem_mod_nonneg by lia.
Qed.

(** With a positive number of partitions, an entry is in exactly one
    partition, a number in [[0, numPartitions)], and which one does not
    depend on what the hasher was used for before: a worker may use one
    hasher for all its requests. *)
Theorem inPartition_exactly_one numPartitions dims keys :
  0 < numPartitions ->
  exists p,
    0 <= p < numPartitions /\
    forall h partition,
      exists h',
        inPartition numPartitions h dims keys partition
        = Some (h', bool_decide (p = partition)).
Proof.
  intros Hpos. exists (digest (digested dims keys) mod numPartitions).
  split; [apply Z.mod_pos_bound; lia|]. intros h partition.
  destruct (partitionFor_mod numPartitions h dims keys Hpos) as (h' & Hp).
  exists h'. unfold inPartition. rewrite Hp. f_equal. f_equal.
  destruct (Z.eqb_spec (digest (digested dims keys) mod numPartitions) partition).
  - by rewrite bool_decide_eq_true_2.
  - by rewrite bool_decide_eq_false_2.
Qed.

(** The partition does not depend on the state of the hasher, for any
    number of partitions. *)
Lemma partitionFor_any_hasher numPartitions h1 h2 dims keys :
  snd <$> partitionFor numPartitions h1 dims keys
  = snd <$> partitionFor numPartitions h2 dims keys.
Proof.
  unfold partitionFor.
  assert (Hw : forall h,
            written (if (0 <? length keys)%nat
                     then fold_left
                            (fun h partitionKey =>
                               let b := GetBytes dims partitionKey in
                               if (0 <? length b)%nat then Write b h else h)
                            keys (Reset h)
                     else Write dims (Reset h))
            = digested dims keys).
  { intros h. destruct keys as [|key keys].
    - simpl. by rewrite written_Write, written_Reset.
    - change (0 <? length (key :: keys))%nat with true. cbv iota.
      by rewrite written_keys, written_Reset. }
  destruct (numPartitions =? 0); [done|]. simpl.
  by rewrite !Sum32_digest, !Hw.
Qed.

End Hasher.

Lemma u32_range z : 0 <= u32 z < 2 ^ 32.
Proof. unfold u32. apply Z.mod_pos_bound. lia. Qed.

#[export] Instance murmur3_New32_laws : Hash32Laws (list Byte.byte) := {
  digest := murmur3_32;
  written := fun h => h;
  written_Reset := fun _ => eq_refl;
  written_Write := fun _ _ => eq_refl;
  Sum32_digest := fun _ => eq_refl;
  digest_range := fun _ => u32_range _
}.

(** A dimension map to evaluate on: it holds its bytes as the value of the
    key "country" and nothing else. *)
Definition only_country (dims : list Byte.byte) (key : string) : option (list Byte.byte) :=
  if String.eqb key "country" then Some dims else None.

Definition us : list Byte.byte := String.list_byte_of_string "us".

Example partitionFor_us :
  partitionFor only_country 4 [Byte.x00] us ["city"; "country"]
  = Some (us, murmur3_32 us mod 4).
Proof. vm_compute. reflexivity. Qed.

Lemma partitionFor_digest_witness :
  exists h',
    partitionFor only_country 4 [Byte.x00] us ["city"; "country"]
      = Some (h', digest (digested only_country us ["city"; "country"]) mod 4) /\
    written h' = digested only_country us ["city"; "country"] /\
    Sum32 h' = digest (digested only_country us ["city"; "country"]) /\
    0 <= digest (digested only_country us ["city"; "country"]) mod 4 < 4.
Proof.
  apply (partitionFor_digest only_country 4 [Byte.x00] us ["city"; "country"]).
  lia.
Defined.

Lemma inPartition_exactly_one_witness :
  exists p,
    0 <= p < 4 /\
    forall (h : list Byte.byte) partition,
      exists h',
        inPartition only_country 4 h us ["city"; "country"] partition
        = Some (h', bool_decide (p = partition)).
Proof. apply (inPartition_exactly_one only_country 4 us ["city"; "country"]). lia. Defined.

(** ** The store

    The subscription tree is built from Go maps and pointers to records that
    the dispatcher hands to other goroutines, so these objects live in a
    store and are named by their index in it.  Objects are never freed; an
    allocation appends.
    - [arrays]: the backing arrays of [[]string] values;
    - [partMaps]: the maps [map[string]*partitionSpec];
    - [partSpecs]: the [partitionSpec] records, each with its own [tables]
      map, which is made with the record and never replaced;
    - [tableSpecs]: the [tableSpec] records, each with its own [followers]
      map;
    - [followSpecs]: the [followSpec] records.
    A [[]*followSpec] is a list of indices: the dispatcher appends only to
    the slice that it stores back, and an append never changes what a slice
    header copied earlier shows. *)

(** [goexpr.Expr], as far as it is used: [String()] and [Eval(dims)], whose
    result is asserted to be a bool ([None]: it is not one). *)
Record Expr := mkExpr {
  Expr_String : string;
  Expr_Eval : list Byte.byte -> option bool
}.

Record partitionSpec := mkPartitionSpec {
  keys : slice;
  tables : gmap string nat
}.

(** The field [where] of [tableSpec] is [where_] here. *)
Record tableSpec := mkTableSpec {
  where_ : option Expr;
  whereString : string;
  followers : gmap Z (list nat)
}.

Record Store := mkStore {
  arrays : list (list string);
  partMaps : list (gmap string nat);
  partSpecs : list partitionSpec;
  tableSpecs : list tableSpec;
  followSpecs : list followSpec
}.

#[export] Instance slice_inhabited : Inhabited slice := populate (mkSlice 0 0 0).
#[export] Instance partitionSpec_inhabited : Inhabited partitionSpec :=
  populate (mkPartitionSpec inhabitant ∅).
#[export] Instance tableSpec_inhabited : Inhabited tableSpec :=
  populate (mkTableSpec None "" ∅).
#[export] Instance followSpec_inhabited : Inhabited followSpec :=
  populate (mkFollowSpec 0 0).

Definition empty_store : Store := mkStore [] [] [] [] [].

(** Computations on the store that may panic. *)
Definition M (A : Type) : Type := Store -> option (A * Store).

#[export] Instance M_ret : MRet M := fun A a σ => Some (a, σ).
#[export] Instance M_bind : MBind M := fun A B k m σ =>
  match m σ with
  | Some (a, σ') => k a σ'
  | None => None
  end.

Definition panic {A} : M A := fun _ => None.

Lemma bind_run {A B} (m : M A) (k : A -> M B) σ a σ' :
  m σ = Some (a, σ') -> (m ≫= k) σ = k a σ'.
Proof. intros Hm. unfold mbind, M_bind. by rewrite Hm. Qed.

(** [for _, x := range l { body }] *)
Fixpoint for_each {A} (l : list A) (body : A -> M unit) : M unit :=
  match l with
  | [] => mret tt
  | x :: l => body x;; for_each l body
  end.

(** [for _, x := range l { acc = body(acc, x) }] *)
Fixpoint fold_M {A B} (body : B -> A -> M B) (l : list A) (acc : B) : M B :=
  match l with
  | [] => mret acc
  | x :: l => acc ← body acc x; fold_M body l acc
  end.

(** [keeps J m Q]: from a store that satisfies [J], the computation [m] does
    not panic, ends in a store that satisfies [J], and returns a value that
    satisfies [Q]. *)
Definition keeps (J : Store -> Prop) {A} (m : M A) (Q : A -> Prop) : Prop :=
  forall σ, J σ -> exists a σ', m σ = Some (a, σ') /\ J σ' /\ Q a.

Lemma keeps_ret J {A} (a : A) (Q : A -> Prop) : Q a -> keeps J (mret a) Q.
Proof. intros HQ σ HJ. by exists a, σ. Qed.

Lemma keeps_bind J {A B} (m : M A) (k : A -> M B) (Q1 : A -> Prop) (Q2 : B -> Prop) :
  keeps J m Q1 -> (forall a, Q1 a -> keeps J (k a) Q2) -> keeps J (m ≫= k) Q2.
Proof.
  intros Hm Hk σ HJ. destruct (Hm σ HJ) as (a & σ1 & Hr & HJ1 & HQ1).
  destruct (Hk a HQ1 σ1 HJ1) as (b & σ2 & Hr2 & HJ2 & HQ2).
  exists b, σ2. unfold mbind, M_bind. by rewrite Hr.
Qed.

Lemma keeps_weaken J {A} (m : M A) (Q Q' : A -> Prop) :
  keeps J m Q -> (forall a, Q a -> Q' a) -> keeps J m Q'.
Proof.
  intros Hm HQ σ HJ. destruct (Hm σ HJ) as (a & σ' & ? & ? & ?). exists a, σ'. auto.
Qed.

Lemma keeps_for_each J {A} (l : list A) (body : A -> M unit) :
  (forall x, x ∈ l -> keeps J (body x) (fun _ => True)) ->
  keeps J (for_each l body) (fun _ => True).
Proof.
  induction l as [|x l IH]; intros Hb; simpl.
  - by apply keeps_ret.
  - eapply keeps_bind; [apply Hb; left|].
    intros _ _. apply IH. intros y Hy. apply Hb. by right.
Qed.

Lemma keeps_fold_M J {A B} (body : B -> A -> M B) (l : list A) (acc : B) (Q : B -> Prop) :
  Q acc ->
  (forall b x, x ∈ l -> Q b -> keeps J (body b x) Q) ->
  keeps J (fold_M body l acc) Q.
Proof.
  revert acc. induction l as [|x l IH]; intros acc Hacc Hb; simpl.
  - by apply keeps_ret.
  - eapply keeps_bind; [apply Hb; [left|done]|].
    intros b HQ. apply IH; [done|]. intros b' y Hy. apply Hb. by right.
Qed.

Definition with_arrays (f : list (list string) -> list (list string)) (σ : Store) : Store :=
  mkStore (f (arrays σ)) (partMaps σ) (partSpecs σ) (tableSpecs σ) (followSpecs σ).
Definition with_partMaps (f : list (gmap string nat) -> list (gmap string nat))
    (σ : Store) : Store :=
  mkStore (arrays σ) (f (partMaps σ)) (partSpecs σ) (tableSpecs σ) (followSpecs σ).
Definition with_partSpecs (f : list partitionSpec -> list partitionSpec) (σ : Store) : Store :=
  mkStore (arrays σ) (partMaps σ) (f (partSpecs σ)) (tableSpecs σ) (followSpecs σ).
Definition with_tableSpecs (f : list tableSpec -> list tableSpec) (σ : Store) : Store :=
  mkStore (arrays σ) (partMaps σ) (partSpecs σ) (f (tableSpecs σ)) (followSpecs σ).
Definition with_followSpecs (f : list followSpec -> list followSpec) (σ : Store) : Store :=
  mkStore (arrays σ) (partMaps σ) (partSpecs σ) (tableSpecs σ) (f (followSpecs σ)).

Definition new_partMap (m : gmap string nat) : M nat :=
  fun σ => Some (length (partMaps σ), with_partMaps (fun h => h ++ [m]) σ).
Definition new_partSpec (ps : partitionSpec) : M nat :=
  fun σ => Some (length (partSpecs σ), with_partSpecs (fun h => h ++ [ps]) σ).
Definition new_tableSpec (ts : tableSpec) : M nat :=
  fun σ => Some (length (tableSpecs σ), with_tableSpecs (fun h => h ++ [ts]) σ).
Definition new_followSpec (fs : followSpec) : M nat :=
  fun σ => Some (length (followSpecs σ), with_followSpecs (fun h => h ++ [fs]) σ).

Definition get_array (r : nat) : M (list string) := fun σ => Some (arrays σ !!! r, σ).
Definition get_partMap (r : nat) : M (gmap string nat) := fun σ => Some (partMaps σ !!! r, σ).
Definition get_partSpec (r : nat) : M partitionSpec := fun σ => Some (partSpecs σ !!! r, σ).
Definition get_tableSpec (r : nat) : M tableSpec := fun σ => Some (tableSpecs σ !!! r, σ).
Definition get_followSpec (r : nat) : M followSpec := fun σ => Some (followSpecs σ !!! r, σ).

Definition set_array (r : nat) (a : list string) : M unit :=
  fun σ => Some (tt, with_arrays (fun h => <[r := a]> h) σ).
Definition set_partMap (r : nat) (m : gmap string nat) : M unit :=
  fun σ => Some (tt, with_partMaps (fun h => <[r := m]> h) σ).
Definition set_partSpec (r : nat) (ps : partitionSpec) : M unit :=
  fun σ => Some (tt, with_partSpecs (fun h => <[r := ps]> h) σ).
Definition set_tableSpec (r : nat) (ts : tableSpec) : M unit :=
  fun σ => Some (tt, with_tableSpecs (fun h => <[r := ts]> h) σ).
Definition set_followSpec (r : nat) (fs : followSpec) : M unit :=
  fun σ => Some (tt, with_followSpecs (fun h => <[r := fs]> h) σ).

(** [pres J m]: when [m] does not panic from a store that satisfies [J], it
    ends in a store that satisfies [J]. *)
Definition pres (J : Store -> Prop) {A} (m : M A) : Prop :=
  forall σ a σ', J σ -> m σ = Some (a, σ') -> J σ'.

Lemma pres_ret J {A} (a : A) : pres J (mret a).
Proof. intros σ a' σ' HJ [= _ <-]. done. Qed.

Lemma pres_panic J {A} : pres J (@panic A).
Proof. by intros σ a σ' HJ. Qed.

Lemma pres_bind J {A B} (m : M A) (k : A -> M B) :
  pres J m -> (forall a, pres J (k a)) -> pres J (m ≫= k).
Proof.
  intros Hm Hk σ b σ' HJ. unfold mbind, M_bind.
  destruct (m σ) as [[a σ1]|] eqn:Hr; [|done].
  intros Hb. eapply Hk; [|exact Hb]. by eapply Hm.
Qed.

Lemma pres_for_each J {A} (l : list A) (body : A -> M unit) :
  (forall x, pres J (body x)) -> pres J (for_each l body).
Proof.
  intros Hb. induction l as [|x l IH]; simpl; [apply pres_ret|].
  apply pres_bind; [apply Hb|]. intros _. apply IH.
Qed.

Lemma pres_fold_M J {A B} (body : B -> A -> M B) (l : list A) (acc : B) :
  (forall b x, pres J (body b x)) -> pres J (fold_M body l acc).
Proof.
  intros Hb. revert acc. induction l as [|x l IH]; intros acc; simpl; [apply pres_ret|].
  apply pres_bind; [apply Hb|]. intros b. apply IH.
Qed.

Lemma pres_read J {A} (f : Store -> A) : pres J (fun σ => Some (f σ, σ)).
Proof. intros σ a σ' HJ [= _ <-]. done. Qed.

(** *** What a holder of a tree sees *)

(** [view σ partitions] is everything that can be read through the tree
    [partitions]: for each partition key the keys slice and, for each table,
    the predicate, its string and the specs of each partition number. *)
Definition view_table {A} (see : followSpec -> A) (σ : Store) (table : nat)
    : option Expr * string * gmap Z (list A) :=
  let t := tableSpecs σ !!! table in
  (where_ t, whereString t,
   (fun specs : list nat => (fun spec => see (followSpecs σ !!! spec)) <$> specs)
     <$> followers t).

Definition view_partition {A} (see : followSpec -> A) (σ : Store) (partition : nat)
    : slice * gmap string (option Expr * string * gmap Z (list A)) :=
  let ps := partSpecs σ !!! partition in
  (keys ps, view_table see σ <$> tables ps).

Definition view_with {A} (see : followSpec -> A) (σ : Store) (partitions : nat)
    : gmap string (slice * gmap string (option Expr * string * gmap Z (list A))) :=
  view_partition see σ <$> (partMaps σ !!! partitions).

Definition view := view_with (fun spec => spec).

(** [shape] is [view] without the offsets of the specs. *)
Definition shape := view_with followerID.

(** The specs seen through a tree for one table and partition number. *)
Definition specs_seen (σ : Store) (partitions : nat) (partitionKeys tableName : string)
    (pn : Z) : option (list followSpec) :=
  match view σ partitions !! partitionKeys with
  | Some (_, tbls) =>
      match tbls !! tableName with
      | Some (_, _, specs) => specs !! pn
      | None => None
      end
  | None => None
  end.

(** *** Frames

    [ext σ0 σ]: every map and record of the tree that is in [σ0] is in [σ]
    unchanged, and so is every spec of [σ0], up to its offset. *)
Definition ext (σ0 σ : Store) : Prop :=
  partMaps σ0 `prefix_of` partMaps σ /\
  partSpecs σ0 `prefix_of` partSpecs σ /\
  tableSpecs σ0 `prefix_of` tableSpecs σ /\
  (followerID <$> followSpecs σ0) `prefix_of` (followerID <$> followSpecs σ).

(** [no_dangling σ partitions]: every reference of the tree [partitions] is
    to an object of [σ]. *)
Definition no_dangling (σ : Store) (partitions : nat) : Prop :=
  (partitions < length (partMaps σ))%nat /\
  map_Forall (fun _ ps =>
    (ps < length (partSpecs σ))%nat /\
    map_Forall (fun _ ts =>
      (ts < length (tableSpecs σ))%nat /\
      map_Forall (fun _ specs =>
        Forall (fun spec => (spec < length (followSpecs σ))%nat) specs)
        (followers (tableSpecs σ !!! ts)))
      (tables (partSpecs σ !!! ps)))
    (partMaps σ !!! partitions).

#[export] Instance no_dangling_dec σ partitions : Decision (no_dangling σ partitions).
Proof. unfold no_dangling. apply _. Defined.

Lemma ext_refl σ : ext σ σ.
Proof. by repeat split. Qed.

Lemma ext_trans σ1 σ2 σ3 : ext σ1 σ2 -> ext σ2 σ3 -> ext σ1 σ3.
Proof.
  intros (?&?&?&?) (?&?&?&?). repeat split; by etrans.
Qed.

Lemma prefix_lookup_total `{Inhabited A} (l1 l2 : list A) i :
  l1 `prefix_of` l2 -> (i < length l1)%nat -> l2 !!! i = l1 !!! i.
Proof. intros [k ->] Hi. by apply lookup_total_app_l. Qed.

(** A tree keeps its shape in every extension of the store. *)
Lemma shape_ext σ0 σ partitions :
  ext σ0 σ -> no_dangling σ0 partitions -> shape σ partitions = shape σ0 partitions.
Proof.
  intros (Hpm & Hps & Hts & Hfs) (Hp & Hclosed).
  unfold shape, view_with. rewrite (prefix_lookup_total _ _ _ Hpm Hp).
  apply map_fmap_ext. intros k ps Hk.
  destruct (Hclosed k ps Hk) as (Hlps & Hcps).
  unfold view_partition. rewrite (prefix_lookup_total _ _ _ Hps Hlps). f_equal.
  apply map_fmap_ext. intros t ts Ht.
  destruct (Hcps t ts Ht) as (Hlts & Hcts).
  unfold view_table. rewrite (prefix_lookup_total _ _ _ Hts Hlts). f_equal.
  apply map_fmap_ext. intros pn specs Hpn.
  apply list_fmap_ext. intros i spec Hi.
  assert (Hl : (spec < length (followSpecs σ0))%nat).
  { specialize (Hcts pn specs Hpn). simpl in Hcts.
    rewrite Forall_forall in Hcts. apply Hcts. by eapply list_elem_of_lookup_2. }
  assert (Hl' : (spec < length (followSpecs σ))%nat).
  { apply prefix_length in Hfs. rewrite !length_fmap in Hfs. lia. }
  rewrite <- !(list_lookup_total_fmap followerID) by done.
  apply prefix_lookup_total; [done|]. by rewrite length_fmap.
Qed.

(** *** Stores without dangling references

    The references that a map of the tree holds are to objects of the store;
    [well_formed σ] says so of every map in [σ]. *)
Definition valid_partSpecs (σ : Store) (m : gmap string nat) : Prop :=
  map_Forall (fun _ ps => (ps < length (partSpecs σ))%nat) m.

Definition valid_tableSpecs (σ : Store) (m : gmap string nat) : Prop :=
  map_Forall (fun _ ts => (ts < length (tableSpecs σ))%nat) m.

Definition valid_specs (σ : Store) (specs : list nat) : Prop :=
  Forall (fun spec => (spec < length (followSpecs σ))%nat) specs.

Definition valid_followSpecs (σ : Store) (m : gmap Z (list nat)) : Prop :=
  map_Forall (fun _ specs => valid_specs σ specs) m.

Definition well_formed (σ : Store) : Prop :=
  Forall (valid_partSpecs σ) (partMaps σ) /\
  Forall (fun ps => valid_tableSpecs σ (tables ps)) (partSpecs σ) /\
  Forall (fun ts => valid_followSpecs σ (followers ts)) (tableSpecs σ).

(** [grows σ σ']: no object of [σ] is missing from [σ']. *)
Definition grows (σ σ' : Store) : Prop :=
  (length (partSpecs σ) <= length (partSpecs σ'))%nat /\
  (length (tableSpecs σ) <= length (tableSpecs σ'))%nat /\
  (length (followSpecs σ) <= length (followSpecs σ'))%nat.

Definition monotone (V : Store -> Prop) : Prop :=
  forall σ σ', grows σ σ' -> V σ -> V σ'.

Lemma grows_refl σ : grows σ σ.
Proof. by repeat split. Qed.

Lemma monotone_True : monotone (fun _ => True).
Proof. done. Qed.

Lemma monotone_and V1 V2 :
  monotone V1 -> monotone V2 -> monotone (fun σ => V1 σ /\ V2 σ).
Proof. intros H1 H2 σ σ' Hg [? ?]. split; eauto. Qed.

Lemma monotone_valid_partSpecs m : monotone (fun σ => valid_partSpecs σ m).
Proof.
  intros σ σ' (Hg & _) Hv. eapply map_Forall_impl; [exact Hv|]. simpl. intros. lia.
Qed.

Lemma monotone_valid_tableSpecs m : monotone (fun σ => valid_tableSpecs σ m).
Proof.
  intros σ σ' (_ & Hg & _) Hv. eapply map_Forall_impl; [exact Hv|]. simpl. intros. lia.
Qed.

Lemma monotone_valid_specs specs : monotone (fun σ => valid_specs σ specs).
Proof.
  intros σ σ' (_ & _ & Hg) Hv. eapply Forall_impl; [exact Hv|]. simpl. intros. lia.
Qed.

Lemma monotone_valid_followSpecs m : monotone (fun σ => valid_followSpecs σ m).
Proof.
  intros σ σ' Hg Hv. eapply map_Forall_impl; [exact Hv|]. simpl.
  intros _ specs. by apply monotone_valid_specs.
Qed.

Lemma monotone_partSpec r : monotone (fun σ => (r < length (partSpecs σ))%nat).
Proof. intros σ σ' (Hg & _). lia. Qed.

Lemma monotone_tableSpec r : monotone (fun σ => (r < length (tableSpecs σ))%nat).
Proof. intros σ σ' (_ & Hg & _). lia. Qed.

Lemma monotone_followSpec r : monotone (fun σ => (r < length (followSpecs σ))%nat).
Proof. intros σ σ' (_ & _ & Hg). lia. Qed.

Create HintDb mono.
#[export] Hint Resolve monotone_True monotone_and monotone_valid_partSpecs
  monotone_valid_tableSpecs monotone_valid_specs monotone_valid_followSpecs
  monotone_partSpec monotone_tableSpec monotone_followSpec : mono.

(** A well-formed store with more objects, and the same or valid maps. *)
Lemma well_formed_grows σ σ' :
  grows σ σ' ->
  Forall (valid_partSpecs σ) (partMaps σ) ->
  Forall (fun ps => valid_tableSpecs σ (tables ps)) (partSpecs σ) ->
  Forall (fun ts => valid_followSpecs σ (followers ts)) (tableSpecs σ) ->
  Forall (valid_partSpecs σ') (partMaps σ) /\
  Forall (fun ps => valid_tableSpecs σ' (tables ps)) (partSpecs σ) /\
  Forall (fun ts => valid_followSpecs σ' (followers ts)) (tableSpecs σ).
Proof.
  intros Hg H1 H2 H3. repeat split.
  - eapply Forall_impl; [exact H1|]. intros m. by apply monotone_valid_partSpecs.
  - eapply Forall_impl; [exact H2|]. intros ps. by apply monotone_valid_tableSpecs.
  - eapply Forall_impl; [exact H3|]. intros ts. by apply monotone_valid_followSpecs.
Qed.

Lemma well_formed_no_dangling σ partitions :
  well_formed σ -> (partitions < length (partMaps σ))%nat -> no_dangling σ partitions.
Proof.
  intros (H1 & H2 & H3) Hp. split; [done|].
  rewrite Forall_lookup_total in H1. rewrite Forall_lookup_total in H2.
  rewrite Forall_lookup_total in H3.
  intros k ps Hk. pose proof (H1 _ Hp k ps Hk) as Hps. simpl in Hps.
  split; [done|]. intros t ts Ht. pose proof (H2 _ Hps t ts Ht) as Hts. simpl in Hts.
  split; [done|]. apply (H3 _ Hts).
Qed.

(** The store in which [processFollowers] starts: no object of a tree has
    been made yet (the key arrays of the followers to come may be there). *)
Definition no_trees (σ : Store) : Prop :=
  partMaps σ = [] /\ partSpecs σ = [] /\ tableSpecs σ = [] /\ followSpecs σ = [].

Lemma no_trees_well_formed σ : no_trees σ -> well_formed σ.
Proof. intros (H1 & H2 & H3 & _). unfold well_formed. by rewrite H1, H2, H3. Qed.

(** [sound V m Q]: from a well-formed store that satisfies [V], the
    computation [m] does not panic, ends in a well-formed store that
    satisfies [V], and its result satisfies [Q] there. *)
Definition sound (V : Store -> Prop) {A} (m : M A) (Q : A -> Store -> Prop) : Prop :=
  forall σ, well_formed σ -> V σ ->
    exists a σ', m σ = Some (a, σ') /\ well_formed σ' /\ V σ' /\ Q a σ'.

Lemma sound_ret V {A} (a : A) (Q : A -> Store -> Prop) :
  (forall σ, V σ -> Q a σ) -> sound V (mret a) Q.
Proof. intros HQ σ Hwf HV. exists a, σ. auto. Qed.

Lemma sound_bind V {A B} (m : M A) (k : A -> M B) (Q1 : A -> Store -> Prop)
    (Q2 : B -> Store -> Prop) :
  sound V m Q1 -> (forall a, sound (fun σ => V σ /\ Q1 a σ) (k a) Q2) ->
  sound V (m ≫= k) Q2.
Proof.
  intros Hm Hk σ Hwf HV. destruct (Hm σ Hwf HV) as (a & σ1 & Hr & Hwf1 & HV1 & HQ1).
  destruct (Hk a σ1 Hwf1 (conj HV1 HQ1)) as (b & σ2 & Hr2 & Hwf2 & [HV2 _] & HQ2).
  exists b, σ2. by rewrite (bind_run _ _ _ _ _ Hr).
Qed.

Lemma sound_for_each V {A} (l : list A) (body : A -> M unit) :
  (forall x, x ∈ l -> sound V (body x) (fun _ _ => True)) ->
  sound V (for_each l body) (fun _ _ => True).
Proof.
  induction l as [|x l IH]; intros Hb; simpl.
  - by apply sound_ret.
  - eapply sound_bind; [apply Hb; left|]. intros _ σ Hwf [HV _].
    destruct (IH (fun y Hy => Hb y (list_elem_of_further _ _ _ Hy)) σ Hwf HV)
      as (a & σ' & ? & ? & ? & ?).
    exists a, σ'. split; [done|]. split; [done|]. split; [by split|done].
Qed.

Lemma sound_fold_M V {A B} (body : B -> A -> M B) (l : list A) (acc : B) :
  (forall b x, sound V (body b x) (fun _ _ => True)) ->
  sound V (fold_M body l acc) (fun _ _ => True).
Proof.
  intros Hb. revert acc. induction l as [|x l IH]; intros acc; simpl.
  - by apply sound_ret.
  - eapply sound_bind; [apply Hb|]. intros b σ Hwf [HV _].
    destruct (IH b σ Hwf HV) as (a & σ' & ? & ? & ? & ?).
    exists a, σ'. split; [done|]. split; [done|]. split; [by split|done].
Qed.

Lemma sound_post V {A} (m : M A) (Q Q' : A -> Store -> Prop) :
  sound V m Q -> (forall a σ, V σ -> Q a σ -> Q' a σ) -> sound V m Q'.
Proof.
  intros Hm HQ σ Hwf HV. destruct (Hm σ Hwf HV) as (a & σ' & ? & ? & ? & ?).
  exists a, σ'. eauto.
Qed.

(** A computation that only reads the store. *)
Lemma sound_read V {A} (m : M A) (f : Store -> A) :
  (forall σ, m σ = Some (f σ, σ)) -> sound V m (fun _ _ => True).
Proof. intros Hm σ Hwf HV. exists (f σ), σ. by rewrite Hm. Qed.

Ltac mono :=
  cbv beta;
  solve [ repeat first
    [ assumption
    | apply monotone_True
    | apply monotone_and
    | apply monotone_valid_partSpecs
    | apply monotone_valid_tableSpecs
    | apply monotone_valid_specs
    | apply monotone_valid_followSpecs
    | apply monotone_partSpec
    | apply monotone_tableSpec
    | apply monotone_followSpec ] ].

Section SoundPrimitives.
Context (V : Store -> Prop).

Lemma sound_get_partMap r :
  sound V (get_partMap r) (fun pm σ => valid_partSpecs σ pm).
Proof.
  intros σ Hwf HV. exists (partMaps σ !!! r), σ.
  split; [done|]. split; [done|]. split; [done|].
  rewrite list_lookup_total_alt.
  destruct (partMaps σ !! r) as [m|] eqn:Hm; [|apply map_Forall_empty].
  destruct Hwf as (H1 & _). by eapply Forall_lookup_1.
Qed.

Lemma sound_get_partSpec r :
  sound V (get_partSpec r) (fun ps σ => valid_tableSpecs σ (tables ps)).
Proof.
  intros σ Hwf HV. exists (partSpecs σ !!! r), σ.
  split; [done|]. split; [done|]. split; [done|].
  rewrite list_lookup_total_alt.
  destruct (partSpecs σ !! r) as [m|] eqn:Hm; [|apply map_Forall_empty].
  destruct Hwf as (_ & H2 & _). by eapply (Forall_lookup_1 _ _ _ _ H2).
Qed.

Lemma sound_get_tableSpec r :
  sound V (get_tableSpec r) (fun ts σ => valid_followSpecs σ (followers ts)).
Proof.
  intros σ Hwf HV. exists (tableSpecs σ !!! r), σ.
  split; [done|]. split; [done|]. split; [done|].
  rewrite list_lookup_total_alt.
  destruct (tableSpecs σ !! r) as [m|] eqn:Hm; [|apply map_Forall_empty].
  destruct Hwf as (_ & _ & H3). by eapply (Forall_lookup_1 _ _ _ _ H3).
Qed.

Context (HV : monotone V).

Lemma sound_arrays {A} (m : M A) (f : list (list string) -> list (list string)) a :
  (forall σ, m σ = Some (a σ, with_arrays f σ)) -> sound V m (fun _ _ => True).
Proof.
  intros Hm σ Hwf HVσ. exists (a σ), (with_arrays f σ). split; [done|].
  split; [done|]. split; [|done]. eapply HV; [|exact HVσ]. by repeat split.
Qed.

Lemma sound_new_partMap :
  sound V (new_partMap ∅) (fun _ _ => True).
Proof.
  intros σ (H1 & H2 & H3) HVσ. eexists _, _. split; [done|]. split; [|split; [|done]].
  - split; [|done]. simpl. apply Forall_app. split; [done|].
    constructor; [apply map_Forall_empty|done].
  - eapply HV; [|exact HVσ]. by repeat split.
Qed.

Lemma sound_new_partSpec ks :
  sound V (new_partSpec (mkPartitionSpec ks ∅))
    (fun r σ => (r < length (partSpecs σ))%nat).
Proof.
  intros σ (H1 & H2 & H3) HVσ.
  set (σ' := with_partSpecs (fun h => h ++ [mkPartitionSpec ks ∅]) σ).
  assert (Hg : grows σ σ').
  { repeat split; simpl; rewrite ?length_app; lia. }
  destruct (well_formed_grows σ σ' Hg H1 H2 H3) as (H1' & H2' & H3').
  exists (length (partSpecs σ)), σ'. split; [done|]. split; [|split].
  - split; [done|]. split; [|done]. simpl. apply Forall_app. split; [done|].
    constructor; [apply map_Forall_empty|done].
  - by eapply HV.
  - simpl. rewrite length_app. simpl. lia.
Qed.

Lemma sound_new_tableSpec w ws :
  sound V (new_tableSpec (mkTableSpec w ws ∅))
    (fun r σ => (r < length (tableSpecs σ))%nat).
Proof.
  intros σ (H1 & H2 & H3) HVσ.
  set (σ' := with_tableSpecs (fun h => h ++ [mkTableSpec w ws ∅]) σ).
  assert (Hg : grows σ σ').
  { repeat split; simpl; rewrite ?length_app; lia. }
  destruct (well_formed_grows σ σ' Hg H1 H2 H3) as (H1' & H2' & H3').
  exists (length (tableSpecs σ)), σ'. split; [done|]. split; [|split].
  - split; [done|]. split; [done|]. simpl. apply Forall_app. split; [done|].
    constructor; [apply map_Forall_empty|done].
  - by eapply HV.
  - simpl. rewrite length_app. simpl. lia.
Qed.

Lemma sound_new_followSpec fs :
  sound V (new_followSpec fs) (fun r σ => (r < length (followSpecs σ))%nat).
Proof.
  intros σ (H1 & H2 & H3) HVσ.
  set (σ' := with_followSpecs (fun h => h ++ [fs]) σ).
  assert (Hg : grows σ σ').
  { repeat split; simpl; rewrite ?length_app; lia. }
  destruct (well_formed_grows σ σ' Hg H1 H2 H3) as (H1' & H2' & H3').
  exists (length (followSpecs σ)), σ'. split; [done|]. split; [done|]. split.
  - by eapply HV.
  - simpl. rewrite length_app. simpl. lia.
Qed.

Lemma sound_set_partMap r m :
  (forall σ, V σ -> valid_partSpecs σ m) ->
  sound V (set_partMap r m) (fun _ _ => True).
Proof.
  intros Hm σ (H1 & H2 & H3) HVσ.
  set (σ' := with_partMaps (fun h => <[r := m]> h) σ).
  exists tt, σ'. split; [done|]. split; [|split; [|done]].
  - split; [|by split]. simpl. apply Forall_insert; [done|]. exact (Hm σ HVσ).
  - eapply HV; [|exact HVσ]. by repeat split.
Qed.

Lemma sound_set_partSpec r ps :
  (forall σ, V σ -> valid_tableSpecs σ (tables ps)) ->
  sound V (set_partSpec r ps) (fun _ _ => True).
Proof.
  intros Hm σ (H1 & H2 & H3) HVσ.
  set (σ' := with_partSpecs (fun h => <[r := ps]> h) σ).
  assert (Hg : grows σ σ').
  { repeat split; simpl; rewrite ?length_insert; lia. }
  destruct (well_formed_grows σ σ' Hg H1 H2 H3) as (H1' & H2' & H3').
  exists tt, σ'. split; [done|]. split; [|split; [by eapply HV|done]].
  split; [done|]. split; [|done]. simpl. apply Forall_insert; [done|].
  apply (monotone_valid_tableSpecs _ σ σ' Hg). by apply Hm.
Qed.

Lemma sound_set_tableSpec r ts :
  (forall σ, V σ -> valid_followSpecs σ (followers ts)) ->
  sound V (set_tableSpec r ts) (fun _ _ => True).
Proof.
  intros Hm σ (H1 & H2 & H3) HVσ.
  set (σ' := with_tableSpecs (fun h => <[r := ts]> h) σ).
  assert (Hg : grows σ σ').
  { repeat split; simpl; rewrite ?length_insert; lia. }
  destruct (well_formed_grows σ σ' Hg H1 H2 H3) as (H1' & H2' & H3').
  exists tt, σ'. split; [done|]. split; [|split; [by eapply HV|done]].
  split; [done|]. split; [done|]. simpl. apply Forall_insert; [done|].
  apply (monotone_valid_followSpecs _ σ σ' Hg). by apply Hm.
Qed.

End SoundPrimitives.

Section Primitives.
Context (J : Store -> Prop).

Lemma keeps_get_partMap r (Q : gmap string nat -> Prop) :
  (forall σ, J σ -> Q (partMaps σ !!! r)) -> keeps J (get_partMap r) Q.
Proof. intros HQ σ HJ. eexists _, σ. split; [done|]. auto. Qed.

Lemma keeps_get_partSpec r (Q : partitionSpec -> Prop) :
  (forall σ, J σ -> Q (partSpecs σ !!! r)) -> keeps J (get_partSpec r) Q.
Proof. intros HQ σ HJ. eexists _, σ. split; [done|]. auto. Qed.

Lemma keeps_get_tableSpec r (Q : tableSpec -> Prop) :
  (forall σ, J σ -> Q (tableSpecs σ !!! r)) -> keeps J (get_tableSpec r) Q.
Proof. intros HQ σ HJ. eexists _, σ. split; [done|]. auto. Qed.

Lemma keeps_get_followSpec r (Q : followSpec -> Prop) :
  (forall σ, J σ -> Q (followSpecs σ !!! r)) -> keeps J (get_followSpec r) Q.
Proof. intros HQ σ HJ. eexists _, σ. split; [done|]. auto. Qed.

Lemma keeps_set_partMap r m :
  (forall σ, J σ -> J (with_partMaps (fun h => <[r := m]> h) σ)) ->
  keeps J (set_partMap r m) (fun _ => True).
Proof. intros HJ' σ HJ. eexists tt, _. split; [done|]. auto. Qed.

Lemma keeps_set_partSpec r ps :
  (forall σ, J σ -> J (with_partSpecs (fun h => <[r := ps]> h) σ)) ->
  keeps J (set_partSpec r ps) (fun _ => True).
Proof. intros HJ' σ HJ. eexists tt, _. split; [done|]. auto. Qed.

Lemma keeps_set_tableSpec r ts :
  (forall σ, J σ -> J (with_tableSpecs (fun h => <[r := ts]> h) σ)) ->
  keeps J (set_tableSpec r ts) (fun _ => True).
Proof. intros HJ' σ HJ. eexists tt, _. split; [done|]. auto. Qed.

Lemma keeps_set_followSpec r fs :
  (forall σ, J σ -> J (with_followSpecs (fun h => <[r := fs]> h) σ)) ->
  keeps J (set_followSpec r fs) (fun _ => True).
Proof. intros HJ' σ HJ. eexists tt, _. split; [done|]. auto. Qed.

Lemma keeps_new_partMap m (Q : nat -> Prop) :
  (forall σ, J σ -> J (with_partMaps (fun h => h ++ [m]) σ) /\ Q (length (partMaps σ))) ->
  keeps J (new_partMap m) Q.
Proof. intros HJ' σ HJ. eexists _, _. split; [done|]. auto. Qed.

Lemma keeps_new_partSpec ps (Q : nat -> Prop) :
  (forall σ, J σ -> J (with_partSpecs (fun h => h ++ [ps]) σ) /\ Q (length (partSpecs σ))) ->
  keeps J (new_partSpec ps) Q.
Proof. intros HJ' σ HJ. eexists _, _. split; [done|]. auto. Qed.

Lemma keeps_new_tableSpec ts (Q : nat -> Prop) :
  (forall σ, J σ ->
     J (with_tableSpecs (fun h => h ++ [ts]) σ) /\ Q (length (tableSpecs σ))) ->
  keeps J (new_tableSpec ts) Q.
Proof. intros HJ' σ HJ. eexists _, _. split; [done|]. auto. Qed.

Lemma keeps_new_followSpec fs (Q : nat -> Prop) :
  (forall σ, J σ ->
     J (with_followSpecs (fun h => h ++ [fs]) σ) /\ Q (length (followSpecs σ))) ->
  keeps J (new_followSpec fs) Q.
Proof. intros HJ' σ HJ. eexists _, _. split; [done|]. auto. Qed.

End Primitives.

(** ** Invariants of the store along a computation

    [sound_in I V m Q]: from a store that satisfies the invariant [I] and
    the frame [V], the computation [m] does not panic and ends in a store
    that satisfies [I] and [V], where its result satisfies [Q]. *)
Definition sound_in (I V : Store -> Prop) {A} (m : M A) (Q : A -> Store -> Prop) : Prop :=
  forall σ, I σ -> V σ -> exists a σ', m σ = Some (a, σ') /\ I σ' /\ V σ' /\ Q a σ'.

Section SoundIn.
Context (I : Store -> Prop).

Lemma sound_in_ret V {A} (a : A) (Q : A -> Store -> Prop) :
  (forall σ, V σ -> Q a σ) -> sound_in I V (mret a) Q.
Proof. intros HQ σ HI HV. exists a, σ. auto. Qed.

Lemma sound_in_bind V {A B} (m : M A) (k : A -> M B) (Q1 : A -> Store -> Prop)
    (Q2 : B -> Store -> Prop) :
  sound_in I V m Q1 -> (forall a, sound_in I (fun σ => V σ /\ Q1 a σ) (k a) Q2) ->
  sound_in I V (m ≫= k) Q2.
Proof.
  intros Hm Hk σ HI HV. destruct (Hm σ HI HV) as (a & σ1 & Hr & HI1 & HV1 & HQ1).
  destruct (Hk a σ1 HI1 (conj HV1 HQ1)) as (b & σ2 & Hr2 & HI2 & [HV2 _] & HQ2).
  exists b, σ2. by rewrite (bind_run _ _ _ _ _ Hr).
Qed.

Lemma sound_in_post V {A} (m : M A) (Q Q' : A -> Store -> Prop) :
  sound_in I V m Q -> (forall a σ, V σ -> Q a σ -> Q' a σ) -> sound_in I V m Q'.
Proof.
  intros Hm HQ σ HI HV. destruct (Hm σ HI HV) as (a & σ' & ? & ? & ? & ?).
  exists a, σ'. eauto.
Qed.

Lemma sound_in_for_each V {A} (l : list A) (body : A -> M unit) :
  (forall x, x ∈ l -> sound_in I V (body x) (fun _ _ => True)) ->
  sound_in I V (for_each l body) (fun _ _ => True).
Proof.
  induction l as [|x l IH]; intros Hb; simpl.
  - by apply sound_in_ret.
  - eapply sound_in_bind; [apply Hb; left|]. intros u σ HI [HV _].
    destruct (IH (fun y Hy => Hb y (list_elem_of_further _ _ _ Hy)) σ HI HV)
      as (a & σ' & ? & ? & ? & ?).
    exists a, σ'. split; [done|]. split; [done|]. split; [by split|done].
Qed.

End SoundIn.

(** ** Slices of strings and [sortedPartitionKeys] *)

(** What a slice shows of its backing array, and the array after the
    elements that the slice shows have been replaced. *)
Definition window (s : slice) (a : list string) : list string :=
  take (len s) (drop (off s) a).

Definition set_window (s : slice) (w a : list string) : list string :=
  take (off s) a ++ w ++ drop (off s + len s) a.

Definition contents (σ : Store) (s : slice) : list string :=
  window s (arrays σ !!! arr s).

Section Sorting.
Context `{Sorter}.

(** [sort.Strings(x)]: the elements of [x] are sorted in place. *)
Definition sort_Strings (x : slice) : M unit :=
  a ← get_array (arr x);
  set_array (arr x) (set_window x (sort_Sort String.ltb (window x a)) a).

(** [strings.Join(x, sep)] *)
Definition strings_Join (x : slice) (sep : string) : M string :=
  a ← get_array (arr x);
  mret (String.concat sep (window x a)).

Definition sortedPartitionKeys (partitionKeys : slice) : M (string * slice) :=
  if (len partitionKeys =? 0)%nat then mret ("", partitionKeys)
  else
    sort_Strings partitionKeys;;
    joined ← strings_Join partitionKeys "|";
    mret (joined, partitionKeys).

End Sorting.

(** The order of Go strings, byte by byte, is a strict weak order. *)
Lemma string_compare_refl s : String.compare s s = Eq.
Proof.
  pose proof (String.compare_antisym s s) as Ha.
  destruct (String.compare s s); simpl in Ha; congruence.
Qed.

Lemma ascii_compare_lt_trans a b c :
  Ascii.compare a b = Lt -> Ascii.compare b c = Lt -> Ascii.compare a c = Lt.
Proof. unfold Ascii.compare. rewrite !N.compare_lt_iff. lia. Qed.

Lemma string_compare_lt_trans a b c :
  String.compare a b = Lt -> String.compare b c = Lt -> String.compare a c = Lt.
Proof.
  revert b c. induction a as [|x a IH]; intros [|y b] [|z c]; simpl; try done.
  destruct (Ascii.compare x y) eqn:Hxy; try done.
  - apply Ascii.compare_eq_iff in Hxy as ->.
    destruct (Ascii.compare y z); try done. apply IH.
  - destruct (Ascii.compare y z) eqn:Hyz; try done.
    + apply Ascii.compare_eq_iff in Hyz as <-. by rewrite Hxy.
    + by rewrite (ascii_compare_lt_trans x y z).
Qed.

Lemma string_ltb_StrictWeak : StrictWeak String.ltb.
Proof.
  assert (Hflip : forall a b, String.ltb b a = false ->
                    a = b \/ String.compare a b = Lt).
  { intros a b. unfold String.ltb. rewrite (String.compare_antisym b a).
    destruct (String.compare a b) eqn:Hab; simpl; try done; auto.
    left. by apply String.compare_eq_iff. }
  split.
  - intros a. unfold String.ltb. by rewrite string_compare_refl.
  - intros a b c. unfold String.ltb.
    destruct (String.compare a b) eqn:Hab; try done.
    destruct (String.compare b c) eqn:Hbc; try done.
    by rewrite (string_compare_lt_trans a b c).
  - intros a b c Hba Hcb.
    destruct (Hflip _ _ Hba) as [->|Hab]; [done|].
    destruct (Hflip _ _ Hcb) as [->|Hbc]; [done|].
    pose proof (string_compare_lt_trans _ _ _ Hab Hbc) as Hac.
    unfold String.ltb. rewrite (String.compare_antisym c a), Hac. done.
Qed.

Section SortedKeys.
Context `{Sorter}.

Lemma window_set_window s w a :
  (off s + len s <= length a)%nat -> length w = len s ->
  window s (set_window s w a) = w.
Proof.
  intros Hin Hw. unfold window, set_window.
  rewrite drop_app_length' by (rewrite length_take; lia).
  rewrite take_app_length' by done. done.
Qed.

(** [sortedPartitionKeys] returns the slice it was given.  For an empty key
    list it returns [("", keys)] and leaves the store as it is.  Otherwise it
    sorts the elements that the slice shows in its backing array: afterwards
    the slice shows the same keys in ascending order, the returned string is
    these keys joined by "|", and nothing else in the store has changed. *)
Lemma sortedPartitionKeys_sorts σ partitionKeys :
  (off partitionKeys + len partitionKeys
     <= length (arrays σ !!! arr partitionKeys))%nat ->
  (arr partitionKeys < length (arrays σ))%nat ->
  exists joined σ',
    sortedPartitionKeys partitionKeys σ = Some ((joined, partitionKeys), σ') /\
    (len partitionKeys = 0%nat -> joined = "" /\ σ' = σ) /\
    (len partitionKeys <> 0%nat ->
       contents σ' partitionKeys ≡ₚ contents σ partitionKeys /\
       ascending String.ltb (contents σ' partitionKeys) /\
       joined = String.concat "|" (contents σ' partitionKeys) /\
       σ' = with_arrays
              (fun h => <[arr partitionKeys :=
                            set_window partitionKeys (contents σ' partitionKeys)
                              (arrays σ !!! arr partitionKeys)]> h) σ).
Proof.
  intros Hin Harr. unfold sortedPartitionKeys.
  destruct (Nat.eqb_spec (len partitionKeys) 0) as [Hz|Hnz].
  - exists "", σ. repeat split; done.
  - set (a := arrays σ !!! arr partitionKeys) in *.
    set (w := sort_Sort String.ltb (window partitionKeys a)).
    set (σ' := with_arrays (fun h => <[arr partitionKeys :=
                  set_window partitionKeys w a]> h) σ).
    assert (Hlen : length w = len partitionKeys).
    { unfold w. rewrite (sort_Sort_perm _ String.ltb).
      unfold window. rewrite length_take, length_drop. lia. }
    assert (Hc : contents σ' partitionKeys = w).
    { unfold contents, σ'. simpl.
      rewrite list_lookup_total_insert_eq by done.
      by apply window_set_window. }
    exists (String.concat "|" w), σ'. split; [|split; [done|]].
    + unfold sort_Strings, strings_Join, mbind, M_bind, get_array, set_array, mret, M_ret.
      fold a. fold w. fold σ'.
      change (arrays σ' !!! arr partitionKeys) with
        (<[arr partitionKeys := set_window partitionKeys w a]> (arrays σ)
           !!! arr partitionKeys).
      rewrite list_lookup_total_insert_eq by done.
      by rewrite window_set_window.
    + intros _. rewrite Hc. repeat split.
      * apply sort_Sort_perm.
      * apply sort_Sort_ascending, string_ltb_StrictWeak.
Qed.

Lemma sortedPartitionKeys_total partitionKeys σ :
  exists joined σ', sortedPartitionKeys partitionKeys σ = Some ((joined, partitionKeys), σ').
Proof.
  unfold sortedPartitionKeys. destruct (len partitionKeys =? 0)%nat; by eexists _, _.
Qed.

Lemma string_ltb_antisym a b : String.ltb b a = false -> String.ltb a b = false -> a = b.
Proof.
  unfold String.ltb. rewrite (String.compare_antisym a b).
  destruct (String.compare b a) eqn:Hba; simpl; try done.
  intros _ _. symmetry. by apply String.compare_eq_iff.
Qed.

Lemma contents_length σ s :
  (off s + len s <= length (arrays σ !!! arr s))%nat -> length (contents σ s) = len s.
Proof. intros Hin. unfold contents, window. rewrite length_take, length_drop. lia. Qed.

(** The key string does not depend on the order in which a follower lists
    its partition keys: two key lists with the same keys, each a slice
    within its array, get the same string from [sortedPartitionKeys], and
    show the same list afterwards. *)
Theorem sortedPartitionKeys_canonical σ1 σ2 keys1 keys2 :
  (off keys1 + len keys1 <= length (arrays σ1 !!! arr keys1))%nat ->
  (arr keys1 < length (arrays σ1))%nat ->
  (off keys2 + len keys2 <= length (arrays σ2 !!! arr keys2))%nat ->
  (arr keys2 < length (arrays σ2))%nat ->
  contents σ1 keys1 ≡ₚ contents σ2 keys2 ->
  exists joined σ1' σ2',
    sortedPartitionKeys keys1 σ1 = Some ((joined, keys1), σ1') /\
    sortedPartitionKeys keys2 σ2 = Some ((joined, keys2), σ2') /\
    contents σ1' keys1 = contents σ2' keys2.
Proof.
  intros Hin1 Harr1 Hin2 Harr2 Hperm.
  destruct (sortedPartitionKeys_sorts σ1 keys1 Hin1 Harr1) as (j1 & σ1' & Hs1 & Hz1 & Hnz1).
  destruct (sortedPartitionKeys_sorts σ2 keys2 Hin2 Harr2) as (j2 & σ2' & Hs2 & Hz2 & Hnz2).
  assert (Hlen : len keys1 = len keys2).
  { rewrite <- (contents_length σ1), <- (contents_length σ2) by done. by rewrite Hperm. }
  destruct (decide (len keys1 = 0%nat)) as [Hz|Hnz].
  - destruct (Hz1 Hz) as [-> ->]. destruct Hz2 as [-> ->]; [congruence|].
    exists "", σ1, σ2. repeat split; try done.
    pose proof (contents_length σ1 keys1 Hin1) as Hl1.
    pose proof (contents_length σ2 keys2 Hin2) as Hl2.
    rewrite Hz in Hl1. rewrite <- Hlen, Hz in Hl2.
    apply nil_length_inv in Hl1. apply nil_length_inv in Hl2. congruence.
  - destruct (Hnz1 Hnz) as (Hp1 & Ha1 & -> & _).
    destruct Hnz2 as (Hp2 & Ha2 & -> & _); [congruence|].
    assert (Heq : contents σ1' keys1 = contents σ2' keys2).
    { apply (StronglySorted_unique_strong (not_after String.ltb)); [|done|done|].
      - intros a b _ _. unfold not_after. intros Hba Hab. by apply string_ltb_antisym.
      - by rewrite Hp1, Hp2. }
    exists (String.concat "|" (contents σ1' keys1)), σ1', σ2'.
    split; [done|]. split; [by rewrite Heq|done].
Qed.

End SortedKeys.

(** ** The map/reduce pipeline: what travels on the channels *)

Record table := mkTable {
  Name : string;
  PartitionBy : slice;
  Where : option Expr
}.

(** The fields [partitions] and [entry] of [partitionRequest] are
    [req_partitions] and [req_entry] here. *)
Record partitionRequest := mkPartitionRequest {
  req_partitions : nat;
  req_entry : walEntry
}.

Record partitionResult := mkPartitionResult {
  pid : Z;
  wherePassed : gmap string bool
}.

Record partitionsResult := mkPartitionsResult {
  entry : walEntry;
  partitions : gmap string partitionResult
}.

Definition partitionsResultsByOffset_Less (ri rj : partitionsResult) : bool :=
  After (offset (entry rj)) (offset (entry ri)).

Section Reducer.
Context `{Sorter}.

(** What [reducePartitionRequests] has done when it stops: the values sent
    on [results], the number of [drained] signals, and whether it reached
    [close(results)] (otherwise it is waiting on [mapped]). *)
Record reduced := mkReduced {
  results : list partitionsResult;
  drained : nat;
  results_closed : bool
}.

(** [reducePartitionRequests], on the batch sizes received from [queued]
    until it is closed and the values that arrive on [mapped]. *)
Fixpoint reducePartitionRequests (queued : list nat) (mapped : list partitionsResult)
    : reduced :=
  match queued with
  | [] => mkReduced [] 0 true
  | numQueued :: queued =>
      if (length mapped <? numQueued)%nat then mkReduced [] 0 false
      else
        let buf := take numQueued mapped in
        let rest := reducePartitionRequests queued (drop numQueued mapped) in
        mkReduced (sort_Sort partitionsResultsByOffset_Less buf ++ results rest)
          (S (drained rest)) (results_closed rest)
  end.


(** A batch as the reducer forwards it. *)
Definition forwarded (buf : list partitionsResult) : list partitionsResult :=
  sort_Sort partitionsResultsByOffset_Less buf.

Lemma forwarded_perm buf : forwarded buf ≡ₚ buf.
Proof. apply sort_Sort_perm. Qed.


(** When every batch arrives in full, the reducer takes the batches
    [reshape queued mapped] from [mapped] one after the other, forwards each one sorted, signals
    [drained] after each, and closes [results]. *)
Lemma reducePartitionRequests_batches queued mapped :
  (sum_list queued <= length mapped)%nat ->
  results (reducePartitionRequests queued mapped)
    = mjoin (forwarded <$> reshape queued mapped) /\
  drained (reducePartitionRequests queued mapped) = length queued /\
  results_closed (reducePartitionRequests queued mapped) = true /\
  Forall2 (fun n b => length b = n) queued (reshape queued mapped) /\
  mjoin (reshape queued mapped) = take (sum_list queued) mapped.
Proof.
  revert mapped. induction queued as [|n queued IH]; intros mapped Hlen; simpl in *.
  - repeat split; constructor.
  - destruct (Nat.ltb_spec (length mapped) n) as [Hlt|_]; [lia|].
    destruct (IH (drop n mapped)) as (Hr & Hd & Hc & Hf & Hj).
    { rewrite length_drop. lia. }
    simpl. rewrite Hr, Hd, Hc, Hj. repeat split.
    + constructor; [|done]. rewrite length_take. lia.
    + by rewrite take_take_drop.
Qed.





End Reducer.

(** ** The enqueuer: [startParallelEntryProcessing] and [enqueuePartitionRequests] *)

(** [parallelism := runtime.NumCPU() - 1], at least 1. *)
Definition parallelism_for (numCPU : Z) : Z :=
  let parallelism := int_dec numCPU in
  if parallelism <? 1 then 1 else parallelism.

(** What [enqueuePartitionRequests] does on its channels, in order. *)
Inductive enqueue_action :=
| SendIn (req : partitionRequest)
| SendQueued (q : Z)
| RecvDrained
| Sleep
| CloseIn
| CloseQueued.

(** [markQueued]: the actions, and [q] afterwards. *)
Definition markQueued (q : Z) : list enqueue_action * Z :=
  if 0 <? q then ([SendQueued q; RecvDrained], 0) else ([], q).

(** One turn of [requestsLoop] in which the select receives a request
    ([Some req]) or takes its default branch ([None]). *)
Definition enqueue_turn (parallelism : Z) (poll : option partitionRequest) (q : Z)
    : list enqueue_action * Z :=
  match poll with
  | Some req =>
      let q := int_inc q in
      if q =? parallelism then
        let '(acts, q) := markQueued q in (SendIn req :: acts, q)
      else ([SendIn req], q)
  | None =>
      let '(acts, q) := markQueued q in (acts ++ [Sleep], q)
  end.

(** The turns [polls], after which [requests] is found closed: the receive
    gives [nil, false], the loop is left, and what remains is marked queued
    before [in] and [queued] are closed. *)
Fixpoint enqueue_loop (parallelism : Z) (polls : list (option partitionRequest)) (q : Z)
    : list enqueue_action :=
  match polls with
  | [] => (markQueued q).1 ++ [CloseIn; CloseQueued]
  | poll :: polls =>
      let '(acts, q) := enqueue_turn parallelism poll q in
      acts ++ enqueue_loop parallelism polls q
  end.

Definition enqueuePartitionRequests (parallelism : Z) (polls : list (option partitionRequest))
    : list enqueue_action :=
  enqueue_loop parallelism polls 0.

(** The requests sent on [in] and the batch sizes sent on [queued]. *)
Definition sent_in (acts : list enqueue_action) : list partitionRequest :=
  omap (fun a => match a with SendIn req => Some req | _ => None end) acts.

Definition sent_queued (acts : list enqueue_action) : list Z :=
  omap (fun a => match a with SendQueued q => Some q | _ => None end) acts.

Lemma wrap64_range z : - 2 ^ 63 <= wrap64 z < 2 ^ 63.
Proof.
  unfold wrap64. pose proof (Z.mod_pos_bound (z + 2 ^ 63) (2 ^ 64) ltac:(lia)). lia.
Qed.

Lemma parallelism_for_range numCPU : 1 <= parallelism_for numCPU < 2 ^ 63.
Proof.
  unfold parallelism_for, int_dec. pose proof (wrap64_range (numCPU - 1)).
  destruct (Z.ltb_spec (wrap64 (numCPU - 1)) 1); lia.
Qed.

Lemma sent_in_app a b : sent_in (a ++ b) = sent_in a ++ sent_in b.
Proof. apply omap_app. Qed.

Lemma sent_queued_app a b : sent_queued (a ++ b) = sent_queued a ++ sent_queued b.
Proof. apply omap_app. Qed.

(** The sum of a list of batch sizes. *)
Definition total (qs : list Z) : Z := foldr Z.add 0 qs.

Lemma total_app a b : total (a ++ b) = total a + total b.
Proof. unfold total. induction a as [|x a IH]; simpl; lia. Qed.

Lemma enqueue_loop_batches parallelism polls q :
  1 <= parallelism < 2 ^ 63 -> 0 <= q < parallelism ->
  sent_in (enqueue_loop parallelism polls q) = omap id polls /\
  Forall (fun n => 1 <= n <= parallelism) (sent_queued (enqueue_loop parallelism polls q)) /\
  total (sent_queued (enqueue_loop parallelism polls q))
    = q + Z.of_nat (length (omap id polls)) /\
  [CloseIn; CloseQueued] `suffix_of` enqueue_loop parallelism polls q.
Proof.
  intros Hp. revert q. induction polls as [|poll polls IH]; intros q Hq.
  - simpl. unfold markQueued. destruct (Z.ltb_spec 0 q); simpl.
    + split; [done|]. split; [repeat constructor; lia|].
      split; [unfold total; simpl; lia|]. by exists [SendQueued q; RecvDrained].
    + split; [done|]. split; [constructor|].
      split; [unfold total; simpl; lia|]. by exists [].
  - csimpl. destruct poll as [req|]; csimpl.
    + unfold int_inc. rewrite wrap64_small by lia.
      destruct (Z.eqb_spec (q + 1) parallelism) as [Heq|Hne].
      * unfold markQueued. destruct (Z.ltb_spec 0 (q + 1)); [|lia].
        destruct (IH 0) as (Hin & Hall & Hsum & Hsuf); [lia|].
        csimpl. rewrite Hin. split; [done|]. split; [constructor; [lia|done]|].
        split; [unfold total in *; csimpl; rewrite Hsum; lia|].
        by apply suffix_cons_r, suffix_cons_r, suffix_cons_r.
      * destruct (IH (q + 1)) as (Hin & Hall & Hsum & Hsuf); [lia|].
        csimpl. rewrite Hin. split; [done|]. split; [done|].
        split; [rewrite Hsum; lia|]. by apply suffix_cons_r.
    + unfold markQueued. destruct (Z.ltb_spec 0 q); csimpl.
      * destruct (IH 0) as (Hin & Hall & Hsum & Hsuf); [lia|].
        split; [done|]. split; [constructor; [lia|done]|].
        split; [unfold total in *; csimpl; rewrite Hsum; lia|].
        by apply suffix_cons_r, suffix_cons_r, suffix_cons_r.
      * destruct (IH q) as (Hin & Hall & Hsum & Hsuf); [lia|].
        split; [done|]. split; [done|]. split; [done|]. by apply suffix_cons_r.
Qed.

(** A batch as the enqueuer handles it: its requests go on [in], then their
    number goes on [queued] and the enqueuer waits for [drained]. *)
Definition enqueued_batch (batch : list partitionRequest) : list enqueue_action :=
  (SendIn <$> batch) ++ [SendQueued (Z.of_nat (length batch)); RecvDrained].

Definition awake (a : enqueue_action) : Prop :=
  match a with Sleep => False | _ => True end.

#[local] Instance awake_dec a : Decision (awake a).
Proof. destruct a; simpl; apply _. Defined.

Lemma enqueue_loop_trace parallelism polls pending :
  1 <= parallelism < 2 ^ 63 -> Z.of_nat (length pending) < parallelism ->
  let acts := enqueue_loop parallelism polls (Z.of_nat (length pending)) in
  (SendIn <$> pending) ++ filter awake acts
  = mjoin (enqueued_batch <$>
             reshape (Z.to_nat <$> sent_queued acts) (pending ++ omap id polls))
    ++ [CloseIn; CloseQueued].
Proof.
  intros Hp. revert pending. induction polls as [|poll polls IH]; intros pending Hq.
  - csimpl. unfold markQueued. destruct (Z.ltb_spec 0 (Z.of_nat (length pending))); csimpl.
    + rewrite Nat2Z.id, !app_nil_r, take_ge by lia.
      rewrite !filter_cons, !decide_True, filter_nil by done.
      unfold enqueued_batch. by rewrite <- app_assoc.
    + destruct pending; [done|simpl in *; lia].
  - csimpl. destruct poll as [req|]; csimpl.
    + unfold int_inc. rewrite wrap64_small by lia.
      destruct (Z.eqb_spec (Z.of_nat (length pending) + 1) parallelism) as [Heq|Hne].
      * unfold markQueued. destruct (Z.ltb_spec 0 (Z.of_nat (length pending) + 1)); [|lia].
        specialize (IH [] ltac:(simpl; lia)). csimpl in IH.
        change (Z.of_nat 0) with 0 in IH. csimpl.
        rewrite !filter_cons, !decide_True by done.
        assert (Hsplit : pending ++ req :: omap id polls
                         = (pending ++ [req]) ++ omap id polls)
          by (by rewrite <- app_assoc).
        assert (Hlen : Z.to_nat (Z.of_nat (length pending) + 1)
                       = length (pending ++ [req]))
          by (rewrite length_app; simpl; lia).
        rewrite Hsplit, Hlen, take_app_length, drop_app_length, IH.
        unfold enqueued_batch at 2. rewrite fmap_app, length_app, <- !app_assoc.
        csimpl. by rewrite Nat2Z.inj_add.
      * specialize (IH (pending ++ [req])). rewrite length_app in IH. csimpl in IH.
        rewrite Nat2Z.inj_add in IH. change (Z.of_nat 1) with 1 in IH.
        rewrite filter_app, sent_queued_app. csimpl.
        rewrite fmap_app, <- !app_assoc in IH. csimpl in IH. apply IH. lia.
    + unfold markQueued. destruct (Z.ltb_spec 0 (Z.of_nat (length pending))); csimpl.
      * specialize (IH [] ltac:(simpl; lia)). csimpl in IH.
        change (Z.of_nat 0) with 0 in IH.
        rewrite filter_cons, decide_True by done.
        rewrite filter_cons, decide_True by done.
        rewrite filter_cons, decide_False by (by intros Hs).
        rewrite Nat2Z.id, take_app_length, drop_app_length, IH.
        unfold enqueued_batch at 2. by rewrite <- !app_assoc.
      * destruct pending; [|simpl in *; lia].
        rewrite filter_cons, decide_False by (by intros Hs).
        apply (IH []). simpl. lia.
Qed.

Lemma enqueuePartitionRequests_trace_facts numCPU polls :
  sent_in (enqueuePartitionRequests (parallelism_for numCPU) polls) = omap id polls /\
  Forall (fun n => 1 <= n <= parallelism_for numCPU)
    (sent_queued (enqueuePartitionRequests (parallelism_for numCPU) polls)) /\
  total (sent_queued (enqueuePartitionRequests (parallelism_for numCPU) polls))
    = Z.of_nat (length (omap id polls)).
Proof.
  pose proof (parallelism_for_range numCPU) as Hp.
  destruct (enqueue_loop_batches (parallelism_for numCPU) polls 0 Hp)
    as (Hin & Hall & Hsum & Hsuf); [lia|].
  unfold enqueuePartitionRequests. by rewrite Hsum.
Qed.

(** Whatever the number of CPUs and however the requests and the idle turns
    alternate, when [requests] is closed the enqueuer has sent on [in]
    every request it received, in the order received, and has reported them
    on [queued] in batches of at least 1 and at most [parallelism] requests
    that add up to the number of requests.  Apart from sleeping, what it has
    done is: batch after batch, the requests on [in], then their number on
    [queued] and the wait for [drained], no request of a later batch being
    sent before; and at the end the closing of [in] and [queued]. *)
Theorem enqueuePartitionRequests_batches numCPU polls :
  let acts := enqueuePartitionRequests (parallelism_for numCPU) polls in
  sent_in acts = omap id polls /\
  Forall (fun n => 1 <= n <= parallelism_for numCPU) (sent_queued acts) /\
  total (sent_queued acts) = Z.of_nat (length (omap id polls)) /\
  filter awake acts
  = mjoin (enqueued_batch <$> reshape (Z.to_nat <$> sent_queued acts) (omap id polls))
    ++ [CloseIn; CloseQueued].
Proof.
  pose proof (parallelism_for_range numCPU) as Hp. simpl.
  destruct (enqueue_loop_batches (parallelism_for numCPU) polls 0 Hp)
    as (Hin & Hall & Hsum & Hsuf); [lia|].
  unfold enqueuePartitionRequests. rewrite Hsum.
  split; [done|]. split; [done|]. split; [done|].
  apply (enqueue_loop_trace (parallelism_for numCPU) polls [] Hp). simpl. lia.
Qed.

Section Pipeline.
Context `{Sorter}.

(** How far the reducer gets, whatever arrives on [mapped]: it forwards,
    each sorted, the batches that arrive in full before the first one that
    does not, signalling [drained] for each; it closes [results] exactly when
    every batch arrives in full, and waits on [mapped] otherwise, with
    nothing of the incomplete batch forwarded. *)
Theorem reducePartitionRequests_complete_batches queued mapped :
  let r := reducePartitionRequests queued mapped in
  results r = mjoin (forwarded <$> reshape (take (drained r) queued) mapped) /\
  (drained r <= length queued)%nat /\
  (sum_list (take (drained r) queued) <= length mapped)%nat /\
  results_closed r = bool_decide (sum_list queued <= length mapped)%nat /\
  (results_closed r = true -> drained r = length queued) /\
  (results_closed r = false ->
   (length mapped < sum_list (take (S (drained r)) queued))%nat).
Proof.
  simpl. revert mapped. induction queued as [|n queued IH]; intros mapped.
  - simpl. split; [done|]. split; [lia|]. split; [lia|].
    split; [done|]. split; [done|]. done.
  - simpl. destruct (Nat.ltb_spec (length mapped) n) as [Hlt|Hge]; simpl.
    + split; [done|]. split; [lia|]. split; [lia|].
      split; [by rewrite bool_decide_eq_false_2 by lia|]. split; [done|].
      intros _. lia.
    + destruct (IH (drop n mapped)) as (Hr & Hd & Hs & Hc & Hct & Hcf).
      rewrite length_drop in Hs, Hc, Hcf.
      rewrite Hr. split; [done|]. split; [lia|]. split; [lia|]. split; [|split].
      * rewrite Hc. apply bool_decide_ext. lia.
      * intros Hcl. by rewrite Hct.
      * intros Hcl. specialize (Hcf Hcl). simpl in Hcf. lia.
Qed.

Lemma join_fmap_perm {A} (f : list A -> list A) (ls : list (list A)) :
  (forall l, f l ≡ₚ l) -> mjoin (f <$> ls) ≡ₚ mjoin ls.
Proof.
  intros Hf. induction ls as [|l ls IH]; [done|]. csimpl. by rewrite Hf, IH.
Qed.

Lemma sum_list_to_nat (qs : list Z) :
  Forall (fun n => 0 <= n) qs -> Z.of_nat (sum_list (Z.to_nat <$> qs)) = total qs.
Proof.
  unfold total. induction 1 as [|q qs Hq Hqs IH]; [done|]. csimpl. lia.
Qed.

(** The enqueuer and the reducer together: when one result arrives on
    [mapped] for each request that the enqueuer received, the reducer
    forwards every result exactly once, signals [drained] for every batch
    and closes [results]. *)
Theorem pipeline_forwards_every_result numCPU polls mapped :
  let acts := enqueuePartitionRequests (parallelism_for numCPU) polls in
  let r := reducePartitionRequests (Z.to_nat <$> sent_queued acts) mapped in
  length mapped = length (sent_in acts) ->
  results r ≡ₚ mapped /\
  drained r = length (sent_queued acts) /\
  results_closed r = true.
Proof.
  simpl. intros Hlen.
  destruct (enqueuePartitionRequests_trace_facts numCPU polls) as (Hin & Hall & Hsum).
  set (acts := enqueuePartitionRequests (parallelism_for numCPU) polls) in *.
  assert (Hs : sum_list (Z.to_nat <$> sent_queued acts) = length mapped).
  { apply Nat2Z.inj. rewrite sum_list_to_nat, Hsum, Hlen, Hin; [done|].
    eapply Forall_impl; [exact Hall|]. simpl. lia. }
  destruct (reducePartitionRequests_batches (Z.to_nat <$> sent_queued acts) mapped)
    as (Hr & Hd & Hc & _ & Hj); [lia|].
  rewrite Hr, Hd, Hc, length_fmap. split; [|done].
  rewrite join_fmap_perm by apply forwarded_perm.
  by rewrite Hj, Hs, firstn_all.
Qed.

End Pipeline.

(** ** The map workers: [mapPartitionRequest]

    A worker reads the tree that came with the request and changes nothing
    in it, so it is a function of the store here.  [encoding.Read] and
    [encoding.ReadInt32] are outside src/: [parseDims data] stands for the
    dimension bytes that the three reads cut out of [data] (after the 64-bit
    timestamp and the 32-bit length), and is [None] when a read panics on
    data that is too short.  The deferred [recover] turns every panic of the
    function into a return without a send on [mapped]: the result is the
    hasher and the value sent, or [None] when nothing is sent. *)
Section Mapper.
Context {H : Type} `{Hash32 H}.
Variable ByteMap_get : list Byte.byte -> string -> option (list Byte.byte).
Variable parseDims : list Byte.byte -> option (list Byte.byte).
Variable numPartitions : Z.

(** [for _, x := range l { acc = body(acc, x) }] where the body can panic. *)
Fixpoint fold_option {A B} (body : B -> A -> option B) (l : list A) (acc : B) : option B :=
  match l with
  | [] => Some acc
  | x :: l => match body acc x with
              | Some acc => fold_option body l acc
              | None => None
              end
  end.

(** [table.where == nil || table.where.Eval(dims).(bool)] *)
Definition evalWhere (where_ : option Expr) (dims : list Byte.byte) : option bool :=
  match where_ with
  | None => Some true
  | Some e => Expr_Eval e dims
  end.

(** The body of [for tableName, table := range partition.tables]; [acc] is
    [whereResults] and [pr.wherePassed]. *)
Definition mapTable (σ : Store) (dims : list Byte.byte) (pid : Z)
    (acc : gmap string bool * gmap string bool) (kv : string * nat)
    : option (gmap string bool * gmap string bool) :=
  let table := tableSpecs σ !!! kv.2 in
  let specs := default [] (followers table !! pid) in
  if (length specs =? 0)%nat then Some acc
  else
    match acc.1 !! whereString table with
    | Some wherePassed => Some (acc.1, <[kv.1 := wherePassed]> acc.2)
    | None =>
        match evalWhere (where_ table) dims with
        | Some wherePassed =>
            Some (<[whereString table := wherePassed]> acc.1,
                  <[kv.1 := wherePassed]> acc.2)
        | None => None
        end
    end.

(** The body of [for partitionKeys, partition := range partitions]; [acc]
    is the hasher, [whereResults] and [result.partitions]. *)
Definition mapPartition (σ : Store) (dims : list Byte.byte)
    (acc : H * gmap string bool * gmap string partitionResult) (kv : string * nat)
    : option (H * gmap string bool * gmap string partitionResult) :=
  let '(h, whereResults, parts) := acc in
  let partition := partSpecs σ !!! kv.2 in
  match partitionFor ByteMap_get numPartitions h dims (contents σ (keys partition)) with
  | None => None
  | Some (h, pid) =>
      match fold_option (mapTable σ dims pid) (map_to_list (tables partition))
              (whereResults, ∅) with
      | None => None
      | Some (whereResults, wherePassed) =>
          Some (h, whereResults, <[kv.1 := mkPartitionResult pid wherePassed]> parts)
      end
  end.

Definition mapPartitionRequest (σ : Store) (h : H) (req : partitionRequest)
    : option (H * partitionsResult) :=
  match parseDims (data (req_entry req)) with
  | None => None
  | Some dims =>
      match fold_option (mapPartition σ dims)
              (map_to_list (partMaps σ !!! req_partitions req)) (h, ∅, ∅) with
      | None => None
      | Some (h, _, parts) => Some (h, mkPartitionsResult (req_entry req) parts)
      end
  end.


Lemma fold_option_inv {A B} (body : B -> A -> option B) (I : list A -> B -> Prop) l acc b :
  I [] acc ->
  (forall done x rest b b',
     l = done ++ x :: rest -> I done b -> body b x = Some b' -> I (done ++ [x]) b') ->
  fold_option body l acc = Some b -> I l b.
Proof.
  intros Hacc Hstep.
  assert (G : forall rest done acc,
            l = done ++ rest -> I done acc -> fold_option body rest acc = Some b ->
            I l b).
  { induction rest as [|x rest IH]; intros done acc' Hl Hd Hf; simpl in Hf.
    - simplify_eq. by rewrite app_nil_r.
    - destruct (body acc' x) as [acc1|] eqn:Hb; [|done].
      apply (IH (done ++ [x]) acc1); [by rewrite <- app_assoc| |done].
      by eapply Hstep. }
  by apply (G l [] acc).
Qed.

(** [followers_on σ ts pid] is [table.followers[pid]] for the table [ts]. *)
Definition followers_on (σ : Store) (ts : nat) (pid : Z) : list nat :=
  default [] (followers (tableSpecs σ !!! ts) !! pid).

(** The tables of a tree. *)
Definition in_tree (σ : Store) (partitions ts : nat) : Prop :=
  exists k ps t,
    (partMaps σ !!! partitions) !! k = Some ps /\
    tables (partSpecs σ !!! ps) !! t = Some ts.

(** [memo_of σ dims partitions whereResults]: every answer that
    [whereResults] holds for a string is the value, on [dims], of the
    predicate of a table of the tree that has this [whereString]. *)
Definition memo_of (σ : Store) (dims : list Byte.byte) (partitions : nat)
    (whereResults : gmap string bool) : Prop :=
  forall ws b, whereResults !! ws = Some b ->
    exists ts, in_tree σ partitions ts /\
      whereString (tableSpecs σ !!! ts) = ws /\
      evalWhere (where_ (tableSpecs σ !!! ts)) dims = Some b.

(** What [pr.wherePassed] holds for the tables [tbl] of a partition, given
    the final [whereResults]: nothing for a table without specs for [pid],
    and the answer for its [whereString] otherwise. *)
Definition answers (σ : Store) (tbl : gmap string nat) (pid : Z)
    (whereResults wherePassed : gmap string bool) : Prop :=
  forall t,
    match tbl !! t with
    | None => wherePassed !! t = None
    | Some ts =>
        if (length (followers_on σ ts pid) =? 0)%nat then wherePassed !! t = None
        else exists b, wherePassed !! t = Some b /\
                       whereResults !! whereString (tableSpecs σ !!! ts) = Some b
    end.

Lemma answers_mono σ tbl pid C C' wp :
  C ⊆ C' -> answers σ tbl pid C wp -> answers σ tbl pid C' wp.
Proof.
  intros Hsub Ha t. specialize (Ha t). destruct (tbl !! t) as [ts|]; [|done].
  destruct (length (followers_on σ ts pid) =? 0)%nat; [done|].
  destruct Ha as (b & Hb & Hc). exists b. split; [done|].
  by eapply lookup_weaken.
Qed.

Lemma mapTables_post σ dims partitions pid tbl C0 C wp :
  (forall t ts, tbl !! t = Some ts -> in_tree σ partitions ts) ->
  memo_of σ dims partitions C0 ->
  fold_option (mapTable σ dims pid) (map_to_list tbl) (C0, ∅) = Some (C, wp) ->
  C0 ⊆ C /\ memo_of σ dims partitions C /\ answers σ tbl pid C wp.
Proof.
  intros Htree Hmemo Hfold.
  pose (I := fun (done : list (string * nat)) (acc : gmap string bool * gmap string bool) =>
    C0 ⊆ acc.1 /\ memo_of σ dims partitions acc.1 /\
    (forall t, t ∉ done.*1 -> acc.2 !! t = None) /\
    (forall t ts, (t, ts) ∈ done ->
       if (length (followers_on σ ts pid) =? 0)%nat then acc.2 !! t = None
       else exists b, acc.2 !! t = Some b /\
                      acc.1 !! whereString (tableSpecs σ !!! ts) = Some b)).
  assert (HI : I (map_to_list tbl) (C, wp)).
  { apply (fold_option_inv (mapTable σ dims pid) I _ (C0, ∅)); [| |done].
    - split; [done|]. split; [done|]. split; [by intros|].
      intros t ts Hin. by apply elem_of_nil in Hin.
    - intros done [t ts] rest [C1 wp1] [C2 wp2] Hl (Hsub & Hm & Hout & Hin) Hbody.
      assert (Hnd : NoDup (done ++ (t, ts) :: rest).*1).
      { rewrite <- Hl. apply NoDup_fst_map_to_list. }
      rewrite fmap_app in Hnd. apply NoDup_app in Hnd as (Hnd1 & Hnd12 & Hnd2).
      assert (Ht : t ∉ done.*1).
      { intros Hd. apply (Hnd12 t Hd). csimpl. left. }
      assert (Hts : in_tree σ partitions ts).
      { apply (Htree t). apply elem_of_map_to_list. rewrite Hl.
        apply elem_of_app. right. left. }
      unfold mapTable in Hbody. simpl in Hbody. fold (followers_on σ ts pid) in Hbody.
      simpl in *.
      assert (Hold : forall t' ts' (C' wp' : gmap string bool),
                C1 ⊆ C' -> (t', ts') ∈ done -> wp' !! t' = wp1 !! t' ->
                if (length (followers_on σ ts' pid) =? 0)%nat then wp' !! t' = None
                else exists b, wp' !! t' = Some b /\
                       C' !! whereString (tableSpecs σ !!! ts') = Some b).
      { intros t' ts' C' wp' HC Hd Hwp. specialize (Hin t' ts' Hd).
        destruct (length (followers_on σ ts' pid) =? 0)%nat; [congruence|].
        destruct Hin as (b & Hb & Hc). exists b. split; [congruence|].
        by eapply lookup_weaken. }
      assert (Hne : forall t' ts', (t', ts') ∈ done -> t' <> t).
      { intros t' ts' Hd ->. apply Ht. apply list_elem_of_fmap. by exists (t, ts'). }
      destruct (length (followers_on σ ts pid) =? 0)%nat eqn:Hlen.
      + simplify_eq. split; [done|]. split; [done|]. split.
        * intros t' Hn. apply Hout. rewrite fmap_app in Hn.
          intros Hd. apply Hn, elem_of_app. by left.
        * intros t' ts' [Hd|Hd]%elem_of_app.
          -- by apply (Hold t' ts' C2 wp2).
          -- apply list_elem_of_singleton in Hd. simplify_eq. rewrite Hlen.
             by apply Hout.
      + destruct (C1 !! whereString (tableSpecs σ !!! ts)) as [b|] eqn:Hc.
        * simplify_eq. split; [done|]. split; [done|]. split.
          -- intros t' Hn. rewrite fmap_app in Hn. cbn [fst snd].
             rewrite lookup_insert_ne; [apply Hout|]; intros Hd;
               apply Hn, elem_of_app; [by left|right; subst; csimpl; left].
          -- intros t' ts' [Hd|Hd]%elem_of_app.
             ++ apply (Hold t' ts' C2); [done|done|]. cbn [fst snd].
                apply lookup_insert_ne. intros <-. by eapply Hne.
             ++ apply list_elem_of_singleton in Hd. simplify_eq. rewrite Hlen.
                exists b. cbn [fst snd]. by rewrite lookup_insert_eq.
        * destruct (evalWhere _ _) as [b|] eqn:He; [|done]. simplify_eq.
          assert (HC : C1 ⊆ <[whereString (tableSpecs σ !!! ts) := b]> C1)
            by (by apply insert_subseteq).
          split; [by etrans|]. split; [|split].
          -- intros ws b'. cbn [fst snd]. rewrite lookup_insert. case_decide.
             ++ intros [= <-]. subst ws. by exists ts.
             ++ apply Hm.
          -- intros t' Hn. rewrite fmap_app in Hn. cbn [fst snd].
             rewrite lookup_insert_ne; [apply Hout|]; intros Hd;
               apply Hn, elem_of_app; [by left|right; subst; csimpl; left].
          -- intros t' ts' [Hd|Hd]%elem_of_app.
             ++ apply (Hold t' ts'); [done|done|]. cbn [fst snd].
                apply lookup_insert_ne. intros <-. by eapply Hne.
             ++ apply list_elem_of_singleton in Hd. simplify_eq. rewrite Hlen.
                exists b. cbn [fst snd]. by rewrite !lookup_insert_eq. }
  destruct HI as (Hsub & Hm & Hout & Hin). simpl in *.
  split; [done|]. split; [done|]. intros t.
  destruct (tbl !! t) as [ts|] eqn:Ht.
  - apply Hin. by apply elem_of_map_to_list.
  - apply Hout. intros Hd. apply list_elem_of_fmap in Hd as ([t' ts] & -> & Hd).
    apply elem_of_map_to_list in Hd. simpl in Ht. congruence.
Qed.


(** What a result holds for the partitions [pm] of a tree, given the final
    [whereResults]: one [partitionResult] for each partition key, with the
    [pid] that [partitionFor] returns for the keys of the partition (from
    some state of the hasher) and the answers for its tables. *)
Definition mapped_from (σ : Store) (dims : list Byte.byte) (pm : gmap string nat)
    (whereResults : gmap string bool) (parts : gmap string partitionResult) : Prop :=
  forall k,
    match pm !! k with
    | None => parts !! k = None
    | Some ps =>
        exists pr h0 h1,
          parts !! k = Some pr /\
          partitionFor ByteMap_get numPartitions h0 dims
            (contents σ (keys (partSpecs σ !!! ps))) = Some (h1, pid pr) /\
          answers σ (tables (partSpecs σ !!! ps)) (pid pr) whereResults (wherePassed pr)
    end.

Lemma mapPartitions_post σ dims partitions h h' C parts :
  fold_option (mapPartition σ dims) (map_to_list (partMaps σ !!! partitions)) (h, ∅, ∅)
    = Some (h', C, parts) ->
  memo_of σ dims partitions C /\
  mapped_from σ dims (partMaps σ !!! partitions) C parts.
Proof.
  intros Hfold. set (pm := partMaps σ !!! partitions) in *.
  pose (I := fun (done : list (string * nat))
                 (acc : H * gmap string bool * gmap string partitionResult) =>
    memo_of σ dims partitions acc.1.2 /\
    (forall k, k ∉ done.*1 -> acc.2 !! k = None) /\
    (forall k ps, (k, ps) ∈ done ->
       exists pr h0 h1,
         acc.2 !! k = Some pr /\
         partitionFor ByteMap_get numPartitions h0 dims
           (contents σ (keys (partSpecs σ !!! ps))) = Some (h1, pid pr) /\
         answers σ (tables (partSpecs σ !!! ps)) (pid pr) acc.1.2 (wherePassed pr))).
  assert (HI : I (map_to_list pm) (h', C, parts)).
  { apply (fold_option_inv (mapPartition σ dims) I _ (h, ∅, ∅)); [| |done].
    - split; [by intros ws b Hws|]. split; [by intros|].
      intros k ps Hin. by apply elem_of_nil in Hin.
    - intros done [k ps] rest [[h1 C1] parts1] [[h2 C2] parts2] Hl (Hm & Hout & Hin) Hbody.
      cbn [fst snd] in *.
      assert (Hnd : NoDup (done ++ (k, ps) :: rest).*1).
      { rewrite <- Hl. apply NoDup_fst_map_to_list. }
      rewrite fmap_app in Hnd. apply NoDup_app in Hnd as (Hnd1 & Hnd12 & Hnd2).
      assert (Hk : k ∉ done.*1).
      { intros Hd. apply (Hnd12 k Hd). csimpl. left. }
      assert (Hps : pm !! k = Some ps).
      { apply elem_of_map_to_list. rewrite Hl. apply elem_of_app. right. left. }
      unfold mapPartition in Hbody. cbn [fst snd] in Hbody.
      destruct (partitionFor _ _ _ _ _) as [[h3 pid3]|] eqn:Hpf; [|done].
      destruct (fold_option (mapTable _ _ _) _ _) as [[C3 wp3]|] eqn:Hft; [|done].
      simplify_eq.
      destruct (mapTables_post σ dims partitions pid3 (tables (partSpecs σ !!! ps))
                  C1 C2 wp3) as (Hsub & Hm2 & Ha); [|done|done|].
      { intros t ts Ht. by exists k, ps, t. }
      split; [done|]. cbn [fst snd]. split.
      + intros k' Hn. rewrite fmap_app in Hn.
        rewrite lookup_insert_ne; [apply Hout|]; intros Hd;
          apply Hn, elem_of_app; [by left|right; subst; csimpl; left].
      + intros k' ps' [Hd|Hd]%elem_of_app.
        * destruct (Hin k' ps' Hd) as (pr & h0 & h1' & Hpr & Hp & Hans).
          exists pr, h0, h1'. split; [|split; [done|by eapply answers_mono]].
          rewrite lookup_insert_ne; [done|]. intros <-. apply Hk.
          apply list_elem_of_fmap. by exists (k, ps').
        * apply list_elem_of_singleton in Hd. simplify_eq.
          exists (mkPartitionResult pid3 wp3), h1, h2.
          by rewrite lookup_insert_eq. }
  destruct HI as (Hm & Hout & Hin). cbn [fst snd] in *.
  split; [done|]. intros k. destruct (pm !! k) as [ps|] eqn:Hk.
  - apply Hin. by apply elem_of_map_to_list.
  - apply Hout. intros Hd. apply list_elem_of_fmap in Hd as ([k' ps] & -> & Hd).
    apply elem_of_map_to_list in Hd. simpl in Hk. congruence.
Qed.

Lemma mapPartitionRequest_post σ h req h' result :
  mapPartitionRequest σ h req = Some (h', result) ->
  exists dims whereResults,
    parseDims (data (req_entry req)) = Some dims /\
    entry result = req_entry req /\
    memo_of σ dims (req_partitions req) whereResults /\
    mapped_from σ dims (partMaps σ !!! req_partitions req) whereResults
      (partitions result).
Proof.
  unfold mapPartitionRequest. intros Hm.
  destruct (parseDims _) as [dims|]; [|done].
  destruct (fold_option _ _ _) as [[[h1 C] parts]|] eqn:Hfold; [|done].
  simplify_eq. exists dims, C. split; [done|]. split; [done|].
  by eapply mapPartitions_post.
Qed.


Lemma fold_option_is_Some {A B} (body : B -> A -> option B) l acc :
  (forall b x, x ∈ l -> is_Some (body b x)) -> is_Some (fold_option body l acc).
Proof.
  revert acc. induction l as [|x l IH]; intros acc Hb; simpl; [by eexists|].
  destruct (Hb acc x) as [b' ->]; [left|]. apply IH. intros b y Hy. apply Hb. by right.
Qed.

(** When something is sent.  With dimension bytes that parse and predicates
    that evaluate to a bool on them, the worker sends a result when
    [NumPartitions] is not 0; when it is 0 and the tree has a partition, the
    division in [partitionFor] panics and nothing is sent. *)
Theorem mapPartitionRequest_sends σ h req dims :
  parseDims (data (req_entry req)) = Some dims ->
  (forall ts, in_tree σ (req_partitions req) ts ->
     is_Some (evalWhere (where_ (tableSpecs σ !!! ts)) dims)) ->
  (numPartitions <> 0 ->
   exists h' result, mapPartitionRequest σ h req = Some (h', result)) /\
  (numPartitions = 0 -> partMaps σ !!! req_partitions req <> ∅ ->
   mapPartitionRequest σ h req = None).
Proof.
  intros Hdims Heval. unfold mapPartitionRequest. rewrite Hdims. split.
  - intros Hn.
    destruct (fold_option_is_Some (mapPartition σ dims)
                (map_to_list (partMaps σ !!! req_partitions req)) (h, ∅, ∅))
      as [[[h1 C] parts] ->]; [|by eexists _, _].
    intros [[h1 C1] parts1] [k ps] Hk. apply elem_of_map_to_list in Hk.
    unfold mapPartition. cbn [fst snd].
    assert (Hpf : is_Some (partitionFor ByteMap_get numPartitions h1 dims
                             (contents σ (keys (partSpecs σ !!! ps))))).
    { unfold partitionFor. destruct (Z.eqb_spec numPartitions 0); [done|by eexists]. }
    destruct Hpf as [[h2 pid2] ->].
    destruct (fold_option_is_Some (mapTable σ dims pid2)
                (map_to_list (tables (partSpecs σ !!! ps))) (C1, ∅))
      as [[C2 wp2] ->]; [|by eexists].
    intros [C3 wp3] [t ts] Ht. apply elem_of_map_to_list in Ht.
    unfold mapTable. cbn [fst snd].
    destruct (length _ =? 0)%nat; [by eexists|].
    destruct (C3 !! _); [by eexists|].
    destruct (Heval ts) as [b ->]; [by exists k, ps, t|by eexists].
  - intros Hn Hne. destruct (map_to_list _) as [|[k ps] l] eqn:Hl.
    + by apply map_to_list_empty_iff in Hl.
    + simpl. unfold partitionFor. by rewrite Hn.
Qed.

(** Memoisation by [whereString].  In a result that is sent, the answer
    recorded for a table is the value, on the dimensions of the entry, of
    the predicate of a table of the tree with the same [whereString] (a table
    without predicate passes); two tables with the same [whereString] have
    the same answer; so the answer is that of the table's own predicate when
    the tables that share its [whereString] agree on the entry. *)
Theorem mapPartitionRequest_memoizes σ h req h' result :
  mapPartitionRequest σ h req = Some (h', result) ->
  exists dims,
    parseDims (data (req_entry req)) = Some dims /\
    forall k ps pr t ts b,
      (partMaps σ !!! req_partitions req) !! k = Some ps ->
      partitions result !! k = Some pr ->
      tables (partSpecs σ !!! ps) !! t = Some ts ->
      wherePassed pr !! t = Some b ->
      (exists ts',
         in_tree σ (req_partitions req) ts' /\
         whereString (tableSpecs σ !!! ts') = whereString (tableSpecs σ !!! ts) /\
         evalWhere (where_ (tableSpecs σ !!! ts')) dims = Some b) /\
      (forall k' ps' pr' t' ts' b',
         (partMaps σ !!! req_partitions req) !! k' = Some ps' ->
         partitions result !! k' = Some pr' ->
         tables (partSpecs σ !!! ps') !! t' = Some ts' ->
         wherePassed pr' !! t' = Some b' ->
         whereString (tableSpecs σ !!! ts') = whereString (tableSpecs σ !!! ts) ->
         b' = b) /\
      ((forall ts',
          in_tree σ (req_partitions req) ts' ->
          whereString (tableSpecs σ !!! ts') = whereString (tableSpecs σ !!! ts) ->
          evalWhere (where_ (tableSpecs σ !!! ts')) dims
          = evalWhere (where_ (tableSpecs σ !!! ts)) dims) ->
       evalWhere (where_ (tableSpecs σ !!! ts)) dims = Some b).
Proof.
  intros Hm. destruct (mapPartitionRequest_post σ h req h' result Hm)
    as (dims & C & Hdims & _ & Hmemo & Hparts).
  exists dims. split; [done|].
  assert (Hcache : forall k ps pr t ts b,
            (partMaps σ !!! req_partitions req) !! k = Some ps ->
            partitions result !! k = Some pr ->
            tables (partSpecs σ !!! ps) !! t = Some ts ->
            wherePassed pr !! t = Some b ->
            C !! whereString (tableSpecs σ !!! ts) = Some b).
  { intros k ps pr t ts b Hk Hpr Ht Hb. specialize (Hparts k). rewrite Hk in Hparts.
    destruct Hparts as (pr0 & h0 & h1 & Hpr0 & _ & Hans). simplify_eq.
    specialize (Hans t). rewrite Ht in Hans.
    destruct (length _ =? 0)%nat; [congruence|].
    destruct Hans as (b0 & Hb0 & Hc). congruence. }
  intros k ps pr t ts b Hk Hpr Ht Hb.
  pose proof (Hcache _ _ _ _ _ _ Hk Hpr Ht Hb) as Hc.
  destruct (Hmemo _ _ Hc) as (ts0 & Hin0 & Hws0 & Hev0).
  split; [by exists ts0|]. split.
  - intros k' ps' pr' t' ts' b' Hk' Hpr' Ht' Hb' Hws.
    pose proof (Hcache _ _ _ _ _ _ Hk' Hpr' Ht' Hb') as Hc'. congruence.
  - intros Hagree. by rewrite <- (Hagree ts0 Hin0 Hws0).
Qed.

Context `{!Hash32Laws H}.

(** What a result that is sent holds.  It carries the entry of the request
    and, for each partition key of the request's tree and no other key, a
    [partitionResult] whose [pid] is the hash of the dimension values for
    the keys of the partition modulo [NumPartitions], and whose
    [wherePassed] has an answer for exactly the tables of the partition that
    have specs for this [pid]. *)
Theorem mapPartitionRequest_result σ h req h' result :
  0 < numPartitions ->
  mapPartitionRequest σ h req = Some (h', result) ->
  exists dims,
    parseDims (data (req_entry req)) = Some dims /\
    entry result = req_entry req /\
    forall k,
      match (partMaps σ !!! req_partitions req) !! k with
      | None => partitions result !! k = None
      | Some ps =>
          exists pr,
            partitions result !! k = Some pr /\
            pid pr = digest (digested ByteMap_get dims
                               (contents σ (keys (partSpecs σ !!! ps))))
                     mod numPartitions /\
            0 <= pid pr < numPartitions /\
            forall t,
              match tables (partSpecs σ !!! ps) !! t with
              | None => wherePassed pr !! t = None
              | Some ts =>
                  followers_on σ ts (pid pr) = [] <-> wherePassed pr !! t = None
              end
      end.
Proof.
  intros Hpos Hm. destruct (mapPartitionRequest_post σ h req h' result Hm)
    as (dims & C & Hdims & Hentry & _ & Hparts).
  exists dims. split; [done|]. split; [done|]. intros k. specialize (Hparts k).
  destruct (_ !! k) as [ps|]; [|done].
  destruct Hparts as (pr & h0 & h1 & Hpr & Hpf & Hans).
  exists pr. split; [done|].
  destruct (partitionFor_mod ByteMap_get numPartitions h0 dims
              (contents σ (keys (partSpecs σ !!! ps))) Hpos) as (h2 & Hpf2).
  rewrite Hpf2 in Hpf. injection Hpf as _ Hpid. rewrite <- Hpid.
  split; [done|]. split; [apply Z.mod_pos_bound; lia|].
  intros t. specialize (Hans t). rewrite Hpid. destruct (_ !! t) as [ts|]; [|done].
  destruct (followers_on σ ts (pid pr)) as [|spec specs]; simpl in Hans.
  - done.
  - destruct Hans as (b & -> & _). split; intros; done.
Qed.

(** *** The loop of a worker: [mapPartitionRequests] *)

Lemma mapPartitions_any_hasher σ dims l h1 h2 C parts :
  (fun r => (r.1.2, r.2)) <$> fold_option (mapPartition σ dims) l (h1, C, parts)
  = (fun r => (r.1.2, r.2)) <$> fold_option (mapPartition σ dims) l (h2, C, parts).
Proof.
  revert h1 h2 C parts. induction l as [|[k ps] l IH]; intros h1 h2 C parts; [done|].
  simpl.
  pose proof (partitionFor_any_hasher ByteMap_get numPartitions h1 h2 dims
                (contents σ (keys (partSpecs σ !!! ps)))) as Hp.
  destruct (partitionFor _ _ h1 _ _) as [[h1' pid1]|],
           (partitionFor _ _ h2 _ _) as [[h2' pid2]|]; simpl in Hp; try done.
  injection Hp as ->.
  destruct (fold_option (mapTable σ dims pid2) _ _) as [[C' wp]|]; [|done].
  apply IH.
Qed.

Lemma mapPartitionRequest_any_hasher σ h1 h2 req :
  snd <$> mapPartitionRequest σ h1 req = snd <$> mapPartitionRequest σ h2 req.
Proof.
  unfold mapPartitionRequest. destruct (parseDims _) as [dims|]; [|done].
  pose proof (mapPartitions_any_hasher σ dims
                (map_to_list (partMaps σ !!! req_partitions req)) h1 h2 ∅ ∅) as Hf.
  destruct (fold_option _ _ (h1, _, _)) as [[[h1' C1] parts1]|],
           (fold_option _ _ (h2, _, _)) as [[[h2' C2] parts2]|]; simpl in *; try done.
  by simplify_eq.
Qed.

(** [for req := range in] with the hasher [h] that the worker made; each
    request is mapped in the store of its time.  [after_panic h req] is the
    state in which a panic on [req], which the deferred [recover] swallows,
    leaves the hasher. *)
Variable after_panic : H -> partitionRequest -> H.

Fixpoint mapPartitionRequests (h : H) (reqs : list (Store * partitionRequest))
    : list partitionsResult :=
  match reqs with
  | [] => []
  | (σ, req) :: reqs =>
      match mapPartitionRequest σ h req with
      | Some (h, result) => result :: mapPartitionRequests h reqs
      | None => mapPartitionRequests (after_panic h req) reqs
      end
  end.

(** A worker sends, for its requests in order, what [mapPartitionRequest]
    sends for each with a hasher of its own: the one hasher of the worker
    carries nothing from a request to the next, also after a panic; a
    request on which the function panics sends nothing, and the worker goes
    on.  So the worker sends fewer results than it took requests exactly
    when the function panics on one of them. *)
Theorem mapPartitionRequests_sends_each_result h h0 reqs :
  mapPartitionRequests h reqs
  = omap (fun r => snd <$> mapPartitionRequest r.1 h0 r.2) reqs /\
  (length (mapPartitionRequests h reqs) <= length reqs)%nat /\
  (length (mapPartitionRequests h reqs) = length reqs <->
   Forall (fun r => is_Some (mapPartitionRequest r.1 h0 r.2)) reqs).
Proof.
  revert h. induction reqs as [|[σ req] reqs IH]; intros h.
  - split; [done|]. split; [done|]. split; [constructor|done].
  - destruct (IH h) as (_ & Hle0 & _). simpl mapPartitionRequests. csimpl.
    pose proof (mapPartitionRequest_any_hasher σ h h0 req) as Hh.
    destruct (mapPartitionRequest σ h req) as [[h' result]|] eqn:Hm;
      destruct (mapPartitionRequest σ h0 req) as [[h0' result0]|] eqn:Hm0;
      simpl in Hh; try done.
    + injection Hh as ->. destruct (IH h') as (-> & Hle & Hiff). split; [done|].
      simpl. split; [lia|]. rewrite Forall_cons. simpl. rewrite Hm0.
      split.
      * intros Hlen. split; [by eexists|]. apply Hiff. lia.
      * intros [_ Hall]. f_equal. by apply Hiff.
    + destruct (IH (after_panic h req)) as (-> & Hle & Hiff). split; [done|].
      simpl. split; [lia|]. rewrite Forall_cons. simpl. rewrite Hm0.
      split; [lia|]. by intros [[? ?] _].
Qed.

End Mapper.

(** ** The dispatcher: [processFollowers] *)

Section Dispatcher.
Context `{Sorter} {CbState : Type}.
(** [db.getTable], [strings.ToLower], and whether [db.followWAL] finds the
    stream and can open a reader on it at an offset. *)
Variable getTable : string -> option table.
Variable strings_ToLower : string -> string.
Variable walOpens : string -> option Offset -> bool.

(** What [followWAL] was started with: the offset, the tree of the stream
    and the requests channel. *)
Record walReader := mkWalReader {
  wr_offset : option Offset;
  wr_partitions : option nat;
  wr_requests : option nat
}.

(** The variables of [processFollowers].  The map [streams] itself never
    leaves the goroutine (only its values do), so it is a value here.
    [pipelines] holds, for every requests channel made by
    [startParallelEntryProcessing], whether it has been closed; [requests] is
    the current one. *)
Record dispatcher := mkDispatcher {
  nextFollowerID : Z;
  d_followers : gmap Z (follower CbState);
  streams : gmap string nat;
  stopWALReaders : gmap string walReader;
  stats : list Z;
  newlyJoinedStreams : gmap string bool;
  requests : option nat;
  pipelines : list bool;
  d_metrics : metrics.state
}.

Definition set_followerId (id : Z) (f : follower CbState) : follower CbState :=
  mkFollower (follow f) id (cb f) (entries f) (hasFailed f).

(** The body of [for _, t := range partition.Tables] in [onFollowerJoined]. *)
Definition joinTable (f : follower CbState) (id : Z) (ps : nat) (t : PartitionTable)
    : M unit :=
  psv ← get_partSpec ps;
  found ← match tables psv !! PT_Name t with
          | Some table => mret (Some table)
          | None =>
              match getTable (PT_Name t) with
              | None => mret None
              | Some tb =>
                  let whereString :=
                    match Where tb with
                    | Some w => strings_ToLower (Expr_String w)
                    | None => ""
                    end in
                  table ← new_tableSpec (mkTableSpec (Where tb) whereString ∅);
                  set_partSpec ps
                    (mkPartitionSpec (keys psv) (<[PT_Name t := table]> (tables psv)));;
                  mret (Some table)
              end
          end;
  match found with
  | None => mret tt
  | Some table =>
      tsv ← get_tableSpec table;
      let specs := default [] (followers tsv !! PartitionNumber (follow f)) in
      let offset := if After (EarliestOffset (follow f)) (PT_Offset t)
                    then EarliestOffset (follow f) else PT_Offset t in
      spec ← new_followSpec (mkFollowSpec id offset);
      set_tableSpec table
        (mkTableSpec (where_ tsv) (whereString tsv)
           (<[PartitionNumber (follow f) := specs ++ [spec]]> (followers tsv)))
  end.

(** The body of [for _, partition := range f.Partitions]. *)
Definition joinPartition (f : follower CbState) (id : Z) (partitions : nat)
    (partition : Partition) : M unit :=
  '(keys, sortedKeys) ← sortedPartitionKeys (Keys partition);
  pm ← get_partMap partitions;
  ps ← match pm !! keys with
       | Some ps => mret ps
       | None =>
           ps ← new_partSpec (mkPartitionSpec sortedKeys ∅);
           set_partMap partitions (<[keys := ps]> pm);;
           mret ps
       end;
  for_each (Tables partition) (joinTable f id ps).

Definition onFollowerJoined (f : follower CbState) (d : dispatcher) : M dispatcher :=
  let id := int_inc (nextFollowerID d) in
  let f := set_followerId id f in
  let m := metrics.FollowerJoined id (PartitionNumber (follow f)) (d_metrics d) in
  '(partitions, streams) ←
    match streams d !! Stream (follow f) with
    | Some partitions => mret (partitions, streams d)
    | None =>
        partitions ← new_partMap ∅;
        mret (partitions, <[Stream (follow f) := partitions]> (streams d))
    end;
  for_each (map_to_list (Partitions (follow f))).*2 (joinPartition f id partitions);;
  mret (mkDispatcher id (<[id := f]> (d_followers d)) streams
          (stopWALReaders d) (stats d)
          (<[Stream (follow f) := true]> (newlyJoinedStreams d))
          (requests d) (pipelines d) m).

(** The copy of [streams] made when a follower joins. *)
Definition copyFollowers (tableCopy : nat) (kv : Z * list nat) : M unit :=
  tc ← get_tableSpec tableCopy;
  set_tableSpec tableCopy
    (mkTableSpec (where_ tc) (whereString tc) (<[kv.1 := kv.2]> (followers tc))).

Definition copyTable (partitionCopy : nat) (kv : string * nat) : M unit :=
  table ← get_tableSpec kv.2;
  tableCopy ← new_tableSpec (mkTableSpec (where_ table) (whereString table) ∅);
  pc ← get_partSpec partitionCopy;
  set_partSpec partitionCopy
    (mkPartitionSpec (keys pc) (<[kv.1 := tableCopy]> (tables pc)));;
  for_each (map_to_list (followers table)) (copyFollowers tableCopy).

Definition copyPartition (partitionsCopy : nat) (kv : string * nat) : M unit :=
  partition ← get_partSpec kv.2;
  partitionCopy ← new_partSpec (mkPartitionSpec (keys partition) ∅);
  pmc ← get_partMap partitionsCopy;
  set_partMap partitionsCopy (<[kv.1 := partitionCopy]> pmc);;
  for_each (map_to_list (tables partition)) (copyTable partitionCopy).

Fixpoint copyStreams (l : list (string * nat)) (streamsCopy : gmap string nat)
    : M (gmap string nat) :=
  match l with
  | [] => mret streamsCopy
  | (stream, partitions) :: l =>
      partitionsCopy ← new_partMap ∅;
      pm ← get_partMap partitions;
      for_each (map_to_list pm) (copyPartition partitionsCopy);;
      copyStreams l (<[stream := partitionsCopy]> streamsCopy)
  end.

(** Modelled from the spec: the smallest offset is the sentinel "none", which
    is Go's nil offset.  Among the offsets of the store it is the offset 0;
    the offsets that the WAL gives to entries are after it. *)
Definition nil_Offset : Offset := 0.

(** The body of the loop that computes [earliestOffset] over the specs of a
    tree: [if earliestOffset == nil || earliestOffset.After(spec.offset)
    { earliestOffset = spec.offset }].  The variable is [None] while it is
    nil; [spec.offset] can be nil too (a table that the follower joined
    without an offset), and assigning it makes the variable nil again, so
    that it takes the offset of the next spec whatever that is. *)
Definition earlier (σ : Store) (earliestOffset : option Offset) (spec : nat)
    : option Offset :=
  let o := spec_offset (followSpecs σ !!! spec) in
  let offset := if decide (o = nil_Offset) then None else Some o in
  match earliestOffset with
  | None => offset
  | Some e => if After e o then offset else Some e
  end.

Definition earliestInTable (σ : Store) (acc : option Offset) (table : nat) : option Offset :=
  fold_left (fun acc specs => fold_left (earlier σ) specs acc)
    (map_to_list (followers (tableSpecs σ !!! table))).*2 acc.

Definition earliestInTree (σ : Store) (partitions : option nat) : option Offset :=
  match partitions with
  | None => None
  | Some partitions =>
      fold_left
        (fun acc partition =>
           fold_left (earliestInTable σ)
             (map_to_list (tables (partSpecs σ !!! partition))).*2 acc)
        (map_to_list (partMaps σ !!! partitions)).*2 None
  end.

(** The body of [for stream := range newlyJoinedStreams]: the reader of the
    stream is stopped and one is started on the current tree; when that
    succeeds the old requests channel is closed (a panic when it is closed
    already), when it fails the entry of the stopped reader stays. *)
Definition restartReader (oldRequests : option nat) (d : dispatcher) (stream : string)
    : M dispatcher :=
  fun σ =>
    let earliestOffset := earliestInTree σ (streams d !! stream) in
    if walOpens stream earliestOffset then
      let readers :=
        <[stream := mkWalReader earliestOffset (streams d !! stream) (requests d)]>
          (stopWALReaders d) in
      match oldRequests with
      | None =>
          Some (mkDispatcher (nextFollowerID d) (d_followers d) (streams d) readers
                  (stats d) (newlyJoinedStreams d) (requests d) (pipelines d)
                  (d_metrics d), σ)
      | Some old =>
          if default true (pipelines d !! old) then None
          else
            Some (mkDispatcher (nextFollowerID d) (d_followers d) (streams d) readers
                    (stats d) (newlyJoinedStreams d) (requests d)
                    (<[old := true]> (pipelines d)) (d_metrics d), σ)
      end
    else Some (d, σ).

(** [case f := <-db.followerJoined]; [extra] are the followers that
    [extraFollowersLoop] finds waiting. *)
Definition handleFollowerJoined (f : follower CbState) (extra : list (follower CbState))
    (d : dispatcher) : M dispatcher :=
  streamsCopy ← copyStreams (map_to_list (streams d)) ∅;
  let oldRequests := requests d in
  let d := mkDispatcher (nextFollowerID d) (d_followers d) streamsCopy
             (stopWALReaders d) (stats d) ∅
             (Some (length (pipelines d))) (pipelines d ++ [false]) (d_metrics d) in
  d ← onFollowerJoined f d;
  d ← fold_M (fun d f => onFollowerJoined f d) extra d;
  fold_M (restartReader oldRequests) (map_to_list (newlyJoinedStreams d)).*1 d.

(** [case result := <-results], the walk over the tree of the stream. *)
Definition includeSpec (offset : Offset) (included : list Z) (spec : nat) : M (list Z) :=
  sp ← get_followSpec spec;
  mret (if After offset (spec_offset sp) then included ++ [followerID sp] else included).

Definition advanceSpec (offset : Offset) (spec : nat) : M unit :=
  sp ← get_followSpec spec;
  if After offset (spec_offset sp) then set_followSpec spec (mkFollowSpec (followerID sp) offset)
  else mret tt.

Definition walkTable (offset : Offset) (pr : partitionResult) (included : list Z)
    (kv : string * nat) : M (list Z) :=
  table ← get_tableSpec kv.2;
  let specs := default [] (followers table !! pid pr) in
  if (length specs =? 0)%nat then mret included
  else
    included ← (if default false (wherePassed pr !! kv.1)
                then fold_M (includeSpec offset) specs included
                else mret included);
    for_each specs (advanceSpec offset);;
    mret included.

Definition walkPartition (result : partitionsResult) (included : list Z)
    (kv : string * nat) : M (list Z) :=
  match partitions result !! kv.1 with
  | None => panic
  | Some pr =>
      partition ← get_partSpec kv.2;
      fold_M (walkTable (offset (entry result)) pr) (map_to_list (tables partition))
        included
  end.

Definition walkResult (result : partitionsResult) (d : dispatcher) : M (list Z) :=
  match streams d !! stream (entry result) with
  | None => mret []
  | Some partitions =>
      pm ← get_partMap partitions;
      fold_M (walkPartition result) (map_to_list pm) []
  end.

(** The loop over the sorted [includedFollowers].  [f.failed()] is read from
    the follower as the dispatcher has it.  The store of [hasFailed] is a
    step of the reader of the follower ([read_body]); a run in which it
    falls between the guard of this loop and the check in [submit], after
    which [submit] closes the queue and sends nothing, is not among the runs
    of this loop. *)
Fixpoint deliver (entry : walEntry) (included : list Z) (lastIncluded : Z)
    (d : dispatcher) : outcome dispatcher :=
  match included with
  | [] => Done d
  | inc :: rest =>
      if inc =? lastIncluded then deliver entry rest lastIncluded d
      else
        match d_followers d !! inc with
        | None => Panic
        | Some f =>
            if failed f then deliver entry rest inc d
            else
              match submit entry f with
              | Done f' =>
                  let pn := PartitionNumber (follow f) in
                  match (if 0 <=? pn then stats d !! Z.to_nat pn else None) with
                  | None => Panic
                  | Some count =>
                      deliver entry rest inc
                        (mkDispatcher (nextFollowerID d) (<[inc := f']> (d_followers d))
                           (streams d) (stopWALReaders d)
                           (<[Z.to_nat pn := int_inc count]> (stats d))
                           (newlyJoinedStreams d) (requests d) (pipelines d)
                           (d_metrics d))
                  end
              | Blocked => Blocked
              | Panic => Panic
              end
        end
  end.

Definition handleResult (result : partitionsResult) (d : dispatcher) (σ : Store)
    : outcome (dispatcher * Store) :=
  match walkResult result d σ with
  | None => Panic
  | Some (includedFollowers, σ') =>
      if (0 <? length includedFollowers)%nat then
        match deliver (entry result) (sort_Sort Z.ltb includedFollowers) (-1) d with
        | Done d' => Done (d', σ')
        | Blocked => Blocked
        | Panic => Panic
        end
      else Done (d, σ')
  end.

(** [case <-statsTicker.C] *)
Definition handleTick (numPartitions : Z) (d : dispatcher) : dispatcher :=
  mkDispatcher (nextFollowerID d) (d_followers d) (streams d) (stopWALReaders d)
    (replicate (Z.to_nat numPartitions) 0) (newlyJoinedStreams d) (requests d)
    (pipelines d)
    (fold_left
       (fun m f => metrics.QueuedForFollower (followerId f)
                     (Z.of_nat (length (buf (entries f)))) m)
       (map_to_list (d_followers d)).*2 (d_metrics d)).

(** The events that the select of [processFollowers] takes, and the loop. *)
Inductive event :=
| Joined (f : follower CbState) (extra : list (follower CbState))
| Result (result : partitionsResult)
| Tick.

Definition handle (numPartitions : Z) (e : event) (d : dispatcher) (σ : Store)
    : outcome (dispatcher * Store) :=
  match e with
  | Joined f extra =>
      match handleFollowerJoined f extra d σ with
      | Some r => Done r
      | None => Panic
      end
  | Result result => handleResult result d σ
  | Tick => Done (handleTick numPartitions d, σ)
  end.

Fixpoint processFollowers_from (numPartitions : Z) (es : list event) (d : dispatcher)
    (σ : Store) : outcome (dispatcher * Store) :=
  match es with
  | [] => Done (d, σ)
  | e :: es =>
      match handle numPartitions e d σ with
      | Done (d', σ') => processFollowers_from numPartitions es d' σ'
      | Blocked => Blocked
      | Panic => Panic
      end
  end.

(** The variables of [processFollowers] when it starts.  For a negative
    [NumPartitions], [make([]int, NumPartitions)] panics and nothing is
    processed; [stats] is empty here then. *)
Definition start (numPartitions : Z) (m : metrics.state) : dispatcher :=
  mkDispatcher 0 ∅ ∅ ∅ (replicate (Z.to_nat numPartitions) 0) ∅ None [] m.

(** *** Handling a join leaves the old trees alone

    [σ0] is the store when the dispatcher takes a join; [joining σ] holds of
    the stores that follow while it handles the join: the maps and records
    of [σ0] are unchanged, and those made since refer only to maps and
    records made since. *)
Section JoinFrame.
Variable σ0 : Store.

Definition new_only (σ : Store) : Prop :=
  (forall i m k ps,
     (length (partMaps σ0) <= i)%nat -> partMaps σ !! i = Some m -> m !! k = Some ps ->
     (length (partSpecs σ0) <= ps)%nat) /\
  (forall i psv t ts,
     (length (partSpecs σ0) <= i)%nat -> partSpecs σ !! i = Some psv ->
     tables psv !! t = Some ts -> (length (tableSpecs σ0) <= ts)%nat).

Definition joining (σ : Store) : Prop := ext σ0 σ /\ new_only σ.

Definition new_partSpecs (m : gmap string nat) : Prop :=
  forall k ps, m !! k = Some ps -> (length (partSpecs σ0) <= ps)%nat.

Definition new_tableSpecs (m : gmap string nat) : Prop :=
  forall t ts, m !! t = Some ts -> (length (tableSpecs σ0) <= ts)%nat.

Lemma joining_start : joining σ0.
Proof.
  split; [apply ext_refl|]. split.
  - intros i m k ps Hi Hm. apply lookup_lt_Some in Hm. lia.
  - intros i psv t ts Hi Hm. apply lookup_lt_Some in Hm. lia.
Qed.

Lemma prefix_insert {A} (l0 l : list A) r x :
  l0 `prefix_of` l -> (length l0 <= r)%nat -> l0 `prefix_of` <[r := x]> l.
Proof.
  intros [k ->] Hr. rewrite insert_app_r_alt by done. by apply prefix_app_r.
Qed.

Lemma joining_arrays f σ : joining σ -> joining (with_arrays f σ).
Proof. done. Qed.

Lemma joining_new_partMap :
  keeps joining (new_partMap ∅) (fun r => (length (partMaps σ0) <= r)%nat).
Proof.
  apply keeps_new_partMap. intros σ ((Hpm & Hps & Hts & Hfs) & Hn1 & Hn2).
  split; [|by apply prefix_length in Hpm].
  split; [split; [by apply prefix_app_r|done]|].
  split; [|done]. simpl. intros i m k ps Hi Hm Hk.
  apply lookup_snoc_Some in Hm as [[_ Hm]|[_ <-]]; [by eapply Hn1|].
  by simplify_map_eq.
Qed.

Lemma joining_new_partSpec ks :
  keeps joining (new_partSpec (mkPartitionSpec ks ∅))
    (fun r => (length (partSpecs σ0) <= r)%nat).
Proof.
  apply keeps_new_partSpec. intros σ ((Hpm & Hps & Hts & Hfs) & Hn1 & Hn2).
  split; [|by apply prefix_length in Hps].
  split; [split; [done|split; [by apply prefix_app_r|done]]|].
  split; [done|]. simpl. intros i psv t ts Hi Hm Hk.
  apply lookup_snoc_Some in Hm as [[_ Hm]|[_ <-]]; [by eapply Hn2|].
  by simplify_map_eq.
Qed.

Lemma joining_new_tableSpec ts :
  keeps joining (new_tableSpec ts) (fun r => (length (tableSpecs σ0) <= r)%nat).
Proof.
  apply keeps_new_tableSpec. intros σ ((Hpm & Hps & Hts & Hfs) & Hn).
  split; [|by apply prefix_length in Hts].
  split; [|done]. repeat split; try done. by apply prefix_app_r.
Qed.

Lemma joining_new_followSpec fs :
  keeps joining (new_followSpec fs) (fun _ => True).
Proof.
  apply keeps_new_followSpec. intros σ ((Hpm & Hps & Hts & Hfs) & Hn).
  split; [|done]. split; [|done]. repeat split; try done.
  simpl. rewrite fmap_app. by apply prefix_app_r.
Qed.

Lemma joining_get_partMap r :
  (length (partMaps σ0) <= r)%nat -> keeps joining (get_partMap r) new_partSpecs.
Proof.
  intros Hr. apply keeps_get_partMap. intros σ (_ & Hn1 & _) k ps Hk.
  rewrite list_lookup_total_alt in Hk.
  destruct (partMaps σ !! r) as [m|] eqn:Hm; [by eapply Hn1|done].
Qed.

Lemma joining_get_partSpec r :
  (length (partSpecs σ0) <= r)%nat ->
  keeps joining (get_partSpec r) (fun psv => new_tableSpecs (tables psv)).
Proof.
  intros Hr. apply keeps_get_partSpec. intros σ (_ & _ & Hn2) t ts Ht.
  rewrite list_lookup_total_alt in Ht.
  destruct (partSpecs σ !! r) as [psv|] eqn:Hm; [by eapply Hn2|done].
Qed.

Lemma joining_set_partMap r m :
  (length (partMaps σ0) <= r)%nat -> new_partSpecs m ->
  keeps joining (set_partMap r m) (fun _ => True).
Proof.
  intros Hr Hm. apply keeps_set_partMap.
  intros σ ((Hpm & Hps & Hts & Hfs) & Hn1 & Hn2).
  split; [split; [by apply prefix_insert|done]|].
  split; [|done]. simpl. intros i m' k ps Hi Hm' Hk.
  rewrite list_lookup_insert in Hm'. case_decide; [|by eapply Hn1].
  simplify_eq. by eapply Hm.
Qed.

Lemma joining_set_partSpec r psv :
  (length (partSpecs σ0) <= r)%nat -> new_tableSpecs (tables psv) ->
  keeps joining (set_partSpec r psv) (fun _ => True).
Proof.
  intros Hr Hm. apply keeps_set_partSpec.
  intros σ ((Hpm & Hps & Hts & Hfs) & Hn1 & Hn2).
  split; [split; [done|split; [by apply prefix_insert|done]]|].
  split; [done|]. simpl. intros i psv' t ts Hi Hm' Hk.
  rewrite list_lookup_insert in Hm'. case_decide; [|by eapply Hn2].
  simplify_eq. by eapply Hm.
Qed.

Lemma joining_set_tableSpec r tsv :
  (length (tableSpecs σ0) <= r)%nat ->
  keeps joining (set_tableSpec r tsv) (fun _ => True).
Proof.
  intros Hr. apply keeps_set_tableSpec.
  intros σ ((Hpm & Hps & Hts & Hfs) & Hn).
  split; [|done]. repeat split; try done. by apply prefix_insert.
Qed.

Lemma joining_sortedPartitionKeys partitionKeys :
  keeps joining (sortedPartitionKeys partitionKeys) (fun _ => True).
Proof.
  intros σ HJ. destruct (sortedPartitionKeys_total partitionKeys σ) as (j & σ' & Hs).
  exists (j, partitionKeys), σ'. split; [done|]. split; [|done].
  unfold sortedPartitionKeys, sort_Strings, strings_Join, mbind, M_bind, mret,
    M_ret, get_array, set_array in Hs.
  destruct (len partitionKeys =? 0)%nat; simpl in Hs; simplify_eq; [done|].
  by apply joining_arrays.
Qed.

Definition new_partMaps (streams : gmap string nat) : Prop :=
  forall s pm, streams !! s = Some pm -> (length (partMaps σ0) <= pm)%nat.

Lemma new_insert (n : nat) (m : gmap string nat) k r :
  (forall k' r', m !! k' = Some r' -> (n <= r')%nat) -> (n <= r)%nat ->
  forall k' r', <[k := r]> m !! k' = Some r' -> (n <= r')%nat.
Proof.
  intros Hm Hr k' r'. rewrite lookup_insert. case_decide; [by intros [= <-]|apply Hm].
Qed.

Lemma copyFollowers_joining tableCopy kv :
  (length (tableSpecs σ0) <= tableCopy)%nat ->
  keeps joining (copyFollowers tableCopy kv) (fun _ => True).
Proof.
  intros Hr. unfold copyFollowers.
  eapply keeps_bind; [by apply keeps_get_tableSpec with (Q := fun _ => True)|].
  intros tc _. by apply joining_set_tableSpec.
Qed.

Lemma copyTable_joining partitionCopy kv :
  (length (partSpecs σ0) <= partitionCopy)%nat ->
  keeps joining (copyTable partitionCopy kv) (fun _ => True).
Proof.
  intros Hr. unfold copyTable.
  eapply keeps_bind; [by apply keeps_get_tableSpec with (Q := fun _ => True)|].
  intros table _.
  eapply keeps_bind; [apply joining_new_tableSpec|]. intros tableCopy Hnew.
  eapply keeps_bind; [by apply joining_get_partSpec|]. intros pc Hpc.
  eapply keeps_bind.
  { apply joining_set_partSpec; [done|]. simpl. intros ? ?. eapply new_insert; eauto. }
  intros _ _. apply keeps_for_each. intros x _. by apply copyFollowers_joining.
Qed.

Lemma copyPartition_joining partitionsCopy kv :
  (length (partMaps σ0) <= partitionsCopy)%nat ->
  keeps joining (copyPartition partitionsCopy kv) (fun _ => True).
Proof.
  intros Hr. unfold copyPartition.
  eapply keeps_bind; [by apply keeps_get_partSpec with (Q := fun _ => True)|].
  intros partition _.
  eapply keeps_bind; [apply joining_new_partSpec|]. intros partitionCopy Hnew.
  eapply keeps_bind; [by apply joining_get_partMap|]. intros pmc Hpmc.
  eapply keeps_bind.
  { apply joining_set_partMap; [done|]. intros ? ?. eapply new_insert; eauto. }
  intros _ _. apply keeps_for_each. intros x _. by apply copyTable_joining.
Qed.

Lemma copyStreams_joining l streamsCopy :
  new_partMaps streamsCopy ->
  keeps joining (copyStreams l streamsCopy) new_partMaps.
Proof.
  revert streamsCopy. induction l as [|[stream partitions] l IH]; intros acc Hacc.
  - by apply keeps_ret.
  - simpl. eapply keeps_bind; [apply joining_new_partMap|]. intros partitionsCopy Hnew.
    eapply keeps_bind; [by apply keeps_get_partMap with (Q := fun _ => True)|].
    intros pm _.
    eapply keeps_bind.
    { apply keeps_for_each. intros x _. by apply copyPartition_joining. }
    intros _ _. apply IH. intros ? ?. eapply new_insert; eauto.
Qed.

Lemma joinTable_joining f id ps t :
  (length (partSpecs σ0) <= ps)%nat ->
  keeps joining (joinTable f id ps t) (fun _ => True).
Proof.
  intros Hr. unfold joinTable.
  eapply keeps_bind; [by apply joining_get_partSpec|]. intros psv Hpsv.
  eapply keeps_bind with
    (Q1 := fun found => forall table, found = Some table ->
                          (length (tableSpecs σ0) <= table)%nat).
  { destruct (tables psv !! PT_Name t) as [table|] eqn:Ht.
    - apply keeps_ret. intros ? [= <-]. by eapply Hpsv.
    - destruct (getTable (PT_Name t)); [|by apply keeps_ret].
      eapply keeps_bind; [apply joining_new_tableSpec|]. intros table Hnew.
      eapply keeps_bind.
      { apply joining_set_partSpec; [done|]. simpl. intros ? ?. eapply new_insert; eauto. }
      intros _ _. apply keeps_ret. by intros ? [= <-]. }
  intros [table|] Hfound; [|by apply keeps_ret].
  eapply keeps_bind; [by apply keeps_get_tableSpec with (Q := fun _ => True)|].
  intros tsv _.
  eapply keeps_bind; [apply joining_new_followSpec|]. intros spec _.
  apply joining_set_tableSpec. by apply Hfound.
Qed.

Lemma joinPartition_joining f id partitions partition :
  (length (partMaps σ0) <= partitions)%nat ->
  keeps joining (joinPartition f id partitions partition) (fun _ => True).
Proof.
  intros Hr. unfold joinPartition.
  eapply keeps_bind; [apply joining_sortedPartitionKeys|]. intros [ks sortedKeys] _.
  eapply keeps_bind; [by apply joining_get_partMap|]. intros pm Hpm.
  eapply keeps_bind with (Q1 := fun ps => (length (partSpecs σ0) <= ps)%nat).
  { destruct (pm !! ks) as [ps|] eqn:Hps.
    - apply keeps_ret. by eapply Hpm.
    - eapply keeps_bind; [apply joining_new_partSpec|]. intros ps Hnew.
      eapply keeps_bind.
      { apply joining_set_partMap; [done|]. intros ? ?. eapply new_insert; eauto. }
      intros _ _. by apply keeps_ret. }
  intros ps Hps. apply keeps_for_each. intros t _. by apply joinTable_joining.
Qed.

Lemma onFollowerJoined_joining f d :
  new_partMaps (streams d) ->
  keeps joining (onFollowerJoined f d) (fun d' => new_partMaps (streams d')).
Proof.
  intros Hd. unfold onFollowerJoined.
  eapply keeps_bind with
    (Q1 := fun ps => (length (partMaps σ0) <= ps.1)%nat /\ new_partMaps ps.2).
  { destruct (streams d !! Stream (follow (set_followerId _ f))) as [partitions|] eqn:Hs.
    - apply keeps_ret. split; [by eapply Hd|done].
    - eapply keeps_bind; [apply joining_new_partMap|]. intros partitions Hnew.
      apply keeps_ret. split; [done|]. intros ? ?. eapply new_insert; eauto. }
  intros [partitions streams'] [Hp Hs].
  eapply keeps_bind.
  { apply keeps_for_each. intros x _. by apply joinPartition_joining. }
  intros _ _. by apply keeps_ret.
Qed.

End JoinFrame.

(** *** The walk over the tree *)

(** What the walk does to a spec that it visits. *)
Definition advance (o : Offset) (sp : followSpec) : followSpec :=
  if After o (spec_offset sp) then mkFollowSpec (followerID sp) o else sp.

Definition advanced (o : Offset) (specs : list nat) (σ : Store) : Store :=
  with_followSpecs (fun h => foldl (fun h spec => alter (advance o) spec h) h specs) σ.

(** The visit of a table: whether the predicate passed, and
    [table.followers[pid]]; the visits of a partition, which need the result
    for its keys; the visits of a result, in the order of the walk. *)
Definition visit_table (σ : Store) (pr : partitionResult) (kv : string * nat)
    : bool * list nat :=
  (default false (wherePassed pr !! kv.1),
   default [] (followers (tableSpecs σ !!! kv.2) !! pid pr)).

Definition visit_partition (σ : Store) (result : partitionsResult) (kv : string * nat)
    : option (list (bool * list nat)) :=
  match partitions result !! kv.1 with
  | None => None
  | Some pr => Some (visit_table σ pr <$> map_to_list (tables (partSpecs σ !!! kv.2)))
  end.

Definition visited (σ : Store) (d : dispatcher) (result : partitionsResult)
    : option (list (bool * list nat)) :=
  match streams d !! stream (entry result) with
  | None => Some []
  | Some partitions =>
      mjoin <$> mapM (visit_partition σ result) (map_to_list (partMaps σ !!! partitions))
  end.

(** The ids that a visit adds to [includedFollowers]: when the predicate
    passed, those of the specs that the offset [o] is [After]. *)
Definition included_in (σ : Store) (o : Offset) (v : bool * list nat) : list Z :=
  if v.1 then
    followerID <$>
      filter (fun sp => After o (spec_offset sp) = true)
        ((fun spec => followSpecs σ !!! spec) <$> v.2)
  else [].

(** The specs of a list of visits, and the ids that the visits include. *)
Definition specs_of (vs : list (bool * list nat)) : list nat := mjoin vs.*2.

Definition included_by (σ : Store) (o : Offset) (vs : list (bool * list nat)) : list Z :=
  mjoin (included_in σ o <$> vs).

Lemma advance_idem o sp : advance o (advance o sp) = advance o sp.
Proof.
  unfold advance, After. destruct (spec_offset sp <? o) eqn:E; simpl.
  - by rewrite Z.ltb_irrefl.
  - by rewrite E.
Qed.

Lemma After_advance o sp : After o (spec_offset (advance o sp)) = false.
Proof.
  unfold advance, After. destruct (spec_offset sp <? o) eqn:E; simpl; [|done].
  apply Z.ltb_irrefl.
Qed.

Lemma advanced_app o specs1 specs2 σ :
  advanced o (specs1 ++ specs2) σ = advanced o specs2 (advanced o specs1 σ).
Proof. unfold advanced, with_followSpecs. simpl. by rewrite foldl_app. Qed.

Lemma advanced_nil o σ : advanced o [] σ = σ.
Proof. by destruct σ. Qed.

Lemma advanced_lookup o specs σ spec :
  followSpecs (advanced o specs σ) !! spec
  = (if decide (spec ∈ specs) then advance o else fun sp => sp)
      <$> followSpecs σ !! spec.
Proof.
  unfold advanced. simpl. generalize (followSpecs σ). clear σ.
  induction specs as [|r specs IH] using rev_ind; intros h.
  - simpl. by destruct (h !! spec).
  - rewrite foldl_snoc, list_lookup_alter.
    destruct (decide (r = spec)) as [->|Hne]; rewrite IH.
    + rewrite (decide_True (P := spec ∈ specs ++ [spec]))
        by (apply elem_of_app; right; apply list_elem_of_singleton; done).
      destruct (h !! spec) as [sp|]; [|done]. simpl.
      case_decide; [by rewrite advance_idem|done].
    + destruct (decide (spec ∈ specs)) as [Hin|Hnin].
      * rewrite decide_True; [done|]. apply elem_of_app. by left.
      * rewrite decide_False; [done|]. intros [?|Hs]%elem_of_app; [done|].
        apply list_elem_of_singleton in Hs. done.
Qed.

Lemma advanced_lookup_total o specs σ spec :
  spec ∉ specs -> followSpecs (advanced o specs σ) !!! spec = followSpecs σ !!! spec.
Proof.
  intros Hnin. rewrite !list_lookup_total_alt, advanced_lookup.
  rewrite decide_False by done. by destruct (followSpecs σ !! spec).
Qed.

Lemma advanceSpec_run o spec σ :
  advanceSpec o spec σ = Some (tt, advanced o [spec] σ).
Proof.
  unfold advanceSpec, advanced, mbind, M_bind, get_followSpec. simpl.
  assert (Halt : forall x, x = advance o (followSpecs σ !!! spec) ->
            <[spec := x]> (followSpecs σ) = alter (advance o) spec (followSpecs σ)).
  { intros x ->. apply list_eq. intros i.
    rewrite list_lookup_insert, list_lookup_alter.
    destruct (decide (spec = i)) as [->|Hne].
    - destruct (decide (i < length (followSpecs σ))%nat) as [Hlt|Hge].
      + rewrite decide_True by done.
        by rewrite (list_lookup_lookup_total_lt _ _ Hlt).
      + rewrite decide_False by (intros [_ ?]; done).
        rewrite (proj2 (lookup_ge_None _ _)) by lia. done.
    - by rewrite decide_False by (intros [? _]; done). }
  destruct (After o (spec_offset (followSpecs σ !!! spec))) eqn:Ha.
  - unfold set_followSpec, with_followSpecs.
    rewrite Halt; [done|]. unfold advance. by rewrite Ha.
  - unfold mret, M_ret, with_followSpecs.
    rewrite <- (Halt (followSpecs σ !!! spec)) by (unfold advance; by rewrite Ha).
    rewrite list_insert_id'; [by destruct σ|].
    intros Hlt. by apply list_lookup_lookup_total_lt.
Qed.

Lemma for_each_advanceSpec o specs σ :
  for_each specs (advanceSpec o) σ = Some (tt, advanced o specs σ).
Proof.
  revert σ. induction specs as [|spec specs IH]; intros σ; simpl.
  - by rewrite advanced_nil.
  - unfold mbind, M_bind. rewrite advanceSpec_run, IH.
    by rewrite <- advanced_app.
Qed.

Lemma fold_includeSpec o specs included σ :
  fold_M (includeSpec o) specs included σ
  = Some (included ++ included_in σ o (true, specs), σ).
Proof.
  revert included. induction specs as [|spec specs IH]; intros included; simpl.
  - by rewrite app_nil_r.
  - unfold mbind, M_bind, includeSpec, get_followSpec at 1. simpl.
    rewrite IH. unfold included_in. simpl. rewrite filter_cons.
    destruct (After o (spec_offset (followSpecs σ !!! spec))) eqn:Ha.
    + rewrite decide_True by done. by rewrite <- app_assoc.
    + rewrite decide_False by congruence. done.
Qed.

Lemma included_in_advanced o done σ v :
  (forall spec, spec ∈ v.2 -> spec ∉ done) ->
  included_in (advanced o done σ) o v = included_in σ o v.
Proof.
  intros Hdis. unfold included_in. destruct v.1; [|done].
  do 2 f_equal. apply list_fmap_ext. intros i spec Hi.
  apply advanced_lookup_total, Hdis. by eapply list_elem_of_lookup_2.
Qed.

Lemma walkTable_run o pr included kv σ :
  walkTable o pr included kv σ
  = Some (included ++ included_in σ o (visit_table σ pr kv),
          advanced o (visit_table σ pr kv).2 σ).
Proof.
  unfold walkTable, visit_table, mbind, M_bind, get_tableSpec. simpl.
  destruct (default [] (followers (tableSpecs σ !!! kv.2) !! pid pr))
    as [|spec specs] eqn:Hspecs.
  - simpl. unfold included_in. simpl. rewrite advanced_nil.
    destruct (default false _); by rewrite app_nil_r.
  - change (length (spec :: specs) =? 0)%nat with false. cbv iota.
    destruct (default false (wherePassed pr !! kv.1)) eqn:Hp.
    + rewrite fold_includeSpec, for_each_advanceSpec. done.
    + unfold mret at 1, M_ret at 1. rewrite for_each_advanceSpec.
      unfold included_in. simpl. by rewrite app_nil_r.
Qed.

Lemma advanced_lookup_total_cases o done σ spec :
  followSpecs (advanced o done σ) !!! spec = followSpecs σ !!! spec \/
  followSpecs (advanced o done σ) !!! spec = advance o (followSpecs σ !!! spec).
Proof.
  rewrite !list_lookup_total_alt, advanced_lookup.
  destruct (followSpecs σ !! spec) as [sp|]; simpl; [|by left].
  case_decide; [by right|by left].
Qed.

(** In a store in which specs have been advanced already, a visit includes
    a subsequence of what it includes in the store before the walk. *)
Lemma included_in_advanced_sublist o done σ v :
  included_in (advanced o done σ) o v `sublist_of` included_in σ o v.
Proof.
  unfold included_in. destruct v.1; [|done].
  induction v.2 as [|spec specs IH]; [done|].
  rewrite !fmap_cons, !filter_cons.
  destruct (advanced_lookup_total_cases o done σ spec) as [->| ->].
  - case_decide; [|done]. rewrite !fmap_cons. by apply sublist_skip.
  - rewrite (decide_False (P := After o (spec_offset (advance o _)) = true))
      by (by rewrite After_advance).
    case_decide; [|done]. rewrite fmap_cons. by apply sublist_cons.
Qed.

Lemma walkTables_run o pr kvs included σ done :
  exists extra,
    fold_M (walkTable o pr) kvs included (advanced o done σ)
    = Some (included ++ extra,
            advanced o (done ++ specs_of (visit_table σ pr <$> kvs)) σ) /\
    extra `sublist_of` included_by σ o (visit_table σ pr <$> kvs) /\
    ((forall spec, spec ∈ specs_of (visit_table σ pr <$> kvs) -> spec ∉ done) ->
     NoDup (specs_of (visit_table σ pr <$> kvs)) ->
     extra = included_by σ o (visit_table σ pr <$> kvs)).
Proof.
  revert included done. induction kvs as [|kv kvs IH]; intros included done.
  - exists []. simpl. unfold specs_of, included_by. simpl. by rewrite !app_nil_r.
  - destruct (IH (included ++ included_in (advanced o done σ) o (visit_table σ pr kv))
                (done ++ (visit_table σ pr kv).2)) as (extra & Hrun & Hsub & Heq).
    exists (included_in (advanced o done σ) o (visit_table σ pr kv) ++ extra).
    split; [|split].
    + simpl. unfold mbind, M_bind. rewrite walkTable_run.
      change (visit_table (advanced o done σ) pr kv) with (visit_table σ pr kv).
      rewrite <- advanced_app, Hrun.
      unfold specs_of. simpl. by rewrite <- !app_assoc.
    + unfold included_by. simpl. apply sublist_app; [|done].
      apply included_in_advanced_sublist.
    + unfold specs_of. rewrite !fmap_cons. simpl. intros Hdis Hnd.
      apply NoDup_app in Hnd as (Hnd1 & Hnd12 & Hnd2).
      unfold included_by. simpl. f_equal.
      * apply included_in_advanced. intros spec Hs. apply Hdis, elem_of_app. by left.
      * apply Heq; [|done]. intros spec Hs [Hd|Hv]%elem_of_app.
        -- eapply Hdis; [|exact Hd]. apply elem_of_app. by right.
        -- by eapply Hnd12.
Qed.

Lemma walkPartitions_run result kvs included σ done vss :
  mapM (visit_partition σ result) kvs = Some vss ->
  exists extra,
    fold_M (walkPartition result) kvs included (advanced (offset (entry result)) done σ)
    = Some (included ++ extra,
            advanced (offset (entry result)) (done ++ specs_of (mjoin vss)) σ) /\
    extra `sublist_of` included_by σ (offset (entry result)) (mjoin vss) /\
    ((forall spec, spec ∈ specs_of (mjoin vss) -> spec ∉ done) ->
     NoDup (specs_of (mjoin vss)) ->
     extra = included_by σ (offset (entry result)) (mjoin vss)).
Proof.
  revert included done vss.
  induction kvs as [|kv kvs IH]; intros included done vss Hvss.
  - rewrite mapM_Some in Hvss. apply Forall2_nil_inv_l in Hvss as ->.
    exists []. simpl. unfold specs_of, included_by. simpl. by rewrite !app_nil_r.
  - rewrite mapM_Some in Hvss. apply Forall2_cons_inv_l in Hvss
      as (vs & vss' & Hvs & Hvss' & ->).
    rewrite <- mapM_Some in Hvss'.
    unfold visit_partition in Hvs.
    destruct (partitions result !! kv.1) as [pr|] eqn:Hpr; [|done]. simplify_eq.
    set (kvt := map_to_list (tables (partSpecs σ !!! kv.2))).
    destruct (walkTables_run (offset (entry result)) pr kvt included σ done)
      as (extra1 & Hrun1 & Hsub1 & Heq1).
    destruct (IH (included ++ extra1)
                (done ++ specs_of (visit_table σ pr <$> kvt)) vss' Hvss')
      as (extra2 & Hrun2 & Hsub2 & Heq2).
    exists (extra1 ++ extra2). split; [|split].
    + simpl. unfold mbind, M_bind, walkPartition at 1. rewrite Hpr.
      unfold mbind, M_bind, get_partSpec. simpl. fold kvt.
      rewrite Hrun1, Hrun2. unfold specs_of. simpl.
      by rewrite !fmap_app, !join_app, <- !app_assoc.
    + unfold included_by. simpl. rewrite fmap_app, join_app. by apply sublist_app.
    + unfold specs_of, included_by. simpl. rewrite !fmap_app, !join_app.
      intros Hdis Hnd. apply NoDup_app in Hnd as (Hnd1 & Hnd12 & Hnd2). f_equal.
      * apply Heq1; [|done]. intros spec Hs. apply Hdis, elem_of_app. by left.
      * apply Heq2; [|done]. intros spec Hs [Hd|Hv]%elem_of_app.
        -- eapply Hdis; [|exact Hd]. apply elem_of_app. by right.
        -- by eapply Hnd12.
Qed.

(** C3.  The walk of [processFollowers] for a pipeline result [e], when the
    result has an entry for every partition key of the stream's tree.  The
    walk visits, for each partition and table, the specs of
    [table.followers[pid]].  Afterwards a visited spec whose offset
    [e.offset] is [After] has its offset set to [e.offset], whether or not
    the predicate of its table passed; every other spec, visited or not, is
    as it was, and nothing but the specs has changed.  The ids added to
    [includedFollowers] are, visit by visit, [followerID]s of specs of a
    table whose predicate passed whose offset, before the walk, [e.offset]
    is [After]; when no spec is reached twice they are the ids of exactly
    these specs. *)
Theorem walkResult_advances_and_includes σ d result vs :
  visited σ d result = Some vs ->
  exists included σ',
    walkResult result d σ = Some (included, σ') /\
    σ' = with_followSpecs (fun _ => followSpecs σ') σ /\
    (forall spec,
       followSpecs σ' !! spec
       = (if decide (spec ∈ specs_of vs) then advance (offset (entry result))
          else fun sp => sp) <$> followSpecs σ !! spec) /\
    (forall passed specs spec sp,
       (passed, specs) ∈ vs -> spec ∈ specs -> followSpecs σ !! spec = Some sp ->
       followSpecs σ' !! spec
       = Some (if After (offset (entry result)) (spec_offset sp)
               then mkFollowSpec (followerID sp) (offset (entry result)) else sp)) /\
    included `sublist_of` included_by σ (offset (entry result)) vs /\
    (NoDup (specs_of vs) -> included = included_by σ (offset (entry result)) vs).
Proof.
  intros Hvs.
  assert (Hrun : exists included,
    walkResult result d σ
      = Some (included, advanced (offset (entry result)) (specs_of vs) σ) /\
    included `sublist_of` included_by σ (offset (entry result)) vs /\
    (NoDup (specs_of vs) -> included = included_by σ (offset (entry result)) vs)).
  { unfold walkResult, visited in *.
    destruct (streams d !! stream (entry result)) as [partitions|].
    - unfold mbind, M_bind, get_partMap. simpl.
      destruct (mapM _ _) as [vss|] eqn:Hvss; [|done]. simpl in Hvs. simplify_eq.
      destruct (walkPartitions_run result _ [] σ [] vss Hvss)
        as (extra & Hrun & Hsub & Heq).
      rewrite advanced_nil in Hrun. exists extra. split; [done|]. split; [done|].
      intros Hnd. apply Heq; [|done]. intros spec _. apply not_elem_of_nil.
    - simplify_eq. exists []. unfold specs_of, included_by. simpl.
      by rewrite advanced_nil. }
  destruct Hrun as (included & Hrun & Hsub & Heq).
  exists included, (advanced (offset (entry result)) (specs_of vs) σ).
  split; [done|]. split; [done|]. split; [|split; [|done]].
  - intros spec. apply advanced_lookup.
  - intros passed specs spec sp Hv Hs Hsp.
    rewrite advanced_lookup, Hsp, decide_True; [done|].
    unfold specs_of. apply list_elem_of_join. exists specs. split; [done|].
    apply list_elem_of_fmap. by exists (passed, specs).
Qed.

(** *** What the events leave of the store *)

(** [same_tree σ0 σ]: [σ] differs from [σ0] at most in the offsets of specs. *)
Definition same_tree (σ0 σ : Store) : Prop :=
  arrays σ = arrays σ0 /\ partMaps σ = partMaps σ0 /\ partSpecs σ = partSpecs σ0 /\
  tableSpecs σ = tableSpecs σ0 /\
  followerID <$> followSpecs σ = followerID <$> followSpecs σ0.

Lemma same_tree_ext σ0 σ : same_tree σ0 σ -> ext σ0 σ.
Proof.
  intros (_ & Hpm & Hps & Hts & Hfs). unfold ext. by rewrite Hpm, Hps, Hts, Hfs.
Qed.

Lemma followerID_advance o sp : followerID (advance o sp) = followerID sp.
Proof. unfold advance. by destruct (After o (spec_offset sp)). Qed.

Lemma advanced_same_tree o specs σ0 σ :
  same_tree σ0 σ -> same_tree σ0 (advanced o specs σ).
Proof.
  intros (Ha & Hpm & Hps & Hts & Hfs). repeat split; try done.
  rewrite <- Hfs. apply list_eq. intros i.
  rewrite !list_lookup_fmap, advanced_lookup.
  destruct (followSpecs σ !! i) as [sp|]; [|done]. simpl.
  case_decide; [by rewrite followerID_advance|done].
Qed.

Lemma walkTable_same_tree σ0 o pr included kv :
  pres (same_tree σ0) (walkTable o pr included kv).
Proof.
  intros σ a σ' HJ. rewrite walkTable_run. intros [= _ <-].
  by apply advanced_same_tree.
Qed.

Lemma walkResult_same_tree σ0 result d : pres (same_tree σ0) (walkResult result d).
Proof.
  unfold walkResult. destruct (streams d !! stream (entry result)); [|apply pres_ret].
  apply pres_bind; [apply (pres_read _ (fun σ => partMaps σ !!! n))|].
  intros pm. apply pres_fold_M. intros included kv. unfold walkPartition.
  destruct (partitions result !! kv.1); [|apply pres_panic].
  apply pres_bind; [apply (pres_read _ (fun σ => partSpecs σ !!! kv.2))|].
  intros partition. apply pres_fold_M. intros included' kv'.
  apply walkTable_same_tree.
Qed.

Lemma deliver_streams entry included last d d' :
  deliver entry included last d = Done d' -> streams d' = streams d.
Proof.
  revert last d. induction included as [|inc rest IH]; intros last d Hd; simpl in Hd.
  - by simplify_eq.
  - destruct (inc =? last); [by eapply IH|].
    destruct (d_followers d !! inc) as [g|]; [|done].
    destruct (failed g); [by eapply IH|].
    destruct (submit entry g) as [g'| |]; try done.
    destruct (if 0 <=? PartitionNumber (follow g) then _ else _); [|done].
    by rewrite (IH _ _ Hd).
Qed.

Lemma handleResult_same_tree result d σ d' σ' :
  handleResult result d σ = Done (d', σ') ->
  same_tree σ σ' /\ streams d' = streams d.
Proof.
  unfold handleResult. intros Hr.
  destruct (walkResult result d σ) as [[included σ1]|] eqn:Hw; [|done].
  assert (Hs : same_tree σ σ1).
  { eapply walkResult_same_tree; [|exact Hw]. by repeat split. }
  destruct (0 <? length included)%nat; [|by simplify_eq].
  destruct (deliver _ _ _ _) as [d1| |] eqn:Hd; try done. simplify_eq.
  split; [done|]. by eapply deliver_streams.
Qed.

Lemma restartReader_store oldRequests streams' d d' σ σ' :
  fold_M (restartReader oldRequests) streams' d σ = Some (d', σ') -> σ' = σ.
Proof.
  revert d. induction streams' as [|stream l IH]; intros d; simpl.
  - by intros [= _ <-].
  - unfold mbind, M_bind.
    destruct (restartReader oldRequests d stream σ) as [[d1 σ1]|] eqn:Hr; [|done].
    assert (σ1 = σ) as ->; [|apply IH].
    unfold restartReader in Hr.
    destruct (walOpens _ _); [|by simplify_eq].
    destruct oldRequests as [old|]; [|by simplify_eq].
    destruct (default true (pipelines d !! old)); [done|by simplify_eq].
Qed.

(** Handling a join does not panic before the readers are restarted, and
    extends the store. *)
Lemma handleFollowerJoined_ext f extra d σ d' σ' :
  handleFollowerJoined f extra d σ = Some (d', σ') -> ext σ σ'.
Proof.
  unfold handleFollowerJoined. intros Hh.
  destruct (copyStreams_joining σ (map_to_list (streams d)) ∅) with (σ := σ)
    as (streamsCopy & σ1 & Hc & HJ1 & Hsc).
  { intros s pm Hs. by simplify_map_eq. }
  { apply joining_start. }
  rewrite (bind_run _ _ _ _ _ Hc) in Hh.
  set (d1 := mkDispatcher _ _ streamsCopy _ _ _ _ _ _) in Hh.
  destruct (onFollowerJoined_joining σ f d1 Hsc σ1 HJ1) as (d2 & σ2 & Hj & HJ2 & Hd2).
  rewrite (bind_run _ _ _ _ _ Hj) in Hh.
  destruct (keeps_fold_M (joining σ) (fun d f => onFollowerJoined f d) extra d2
              (fun d => new_partMaps σ (streams d)) Hd2) with (σ := σ2)
    as (d3 & σ3 & Hj3 & HJ3 & Hd3); [|done|].
  { intros b x _ Hb. by apply onFollowerJoined_joining. }
  rewrite (bind_run _ _ _ _ _ Hj3) in Hh.
  apply restartReader_store in Hh as ->. apply HJ3.
Qed.

Lemma handle_ext numPartitions e d σ d' σ' :
  handle numPartitions e d σ = Done (d', σ') -> ext σ σ'.
Proof.
  destruct e as [f extra|result|]; simpl.
  - destruct (handleFollowerJoined f extra d σ) as [[d1 σ1]|] eqn:Hh; [|done].
    intros [= <- <-]. by eapply handleFollowerJoined_ext.
  - intros Hr. by apply same_tree_ext, (handleResult_same_tree _ _ _ _ _ Hr).
  - intros [= _ <-]. apply ext_refl.
Qed.

Lemma processFollowers_from_ext numPartitions es d σ d' σ' :
  processFollowers_from numPartitions es d σ = Done (d', σ') -> ext σ σ'.
Proof.
  revert d σ. induction es as [|e es IH]; intros d σ; simpl.
  - intros [= _ <-]. apply ext_refl.
  - destruct (handle numPartitions e d σ) as [[d1 σ1]| |] eqn:Hh; try done.
    intros Hrun. eapply ext_trans; [by eapply handle_ext|by eapply IH].
Qed.

(** *** Handling a join keeps the store well-formed *)

Lemma copyFollowers_sound V tableCopy kv :
  monotone V -> (forall σ, V σ -> valid_specs σ kv.2) ->
  sound V (copyFollowers tableCopy kv) (fun _ _ => True).
Proof.
  intros HV Hkv. unfold copyFollowers.
  eapply sound_bind; [apply sound_get_tableSpec|]. intros tc.
  apply sound_set_tableSpec; [mono|].
  intros σ [HVσ Htc]. simpl. apply map_Forall_insert_2; [by apply Hkv|done].
Qed.

Lemma copyTable_sound V partitionCopy kv :
  monotone V -> sound V (copyTable partitionCopy kv) (fun _ _ => True).
Proof.
  intros HV. unfold copyTable.
  eapply sound_bind; [apply sound_get_tableSpec|]. intros table.
  eapply sound_bind; [apply sound_new_tableSpec; mono|]. intros tableCopy.
  eapply sound_bind; [apply sound_get_partSpec|]. intros pc.
  eapply sound_bind.
  { apply sound_set_partSpec; [mono|]. intros σ [[_ Hnew] Hpc]. simpl.
    by apply map_Forall_insert_2. }
  intros u. apply sound_for_each. intros x Hx. apply copyFollowers_sound; [mono|].
  intros σ [[[[_ Htable] _] _] _]. apply elem_of_map_to_list' in Hx.
  by apply (Htable _ _ Hx).
Qed.

Lemma copyPartition_sound V partitionsCopy kv :
  monotone V -> sound V (copyPartition partitionsCopy kv) (fun _ _ => True).
Proof.
  intros HV. unfold copyPartition.
  eapply sound_bind; [apply sound_get_partSpec|]. intros partition.
  eapply sound_bind; [apply sound_new_partSpec; mono|]. intros partitionCopy.
  eapply sound_bind; [apply sound_get_partMap|]. intros pmc.
  eapply sound_bind.
  { apply sound_set_partMap; [mono|]. intros σ [[_ Hnew] Hpmc]. simpl.
    by apply map_Forall_insert_2. }
  intros u. apply sound_for_each. intros x _. apply copyTable_sound. mono.
Qed.

Lemma copyStreams_sound V l streamsCopy :
  monotone V -> sound V (copyStreams l streamsCopy) (fun _ _ => True).
Proof.
  revert V streamsCopy. induction l as [|[stream partitions] l IH]; intros V acc HV.
  - by apply sound_ret.
  - simpl. eapply sound_bind; [by apply sound_new_partMap|]. intros partitionsCopy.
    eapply sound_bind; [apply sound_get_partMap|]. intros pm.
    eapply sound_bind.
    { apply sound_for_each. intros x _. apply copyPartition_sound. mono. }
    intros u. apply IH. mono.
Qed.

Lemma sortedPartitionKeys_sound V partitionKeys :
  monotone V -> sound V (sortedPartitionKeys partitionKeys) (fun _ _ => True).
Proof.
  intros HV. unfold sortedPartitionKeys.
  destruct (len partitionKeys =? 0)%nat; [by apply sound_ret|].
  eapply sound_bind.
  { unfold sort_Strings. eapply sound_bind.
    - by apply (sound_read _ _ (fun σ => arrays σ !!! arr partitionKeys)).
    - intros a. eapply sound_arrays with (a := fun _ => tt); [mono|done]. }
  intros u. eapply sound_bind with (Q1 := fun _ _ => True).
  { unfold strings_Join. eapply sound_bind.
    - by apply (sound_read _ _ (fun σ => arrays σ !!! arr partitionKeys)).
    - intros a. by apply sound_ret. }
  intros joined. by apply sound_ret.
Qed.

Lemma joinTable_sound V f id ps t :
  monotone V -> sound V (joinTable f id ps t) (fun _ _ => True).
Proof.
  intros HV. unfold joinTable.
  eapply sound_bind; [apply sound_get_partSpec|]. intros psv.
  eapply sound_bind with (Q1 := fun _ _ => True).
  { destruct (tables psv !! PT_Name t) as [table|]; [by apply sound_ret|].
    destruct (getTable (PT_Name t)); [|by apply sound_ret].
    eapply sound_bind; [apply sound_new_tableSpec; mono|]. intros table.
    eapply sound_bind.
    - apply sound_set_partSpec; [mono|]. intros σ [[_ Hpsv] Hnew]. simpl.
      by apply map_Forall_insert_2.
    - intros u. by apply sound_ret. }
  intros [table|]; [|by apply sound_ret].
  eapply sound_bind; [apply sound_get_tableSpec|]. intros tsv.
  eapply sound_bind; [apply sound_new_followSpec; mono|]. intros spec.
  apply sound_set_tableSpec; [mono|]. intros σ [[_ Htsv] Hnew]. simpl.
  apply map_Forall_insert_2; [|done]. apply Forall_app. split.
  - destruct (followers tsv !! PartitionNumber (follow f)) as [specs|] eqn:Hs;
      [by apply (Htsv _ _ Hs)|constructor].
  - by constructor.
Qed.

Lemma joinPartition_sound V f id partitions partition :
  monotone V -> sound V (joinPartition f id partitions partition) (fun _ _ => True).
Proof.
  intros HV. unfold joinPartition.
  eapply sound_bind; [by apply sortedPartitionKeys_sound|]. intros [ks sortedKeys].
  eapply sound_bind; [apply sound_get_partMap|]. intros pm.
  eapply sound_bind with (Q1 := fun _ _ => True).
  { destruct (pm !! ks) as [ps|]; [by apply sound_ret|].
    eapply sound_bind; [apply sound_new_partSpec; mono|]. intros ps.
    eapply sound_bind.
    - apply sound_set_partMap; [mono|]. intros σ [[_ Hpm] Hnew]. simpl.
      by apply map_Forall_insert_2.
    - intros u. by apply sound_ret. }
  intros ps. apply sound_for_each. intros t _. apply joinTable_sound. mono.
Qed.

Lemma onFollowerJoined_sound V f d :
  monotone V -> sound V (onFollowerJoined f d) (fun _ _ => True).
Proof.
  intros HV. unfold onFollowerJoined.
  eapply sound_bind with (Q1 := fun _ _ => True).
  { destruct (streams d !! Stream (follow (set_followerId _ f))); [by apply sound_ret|].
    eapply sound_bind; [by apply sound_new_partMap|]. intros partitions.
    by apply sound_ret. }
  intros [partitions streams'].
  eapply sound_bind.
  { apply sound_for_each. intros x _. apply joinPartition_sound. mono. }
  intros u. by apply sound_ret.
Qed.

(** Handling a join does not panic before the readers are restarted, and
    leaves no reference dangling. *)
Lemma handleFollowerJoined_well_formed f extra d σ d' σ' :
  handleFollowerJoined f extra d σ = Some (d', σ') -> well_formed σ -> well_formed σ'.
Proof.
  unfold handleFollowerJoined. intros Hh Hwf.
  destruct (copyStreams_sound (fun _ => True) (map_to_list (streams d)) ∅
              monotone_True σ Hwf I) as (streamsCopy & σ1 & Hc & Hwf1 & _).
  rewrite (bind_run _ _ _ _ _ Hc) in Hh.
  set (d1 := mkDispatcher _ _ streamsCopy _ _ _ _ _ _) in Hh.
  destruct (onFollowerJoined_sound (fun _ => True) f d1 monotone_True σ1 Hwf1 I)
    as (d2 & σ2 & Hj & Hwf2 & _).
  rewrite (bind_run _ _ _ _ _ Hj) in Hh.
  destruct (sound_fold_M (fun _ => True) (fun d f => onFollowerJoined f d) extra d2)
    with (σ := σ2) as (d3 & σ3 & Hj3 & Hwf3 & _); [|done|done|].
  { intros b x. by apply onFollowerJoined_sound. }
  rewrite (bind_run _ _ _ _ _ Hj3) in Hh.
  by apply restartReader_store in Hh as ->.
Qed.

Lemma same_tree_well_formed σ σ' : same_tree σ σ' -> well_formed σ -> well_formed σ'.
Proof.
  intros (_ & Hpm & Hps & Hts & Hfs) (H1 & H2 & H3).
  assert (Hlen : length (followSpecs σ') = length (followSpecs σ)).
  { by rewrite <- (length_fmap followerID (followSpecs σ')), Hfs, length_fmap. }
  unfold well_formed, valid_partSpecs, valid_tableSpecs, valid_followSpecs, valid_specs.
  by rewrite Hpm, Hps, Hts, Hlen.
Qed.

Lemma handle_well_formed numPartitions e d σ d' σ' :
  handle numPartitions e d σ = Done (d', σ') -> well_formed σ -> well_formed σ'.
Proof.
  destruct e as [f extra|result|]; simpl.
  - destruct (handleFollowerJoined f extra d σ) as [[d1 σ1]|] eqn:Hh; [|done].
    intros [= <- <-]. by eapply handleFollowerJoined_well_formed.
  - intros Hr. by apply same_tree_well_formed, (handleResult_same_tree _ _ _ _ _ Hr).
  - by intros [= _ <-].
Qed.

Lemma processFollowers_from_well_formed numPartitions es d σ d' σ' :
  processFollowers_from numPartitions es d σ = Done (d', σ') ->
  well_formed σ -> well_formed σ'.
Proof.
  revert d σ. induction es as [|e es IH]; intros d σ; simpl.
  - by intros [= _ <-].
  - destruct (handle numPartitions e d σ) as [[d1 σ1]| |] eqn:Hh; try done.
    intros Hrun Hwf. eapply IH; [done|]. by eapply handle_well_formed.
Qed.

(** *** Delivery *)

Lemma submit_sends entry (f f' : follower CbState) :
  submit entry f = Done f' -> failed f = false ->
  buf (entries f') = buf (entries f) ++ [entry].
Proof.
  unfold submit, chan_send. intros Hs Hf. rewrite Hf in Hs.
  destruct (closed (entries f)); [done|].
  destruct (length (buf (entries f)) <? cap (entries f))%nat; [|done].
  by simplify_eq.
Qed.

(** Past a follower in the sorted list, the loop leaves its session alone. *)
Lemma deliver_past entry included last d d' id :
  deliver entry included last d = Done d' ->
  StronglySorted Z.le included -> Forall (Z.le last) included -> id <= last ->
  d_followers d' !! id = d_followers d !! id.
Proof.
  revert last d. induction included as [|inc rest IH]; intros last d Hd Hs Hl Hid.
  - simpl in Hd. by simplify_eq.
  - simpl in Hd. apply StronglySorted_inv in Hs as [Hs Hinc].
    apply Forall_cons in Hl as [Hli Hl].
    destruct (Z.eqb_spec inc last) as [->|Hne]; [by eapply IH|].
    destruct (d_followers d !! inc) as [g|] eqn:Hg; [|done].
    destruct (failed g); [eapply IH; eauto; lia|].
    destruct (submit entry g) as [g'| |]; try done.
    destruct (if 0 <=? PartitionNumber (follow g) then _ else _); [|done].
    erewrite IH; [|exact Hd|done|done|lia].
    simpl. apply lookup_insert_ne. lia.
Qed.




(** *** The followers that the dispatcher has numbered *)

Lemma bind_inv {A B} (m : M A) (k : A -> M B) σ r :
  (m ≫= k) σ = Some r -> exists a σ1, m σ = Some (a, σ1) /\ k a σ1 = Some r.
Proof.
  unfold mbind, M_bind. destruct (m σ) as [[a σ1]|]; [|done]. by exists a, σ1.
Qed.

(** Apart from [streams], the variables that [onFollowerJoined] leaves. *)
Lemma onFollowerJoined_fields f d σ d' σ' :
  onFollowerJoined f d σ = Some (d', σ') ->
  let id := int_inc (nextFollowerID d) in
  nextFollowerID d' = id /\
  d_followers d' = <[id := set_followerId id f]> (d_followers d) /\
  stopWALReaders d' = stopWALReaders d /\
  stats d' = stats d /\
  newlyJoinedStreams d' = <[Stream (follow f) := true]> (newlyJoinedStreams d) /\
  requests d' = requests d /\
  pipelines d' = pipelines d.
Proof.
  unfold onFollowerJoined. intros Hj. simpl.
  apply bind_inv in Hj as ([partitions streams'] & σ1 & _ & Hj).
  apply bind_inv in Hj as ([] & σ2 & _ & Hj).
  unfold mret, M_ret in Hj. by simplify_eq.
Qed.

(** [numbered d]: the followers are numbered from 1 to [nextFollowerID], and
    each one holds its number. *)
Definition numbered (d : dispatcher) : Prop :=
  0 <= nextFollowerID d /\
  (forall id, is_Some (d_followers d !! id) <-> 1 <= id <= nextFollowerID d) /\
  (forall id f, d_followers d !! id = Some f -> followerId f = id).

(** The number of followers that an event brings. *)
Definition joins_of (e : event) : Z :=
  match e with
  | Joined _ extra => 1 + Z.of_nat (length extra)
  | _ => 0
  end.

Definition joins (es : list event) : Z := foldr (fun e n => joins_of e + n) 0 es.

Lemma onFollowerJoined_numbered f d σ d' σ' :
  onFollowerJoined f d σ = Some (d', σ') ->
  numbered d -> nextFollowerID d + 1 < 2 ^ 63 ->
  numbered d' /\ nextFollowerID d' = nextFollowerID d + 1.
Proof.
  intros Hj (Hpos & Hdom & Hid) Hlt.
  destruct (onFollowerJoined_fields _ _ _ _ _ Hj) as (Hn & Hf & _). simpl in *.
  unfold int_inc in *. rewrite wrap64_small in Hn, Hf by lia.
  split; [|done]. unfold numbered. rewrite Hn, Hf. split; [lia|]. split.
  - intros id. rewrite lookup_insert. case_decide.
    + subst. split; [lia|by eexists].
    + rewrite Hdom. lia.
  - intros id g. rewrite lookup_insert. case_decide.
    + intros [= <-]. by subst.
    + apply Hid.
Qed.

Lemma fold_onFollowerJoined_numbered extra d σ d' σ' :
  fold_M (fun d f => onFollowerJoined f d) extra d σ = Some (d', σ') ->
  numbered d -> nextFollowerID d + Z.of_nat (length extra) < 2 ^ 63 ->
  numbered d' /\ nextFollowerID d' = nextFollowerID d + Z.of_nat (length extra).
Proof.
  revert d σ. induction extra as [|f extra IH]; intros d σ Hf Hn Hlt.
  - simpl in Hf. unfold mret, M_ret in Hf. simplify_eq. split; [done|simpl; lia].
  - simpl in Hf. apply bind_inv in Hf as (d1 & σ1 & Hj & Hf).
    change (length (f :: extra)) with (S (length extra)) in *.
    rewrite Nat2Z.inj_succ in *.
    destruct (onFollowerJoined_numbered _ _ _ _ _ Hj Hn) as (Hn1 & Hnext1); [lia|].
    destruct (IH _ _ Hf Hn1) as (Hn' & Hnext'); [lia|]. split; [done|lia].
Qed.

(** What restarting the readers leaves of the variables. *)
Lemma restartReader_fields oldRequests streams' d d' σ σ' :
  fold_M (restartReader oldRequests) streams' d σ = Some (d', σ') ->
  nextFollowerID d' = nextFollowerID d /\ d_followers d' = d_followers d /\
  streams d' = streams d /\ stats d' = stats d /\ requests d' = requests d.
Proof.
  revert d σ. induction streams' as [|stream l IH]; intros d σ Hf; simpl in Hf.
  - unfold mret, M_ret in Hf. by simplify_eq.
  - apply bind_inv in Hf as (d1 & σ1 & Hr & Hf).
    destruct (IH _ _ Hf) as (-> & -> & -> & -> & ->).
    unfold restartReader in Hr.
    destruct (walOpens _ _); [|by simplify_eq].
    destruct oldRequests as [old|]; [|by simplify_eq].
    destruct (default true (pipelines d !! old)); [done|by simplify_eq].
Qed.

Lemma numbered_fields d d' :
  nextFollowerID d' = nextFollowerID d -> d_followers d' = d_followers d ->
  numbered d -> numbered d'.
Proof. unfold numbered. by intros -> ->. Qed.

Lemma handleFollowerJoined_numbered f extra d σ d' σ' :
  handleFollowerJoined f extra d σ = Some (d', σ') ->
  numbered d -> nextFollowerID d + joins_of (Joined f extra) < 2 ^ 63 ->
  numbered d' /\ nextFollowerID d' = nextFollowerID d + joins_of (Joined f extra).
Proof.
  unfold handleFollowerJoined. simpl. intros Hh Hn Hlt.
  apply bind_inv in Hh as (streamsCopy & σ1 & _ & Hh).
  apply bind_inv in Hh as (d2 & σ2 & Hj & Hh).
  apply bind_inv in Hh as (d3 & σ3 & Hj3 & Hh).
  destruct (onFollowerJoined_numbered _ _ _ _ _ Hj) as (Hn2 & Hnext2); [done|simpl; lia|].
  simpl in Hnext2.
  destruct (fold_onFollowerJoined_numbered _ _ _ _ _ Hj3 Hn2) as (Hn3 & Hnext3); [lia|].
  destruct (restartReader_fields _ _ _ _ _ _ Hh) as (Hnext & Hfol & _).
  split; [by eapply numbered_fields|lia].
Qed.

(** Delivering an entry changes, of the followers, the queues of some, none
    of which it closes; the other variables but [stats] stay. *)
Definition requeued (d d' : dispatcher) : Prop :=
  nextFollowerID d' = nextFollowerID d /\ streams d' = streams d /\
  length (stats d') = length (stats d) /\
  forall id,
    match d_followers d !! id with
    | None => d_followers d' !! id = None
    | Some f =>
        exists c, d_followers d' !! id = Some (set_entries c f) /\
                  closed c = closed (entries f)
    end.

Lemma requeued_refl d : requeued d d.
Proof.
  repeat split. intros id. destruct (d_followers d !! id) as [f|]; [|done].
  exists (entries f). by destruct f.
Qed.

Lemma requeued_trans d1 d2 d3 : requeued d1 d2 -> requeued d2 d3 -> requeued d1 d3.
Proof.
  intros (Hn1 & Hs1 & Hl1 & Hf1) (Hn2 & Hs2 & Hl2 & Hf2).
  split; [congruence|]. split; [congruence|]. split; [congruence|]. intros id.
  specialize (Hf1 id). specialize (Hf2 id).
  destruct (d_followers d1 !! id) as [f|].
  - destruct Hf1 as (c1 & Hc1 & Hcl1). rewrite Hc1 in Hf2.
    destruct Hf2 as (c2 & Hc2 & Hcl2). exists c2. split; [done|]. simpl in Hcl2. congruence.
  - by rewrite Hf1 in Hf2.
Qed.

Lemma deliver_requeued entry included last d d' :
  deliver entry included last d = Done d' -> requeued d d'.
Proof.
  revert last d. induction included as [|inc rest IH]; intros last d Hd; simpl in Hd.
  - simplify_eq. apply requeued_refl.
  - destruct (inc =? last); [by eapply IH|].
    destruct (d_followers d !! inc) as [g|] eqn:Hg; [|done].
    destruct (failed g) eqn:Hfg; [by eapply IH|].
    destruct (submit entry g) as [g'| |] eqn:Hsub; try done.
    destruct (if 0 <=? PartitionNumber (follow g) then _ else _) as [count|]; [|done].
    eapply requeued_trans; [|by eapply IH].
    split; [done|]. split; [done|]. split; [simpl; by rewrite length_insert|].
    intros id. simpl. rewrite lookup_insert. case_decide.
    + subst id. rewrite Hg. unfold submit, chan_send in Hsub. rewrite Hfg in Hsub.
      destruct (closed (entries g)) eqn:Hcl; [done|].
      destruct (_ <? _)%nat; [|done]. simplify_eq. by eexists.
    + destruct (d_followers d !! id) as [f|]; [|done].
      exists (entries f). by destruct f.
Qed.

Lemma requeued_numbered d d' : requeued d d' -> numbered d -> numbered d'.
Proof.
  intros (Hn & _ & _ & Hf) (Hpos & Hdom & Hid). unfold numbered. rewrite Hn.
  split; [done|]. split.
  - intros id. rewrite <- Hdom. specialize (Hf id).
    destruct (d_followers d !! id) as [f|].
    + destruct Hf as (c & -> & _). split; by eexists.
    + rewrite Hf. done.
  - intros id f' Hf'. specialize (Hf id).
    destruct (d_followers d !! id) as [f|] eqn:Hfid; [|congruence].
    destruct Hf as (c & Hc & _). simplify_eq. simpl. by eapply Hid.
Qed.

Lemma handleResult_requeued result d σ d' σ' :
  handleResult result d σ = Done (d', σ') -> requeued d d'.
Proof.
  unfold handleResult. intros Hr.
  destruct (walkResult result d σ) as [[included σ1]|]; [|done].
  destruct (0 <? length included)%nat; [|simplify_eq; apply requeued_refl].
  destruct (deliver _ _ _ _) as [d1| |] eqn:Hd; try done. simplify_eq.
  by eapply deliver_requeued.
Qed.

Lemma handle_numbered numPartitions e d σ d' σ' :
  handle numPartitions e d σ = Done (d', σ') ->
  numbered d -> nextFollowerID d + joins_of e < 2 ^ 63 ->
  numbered d' /\ nextFollowerID d' = nextFollowerID d + joins_of e.
Proof.
  destruct e as [f extra|result|]; simpl.
  - destruct (handleFollowerJoined f extra d σ) as [[d1 σ1]|] eqn:Hh; [|done].
    intros [= <- <-]. by apply (handleFollowerJoined_numbered _ _ _ _ _ _ Hh).
  - intros Hr Hn _. apply handleResult_requeued in Hr.
    split; [by eapply requeued_numbered|]. destruct Hr as (-> & _). lia.
  - intros [= <- <-] Hn _. split; [done|simpl; lia].
Qed.

Lemma joins_nonneg es : 0 <= joins es.
Proof. induction es as [|[]]; simpl; lia. Qed.

Lemma processFollowers_from_numbered numPartitions es d σ d' σ' :
  processFollowers_from numPartitions es d σ = Done (d', σ') ->
  numbered d -> nextFollowerID d + joins es < 2 ^ 63 ->
  numbered d' /\ nextFollowerID d' = nextFollowerID d + joins es.
Proof.
  revert d σ. induction es as [|e es IH]; intros d σ Hrun Hn Hlt; simpl in *.
  - simplify_eq. split; [done|lia].
  - destruct (handle numPartitions e d σ) as [[d1 σ1]| |] eqn:Hh; try done.
    pose proof (joins_nonneg es).
    destruct (handle_numbered _ _ _ _ _ _ Hh Hn) as (Hn1 & Hnext1); [lia|].
    destruct (IH _ _ Hrun Hn1) as (Hn' & Hnext'); [lia|]. split; [done|lia].
Qed.

Lemma numbered_start numPartitions m : numbered (start numPartitions m).
Proof.
  split; [done|]. split.
  - intros id. simpl. rewrite lookup_empty. split; [by intros [? ?]|lia].
  - intros id f. simpl. by rewrite lookup_empty.
Qed.

(** *** Every spec is a registered follower's, under its partition number *)

Section Owned.
(** The followers, by number. *)
Variable fs : gmap Z (follower CbState).

(** [owned_spec σ pn spec]: the spec is that of a follower that is
    registered and has the partition number [pn]; [owned σ]: every table of
    the store lists, for each partition number, only such specs. *)
Definition owned_spec (σ : Store) (pn : Z) (spec : nat) : Prop :=
  exists sp f,
    followSpecs σ !! spec = Some sp /\ fs !! followerID sp = Some f /\
    PartitionNumber (follow f) = pn.

Definition owned_map (σ : Store) (m : gmap Z (list nat)) : Prop :=
  map_Forall (fun pn specs => Forall (owned_spec σ pn) specs) m.

Definition owned (σ : Store) : Prop :=
  Forall (fun ts => owned_map σ (followers ts)) (tableSpecs σ).

(** The specs of [σ] are in [σ'], with their follower ids. *)
Definition ids_kept (σ σ' : Store) : Prop :=
  (followerID <$> followSpecs σ) `prefix_of` (followerID <$> followSpecs σ').

Definition stable (V : Store -> Prop) : Prop :=
  forall σ σ', ids_kept σ σ' -> V σ -> V σ'.

Lemma ids_kept_same σ σ' : followSpecs σ' = followSpecs σ -> ids_kept σ σ'.
Proof. unfold ids_kept. by intros ->. Qed.

Lemma stable_True : stable (fun _ => True).
Proof. done. Qed.

Lemma stable_and V1 V2 : stable V1 -> stable V2 -> stable (fun σ => V1 σ /\ V2 σ).
Proof. intros H1 H2 σ σ' Hk [? ?]. split; eauto. Qed.

Lemma stable_owned_spec pn spec : stable (fun σ => owned_spec σ pn spec).
Proof.
  intros σ σ' Hk (sp & f & Hsp & Hf & Hpn).
  assert (Hid : (followerID <$> followSpecs σ') !! spec = Some (followerID sp)).
  { eapply prefix_lookup_Some; [|exact Hk]. by rewrite list_lookup_fmap, Hsp. }
  apply list_lookup_fmap_Some in Hid as (sp' & Heq & Hsp').
  exists sp', f. by rewrite <- Heq.
Qed.

Lemma stable_owned_specs pn specs : stable (fun σ => Forall (owned_spec σ pn) specs).
Proof.
  intros σ σ' Hk Hs. eapply Forall_impl; [exact Hs|].
  intros spec. by apply stable_owned_spec.
Qed.

Lemma stable_owned_map m : stable (fun σ => owned_map σ m).
Proof.
  intros σ σ' Hk Hm. eapply map_Forall_impl; [exact Hm|].
  intros pn specs. by apply stable_owned_specs.
Qed.

Ltac stab :=
  cbv beta;
  solve [ repeat first
    [ assumption
    | apply stable_True
    | apply stable_and
    | apply stable_owned_spec
    | apply stable_owned_specs
    | apply stable_owned_map ] ].

Lemma owned_kept σ σ' :
  tableSpecs σ' = tableSpecs σ -> ids_kept σ σ' -> owned σ -> owned σ'.
Proof.
  unfold owned. intros -> Hk Ho. eapply Forall_impl; [exact Ho|].
  intros ts. by apply stable_owned_map.
Qed.

(** A step that leaves the tables and the specs alone. *)
Definition inert {A} (m : M A) : Prop :=
  forall σ, exists a σ',
    m σ = Some (a, σ') /\ tableSpecs σ' = tableSpecs σ /\ followSpecs σ' = followSpecs σ.

Lemma sound_inert V {A} (m : M A) :
  stable V -> inert m -> sound_in owned V m (fun _ _ => True).
Proof.
  intros HV Hm σ Ho HVσ. destruct (Hm σ) as (a & σ' & Hr & Hts & Hfs).
  exists a, σ'. split; [done|]. apply ids_kept_same in Hfs.
  split; [by apply (owned_kept σ σ')|]. split; [by eapply HV|done].
Qed.

Lemma inert_sortedPartitionKeys partitionKeys : inert (sortedPartitionKeys partitionKeys).
Proof.
  intros σ. unfold sortedPartitionKeys. destruct (len partitionKeys =? 0)%nat; by eexists _, _.
Qed.

Lemma sound_owned_get_tableSpec V r :
  sound_in owned V (get_tableSpec r) (fun ts σ => owned_map σ (followers ts)).
Proof.
  intros σ Ho HV. exists (tableSpecs σ !!! r), σ.
  split; [done|]. split; [done|]. split; [done|].
  rewrite list_lookup_total_alt.
  destruct (tableSpecs σ !! r) as [ts|] eqn:Hr; [|apply map_Forall_empty].
  by eapply (Forall_lookup_1 _ _ _ _ Ho).
Qed.

Lemma sound_owned_new_tableSpec V w ws :
  stable V -> sound_in owned V (new_tableSpec (mkTableSpec w ws ∅)) (fun _ _ => True).
Proof.
  intros HV σ Ho HVσ. eexists _, _. split; [done|]. split; [|split; [|done]].
  - unfold owned. simpl. apply Forall_app. split.
    + eapply Forall_impl; [exact Ho|]. intros ts. by apply stable_owned_map, ids_kept_same.
    + constructor; [apply map_Forall_empty|done].
  - eapply HV; [|exact HVσ]. by apply ids_kept_same.
Qed.

Lemma sound_owned_set_tableSpec V r ts :
  stable V -> (forall σ, V σ -> owned_map σ (followers ts)) ->
  sound_in owned V (set_tableSpec r ts) (fun _ _ => True).
Proof.
  intros HV Hts σ Ho HVσ.
  set (σ' := with_tableSpecs (fun h => <[r := ts]> h) σ).
  assert (Hk : ids_kept σ σ') by (by apply ids_kept_same).
  exists tt, σ'. split; [done|]. split; [|split; [by eapply HV|done]].
  unfold owned. simpl. apply Forall_insert.
  - eapply Forall_impl; [exact Ho|]. intros ts'. by apply stable_owned_map.
  - apply (stable_owned_map _ σ σ' Hk). by apply Hts.
Qed.

Lemma sound_owned_new_followSpec V sp f :
  stable V -> fs !! followerID sp = Some f ->
  sound_in owned V (new_followSpec sp)
    (fun r σ => owned_spec σ (PartitionNumber (follow f)) r).
Proof.
  intros HV Hf σ Ho HVσ.
  set (σ' := with_followSpecs (fun h => h ++ [sp]) σ).
  assert (Hk : ids_kept σ σ').
  { unfold ids_kept. simpl. rewrite fmap_app. by apply prefix_app_r. }
  exists (length (followSpecs σ)), σ'. split; [done|].
  split; [by apply (owned_kept σ σ')|]. split; [by eapply HV|].
  exists sp, f. split; [|done]. simpl. by apply list_lookup_middle.
Qed.


Lemma inert_read {A} (f : Store -> A) : inert (fun σ => Some (f σ, σ)).
Proof. intros σ. by eexists _, _. Qed.

Lemma copyFollowers_owned V tableCopy kv :
  stable V -> (forall σ, V σ -> Forall (owned_spec σ kv.1) kv.2) ->
  sound_in owned V (copyFollowers tableCopy kv) (fun _ _ => True).
Proof.
  intros HV Hkv. unfold copyFollowers.
  eapply sound_in_bind; [apply sound_owned_get_tableSpec|]. intros tc.
  apply sound_owned_set_tableSpec; [stab|].
  intros σ [HVσ Htc]. simpl. apply map_Forall_insert_2; [by apply Hkv|done].
Qed.

Lemma copyTable_owned V partitionCopy kv :
  stable V -> sound_in owned V (copyTable partitionCopy kv) (fun _ _ => True).
Proof.
  intros HV. unfold copyTable.
  eapply sound_in_bind; [apply sound_owned_get_tableSpec|]. intros table.
  eapply sound_in_bind; [apply sound_owned_new_tableSpec; stab|]. intros tableCopy.
  eapply sound_in_bind; [apply sound_inert; [stab|apply inert_read]|]. intros pc.
  eapply sound_in_bind; [apply sound_inert; [stab|by intros ?; eexists _, _]|].
  intros u. apply sound_in_for_each. intros x Hx. apply copyFollowers_owned; [stab|].
  intros σ [[[[_ Htable] _] _] _]. apply elem_of_map_to_list' in Hx.
  by apply (Htable _ _ Hx).
Qed.

Lemma copyPartition_owned V partitionsCopy kv :
  stable V -> sound_in owned V (copyPartition partitionsCopy kv) (fun _ _ => True).
Proof.
  intros HV. unfold copyPartition.
  eapply sound_in_bind; [apply sound_inert; [stab|apply inert_read]|]. intros partition.
  eapply sound_in_bind; [apply sound_inert; [stab|by intros ?; eexists _, _]|]. intros partitionCopy.
  eapply sound_in_bind; [apply sound_inert; [stab|apply inert_read]|]. intros pmc.
  eapply sound_in_bind; [apply sound_inert; [stab|by intros ?; eexists _, _]|].
  intros u. apply sound_in_for_each. intros x _. apply copyTable_owned. stab.
Qed.

Lemma copyStreams_owned V l streamsCopy :
  stable V -> sound_in owned V (copyStreams l streamsCopy) (fun _ _ => True).
Proof.
  revert V streamsCopy. induction l as [|[stream partitions] l IH]; intros V acc HV.
  - by apply sound_in_ret.
  - simpl. eapply sound_in_bind; [apply sound_inert; [stab|by intros ?; eexists _, _]|].
    intros partitionsCopy.
    eapply sound_in_bind; [apply sound_inert; [stab|apply inert_read]|]. intros pm.
    eapply sound_in_bind.
    { apply sound_in_for_each. intros x _. apply copyPartition_owned. stab. }
    intros u. apply IH. stab.
Qed.

Lemma joinTable_owned V f id ps t g :
  stable V -> fs !! id = Some g -> PartitionNumber (follow g) = PartitionNumber (follow f) ->
  sound_in owned V (joinTable f id ps t) (fun _ _ => True).
Proof.
  intros HV Hg Hpn. unfold joinTable.
  eapply sound_in_bind; [apply sound_inert; [stab|apply inert_read]|]. intros psv.
  eapply sound_in_bind with (Q1 := fun _ _ => True).
  { destruct (tables psv !! PT_Name t) as [table|]; [by apply sound_in_ret|].
    destruct (getTable (PT_Name t)); [|by apply sound_in_ret].
    eapply sound_in_bind; [apply sound_owned_new_tableSpec; stab|]. intros table.
    eapply sound_in_bind; [apply sound_inert; [stab|by intros ?; eexists _, _]|].
    intros u. by apply sound_in_ret. }
  intros [table|]; [|by apply sound_in_ret].
  eapply sound_in_bind; [apply sound_owned_get_tableSpec|]. intros tsv.
  eapply sound_in_bind.
  { apply (sound_owned_new_followSpec _ (mkFollowSpec id _) g); [stab|done]. }
  intros spec. apply sound_owned_set_tableSpec; [stab|].
  intros σ [[_ Htsv] Hnew]. simpl. rewrite Hpn in Hnew.
  apply map_Forall_insert_2; [|done]. apply Forall_app. split.
  - destruct (followers tsv !! PartitionNumber (follow f)) as [specs|] eqn:Hs;
      [by apply (Htsv _ _ Hs)|constructor].
  - by constructor.
Qed.

Lemma joinPartition_owned V f id partitions partition g :
  stable V -> fs !! id = Some g -> PartitionNumber (follow g) = PartitionNumber (follow f) ->
  sound_in owned V (joinPartition f id partitions partition) (fun _ _ => True).
Proof.
  intros HV Hg Hpn. unfold joinPartition.
  eapply sound_in_bind; [apply sound_inert; [stab|apply inert_sortedPartitionKeys]|].
  intros [ks sortedKeys].
  eapply sound_in_bind; [apply sound_inert; [stab|apply inert_read]|]. intros pm.
  eapply sound_in_bind with (Q1 := fun _ _ => True).
  { destruct (pm !! ks) as [ps|]; [by apply sound_in_ret|].
    eapply sound_in_bind; [apply sound_inert; [stab|by intros ?; eexists _, _]|]. intros ps.
    eapply sound_in_bind; [apply sound_inert; [stab|by intros ?; eexists _, _]|].
    intros u. by apply sound_in_ret. }
  intros ps. apply sound_in_for_each. intros t _. eapply joinTable_owned; [stab|done|done].
Qed.

Lemma onFollowerJoined_owned V f d :
  stable V ->
  fs = <[int_inc (nextFollowerID d) := set_followerId (int_inc (nextFollowerID d)) f]>
         (d_followers d) ->
  sound_in owned V (onFollowerJoined f d) (fun _ _ => True).
Proof.
  intros HV Hfs. unfold onFollowerJoined.
  eapply sound_in_bind with (Q1 := fun _ _ => True).
  { destruct (streams d !! Stream (follow (set_followerId _ f))); [by apply sound_in_ret|].
    eapply sound_in_bind; [apply sound_inert; [stab|by intros ?; eexists _, _]|]. intros partitions.
    by apply sound_in_ret. }
  intros [partitions streams'].
  eapply sound_in_bind.
  { apply sound_in_for_each. intros x _.
    eapply joinPartition_owned; [stab| |reflexivity].
    rewrite Hfs. apply lookup_insert_eq. }
  intros u. by apply sound_in_ret.
Qed.

End Owned.

Lemma owned_insert_fresh fs id f σ :
  fs !! id = None -> owned fs σ -> owned (<[id := f]> fs) σ.
Proof.
  intros Hid Ho. unfold owned in *. eapply Forall_impl; [exact Ho|].
  intros ts Hts. eapply map_Forall_impl; [exact Hts|].
  intros pn specs Hs. eapply Forall_impl; [exact Hs|].
  intros spec (sp & g & Hsp & Hg & Hpn). exists sp, g. split; [done|]. split; [|done].
  rewrite lookup_insert_ne; [done|]. congruence.
Qed.

Lemma owned_requeued d d' σ :
  requeued d d' -> owned (d_followers d) σ -> owned (d_followers d') σ.
Proof.
  intros (_ & _ & _ & Hf) Ho. unfold owned in *. eapply Forall_impl; [exact Ho|].
  intros ts Hts. eapply map_Forall_impl; [exact Hts|].
  intros pn specs Hs. eapply Forall_impl; [exact Hs|].
  intros spec (sp & g & Hsp & Hg & Hpn). specialize (Hf (followerID sp)).
  rewrite Hg in Hf. destruct Hf as (c & Hc & _).
  exists sp, (set_entries c g). by rewrite Hc.
Qed.

Lemma owned_same_tree fs σ σ' : same_tree σ σ' -> owned fs σ -> owned fs σ'.
Proof.
  intros (_ & _ & _ & Hts & Hids). apply owned_kept; [done|].
  unfold ids_kept. by rewrite Hids.
Qed.

(** One follower joins: the numbering and the ownership are kept. *)
Lemma onFollowerJoined_registered f d σ d' σ' :
  onFollowerJoined f d σ = Some (d', σ') ->
  numbered d -> nextFollowerID d + 1 < 2 ^ 63 -> owned (d_followers d) σ ->
  owned (d_followers d') σ'.
Proof.
  intros Hj Hn Hlt Ho.
  destruct (onFollowerJoined_fields _ _ _ _ _ Hj) as (_ & Hf & _). simpl in Hf.
  set (id := int_inc (nextFollowerID d)) in *.
  assert (Hfresh : d_followers d !! id = None).
  { destruct Hn as (Hpos & Hdom & _). apply eq_None_not_Some. rewrite Hdom.
    unfold id, int_inc. rewrite wrap64_small by lia. lia. }
  destruct (onFollowerJoined_owned (d_followers d') (fun _ => True) f d) with (σ := σ)
    as (d2 & σ2 & Hj2 & Ho2 & _); [apply stable_True|done| |done|].
  - rewrite Hf. by apply owned_insert_fresh.
  - congruence.
Qed.

Lemma fold_onFollowerJoined_registered extra d σ d' σ' :
  fold_M (fun d f => onFollowerJoined f d) extra d σ = Some (d', σ') ->
  numbered d -> nextFollowerID d + Z.of_nat (length extra) < 2 ^ 63 ->
  owned (d_followers d) σ -> owned (d_followers d') σ'.
Proof.
  revert d σ. induction extra as [|f extra IH]; intros d σ Hf Hn Hlt Ho.
  - simpl in Hf. unfold mret, M_ret in Hf. by simplify_eq.
  - simpl in Hf. apply bind_inv in Hf as (d1 & σ1 & Hj & Hf).
    change (length (f :: extra)) with (S (length extra)) in *.
    rewrite Nat2Z.inj_succ in *.
    destruct (onFollowerJoined_numbered _ _ _ _ _ Hj Hn) as (Hn1 & Hnext1); [lia|].
    apply (IH _ _ Hf Hn1); [lia|].
    apply (onFollowerJoined_registered _ _ _ _ _ Hj Hn); [lia|done].
Qed.

Lemma handleFollowerJoined_owned f extra d σ d' σ' :
  handleFollowerJoined f extra d σ = Some (d', σ') ->
  numbered d -> nextFollowerID d + joins_of (Joined f extra) < 2 ^ 63 ->
  owned (d_followers d) σ -> owned (d_followers d') σ'.
Proof.
  unfold handleFollowerJoined. simpl. intros Hh Hn Hlt Ho.
  destruct (copyStreams_owned (d_followers d) (fun _ => True)
              (map_to_list (streams d)) ∅ stable_True σ Ho I)
    as (streamsCopy & σ1 & Hc & Ho1 & _).
  rewrite (bind_run _ _ _ _ _ Hc) in Hh.
  apply bind_inv in Hh as (d2 & σ2 & Hj & Hh).
  apply bind_inv in Hh as (d3 & σ3 & Hj3 & Hh).
  destruct (onFollowerJoined_numbered _ _ _ _ _ Hj) as (Hn2 & Hnext2); [done|simpl; lia|].
  simpl in Hnext2.
  pose proof (onFollowerJoined_registered _ _ _ _ _ Hj Hn ltac:(simpl; lia) Ho1) as Ho2.
  pose proof (fold_onFollowerJoined_registered _ _ _ _ _ Hj3 Hn2 ltac:(lia) Ho2) as Ho3.
  destruct (restartReader_fields _ _ _ _ _ _ Hh) as (_ & Hfol & _).
  apply restartReader_store in Hh as ->. by rewrite Hfol.
Qed.

(** [registered d σ]: the followers are numbered and own the specs. *)
Definition registered (d : dispatcher) (σ : Store) : Prop :=
  numbered d /\ owned (d_followers d) σ.

Lemma handle_registered numPartitions e d σ d' σ' :
  handle numPartitions e d σ = Done (d', σ') ->
  registered d σ -> nextFollowerID d + joins_of e < 2 ^ 63 ->
  registered d' σ' /\ nextFollowerID d' = nextFollowerID d + joins_of e.
Proof.
  intros Hh [Hn Ho] Hlt.
  destruct (handle_numbered _ _ _ _ _ _ Hh Hn Hlt) as (Hn' & Hnext).
  split; [|done]. split; [done|].
  destruct e as [f extra|result|]; simpl in Hh.
  - destruct (handleFollowerJoined f extra d σ) as [[d1 σ1]|] eqn:Hj; [|done].
    simplify_eq. by eapply handleFollowerJoined_owned.
  - destruct (handleResult_same_tree _ _ _ _ _ Hh) as (Hs & _).
    apply handleResult_requeued in Hh.
    by eapply owned_requeued, owned_same_tree.
  - by simplify_eq.
Qed.

Lemma processFollowers_from_registered numPartitions es d σ d' σ' :
  processFollowers_from numPartitions es d σ = Done (d', σ') ->
  registered d σ -> nextFollowerID d + joins es < 2 ^ 63 ->
  registered d' σ' /\ nextFollowerID d' = nextFollowerID d + joins es.
Proof.
  revert d σ. induction es as [|e es IH]; intros d σ Hrun Hr Hlt; simpl in *.
  - simplify_eq. split; [done|lia].
  - destruct (handle numPartitions e d σ) as [[d1 σ1]| |] eqn:Hh; try done.
    pose proof (joins_nonneg es).
    destruct (handle_registered _ _ _ _ _ _ Hh Hr) as (Hr1 & Hnext1); [lia|].
    destruct (IH _ _ Hrun Hr1) as (Hr' & Hnext'); [lia|]. split; [done|lia].
Qed.

Lemma registered_start numPartitions m σ :
  no_trees σ -> registered (start numPartitions m) σ.
Proof.
  intros (_ & _ & Hts & _). split; [apply numbered_start|].
  unfold owned. by rewrite Hts.
Qed.

(** *** Who is included *)

Lemma walkResult_run result d σ vs :
  visited σ d result = Some vs ->
  exists included,
    walkResult result d σ
      = Some (included, advanced (offset (entry result)) (specs_of vs) σ) /\
    included `sublist_of` included_by σ (offset (entry result)) vs.
Proof.
  intros Hvs. unfold walkResult, visited in *.
  destruct (streams d !! stream (entry result)) as [tree|].
  - unfold mbind, M_bind, get_partMap. simpl.
    destruct (mapM _ _) as [vss|] eqn:Hvss; [|done]. simpl in Hvs. simplify_eq.
    destruct (walkPartitions_run result _ [] σ [] vss Hvss) as (extra & Hrun & Hsub & _).
    rewrite advanced_nil in Hrun. by exists extra.
  - simplify_eq. exists []. unfold specs_of, included_by. simpl.
    by rewrite advanced_nil.
Qed.

(** The walk panics exactly on a partition key that the result lacks. *)
Lemma walkPartitions_keys result kvs included σ r :
  fold_M (walkPartition result) kvs included σ = Some r ->
  Forall (fun kv => is_Some (partitions result !! kv.1)) kvs.
Proof.
  revert included σ. induction kvs as [|kv kvs IH]; intros included σ Hf; [constructor|].
  simpl in Hf. apply bind_inv in Hf as (inc1 & σ1 & Hw & Hf).
  constructor; [|by eapply IH].
  unfold walkPartition in Hw. by destruct (partitions result !! kv.1).
Qed.

Lemma walkResult_visited result d σ r :
  walkResult result d σ = Some r -> is_Some (visited σ d result).
Proof.
  unfold walkResult, visited. intros Hw.
  destruct (streams d !! stream (entry result)) as [tree|]; [|by eexists].
  apply bind_inv in Hw as (pm & σ1 & Hpm & Hw).
  unfold get_partMap in Hpm. injection Hpm as Hpm Hσ. subst pm σ1.
  apply walkPartitions_keys in Hw.
  destruct (mapM_is_Some_2 (visit_partition σ result) (map_to_list (partMaps σ !!! tree)))
    as [vss ->]; [|by eexists].
  eapply Forall_impl; [exact Hw|]. intros kv [pr Hpr]. simpl.
  unfold visit_partition. rewrite Hpr. by eexists.
Qed.

(** A visit of the walk is that of a table of the stream's tree, for the
    [partitionResult] of its partition. *)
Lemma visited_elem σ d result vs v :
  visited σ d result = Some vs -> v ∈ vs ->
  exists tree k ps pr t ts,
    streams d !! stream (entry result) = Some tree /\
    (partMaps σ !!! tree) !! k = Some ps /\
    partitions result !! k = Some pr /\
    tables (partSpecs σ !!! ps) !! t = Some ts /\
    v = visit_table σ pr (t, ts).
Proof.
  unfold visited. intros Hvs Hv.
  destruct (streams d !! stream (entry result)) as [tree|];
    [|simplify_eq; by apply elem_of_nil in Hv].
  destruct (mapM _ _) as [vss|] eqn:Hvss; [|done]. simpl in Hvs. simplify_eq.
  apply list_elem_of_join in Hv as (vs1 & Hv & Hvs1).
  apply mapM_Some_1 in Hvss.
  apply list_elem_of_lookup in Hvs1 as (i & Hi).
  destruct (Forall2_lookup_r _ _ _ _ _ Hvss Hi) as ([k ps] & Hkv & Hvp).
  unfold visit_partition in Hvp. simpl in Hvp.
  destruct (partitions result !! k) as [pr|] eqn:Hpr; [|done]. simplify_eq.
  apply list_elem_of_fmap in Hv as ([t ts] & -> & Ht).
  apply list_elem_of_lookup_2, elem_of_map_to_list in Hkv.
  apply elem_of_map_to_list in Ht.
  by exists tree, k, ps, pr, t, ts.
Qed.

(** Whom a walk that completes includes: only followers that are registered,
    each for a partition of the stream's tree whose [pid] in the result is
    the partition number of the follower. *)
Lemma included_registered result d σ included σ' id :
  walkResult result d σ = Some (included, σ') ->
  owned (d_followers d) σ -> id ∈ included ->
  exists f tree k ps pr t ts,
    d_followers d !! id = Some f /\
    streams d !! stream (entry result) = Some tree /\
    (partMaps σ !!! tree) !! k = Some ps /\
    partitions result !! k = Some pr /\
    PartitionNumber (follow f) = pid pr /\
    tables (partSpecs σ !!! ps) !! t = Some ts /\
    wherePassed pr !! t = Some true.
Proof.
  intros Hw Ho Hid.
  destruct (walkResult_visited _ _ _ _ Hw) as [vs Hvs].
  destruct (walkResult_run _ _ _ _ Hvs) as (inc & Hrun & Hsub).
  rewrite Hrun in Hw. simplify_eq.
  apply (elem_of_sublist _ _ _ Hid) in Hsub. clear Hid. rename Hsub into Hid.
  unfold included_by in Hid. apply list_elem_of_join in Hid as (ids & Hid & Hids).
  apply list_elem_of_fmap in Hids as (v & -> & Hv).
  destruct (visited_elem _ _ _ _ _ Hvs Hv) as (tree & k & ps & pr & t & ts & Hs & Hk & Hpr & Ht & ->).
  unfold included_in, visit_table in Hid. simpl in Hid.
  destruct (wherePassed pr !! t) as [[|]|] eqn:Hpassed; simpl in Hid;
    try by apply elem_of_nil in Hid.
  apply list_elem_of_fmap in Hid as (sp & -> & Hsp).
  apply list_elem_of_filter in Hsp as (_ & Hsp).
  apply list_elem_of_fmap in Hsp as (spec & -> & Hspec).
  destruct (followers (tableSpecs σ !!! ts) !! pid pr) as [specs|] eqn:Hspecs;
    [|by apply elem_of_nil in Hspec].
  simpl in Hspec.
  assert (Hom : owned_map (d_followers d) σ (followers (tableSpecs σ !!! ts))).
  { rewrite list_lookup_total_alt.
    destruct (tableSpecs σ !! ts) as [T|] eqn:HT; [|apply map_Forall_empty].
    by eapply (Forall_lookup_1 _ _ _ _ Ho). }
  specialize (Hom _ _ Hspecs). simpl in Hom. rewrite Forall_forall in Hom.
  destruct (Hom spec Hspec) as (sp & f & Hsp & Hf & Hpn).
  exists f, tree, k, ps, pr, t, ts. rewrite (list_lookup_total_correct _ _ _ Hsp).
  done.
Qed.

(** *** Delivery does not panic *)

(** [ready numPartitions d]: no queue of a follower is closed, and [stats]
    has an entry for each partition. *)
Definition ready (numPartitions : Z) (d : dispatcher) : Prop :=
  (forall id f, d_followers d !! id = Some f -> closed (entries f) = false) /\
  length (stats d) = Z.to_nat numPartitions.

(** The followers of an event come with their queue open. *)
Definition open_event (e : event) : Prop :=
  match e with
  | Joined f extra => Forall (fun g => closed (entries g) = false) (f :: extra)
  | _ => True
  end.

Lemma deliver_completes entry included last d :
  (forall id f, d_followers d !! id = Some f -> closed (entries f) = false) ->
  Forall (fun inc => exists f, d_followers d !! inc = Some f /\
            0 <= PartitionNumber (follow f) < Z.of_nat (length (stats d))) included ->
  deliver entry included last d = Blocked \/
  exists d', deliver entry included last d = Done d'.
Proof.
  revert last d. induction included as [|inc rest IH]; intros last d Hopen Hinc; simpl.
  - right. by eexists.
  - apply Forall_cons in Hinc as [(g & Hg & Hpn) Hrest].
    destruct (inc =? last); [by apply IH|]. rewrite Hg.
    destruct (failed g) eqn:Hfg; [by apply IH|].
    unfold submit, chan_send. rewrite Hfg, (Hopen _ _ Hg).
    destruct (_ <? _)%nat; [|by left].
    destruct (Z.leb_spec 0 (PartitionNumber (follow g))) as [_|]; [|lia].
    destruct (stats d !! Z.to_nat (PartitionNumber (follow g))) as [count|] eqn:Hc.
    + apply IH; simpl.
      * intros id f. rewrite lookup_insert. case_decide; [|by apply Hopen].
        by intros [= <-].
      * rewrite length_insert. eapply Forall_impl; [exact Hrest|].
        intros inc' (f & Hf & Hpn'). rewrite lookup_insert. case_decide.
        -- subst. eexists. split; [done|]. simpl. congruence.
        -- by exists f.
    + apply lookup_ge_None in Hc. lia.
Qed.

Lemma onFollowerJoined_ready numPartitions f d σ d' σ' :
  onFollowerJoined f d σ = Some (d', σ') ->
  closed (entries f) = false -> ready numPartitions d -> ready numPartitions d'.
Proof.
  intros Hj Hf (Hopen & Hlen).
  destruct (onFollowerJoined_fields _ _ _ _ _ Hj) as (_ & Hfs & _ & Hst & _).
  simpl in Hfs. split; [|congruence].
  intros id g. rewrite Hfs, lookup_insert. case_decide; [|by apply Hopen].
  by intros [= <-].
Qed.

Lemma fold_onFollowerJoined_ready numPartitions extra d σ d' σ' :
  fold_M (fun d f => onFollowerJoined f d) extra d σ = Some (d', σ') ->
  Forall (fun g => closed (entries g) = false) extra ->
  ready numPartitions d -> ready numPartitions d'.
Proof.
  revert d σ. induction extra as [|f extra IH]; intros d σ Hf Hopen Hr.
  - simpl in Hf. unfold mret, M_ret in Hf. by simplify_eq.
  - simpl in Hf. apply bind_inv in Hf as (d1 & σ1 & Hj & Hf).
    apply Forall_cons in Hopen as [Hfo Hopen].
    apply (IH _ _ Hf Hopen). by eapply onFollowerJoined_ready.
Qed.

Lemma handle_ready numPartitions e d σ d' σ' :
  handle numPartitions e d σ = Done (d', σ') ->
  open_event e -> ready numPartitions d -> ready numPartitions d'.
Proof.
  destruct e as [f extra|result|]; simpl.
  - destruct (handleFollowerJoined f extra d σ) as [[d1 σ1]|] eqn:Hh; [|done].
    intros [= <- <-] Hopen Hr. apply Forall_cons in Hopen as [Hf Hextra].
    unfold handleFollowerJoined in Hh.
    apply bind_inv in Hh as (streamsCopy & σ1' & _ & Hh).
    apply bind_inv in Hh as (d2 & σ2 & Hj & Hh).
    apply bind_inv in Hh as (d3 & σ3 & Hj3 & Hh).
    destruct (restartReader_fields _ _ _ _ _ _ Hh) as (_ & Hfol & _ & Hst & _).
    assert (Hr3 : ready numPartitions d3).
    { eapply fold_onFollowerJoined_ready; [exact Hj3|done|].
      eapply onFollowerJoined_ready; [exact Hj|done|]. exact Hr. }
    destruct Hr3 as (Ho3 & Hl3). split; [by rewrite Hfol|congruence].
  - intros Hr _ (Hopen & Hlen). apply handleResult_requeued in Hr.
    destruct Hr as (_ & _ & Hl & Hf). split; [|congruence].
    intros id f' Hf'. specialize (Hf id).
    destruct (d_followers d !! id) as [f|] eqn:Hfid; [|congruence].
    destruct Hf as (c & Hc & Hcl). simplify_eq. simpl. rewrite Hcl. by eapply Hopen.
  - intros [= <- <-] _ (Hopen & Hlen). split; [done|]. simpl. apply length_replicate.
Qed.

Lemma processFollowers_from_ready numPartitions es d σ d' σ' :
  processFollowers_from numPartitions es d σ = Done (d', σ') ->
  Forall open_event es -> ready numPartitions d -> ready numPartitions d'.
Proof.
  revert d σ. induction es as [|e es IH]; intros d σ Hrun Hopen Hr; simpl in *.
  - by simplify_eq.
  - destruct (handle numPartitions e d σ) as [[d1 σ1]| |] eqn:Hh; try done.
    apply Forall_cons in Hopen as [He Hes].
    apply (IH _ _ Hrun Hes). by eapply handle_ready.
Qed.

Lemma ready_start numPartitions m : ready numPartitions (start numPartitions m).
Proof.
  split; [|apply length_replicate]. intros id f. simpl. by rewrite lookup_empty.
Qed.

(** A result that has, for each partition key of the stream's tree, a [pid]
    that is a partition number, is processed without a panic. *)
Lemma handleResult_completes numPartitions result d σ :
  registered d σ -> ready numPartitions d ->
  (forall tree k,
     streams d !! stream (entry result) = Some tree ->
     is_Some ((partMaps σ !!! tree) !! k) ->
     exists pr, partitions result !! k = Some pr /\ 0 <= pid pr < numPartitions) ->
  handleResult result d σ = Blocked \/
  exists d' σ', handleResult result d σ = Done (d', σ').
Proof.
  intros [Hn Ho] (Hopen & Hlen) Hkeys.
  assert (Hv : is_Some (visited σ d result)).
  { unfold visited. destruct (streams d !! stream (entry result)) as [tree|] eqn:Hs;
      [|by eexists].
    destruct (mapM_is_Some_2 (visit_partition σ result)
                (map_to_list (partMaps σ !!! tree))) as [vss ->]; [|by eexists].
    apply Forall_forall. intros [k ps] Hk. apply elem_of_map_to_list in Hk.
    destruct (Hkeys tree k eq_refl) as (pr & Hpr & _); [by eexists|].
    simpl. unfold visit_partition. simpl. rewrite Hpr. by eexists. }
  destruct Hv as [vs Hvs].
  destruct (walkResult_run _ _ _ _ Hvs) as (included & Hrun & _).
  unfold handleResult. rewrite Hrun.
  destruct (0 <? length included)%nat; [|right; by eexists _, _].
  destruct (deliver_completes (entry result) (sort_Sort Z.ltb included) (-1) d Hopen)
    as [->|[d' ->]]; [|by left|right; by eexists _, _].
  rewrite (sort_Sort_perm _ Z.ltb included). apply Forall_forall. intros id Hid.
  destruct (included_registered _ _ _ _ _ _ Hrun Ho Hid)
    as (f & tree & k & ps & pr & t & ts & Hf & Hs & Hk & Hpr & Hpn & _).
  exists f. split; [done|].
  destruct (Hkeys tree k Hs) as (pr' & Hpr' & Hrange); [by eexists|].
  simplify_eq. rewrite Hpn, Hlen. lia.
Qed.

(** *** Who is sent the entry *)

(** A session that the loop changes is that of an included follower that
    has not failed; the change is the send of the entry. *)
Lemma deliver_sent entry included last d d' id f :
  deliver entry included last d = Done d' ->
  StronglySorted Z.le included ->
  d_followers d !! id = Some f ->
  exists f', d_followers d' !! id = Some f' /\
    (f' = f \/ (id ∈ included /\ failed f = false /\ submit entry f = Done f')).
Proof.
  revert last d. induction included as [|inc rest IH]; intros last d Hd Hs Hf.
  - simpl in Hd. simplify_eq. eauto.
  - simpl in Hd. apply StronglySorted_inv in Hs as [Hs Hinc].
    assert (Hrest : forall last d,
              deliver entry rest last d = Done d' -> d_followers d !! id = Some f ->
              exists f', d_followers d' !! id = Some f' /\
                (f' = f \/ (id ∈ inc :: rest /\ failed f = false /\
                            submit entry f = Done f'))).
    { intros last1 d1 Hd1 Hf1. destruct (IH _ _ Hd1 Hs Hf1) as (f' & Hf' & [->|(Hin & ?)]).
      - exists f. auto.
      - exists f'. split; [done|]. right. split; [by right|done]. }
    destruct (Z.eqb_spec inc last) as [->|Hne]; [by eapply Hrest|].
    destruct (d_followers d !! inc) as [g|] eqn:Hg; [|done].
    destruct (failed g) eqn:Hfg; [by eapply Hrest|].
    destruct (submit entry g) as [g'| |] eqn:Hsub; try done.
    destruct (if 0 <=? PartitionNumber (follow g) then _ else _); [|done].
    destruct (decide (inc = id)) as [->|Hid].
    + exists g'. split.
      * erewrite deliver_past; [|exact Hd|done|done|lia].
        simpl. apply lookup_insert_eq.
      * right. assert (g = f) as -> by congruence. split; [by left|done].
    + eapply Hrest; [exact Hd|]. simpl. by rewrite lookup_insert_ne.
Qed.

Lemma sorted_included included : StronglySorted Z.le (sort_Sort Z.ltb included).
Proof.
  eapply StronglySorted_weaken; [|apply (sort_Sort_ascending _ Z.ltb)].
  - intros a b. unfold not_after. rewrite Z.ltb_ge. lia.
  - split; intros *; rewrite ?Z.ltb_lt, ?Z.ltb_ge; lia.
Qed.

Lemma handleResult_sent result d σ d' σ' id f :
  handleResult result d σ = Done (d', σ') ->
  d_followers d !! id = Some f ->
  exists f', d_followers d' !! id = Some f' /\
    (f' = f \/
     exists included σ1,
       walkResult result d σ = Some (included, σ1) /\ id ∈ included /\
       failed f = false /\ submit (entry result) f = Done f').
Proof.
  unfold handleResult. intros Hr Hf.
  destruct (walkResult result d σ) as [[included σ1]|]; [|done].
  destruct (0 <? length included)%nat; [|simplify_eq; by eauto].
  destruct (deliver _ _ _ _) as [d1| |] eqn:Hd; try done. simplify_eq.
  destruct (deliver_sent _ _ _ _ _ _ _ Hd (sorted_included included) Hf)
    as (f' & Hf' & [->|(Hin & Hnf & Hsub)]); [by eauto|].
  exists f'. split; [done|]. right. exists included, σ'. split; [done|].
  split; [|done]. by rewrite (sort_Sort_perm _ Z.ltb included) in Hin.
Qed.

(** With room in the queues of the followers that are still to come, the
    loop completes. *)
Lemma deliver_done entry included last d :
  StronglySorted Z.le included -> Forall (Z.le last) included ->
  Forall (fun inc => inc = last \/ exists f, d_followers d !! inc = Some f /\
            closed (entries f) = false /\
            (length (buf (entries f)) < cap (entries f))%nat /\
            0 <= PartitionNumber (follow f) < Z.of_nat (length (stats d))) included ->
  exists d', deliver entry included last d = Done d'.
Proof.
  revert last d. induction included as [|inc rest IH]; intros last d Hs Hl Hinc; simpl.
  - by eexists.
  - apply StronglySorted_inv in Hs as [Hs Hle].
    apply Forall_cons in Hl as [Hli Hl].
    apply Forall_cons in Hinc as [Hi Hrest].
    destruct (Z.eqb_spec inc last) as [->|Hne]; [by apply IH|].
    destruct Hi as [?|(g & Hg & Hopen & Hroom & Hpn)]; [done|]. rewrite Hg.
    assert (Hnext : forall d1,
              d_followers d1 = d_followers d \/
              (exists g', d_followers d1 = <[inc := g']> (d_followers d)) ->
              length (stats d1) = length (stats d) ->
              exists d', deliver entry rest inc d1 = Done d').
    { intros d1 Hd1 Hst. apply IH; [done|done|].
      apply Forall_forall. intros inc' Hin'.
      rewrite Forall_forall in Hrest, Hle.
      destruct (decide (inc' = inc)) as [|Hne']; [by left|]. right.
      destruct (Hrest inc' Hin') as [->|(f & Hf & ?)].
      - specialize (Hle _ Hin'). lia.
      - exists f. rewrite Hst. split; [|done].
        destruct Hd1 as [->|[g' ->]]; [done|]. by rewrite lookup_insert_ne. }
    destruct (failed g) eqn:Hfg; [apply Hnext; auto|].
    unfold submit, chan_send. rewrite Hfg, Hopen.
    apply Nat.ltb_lt in Hroom. rewrite Hroom.
    destruct (Z.leb_spec 0 (PartitionNumber (follow g))) as [_|]; [|lia].
    destruct (stats d !! Z.to_nat (PartitionNumber (follow g))) as [count|] eqn:Hc.
    + apply Hnext; simpl; [right; by eexists|by rewrite length_insert].
    + apply lookup_ge_None in Hc. lia.
Qed.

Lemma handleResult_done numPartitions result d σ :
  registered d σ -> ready numPartitions d ->
  (forall tree k,
     streams d !! stream (entry result) = Some tree ->
     is_Some ((partMaps σ !!! tree) !! k) ->
     exists pr, partitions result !! k = Some pr /\ 0 <= pid pr < numPartitions) ->
  (forall id f, d_followers d !! id = Some f ->
     (length (buf (entries f)) < cap (entries f))%nat) ->
  exists d' σ', handleResult result d σ = Done (d', σ').
Proof.
  intros [Hn Ho] (Hopen & Hlen) Hkeys Hroom.
  destruct (handleResult_completes numPartitions result d σ (conj Hn Ho)
              (conj Hopen Hlen) Hkeys) as [Hb|Hd]; [|done].
  unfold handleResult in *.
  destruct (walkResult result d σ) as [[included σ1]|] eqn:Hrun; [|done].
  destruct (0 <? length included)%nat; [|done].
  destruct (deliver_done (entry result) (sort_Sort Z.ltb included) (-1) d)
    as [d' Hd]; [apply sorted_included| | |by rewrite Hd in Hb].
  - rewrite (sort_Sort_perm _ Z.ltb included). apply Forall_forall. intros id Hid.
    destruct (included_registered _ _ _ _ _ _ Hrun Ho Hid) as (f & _ & _ & _ & _ & _ & _ & Hf & _).
    destruct Hn as (_ & Hdom & _). assert (is_Some (d_followers d !! id)) as Hs by eauto.
    apply Hdom in Hs. lia.
  - rewrite (sort_Sort_perm _ Z.ltb included). apply Forall_forall. intros id Hid. right.
    destruct (included_registered _ _ _ _ _ _ Hrun Ho Hid)
      as (f & tree & k & ps & pr & t & ts & Hf & Hs & Hk & Hpr & Hpn & _).
    exists f. split; [done|]. split; [by eapply Hopen|]. split; [by eapply Hroom|].
    destruct (Hkeys tree k Hs) as (pr' & Hpr' & Hrange); [by eexists|].
    simplify_eq. rewrite Hpn, Hlen. lia.
Qed.

(** *** Runs of results *)

Lemma joins_results rs : joins (Result <$> rs) = 0.
Proof. induction rs as [|r rs IH]; [done|]. unfold joins in *. csimpl. by rewrite IH. Qed.

Lemma open_results rs : Forall open_event (Result <$> rs).
Proof. apply Forall_fmap, Forall_forall. by intros r _. Qed.

Lemma results_same_tree numPartitions σ0 rs d σ d1 σ1 :
  processFollowers_from numPartitions (Result <$> rs) d σ = Done (d1, σ1) ->
  same_tree σ0 σ -> same_tree σ0 σ1 /\ streams d1 = streams d.
Proof.
  revert d σ. induction rs as [|r rs IH]; intros d σ Hrun Hs; simpl in Hrun.
  - by simplify_eq.
  - destruct (handleResult r d σ) as [[d2 σ2]| |] eqn:Hr; try done.
    destruct (handleResult_same_tree _ _ _ _ _ Hr) as (_ & Hst).
    destruct (IH _ _ Hrun) as (Hs1 & Hst1); [|split; [done|congruence]].
    unfold handleResult in Hr.
    destruct (walkResult r d σ) as [[included σ'']|] eqn:Hw; [|done].
    assert (same_tree σ0 σ'') by (eapply walkResult_same_tree; [exact Hs|exact Hw]).
    destruct (0 <? length included)%nat; [|by simplify_eq].
    destruct (deliver _ _ _ _); try done. by simplify_eq.
Qed.

(** *** The requests channels and the readers *)

(** [piped d]: the current requests channel is the last one made, and is
    open. *)
Definition piped (d : dispatcher) : Prop :=
  match requests d with
  | None => pipelines d = []
  | Some r => pipelines d !! r = Some false /\ length (pipelines d) = S r
  end.

Lemma deliver_channels entry included last d d' :
  deliver entry included last d = Done d' ->
  requests d' = requests d /\ pipelines d' = pipelines d /\
  stopWALReaders d' = stopWALReaders d.
Proof.
  revert last d. induction included as [|inc rest IH]; intros last d Hd; simpl in Hd.
  - by simplify_eq.
  - destruct (inc =? last); [by eapply IH|].
    destruct (d_followers d !! inc) as [g|]; [|done].
    destruct (failed g); [by eapply IH|].
    destruct (submit entry g) as [g'| |]; try done.
    destruct (if 0 <=? PartitionNumber (follow g) then _ else _); [|done].
    by destruct (IH _ _ Hd) as (-> & -> & ->).
Qed.

Lemma handleResult_channels result d σ d' σ' :
  handleResult result d σ = Done (d', σ') ->
  requests d' = requests d /\ pipelines d' = pipelines d /\
  stopWALReaders d' = stopWALReaders d.
Proof.
  unfold handleResult. intros Hr.
  destruct (walkResult result d σ) as [[included σ1]|]; [|done].
  destruct (0 <? length included)%nat; [|by simplify_eq].
  destruct (deliver _ _ _ _) as [d1| |] eqn:Hd; try done. simplify_eq.
  by eapply deliver_channels.
Qed.

(** The streams that [newlyJoinedStreams] holds when the followers [fs] have
    joined. *)
Definition joined_streams (fs : list (follower CbState)) (m : gmap string bool)
    : gmap string bool :=
  foldl (fun m g => <[Stream (follow g) := true]> m) m fs.

Lemma joined_streams_lookup fs m s :
  joined_streams fs m !! s
  = if decide (s ∈ (fun g => Stream (follow g)) <$> fs) then Some true else m !! s.
Proof.
  revert m. induction fs as [|g fs IH]; intros m.
  - destruct (decide _) as [Hin|]; [by apply elem_of_nil in Hin|done].
  - change (joined_streams (g :: fs) m)
      with (joined_streams fs (<[Stream (follow g) := true]> m)).
    rewrite IH, fmap_cons.
    destruct (decide (s ∈ _ <$> fs)) as [Hin|Hin].
    + rewrite decide_True; [done|]. by right.
    + rewrite lookup_insert. case_decide.
      * subst. rewrite decide_True; [done|]. by left.
      * rewrite decide_False; [done|]. rewrite elem_of_cons. by intros [?|?].
Qed.

Lemma fold_onFollowerJoined_fields extra d σ d' σ' :
  fold_M (fun d f => onFollowerJoined f d) extra d σ = Some (d', σ') ->
  stopWALReaders d' = stopWALReaders d /\ requests d' = requests d /\
  pipelines d' = pipelines d /\
  newlyJoinedStreams d' = joined_streams extra (newlyJoinedStreams d).
Proof.
  revert d σ. induction extra as [|f extra IH]; intros d σ Hf; simpl in Hf.
  - unfold mret, M_ret in Hf. by simplify_eq.
  - apply bind_inv in Hf as (d1 & σ1 & Hj & Hf).
    destruct (IH _ _ Hf) as (-> & -> & -> & ->).
    destruct (onFollowerJoined_fields _ _ _ _ _ Hj) as (_ & _ & -> & _ & -> & -> & ->).
    done.
Qed.

(** Until the readers are restarted, handling a join does not panic. *)
Lemma handleFollowerJoined_joined f extra d σ :
  well_formed σ ->
  exists d3 σ3,
    handleFollowerJoined f extra d σ
    = fold_M (restartReader (requests d)) (map_to_list (newlyJoinedStreams d3)).*1 d3 σ3 /\
    newlyJoinedStreams d3 = joined_streams (f :: extra) ∅ /\
    requests d3 = Some (length (pipelines d)) /\
    pipelines d3 = pipelines d ++ [false] /\
    stopWALReaders d3 = stopWALReaders d.
Proof.
  intros Hwf. unfold handleFollowerJoined.
  destruct (copyStreams_sound (fun _ => True) (map_to_list (streams d)) ∅
              monotone_True σ Hwf I) as (streamsCopy & σ1 & Hc & Hwf1 & _).
  rewrite (bind_run _ _ _ _ _ Hc).
  set (d1 := mkDispatcher _ _ streamsCopy _ _ _ _ _ _).
  destruct (onFollowerJoined_sound (fun _ => True) f d1 monotone_True σ1 Hwf1 I)
    as (d2 & σ2 & Hj & Hwf2 & _).
  rewrite (bind_run _ _ _ _ _ Hj).
  destruct (sound_fold_M (fun _ => True) (fun d f => onFollowerJoined f d) extra d2)
    with (σ := σ2) as (d3 & σ3 & Hj3 & Hwf3 & _); [|done|done|].
  { intros b x. by apply onFollowerJoined_sound. }
  rewrite (bind_run _ _ _ _ _ Hj3).
  exists d3, σ3. split; [done|].
  destruct (fold_onFollowerJoined_fields _ _ _ _ _ Hj3) as (-> & -> & -> & ->).
  destruct (onFollowerJoined_fields _ _ _ _ _ Hj) as (_ & _ & -> & _ & -> & -> & ->).
  done.
Qed.

(** Closing the old requests channel for a second stream panics; so does
    closing one that is closed already. *)
Lemma restart_closed old l d σ s :
  pipelines d !! old <> Some false -> s ∈ l -> (forall o, walOpens s o = true) ->
  fold_M (restartReader (Some old)) l d σ = None.
Proof.
  intros Hold Hs Hopens. induction l as [|x l IH]; [by apply elem_of_nil in Hs|].
  simpl. unfold mbind, M_bind. unfold restartReader at 1.
  destruct (walOpens x _) eqn:Hx.
  - destruct (pipelines d !! old) as [[|]|]; done.
  - apply IH. apply elem_of_cons in Hs as [->|Hs]; [|done]. by rewrite Hopens in Hx.
Qed.

Lemma restart_twice old l d σ s1 s2 :
  s1 ∈ l -> s2 ∈ l -> s1 <> s2 ->
  (forall o, walOpens s1 o = true) -> (forall o, walOpens s2 o = true) ->
  fold_M (restartReader (Some old)) l d σ = None.
Proof.
  intros Hs1 Hs2 Hne Ho1 Ho2. revert d. induction l as [|x l IH]; intros d;
    [by apply elem_of_nil in Hs1|].
  simpl. unfold mbind, M_bind. unfold restartReader at 1.
  destruct (walOpens x _) eqn:Hx.
  - destruct (pipelines d !! old) as [[|]|] eqn:Hold; simpl; try done.
    assert (Hlt : (old < length (pipelines d))%nat) by (by eapply lookup_lt_Some).
    apply elem_of_cons in Hs1 as [Hs1|Hs1]; apply elem_of_cons in Hs2 as [Hs2|Hs2].
    + congruence.
    + apply (restart_closed old l _ σ s2); [|done|done].
      simpl. by rewrite list_lookup_insert_eq.
    + apply (restart_closed old l _ σ s1); [|done|done].
      simpl. by rewrite list_lookup_insert_eq.
    + apply (restart_closed old l _ σ s1); [|done|done].
      simpl. by rewrite list_lookup_insert_eq.
  - apply IH.
    + apply elem_of_cons in Hs1 as [->|]; [|done]. by rewrite Ho1 in Hx.
    + apply elem_of_cons in Hs2 as [->|]; [|done]. by rewrite Ho2 in Hx.
Qed.

Lemma restart_pipelines old l d σ d' σ' :
  fold_M (restartReader old) l d σ = Some (d', σ') ->
  length (pipelines d') = length (pipelines d) /\
  forall r, old <> Some r -> pipelines d' !! r = pipelines d !! r.
Proof.
  revert d σ. induction l as [|x l IH]; intros d σ Hf; simpl in Hf.
  - unfold mret, M_ret in Hf. by simplify_eq.
  - apply bind_inv in Hf as (d1 & σ1 & Hr & Hf).
    destruct (IH _ _ Hf) as (Hlen & Hsame). unfold restartReader in Hr.
    destruct (walOpens _ _); [|by simplify_eq].
    destruct old as [old|]; [|by simplify_eq].
    destruct (default true (pipelines d !! old)); [done|]. simplify_eq. simpl in *.
    rewrite length_insert in Hlen. split; [done|].
    intros r Hr. rewrite Hsame by done. apply list_lookup_insert_ne. congruence.
Qed.

Lemma handle_piped numPartitions e d σ d' σ' :
  handle numPartitions e d σ = Done (d', σ') -> well_formed σ -> piped d ->
  piped d' /\ (is_Some (requests d) \/ 0 < joins_of e -> is_Some (requests d')).
Proof.
  destruct e as [f extra|result|]; simpl.
  - destruct (handleFollowerJoined f extra d σ) as [[d1 σ1]|] eqn:Hh; [|done].
    intros [= <- <-] Hwf Hp.
    destruct (handleFollowerJoined_joined f extra d σ Hwf)
      as (d3 & σ3 & Heq & _ & Hreq & Hpipes & _).
    rewrite Hh in Heq. symmetry in Heq.
    destruct (restart_pipelines _ _ _ _ _ _ Heq) as (Hlen & Hsame).
    destruct (restartReader_fields _ _ _ _ _ _ Heq) as (_ & _ & _ & _ & Hreq1).
    rewrite Hreq in Hreq1. split; [|by rewrite Hreq1; eauto].
    unfold piped in *. rewrite Hreq1, Hlen, Hpipes, length_app. simpl.
    split; [|lia]. rewrite Hsame, Hpipes.
    + rewrite lookup_app_r by lia. by rewrite Nat.sub_diag.
    + destruct (requests d) as [r|]; [|done]. destruct Hp as (_ & Hp). intros [= ->]. lia.
  - intros Hr _ Hp. destruct (handleResult_channels _ _ _ _ _ Hr) as (Hreq & Hpipes & _).
    unfold piped. rewrite Hreq, Hpipes. split; [done|]. intros [?|?]; [done|lia].
  - intros [= <- <-] _ Hp. split; [done|]. intros [?|?]; [done|lia].
Qed.

Lemma processFollowers_from_piped numPartitions es d σ d' σ' :
  processFollowers_from numPartitions es d σ = Done (d', σ') ->
  well_formed σ -> piped d ->
  piped d' /\ (is_Some (requests d) \/ 0 < joins es -> is_Some (requests d')).
Proof.
  revert d σ. induction es as [|e es IH]; intros d σ Hrun Hwf Hp; simpl in *.
  - simplify_eq. split; [done|]. intros [?|?]; [done|lia].
  - destruct (handle numPartitions e d σ) as [[d1 σ1]| |] eqn:Hh; try done.
    destruct (handle_piped _ _ _ _ _ _ Hh Hwf Hp) as (Hp1 & Hreq1).
    destruct (IH _ _ Hrun) as (Hp' & Hreq'); [by eapply handle_well_formed|done|].
    split; [done|]. pose proof (joins_nonneg es).
    assert (0 <= joins_of e) by (destruct e; simpl; lia).
    intros [Hs|Hj]; apply Hreq'.
    + left. apply Hreq1. by left.
    + destruct (decide (0 < joins_of e)); [left; apply Hreq1; by right|right; lia].
Qed.

Lemma piped_start numPartitions m : piped (start numPartitions m).
Proof. done. Qed.

(** A join whose followers all follow the stream [s], which can be opened:
    the reader of [s] is started on the new tree and the new requests
    channel, at the earliest offset of the tree; the old requests channel is
    closed; the readers of the other streams stay. *)
Lemma handleFollowerJoined_one_stream f extra d σ s :
  well_formed σ -> piped d ->
  Forall (fun g => Stream (follow g) = s) (f :: extra) ->
  (forall o, walOpens s o = true) ->
  exists d' σ',
    handleFollowerJoined f extra d σ = Some (d', σ') /\
    requests d' = Some (length (pipelines d)) /\
    pipelines d'
    = match requests d with
      | Some r => <[r := true]> (pipelines d ++ [false])
      | None => pipelines d ++ [false]
      end /\
    stopWALReaders d'
    = <[s := mkWalReader (earliestInTree σ' (streams d' !! s)) (streams d' !! s)
               (Some (length (pipelines d)))]> (stopWALReaders d).
Proof.
  intros Hwf Hp Hs Hopens.
  destruct (handleFollowerJoined_joined f extra d σ Hwf)
    as (d3 & σ3 & -> & Hnew & Hreq & Hpipes & Hreaders).
  assert (Hone : newlyJoinedStreams d3 = {[ s := true ]}).
  { apply map_eq. intros s'. rewrite Hnew, joined_streams_lookup, lookup_empty.
    destruct (decide (s' = s)) as [->|Hne].
    - rewrite lookup_singleton_eq, decide_True; [done|].
      apply list_elem_of_fmap. exists f. split; [|by left].
      by apply Forall_cons in Hs as [-> _].
    - rewrite lookup_singleton_ne by done. rewrite decide_False; [done|].
      intros (g & -> & Hg)%list_elem_of_fmap. rewrite Forall_forall in Hs.
      by specialize (Hs g Hg). }
  rewrite Hone, map_to_list_singleton. simpl.
  unfold mbind, M_bind, restartReader. rewrite Hopens, Hreq, Hpipes, Hreaders.
  unfold piped in Hp. destruct (requests d) as [r|].
  - destruct Hp as (Hopen & Hlen).
    rewrite lookup_app_l by lia. rewrite Hopen. simpl. by eexists _, _.
  - by eexists _, _.
Qed.

(** *** The offset at which a reader starts *)

(** The specs of a tree. *)
Definition spec_in_tree (σ : Store) (partitions spec : nat) : Prop :=
  exists k ps t ts pn specs,
    (partMaps σ !!! partitions) !! k = Some ps /\
    tables (partSpecs σ !!! ps) !! t = Some ts /\
    followers (tableSpecs σ !!! ts) !! pn = Some specs /\
    spec ∈ specs.

(** [least σ acc P r]: [r] is the least of [acc] and the offsets of the
    specs in [P], and nil when there is none. *)
Definition least (σ : Store) (acc : option Offset) (P : nat -> Prop) (r : option Offset)
    : Prop :=
  match r with
  | None => acc = None /\ forall spec, ~ P spec
  | Some e =>
      (acc = Some e \/ exists spec, P spec /\ spec_offset (followSpecs σ !!! spec) = e) /\
      (forall a, acc = Some a -> e <= a) /\
      forall spec, P spec -> e <= spec_offset (followSpecs σ !!! spec)
  end.

Lemma least_earlier σ acc x :
  spec_offset (followSpecs σ !!! x) <> nil_Offset ->
  least σ acc (fun spec => spec = x) (earlier σ acc x).
Proof.
  intros Hx. unfold earlier, least, After. rewrite decide_False by done.
  destruct acc as [a|].
  - destruct (Z.ltb_spec (spec_offset (followSpecs σ !!! x)) a).
    + split; [right; by exists x|]. split; [intros ? [= <-]; lia|]. intros ? ->. lia.
    + split; [by left|]. split; [intros ? [= <-]; lia|]. intros ? ->. lia.
  - split; [right; by exists x|]. split; [done|]. intros ? ->. lia.
Qed.

Lemma least_weaken σ acc (P P' : nat -> Prop) r :
  (forall spec, P spec <-> P' spec) -> least σ acc P r -> least σ acc P' r.
Proof.
  intros HP. unfold least. destruct r as [e|].
  - intros ([?|(spec & Hs & ?)] & Ha & Hall).
    + split; [by left|]. split; [done|]. intros spec Hs. by apply Hall, HP.
    + split; [right; exists spec; by rewrite <- HP|]. split; [done|].
      intros spec' Hs'. by apply Hall, HP.
  - intros (-> & Hno). split; [done|]. intros spec Hs. by apply (Hno spec), HP.
Qed.

Lemma least_fold σ {A} (f : option Offset -> A -> option Offset) (Q : A -> nat -> Prop)
    l acc :
  (forall acc x, x ∈ l -> least σ acc (Q x) (f acc x)) ->
  least σ acc (fun spec => exists x, x ∈ l /\ Q x spec) (fold_left f l acc).
Proof.
  revert acc. induction l as [|x l IH]; intros acc Hf; simpl.
  - unfold least. destruct acc as [a|].
    + split; [by left|]. split; [intros ? [= <-]; lia|].
      intros spec (x & Hx & _). by apply elem_of_nil in Hx.
    + split; [done|]. intros spec (x & Hx & _). by apply elem_of_nil in Hx.
  - assert (Hx : least σ acc (Q x) (f acc x)) by (apply Hf; by left).
    assert (Hl : least σ (f acc x) (fun spec => exists y, y ∈ l /\ Q y spec)
                   (fold_left f l (f acc x))).
    { apply IH. intros acc' y Hy. apply Hf. by right. }
    unfold least in *. destruct (fold_left f l (f acc x)) as [e|].
    + destruct Hl as (Hwit & Hle & Hall). destruct (f acc x) as [e1|].
      * destruct Hx as (Hwit1 & Hle1 & Hall1). specialize (Hle e1 eq_refl).
        split; [|split].
        -- destruct Hwit as [[= <-]|(spec & (y & Hy & Hq) & Ho)].
           ++ destruct Hwit1 as [?|(spec & Hq & Ho)]; [by left|].
              right. exists spec. split; [|done]. exists x. split; [by left|done].
           ++ right. exists spec. split; [|done]. exists y. split; [by right|done].
        -- intros a Ha. specialize (Hle1 a Ha). lia.
        -- intros spec (y & Hy & Hq). apply elem_of_cons in Hy as [->|Hy].
           ++ specialize (Hall1 spec Hq). lia.
           ++ apply Hall. by exists y.
      * destruct Hx as (-> & Hno). split; [|split].
        -- destruct Hwit as [?|(spec & (y & Hy & Hq) & Ho)]; [done|].
           right. exists spec. split; [|done]. exists y. split; [by right|done].
        -- done.
        -- intros spec (y & Hy & Hq). apply elem_of_cons in Hy as [->|Hy].
           ++ by destruct (Hno spec).
           ++ apply Hall. by exists y.
    + destruct Hl as (Hnone & Hno). rewrite Hnone in Hx. destruct Hx as (-> & Hno1).
      split; [done|]. intros spec (y & Hy & Hq). apply elem_of_cons in Hy as [->|Hy].
      * by destruct (Hno1 spec).
      * apply (Hno spec). by exists y.
Qed.

Lemma least_earliestInTable σ acc table :
  (forall pn specs spec,
     followers (tableSpecs σ !!! table) !! pn = Some specs -> spec ∈ specs ->
     spec_offset (followSpecs σ !!! spec) <> nil_Offset) ->
  least σ acc
    (fun spec => exists pn specs,
       followers (tableSpecs σ !!! table) !! pn = Some specs /\ spec ∈ specs)
    (earliestInTable σ acc table).
Proof.
  intros Hset. unfold earliestInTable.
  eapply least_weaken; [|apply (least_fold σ _ (fun specs spec => spec ∈ specs))].
  - intros spec. split.
    + intros (specs & Hin & Hs). apply list_elem_of_fmap in Hin as ([pn specs'] & -> & Hin).
      apply elem_of_map_to_list in Hin. by exists pn, specs'.
    + intros (pn & specs & Hl & Hs). exists specs. split; [|done].
      apply list_elem_of_fmap. exists (pn, specs). split; [done|].
      by apply elem_of_map_to_list.
  - intros acc' specs Hin.
    apply list_elem_of_fmap in Hin as ([pn specs'] & -> & Hin).
    apply elem_of_map_to_list in Hin.
    eapply least_weaken; [|apply (least_fold σ _ (fun x spec => spec = x))].
    + intros spec. split; [by intros (x & Hx & ->)|]. intros Hs. by exists spec.
    + intros acc'' x Hx. apply least_earlier. by apply (Hset pn specs').
Qed.

Lemma least_earliestInTree σ tree :
  (forall spec,
     spec_in_tree σ tree spec -> spec_offset (followSpecs σ !!! spec) <> nil_Offset) ->
  least σ None (spec_in_tree σ tree) (earliestInTree σ (Some tree)).
Proof.
  intros Hset. unfold earliestInTree.
  eapply least_weaken;
    [|apply (least_fold σ _ (fun ps spec => exists t ts pn specs,
               tables (partSpecs σ !!! ps) !! t = Some ts /\
               followers (tableSpecs σ !!! ts) !! pn = Some specs /\ spec ∈ specs))].
  - intros spec. split.
    + intros (ps & Hin & t & ts & pn & specs & ?).
      apply list_elem_of_fmap in Hin as ([k ps'] & -> & Hin).
      apply elem_of_map_to_list in Hin. by exists k, ps', t, ts, pn, specs.
    + intros (k & ps & t & ts & pn & specs & Hk & ?). exists ps. split.
      * apply list_elem_of_fmap. exists (k, ps). split; [done|].
        by apply elem_of_map_to_list.
      * by exists t, ts, pn, specs.
  - intros acc ps Hps.
    apply list_elem_of_fmap in Hps as ([k ps'] & -> & Hps).
    apply elem_of_map_to_list in Hps.
    eapply least_weaken;
      [|apply (least_fold σ _ (fun ts spec => exists pn specs,
                 followers (tableSpecs σ !!! ts) !! pn = Some specs /\ spec ∈ specs))].
    + intros spec. split.
      * intros (ts & Hin & pn & specs & ?).
        apply list_elem_of_fmap in Hin as ([t ts'] & -> & Hin).
        apply elem_of_map_to_list in Hin. by exists t, ts', pn, specs.
      * intros (t & ts & pn & specs & Ht & ?). exists ts. split.
        -- apply list_elem_of_fmap. exists (t, ts). split; [done|].
           by apply elem_of_map_to_list.
        -- by exists pn, specs.
    + intros acc' ts Hts.
      apply list_elem_of_fmap in Hts as ([t ts'] & -> & Hts).
      apply elem_of_map_to_list in Hts.
      apply least_earliestInTable. intros pn specs spec Hpn Hs.
      apply Hset. by exists k, ps', t, ts', pn, specs.
Qed.

(** The specs of a tree, in the order in which the loop visits them. *)
Definition tree_specs (σ : Store) (partitions : nat) : list nat :=
  ps ← (map_to_list (partMaps σ !!! partitions)).*2;
  ts ← (map_to_list (tables (partSpecs σ !!! ps))).*2;
  specs ← (map_to_list (followers (tableSpecs σ !!! ts))).*2;
  specs.

Lemma spec_in_tree_specs σ tree spec :
  spec_in_tree σ tree spec <-> spec ∈ tree_specs σ tree.
Proof.
  unfold spec_in_tree, tree_specs. split.
  - intros (k & ps & t & ts & pn & specs & Hk & Ht & Hpn & Hs).
    apply list_elem_of_bind. exists ps. split.
    + apply list_elem_of_bind. exists ts. split.
      * apply list_elem_of_bind. exists specs. split; [done|].
        apply list_elem_of_fmap. exists (pn, specs). split; [done|].
        by apply elem_of_map_to_list.
      * apply list_elem_of_fmap. exists (t, ts). split; [done|].
        by apply elem_of_map_to_list.
    + apply list_elem_of_fmap. exists (k, ps). split; [done|].
      by apply elem_of_map_to_list.
  - intros Hin. apply list_elem_of_bind in Hin as (ps & Hin & Hps).
    apply list_elem_of_bind in Hin as (ts & Hin & Hts).
    apply list_elem_of_bind in Hin as (specs & Hs & Hspecs).
    apply list_elem_of_fmap in Hps as ([k ps'] & -> & Hps).
    apply list_elem_of_fmap in Hts as ([t ts'] & -> & Hts).
    apply list_elem_of_fmap in Hspecs as ([pn specs'] & -> & Hspecs).
    apply elem_of_map_to_list in Hps, Hts, Hspecs.
    by exists k, ps', t, ts', pn, specs'.
Qed.

(** *** The followers in the order in which they joined *)

Definition joined_of (e : event) : list (follower CbState) :=
  match e with
  | Joined f extra => f :: extra
  | _ => []
  end.

Definition joined (es : list event) : list (follower CbState) :=
  mjoin (joined_of <$> es).

(** [enrolled gs d]: the followers [gs] have joined in this order; the
    [i]-th of them is registered under the number [i], with this number as
    its [followerId], and differs from the follower that joined at most in
    the contents of its queue. *)
Definition enrolled (gs : list (follower CbState)) (d : dispatcher) : Prop :=
  nextFollowerID d = Z.of_nat (length gs) /\
  forall id,
    match d_followers d !! id with
    | None => ~ (1 <= id <= Z.of_nat (length gs))
    | Some f =>
        1 <= id /\
        exists g c, gs !! Z.to_nat (id - 1) = Some g /\
                    f = set_entries c (set_followerId id g) /\
                    closed c = closed (entries g)
    end.

Lemma onFollowerJoined_enrolled gs f d σ d' σ' :
  onFollowerJoined f d σ = Some (d', σ') ->
  enrolled gs d -> Z.of_nat (length gs) + 1 < 2 ^ 63 ->
  enrolled (gs ++ [f]) d'.
Proof.
  intros Hj (Hnext & Hfs) Hlt.
  destruct (onFollowerJoined_fields _ _ _ _ _ Hj) as (Hn & Hf & _). simpl in *.
  unfold int_inc in *. rewrite wrap64_small in Hn, Hf by lia.
  unfold enrolled. rewrite Hn, Hf, Hnext, length_app. simpl. split; [lia|].
  intros id. rewrite lookup_insert. case_decide as Hid.
  - subst id. split; [lia|]. exists f, (entries f).
    replace (Z.to_nat (Z.of_nat (length gs) + 1 - 1)) with (length gs) by lia.
    rewrite lookup_app_r by lia. rewrite Nat.sub_diag. split; [done|].
    split; [by destruct f|done].
  - specialize (Hfs id). destruct (d_followers d !! id) as [g0|].
    + destruct Hfs as (Hpos & g & c & Hg & Heq & Hcl). split; [done|]. exists g, c.
      split; [|done]. rewrite lookup_app_l; [done|]. by eapply lookup_lt_Some.
    + lia.
Qed.

Lemma fold_onFollowerJoined_enrolled gs extra d σ d' σ' :
  fold_M (fun d f => onFollowerJoined f d) extra d σ = Some (d', σ') ->
  enrolled gs d -> Z.of_nat (length (gs ++ extra)) < 2 ^ 63 ->
  enrolled (gs ++ extra) d'.
Proof.
  revert gs d σ. induction extra as [|f extra IH]; intros gs d σ Hf He Hlt.
  - simpl in Hf. unfold mret, M_ret in Hf. simplify_eq. by rewrite app_nil_r.
  - simpl in Hf. apply bind_inv in Hf as (d1 & σ1 & Hj & Hf).
    rewrite (cons_middle f gs extra), app_assoc in *.
    apply (IH _ _ _ Hf); [|done].
    apply (onFollowerJoined_enrolled _ _ _ _ _ _ Hj He).
    rewrite !length_app in Hlt. simpl in Hlt. lia.
Qed.

Lemma enrolled_fields gs d d' :
  nextFollowerID d' = nextFollowerID d -> d_followers d' = d_followers d ->
  enrolled gs d -> enrolled gs d'.
Proof. unfold enrolled. by intros -> ->. Qed.

Lemma requeued_enrolled gs d d' : requeued d d' -> enrolled gs d -> enrolled gs d'.
Proof.
  intros (Hn & _ & _ & Hf) (Hnext & Hfs). unfold enrolled. rewrite Hn.
  split; [done|]. intros id. specialize (Hf id). specialize (Hfs id).
  destruct (d_followers d !! id) as [f|].
  - destruct Hf as (c' & -> & Hcl'). destruct Hfs as (Hpos & g & c & Hg & -> & Hcl).
    split; [done|]. exists g, c'. split; [done|]. split; [done|]. simpl in Hcl'. congruence.
  - by rewrite Hf.
Qed.

Lemma handle_enrolled numPartitions gs e d σ d' σ' :
  handle numPartitions e d σ = Done (d', σ') ->
  enrolled gs d -> Z.of_nat (length (gs ++ joined_of e)) < 2 ^ 63 ->
  enrolled (gs ++ joined_of e) d'.
Proof.
  destruct e as [f extra|result|]; simpl.
  - destruct (handleFollowerJoined f extra d σ) as [[d1 σ1]|] eqn:Hh; [|done].
    intros [= <- <-] He Hlt. unfold handleFollowerJoined in Hh.
    apply bind_inv in Hh as (streamsCopy & σ1' & _ & Hh).
    apply bind_inv in Hh as (d2 & σ2 & Hj & Hh).
    apply bind_inv in Hh as (d3 & σ3 & Hj3 & Hh).
    destruct (restartReader_fields _ _ _ _ _ _ Hh) as (Hnext & Hfol & _).
    apply (enrolled_fields _ d3); [done|done|].
    rewrite (cons_middle f gs extra), app_assoc in *.
    apply (fold_onFollowerJoined_enrolled _ _ _ _ _ _ Hj3); [|done].
    apply (onFollowerJoined_enrolled _ _ _ _ _ _ Hj); [done|].
    rewrite !length_app in Hlt. simpl in Hlt. lia.
  - intros Hr He _. rewrite app_nil_r. apply handleResult_requeued in Hr.
    by eapply requeued_enrolled.
  - intros [= <- <-] He _. by rewrite app_nil_r.
Qed.

Lemma processFollowers_from_enrolled numPartitions gs es d σ d' σ' :
  processFollowers_from numPartitions es d σ = Done (d', σ') ->
  enrolled gs d -> Z.of_nat (length (gs ++ joined es)) < 2 ^ 63 ->
  enrolled (gs ++ joined es) d'.
Proof.
  revert gs d σ. induction es as [|e es IH]; intros gs d σ Hrun He Hlt; simpl in *.
  - simplify_eq. unfold joined. simpl. by rewrite app_nil_r.
  - destruct (handle numPartitions e d σ) as [[d1 σ1]| |] eqn:Hh; try done.
    unfold joined in *. rewrite fmap_cons in *. simpl in *. rewrite app_assoc in *.
    apply (IH _ _ _ Hrun); [|done].
    apply (handle_enrolled _ _ _ _ _ _ _ Hh He).
    rewrite !length_app in *. lia.
Qed.

Lemma enrolled_start numPartitions m : enrolled [] (start numPartitions m).
Proof. split; [done|]. intros id. simpl. rewrite lookup_empty. lia. Qed.

(** *** The trees of the streams that are joined *)

Lemma onFollowerJoined_streams f d σ d' σ' :
  onFollowerJoined f d σ = Some (d', σ') ->
  is_Some (streams d' !! Stream (follow f)) /\
  forall s, is_Some (streams d !! s) -> is_Some (streams d' !! s).
Proof.
  unfold onFollowerJoined. intros Hj.
  apply bind_inv in Hj as ([partitions streams'] & σ1 & Hfirst & Hj).
  apply bind_inv in Hj as ([] & σ2 & _ & Hj).
  unfold mret, M_ret in Hj. simplify_eq. simpl in *.
  destruct (streams d !! Stream (follow f)) as [tree|] eqn:Hs.
  - unfold mret, M_ret in Hfirst. simplify_eq. by rewrite Hs.
  - apply bind_inv in Hfirst as (tree & σ3 & _ & Hfirst).
    unfold mret, M_ret in Hfirst. simplify_eq. split.
    + rewrite lookup_insert_eq. by eexists.
    + intros s Hsome. rewrite lookup_insert. by case_decide.
Qed.

Lemma fold_onFollowerJoined_streams extra d σ d' σ' :
  fold_M (fun d f => onFollowerJoined f d) extra d σ = Some (d', σ') ->
  (forall g, g ∈ extra -> is_Some (streams d' !! Stream (follow g))) /\
  forall s, is_Some (streams d !! s) -> is_Some (streams d' !! s).
Proof.
  revert d σ. induction extra as [|f extra IH]; intros d σ Hf; simpl in Hf.
  - unfold mret, M_ret in Hf. simplify_eq. split; [|done].
    intros g Hg. by apply elem_of_nil in Hg.
  - apply bind_inv in Hf as (d1 & σ1 & Hj & Hf).
    destruct (IH _ _ Hf) as (Hextra & Hkeep).
    destruct (onFollowerJoined_streams _ _ _ _ _ Hj) as (Hnew & Hkeep1).
    split; [|by auto]. intros g Hg. apply elem_of_cons in Hg as [->|Hg]; auto.
Qed.

Lemma handleFollowerJoined_streams f extra d σ d' σ' :
  handleFollowerJoined f extra d σ = Some (d', σ') ->
  forall g, g ∈ f :: extra -> is_Some (streams d' !! Stream (follow g)).
Proof.
  unfold handleFollowerJoined. intros Hh.
  apply bind_inv in Hh as (streamsCopy & σ1' & _ & Hh).
  apply bind_inv in Hh as (d2 & σ2 & Hj & Hh).
  apply bind_inv in Hh as (d3 & σ3 & Hj3 & Hh).
  destruct (restartReader_fields _ _ _ _ _ _ Hh) as (_ & _ & -> & _).
  destruct (onFollowerJoined_streams _ _ _ _ _ Hj) as (Hnew & _).
  destruct (fold_onFollowerJoined_streams _ _ _ _ _ Hj3) as (Hextra & Hkeep).
  intros g Hg. apply elem_of_cons in Hg as [->|Hg]; auto.
Qed.

(** *** What the metrics report of the followers *)

Lemma FollowerJoined_record id p st id' :
  metrics.followerStats (metrics.FollowerJoined id p st) !! id'
  = if decide (id' = id)
    then Some (metrics.set_Partition p
                 (default (metrics.mkFollowerStats id 0 0 false)
                    (metrics.followerStats st !! id)))
    else metrics.followerStats st !! id'.
Proof.
  unfold metrics.FollowerJoined, metrics.getFollowerStats.
  destruct (metrics.followerStats st !! id) as [fs|] eqn:Hid; simpl;
    destruct (metrics.partitionStats st !! p); simpl;
    rewrite ?insert_insert_eq, lookup_insert; repeat case_decide; congruence.
Qed.

(** [requeues st st']: the metrics differ at most in [Queued] of records. *)
Definition requeues (st st' : metrics.state) : Prop :=
  metrics.leaderStats st' = metrics.leaderStats st /\
  metrics.partitionStats st' = metrics.partitionStats st /\
  forall id,
    match metrics.followerStats st !! id with
    | None => metrics.followerStats st' !! id = None
    | Some fs => exists q, metrics.followerStats st' !! id = Some (metrics.set_Queued q fs)
    end.

Lemma requeues_refl st : requeues st st.
Proof.
  repeat split. intros id. destruct (metrics.followerStats st !! id) as [fs|]; [|done].
  exists (metrics.Queued fs). by destruct fs.
Qed.

Lemma requeues_trans st1 st2 st3 : requeues st1 st2 -> requeues st2 st3 -> requeues st1 st3.
Proof.
  intros (Hl1 & Hp1 & Hf1) (Hl2 & Hp2 & Hf2).
  split; [congruence|]. split; [congruence|]. intros id.
  specialize (Hf1 id). specialize (Hf2 id).
  destruct (metrics.followerStats st1 !! id) as [fs|].
  - destruct Hf1 as (q1 & Hq1). rewrite Hq1 in Hf2. destruct Hf2 as (q2 & ->). by exists q2.
  - by rewrite Hf1 in Hf2.
Qed.

Lemma QueuedForFollower_requeues id q st : requeues st (metrics.QueuedForFollower id q st).
Proof.
  unfold metrics.QueuedForFollower.
  destruct (metrics.followerStats st !! id) as [fs|] eqn:Hid; [|apply requeues_refl].
  repeat split. intros id'. simpl. rewrite lookup_insert. case_decide.
  - subst. rewrite Hid. by exists q.
  - destruct (metrics.followerStats st !! id') as [fs'|]; [|done].
    exists (metrics.Queued fs'). by destruct fs'.
Qed.

Definition report (fs : list (follower CbState)) (st : metrics.state) : metrics.state :=
  fold_left
    (fun m f => metrics.QueuedForFollower (followerId f)
                  (Z.of_nat (length (buf (entries f)))) m) fs st.

Lemma report_requeues fs st : requeues st (report fs st).
Proof.
  revert st. induction fs as [|f fs IH]; intros st; [apply requeues_refl|].
  eapply requeues_trans; [apply QueuedForFollower_requeues|apply IH].
Qed.

Lemma report_other fs st id :
  id ∉ followerId <$> fs ->
  metrics.followerStats (report fs st) !! id = metrics.followerStats st !! id.
Proof.
  revert st. induction fs as [|f fs IH]; intros st Hid; [done|].
  rewrite fmap_cons, not_elem_of_cons in Hid. destruct Hid as [Hne Hid].
  unfold report in *. simpl. rewrite IH by done. unfold metrics.QueuedForFollower.
  destruct (metrics.followerStats st !! followerId f); [|done].
  simpl. by rewrite lookup_insert_ne.
Qed.

Lemma report_queued fs st f rec :
  NoDup (followerId <$> fs) -> f ∈ fs ->
  metrics.followerStats st !! followerId f = Some rec ->
  metrics.followerStats (report fs st) !! followerId f
  = Some (metrics.set_Queued (Z.of_nat (length (buf (entries f)))) rec).
Proof.
  revert st rec. induction fs as [|g fs IH]; intros st rec Hnd Hf Hrec;
    [by apply elem_of_nil in Hf|].
  rewrite fmap_cons in Hnd. apply NoDup_cons in Hnd as [Hg Hnd].
  change (report (g :: fs) st)
    with (report fs (metrics.QueuedForFollower (followerId g)
                       (Z.of_nat (length (buf (entries g)))) st)).
  apply elem_of_cons in Hf as [->|Hf].
  - rewrite report_other by done. unfold metrics.QueuedForFollower. rewrite Hrec.
    simpl. by rewrite lookup_insert_eq.
  - assert (Hne : followerId g <> followerId f).
    { intros Heq. apply Hg. rewrite Heq. apply list_elem_of_fmap. by exists f. }
    pose proof (QueuedForFollower_requeues (followerId g)
                  (Z.of_nat (length (buf (entries g)))) st) as (_ & _ & Hq).
    specialize (Hq (followerId f)). rewrite Hrec in Hq. destruct Hq as (q & Hq).
    rewrite (IH _ _ Hnd Hf Hq). by destruct rec.
Qed.

(** [reported d]: the metrics have a record for each registered follower,
    with the partition number for which it joined. *)
Definition reported (d : dispatcher) : Prop :=
  forall id f, d_followers d !! id = Some f ->
    exists rec, metrics.followerStats (d_metrics d) !! id = Some rec /\
                metrics.Partition rec = PartitionNumber (follow f).

Lemma onFollowerJoined_metrics f d σ d' σ' :
  onFollowerJoined f d σ = Some (d', σ') ->
  d_metrics d'
  = metrics.FollowerJoined (int_inc (nextFollowerID d)) (PartitionNumber (follow f))
      (d_metrics d).
Proof.
  unfold onFollowerJoined. intros Hj.
  apply bind_inv in Hj as ([partitions streams'] & σ1 & _ & Hj).
  apply bind_inv in Hj as ([] & σ2 & _ & Hj).
  unfold mret, M_ret in Hj. by simplify_eq.
Qed.

Lemma onFollowerJoined_reported f d σ d' σ' :
  onFollowerJoined f d σ = Some (d', σ') -> reported d -> reported d'.
Proof.
  intros Hj Hr. destruct (onFollowerJoined_fields _ _ _ _ _ Hj) as (_ & Hf & _).
  simpl in Hf. intros id g. rewrite Hf, (onFollowerJoined_metrics _ _ _ _ _ Hj).
  rewrite FollowerJoined_record, lookup_insert.
  destruct (decide (id = int_inc (nextFollowerID d))) as [->|Hne].
  - rewrite decide_True by done. intros [= <-]. by eexists.
  - rewrite decide_False by done. apply Hr.
Qed.

Lemma fold_onFollowerJoined_reported extra d σ d' σ' :
  fold_M (fun d f => onFollowerJoined f d) extra d σ = Some (d', σ') ->
  reported d -> reported d'.
Proof.
  revert d σ. induction extra as [|f extra IH]; intros d σ Hf Hr.
  - simpl in Hf. unfold mret, M_ret in Hf. by simplify_eq.
  - simpl in Hf. apply bind_inv in Hf as (d1 & σ1 & Hj & Hf).
    apply (IH _ _ Hf). by eapply onFollowerJoined_reported.
Qed.

Lemma restartReader_metrics oldRequests streams' d d' σ σ' :
  fold_M (restartReader oldRequests) streams' d σ = Some (d', σ') ->
  d_metrics d' = d_metrics d.
Proof.
  revert d σ. induction streams' as [|stream l IH]; intros d σ Hf; simpl in Hf.
  - unfold mret, M_ret in Hf. by simplify_eq.
  - apply bind_inv in Hf as (d1 & σ1 & Hr & Hf). rewrite (IH _ _ Hf).
    unfold restartReader in Hr.
    destruct (walOpens _ _); [|by simplify_eq].
    destruct oldRequests as [old|]; [|by simplify_eq].
    destruct (default true (pipelines d !! old)); [done|by simplify_eq].
Qed.

Lemma deliver_metrics entry included last d d' :
  deliver entry included last d = Done d' -> d_metrics d' = d_metrics d.
Proof.
  revert last d. induction included as [|inc rest IH]; intros last d Hd; simpl in Hd.
  - by simplify_eq.
  - destruct (inc =? last); [by eapply IH|].
    destruct (d_followers d !! inc) as [g|]; [|done].
    destruct (failed g); [by eapply IH|].
    destruct (submit entry g) as [g'| |]; try done.
    destruct (if 0 <=? PartitionNumber (follow g) then _ else _); [|done].
    by rewrite (IH _ _ Hd).
Qed.

Lemma handle_reported numPartitions e d σ d' σ' :
  handle numPartitions e d σ = Done (d', σ') -> reported d -> reported d'.
Proof.
  destruct e as [f extra|result|]; simpl.
  - destruct (handleFollowerJoined f extra d σ) as [[d1 σ1]|] eqn:Hh; [|done].
    intros [= <- <-] Hr. unfold handleFollowerJoined in Hh.
    apply bind_inv in Hh as (streamsCopy & σ1' & _ & Hh).
    apply bind_inv in Hh as (d2 & σ2 & Hj & Hh).
    apply bind_inv in Hh as (d3 & σ3 & Hj3 & Hh).
    destruct (restartReader_fields _ _ _ _ _ _ Hh) as (_ & Hfol & _).
    unfold reported. rewrite Hfol, (restartReader_metrics _ _ _ _ _ _ Hh).
    apply (fold_onFollowerJoined_reported _ _ _ _ _ Hj3).
    by apply (onFollowerJoined_reported _ _ _ _ _ Hj).
  - intros Hr Hrep. pose proof (handleResult_requeued _ _ _ _ _ Hr) as (_ & _ & _ & Hf).
    assert (Hm : d_metrics d' = d_metrics d).
    { unfold handleResult in Hr.
      destruct (walkResult result d σ) as [[included σ1]|]; [|done].
      destruct (0 <? length included)%nat; [|by simplify_eq].
      destruct (deliver _ _ _ _) as [d1| |] eqn:Hd; try done. simplify_eq.
      by eapply deliver_metrics. }
    intros id f' Hf'. rewrite Hm. specialize (Hf id).
    destruct (d_followers d !! id) as [f|] eqn:Hfid; [|congruence].
    destruct Hf as (c & Hc & _). simplify_eq. by apply (Hrep id f).
  - intros [= <- <-] Hrep id f Hf. simpl in *.
    destruct (Hrep id f Hf) as (rec & Hrec & Hp).
    pose proof (report_requeues (map_to_list (d_followers d)).*2 (d_metrics d))
      as (_ & _ & Hq).
    specialize (Hq id). rewrite Hrec in Hq. destruct Hq as (q & Hq).
    exists (metrics.set_Queued q rec). split; [exact Hq|done].
Qed.

Lemma processFollowers_from_reported numPartitions es d σ d' σ' :
  processFollowers_from numPartitions es d σ = Done (d', σ') ->
  reported d -> reported d'.
Proof.
  revert d σ. induction es as [|e es IH]; intros d σ Hrun Hr; simpl in *.
  - by simplify_eq.
  - destruct (handle numPartitions e d σ) as [[d1 σ1]| |] eqn:Hh; try done.
    apply (IH _ _ Hrun). by eapply handle_reported.
Qed.

Lemma reported_start numPartitions m : reported (start numPartitions m).
Proof. intros id f. simpl. by rewrite lookup_empty. Qed.

(** What a tick does. *)
Lemma handleTick_reports numPartitions d :
  numbered d -> reported d ->
  stats (handleTick numPartitions d) = replicate (Z.to_nat numPartitions) 0 /\
  requeues (d_metrics d) (d_metrics (handleTick numPartitions d)) /\
  forall id f, d_followers d !! id = Some f ->
    exists rec,
      metrics.followerStats (d_metrics (handleTick numPartitions d)) !! id = Some rec /\
      metrics.Partition rec = PartitionNumber (follow f) /\
      metrics.Queued rec = Z.of_nat (length (buf (entries f))).
Proof.
  intros (_ & _ & Hid) Hrep. split; [done|]. split; [apply report_requeues|].
  intros id f Hf. destruct (Hrep id f Hf) as (rec & Hrec & Hp).
  assert (Hnd : NoDup (followerId <$> (map_to_list (d_followers d)).*2)).
  { assert (Heq : followerId <$> (map_to_list (d_followers d)).*2
                  = (map_to_list (d_followers d)).*1).
    { rewrite <- list_fmap_compose. apply Forall_fmap_ext_1, Forall_forall.
      intros [k g] Hk. apply elem_of_map_to_list in Hk. simpl. by apply Hid. }
    rewrite Heq. apply NoDup_fst_map_to_list. }
  exists (metrics.set_Queued (Z.of_nat (length (buf (entries f)))) rec).
  split; [|done]. simpl. fold (report (map_to_list (d_followers d)).*2 (d_metrics d)).
  rewrite <- (Hid id f Hf) at 1.
  apply report_queued; [done| |by rewrite (Hid id f Hf)].
  apply list_elem_of_fmap. exists (id, f). split; [done|]. by apply elem_of_map_to_list.
Qed.

(** *** The key arrays that the events leave alone

    [untouched P a0 σ]: the arrays in [P] are in [σ] as they are in [a0].
    Of the arrays, handling an event changes those that
    [sortedPartitionKeys] sorts: the backing arrays of the key slices of the
    followers that join. *)
Definition untouched (P : nat -> Prop) (a0 : list (list string)) (σ : Store) : Prop :=
  forall a, P a -> arrays σ !!! a = a0 !!! a.

Lemma untouched_same P a0 σ σ' :
  arrays σ' = arrays σ -> untouched P a0 σ -> untouched P a0 σ'.
Proof. unfold untouched. by intros ->. Qed.

(** [quiet m]: the computation leaves the arrays alone. *)
Definition quiet {A} (m : M A) : Prop :=
  forall σ a σ', m σ = Some (a, σ') -> arrays σ' = arrays σ.

Lemma quiet_pres P a0 {A} (m : M A) : quiet m -> pres (untouched P a0) m.
Proof. intros Hq σ a σ' HJ Hm. eapply untouched_same; [by eapply Hq|done]. Qed.

Lemma quiet_ret {A} (a : A) : quiet (mret a).
Proof. by intros σ a' σ' [= _ <-]. Qed.

Lemma quiet_bind {A B} (m : M A) (k : A -> M B) :
  quiet m -> (forall a, quiet (k a)) -> quiet (m ≫= k).
Proof.
  intros Hm Hk σ b σ' Hb. apply bind_inv in Hb as (a & σ1 & Ha & Hb).
  rewrite (Hk _ _ _ _ Hb). by eapply Hm.
Qed.

Lemma quiet_for_each {A} (l : list A) (body : A -> M unit) :
  (forall x, quiet (body x)) -> quiet (for_each l body).
Proof.
  intros Hb. induction l as [|x l IH]; simpl; [apply quiet_ret|].
  apply quiet_bind; [apply Hb|]. intros _. apply IH.
Qed.

Lemma quiet_step {A} (m : M A) :
  (forall σ, exists a σ', m σ = Some (a, σ') /\ arrays σ' = arrays σ) -> quiet m.
Proof. intros Hm σ a σ' Hr. destruct (Hm σ) as (a1 & σ1 & Hr1 & Ha). congruence. Qed.

Ltac quiet_steps :=
  repeat first
    [ apply quiet_ret
    | apply quiet_for_each; intros ?
    | apply quiet_bind; [|intros ?]
    | apply quiet_step; intros ?; by eexists _, _ ].

Lemma joinTable_quiet f id ps t : quiet (joinTable f id ps t).
Proof.
  unfold joinTable. apply quiet_bind; [quiet_steps|]. intros psv.
  apply quiet_bind.
  - destruct (tables psv !! PT_Name t); [quiet_steps|].
    destruct (getTable (PT_Name t)); quiet_steps.
  - intros [table|]; quiet_steps.
Qed.

Lemma copyFollowers_quiet tableCopy kv : quiet (copyFollowers tableCopy kv).
Proof. unfold copyFollowers. quiet_steps. Qed.

Lemma copyTable_quiet partitionCopy kv : quiet (copyTable partitionCopy kv).
Proof. unfold copyTable. quiet_steps; try apply copyFollowers_quiet. Qed.

Lemma copyPartition_quiet partitionsCopy kv : quiet (copyPartition partitionsCopy kv).
Proof. unfold copyPartition. quiet_steps; try apply copyTable_quiet. Qed.

Lemma copyStreams_quiet l streamsCopy : quiet (copyStreams l streamsCopy).
Proof.
  revert streamsCopy. induction l as [|[stream partitions] l IH]; intros acc; simpl.
  - apply quiet_ret.
  - apply quiet_bind; [quiet_steps|]. intros partitionsCopy.
    apply quiet_bind; [quiet_steps|]. intros pm.
    apply quiet_bind; [|intros _; apply IH].
    apply quiet_for_each. intros x. apply copyPartition_quiet.
Qed.

(** The arrays that a follower has sorted when it joins, and those that an
    event has. *)
Definition sorted_for (f : follower CbState) : list nat :=
  (fun p => arr (Keys p))
    <$> filter (fun p => len (Keys p) <> 0%nat) (map_to_list (Partitions (follow f))).*2.

Definition sorted_by (e : event) : list nat :=
  match e with
  | Joined f extra => mjoin (sorted_for <$> f :: extra)
  | _ => []
  end.

Lemma sortedPartitionKeys_untouched P a0 partitionKeys :
  (len partitionKeys <> 0%nat -> ~ P (arr partitionKeys)) ->
  pres (untouched P a0) (sortedPartitionKeys partitionKeys).
Proof.
  intros Hk. unfold sortedPartitionKeys.
  destruct (Nat.eqb_spec (len partitionKeys) 0) as [|Hnz]; [apply pres_ret|].
  apply pres_bind; [|intros _; apply quiet_pres; quiet_steps].
  unfold sort_Strings. intros σ u σ' HJ Hr.
  apply bind_inv in Hr as (a & σ1 & Ha & Hr).
  unfold get_array in Ha. unfold set_array in Hr. simplify_eq.
  intros b Hb. simpl. rewrite list_lookup_total_insert_ne; [by apply HJ|].
  intros <-. by apply (Hk Hnz).
Qed.

Lemma joinPartition_untouched P a0 f id partitions partition :
  (len (Keys partition) <> 0%nat -> ~ P (arr (Keys partition))) ->
  pres (untouched P a0) (joinPartition f id partitions partition).
Proof.
  intros Hk. unfold joinPartition.
  apply pres_bind; [by apply sortedPartitionKeys_untouched|]. intros [ks sortedKeys].
  apply quiet_pres. apply quiet_bind; [quiet_steps|]. intros pm.
  apply quiet_bind.
  - destruct (pm !! ks); quiet_steps.
  - intros ps. apply quiet_for_each. intros t. apply joinTable_quiet.
Qed.

Lemma onFollowerJoined_untouched P a0 f d :
  (forall a, a ∈ sorted_for f -> ~ P a) ->
  pres (untouched P a0) (onFollowerJoined f d).
Proof.
  intros Hf. unfold onFollowerJoined.
  apply pres_bind.
  { apply quiet_pres. destruct (streams d !! _); quiet_steps. }
  intros [partitions streams']. apply pres_bind; [|intros _; apply pres_ret].
  assert (Hall : forall l,
            (forall p, p ∈ l -> len (Keys p) <> 0%nat -> ~ P (arr (Keys p))) ->
            pres (untouched P a0)
              (for_each l (joinPartition (set_followerId (int_inc (nextFollowerID d)) f)
                             (int_inc (nextFollowerID d)) partitions))).
  { induction l as [|p l IH]; intros Hl; simpl; [apply pres_ret|].
    apply pres_bind.
    - apply joinPartition_untouched. apply Hl. by left.
    - intros _. apply IH. intros q Hq. apply Hl. by right. }
  apply Hall. intros p Hp Hnz. apply Hf. unfold sorted_for.
  apply list_elem_of_fmap. exists p. split; [done|].
  by apply list_elem_of_filter.
Qed.

Lemma handleFollowerJoined_untouched P a0 f extra d :
  (forall a, a ∈ sorted_by (Joined f extra) -> ~ P a) ->
  pres (untouched P a0) (handleFollowerJoined f extra d).
Proof.
  intros Hs. unfold handleFollowerJoined.
  apply pres_bind; [apply quiet_pres, copyStreams_quiet|]. intros streamsCopy.
  apply pres_bind.
  { apply onFollowerJoined_untouched. intros a Ha. apply Hs. simpl.
    apply elem_of_app. by left. }
  intros d1. apply pres_bind.
  - assert (Hall : forall l d,
              (forall g a, g ∈ l -> a ∈ sorted_for g -> ~ P a) ->
              pres (untouched P a0) (fold_M (fun d f => onFollowerJoined f d) l d)).
    { induction l as [|g l IH]; intros d0 Hl; simpl; [apply pres_ret|].
      apply pres_bind.
      - apply onFollowerJoined_untouched. intros a. apply Hl. by left.
      - intros d2. apply IH. intros g' a Hg'. apply Hl. by right. }
    apply Hall. intros g a Hg Ha. apply Hs. simpl. apply elem_of_app. right.
    apply list_elem_of_join. exists (sorted_for g). split; [done|].
    apply list_elem_of_fmap. by exists g.
  - intros d2 σ d3 σ' HJ Hr. by apply restartReader_store in Hr as ->.
Qed.

Lemma handle_untouched P a0 numPartitions e d σ d' σ' :
  handle numPartitions e d σ = Done (d', σ') ->
  (forall a, a ∈ sorted_by e -> ~ P a) ->
  untouched P a0 σ -> untouched P a0 σ'.
Proof.
  intros Hh Hs HJ. destruct e as [f extra|result|]; simpl in Hh.
  - destruct (handleFollowerJoined f extra d σ) as [[d1 σ1]|] eqn:Hj; [|done].
    simplify_eq. eapply handleFollowerJoined_untouched; [exact Hs|exact HJ|exact Hj].
  - destruct (handleResult_same_tree _ _ _ _ _ Hh) as ((Ha & _) & _).
    by apply (untouched_same P a0 σ).
  - by simplify_eq.
Qed.

Lemma processFollowers_from_untouched P a0 numPartitions es d σ d' σ' :
  processFollowers_from numPartitions es d σ = Done (d', σ') ->
  (forall e a, e ∈ es -> a ∈ sorted_by e -> ~ P a) ->
  untouched P a0 σ -> untouched P a0 σ'.
Proof.
  revert d σ. induction es as [|e es IH]; intros d σ Hrun Hs HJ; simpl in *.
  - by simplify_eq.
  - destruct (handle numPartitions e d σ) as [[d1 σ1]| |] eqn:Hh; try done.
    apply (IH _ _ Hrun).
    + intros e' a He'. apply Hs. by right.
    + eapply handle_untouched; [exact Hh| |done]. intros a. apply Hs. by left.
Qed.

(** The key strings that a tree shows, and the backing arrays of its key
    slices. *)
Definition key_strings (σ : Store) (partitions : nat) : gmap string (list string) :=
  (fun ps => contents σ (keys (partSpecs σ !!! ps))) <$> (partMaps σ !!! partitions).

Definition key_array (σ : Store) (partitions a : nat) : Prop :=
  exists k ps,
    (partMaps σ !!! partitions) !! k = Some ps /\ arr (keys (partSpecs σ !!! ps)) = a.

Lemma key_strings_ext σ0 σ partitions :
  ext σ0 σ -> no_dangling σ0 partitions ->
  untouched (key_array σ0 partitions) (arrays σ0) σ ->
  key_strings σ partitions = key_strings σ0 partitions.
Proof.
  intros (Hpm & Hps & _) (Hp & Hclosed) Hu. unfold key_strings.
  rewrite (prefix_lookup_total _ _ _ Hpm Hp).
  apply map_fmap_ext. intros k ps Hk.
  destruct (Hclosed k ps Hk) as (Hlps & _).
  rewrite (prefix_lookup_total _ _ _ Hps Hlps). unfold contents.
  rewrite Hu; [done|]. by exists k, ps.
Qed.

(** ** The client side: [followLeader]

    The variables [tables], [offsets] and [partitions] of [followLeader], and
    the branch [case subscriber := <-newSubscriber] of its first loop. *)
Record tableWithOffset := mkTableWithOffset {
  two_t : table;
  two_o : Offset
}.

Record leaderFollow := mkLeaderFollow {
  fl_tables : list table;
  fl_offsets : list Offset;
  fl_partitions : gmap string Partition
}.

Definition addSubscriber (subscriber : tableWithOffset) (st : leaderFollow)
    : M leaderFollow :=
  let table := two_t subscriber in
  let offset := two_o subscriber in
  '(partitionKeysString, partitionKeys) ← sortedPartitionKeys (PartitionBy table);
  let partition := default (mkPartition partitionKeys [])
                     (fl_partitions st !! partitionKeysString) in
  mret (mkLeaderFollow (fl_tables st ++ [table]) (fl_offsets st ++ [offset])
          (<[partitionKeysString :=
               mkPartition (Keys partition)
                 (Tables partition ++ [mkPartitionTable (Name table) offset])]>
             (fl_partitions st))).

(** *** Join handling and the key arrays *)

Lemma joinTable_keeps_arrays a f id ps t :
  keeps (fun σ => arrays σ = a) (joinTable f id ps t) (fun _ => True).
Proof.
  unfold joinTable.
  eapply keeps_bind; [by apply keeps_get_partSpec with (Q := fun _ => True)|].
  intros psv _.
  eapply keeps_bind with (Q1 := fun _ => True).
  { destruct (tables psv !! PT_Name t); [by apply keeps_ret|].
    destruct (getTable (PT_Name t)); [|by apply keeps_ret].
    eapply keeps_bind; [by apply keeps_new_tableSpec with (Q := fun _ => True)|].
    intros table _.
    eapply keeps_bind; [by apply keeps_set_partSpec|].
    intros _ _. by apply keeps_ret. }
  intros [table|] _; [|by apply keeps_ret].
  eapply keeps_bind; [by apply keeps_get_tableSpec with (Q := fun _ => True)|].
  intros tsv _.
  eapply keeps_bind; [by apply keeps_new_followSpec with (Q := fun _ => True)|].
  intros spec _. by apply keeps_set_tableSpec.
Qed.

(** Of the key arrays, joining a partition changes what
    [sortedPartitionKeys(partition.Keys)] changes. *)
Lemma joinPartition_arrays f id partitions partition σ :
  exists r σ1 σ2,
    sortedPartitionKeys (Keys partition) σ = Some (r, σ1) /\
    joinPartition f id partitions partition σ = Some (tt, σ2) /\
    arrays σ2 = arrays σ1.
Proof.
  destruct (sortedPartitionKeys_total (Keys partition) σ) as (joined & σ1 & Hs).
  assert (Hrest : keeps (fun σ => arrays σ = arrays σ1)
    (pm ← get_partMap partitions;
     ps ← match pm !! joined with
          | Some ps => mret ps
          | None =>
              ps ← new_partSpec (mkPartitionSpec (Keys partition) ∅);
              set_partMap partitions (<[joined := ps]> pm);;
              mret ps
          end;
     for_each (Tables partition) (joinTable f id ps)) (fun _ => True)).
  { eapply keeps_bind; [by apply keeps_get_partMap with (Q := fun _ => True)|].
    intros pm _.
    eapply keeps_bind with (Q1 := fun _ => True).
    { destruct (pm !! joined); [by apply keeps_ret|].
      eapply keeps_bind; [by apply keeps_new_partSpec with (Q := fun _ => True)|].
      intros ps _.
      eapply keeps_bind; [by apply keeps_set_partMap|].
      intros _ _. by apply keeps_ret. }
    intros ps _. apply keeps_for_each. intros t _. apply joinTable_keeps_arrays. }
  destruct (Hrest σ1 eq_refl) as ([] & σ2 & Hr & Ha & _).
  exists (joined, Keys partition), σ1, σ2. split; [done|]. split; [|done].
  unfold joinPartition, mbind, M_bind at 1. rewrite Hs. exact Hr.
Qed.

Lemma addSubscriber_arrays subscriber st σ :
  exists r σ1 st',
    sortedPartitionKeys (PartitionBy (two_t subscriber)) σ = Some (r, σ1) /\
    addSubscriber subscriber st σ = Some (st', σ1) /\
    (forall p, fl_partitions st !! r.1 = None ->
       fl_partitions st' !! r.1 = Some p -> Keys p = PartitionBy (two_t subscriber)).
Proof.
  destruct (sortedPartitionKeys_total (PartitionBy (two_t subscriber)) σ)
    as (joined & σ1 & Hs).
  eexists (joined, _), σ1, _. split; [done|].
  unfold addSubscriber, mbind, M_bind. rewrite Hs. split; [done|].
  simpl. intros p Hnone. rewrite lookup_insert_eq, Hnone. by intros [= <-].
Qed.

End Dispatcher.
Arguments dispatcher : clear implicits.
Arguments event : clear implicits.

Section OldTrees.
Context `{Sorter} {CbState : Type}.

(** C5 (as amended).  Let the dispatcher have started without trees and
    have taken the events [es0], and let [partitions] be a tree of the store
    it has then (the one it works on and has handed to a WAL reader, or one
    that it has handed out earlier).  Whatever the dispatcher does next
    (taking further joins, with the copy of the tree that each one starts
    with and the specs it appends, and processing results, with the offsets
    it advances), the maps and records of the tree are as they were: the
    tree keeps its shape, which is the same partition key strings in the
    map, the same key slices (backing array, offset and length), the same
    tables with the same predicates, and for each partition number the same
    list of follower ids.  Two things that are read through the tree are
    not part of the shape.  The offsets of its specs: the specs are shared
    with the later copies.  And the strings that its key slices show:
    [sortedPartitionKeys] sorts the key slice of a follower in place when
    it joins (C10), so the tree shows the same key strings as long as no
    follower that joins later has a non-empty key slice in the backing
    array of one of the key slices of the tree. *)
Theorem old_tree_keeps_shape getTable strings_ToLower walOpens numPartitions
    m es0 es (d d' : dispatcher CbState) σ0 σ σ' partitions :
  no_trees σ0 ->
  processFollowers_from getTable strings_ToLower walOpens numPartitions es0
    (start numPartitions m) σ0 = Done (d, σ) ->
  (partitions < length (partMaps σ))%nat ->
  processFollowers_from getTable strings_ToLower walOpens numPartitions es d σ
    = Done (d', σ') ->
  shape σ' partitions = shape σ partitions /\
  ((forall e a, e ∈ es -> a ∈ sorted_by e -> ~ key_array σ partitions a) ->
   key_strings σ' partitions = key_strings σ partitions).
Proof.
  intros Hstart Hrun0 Hp Hrun.
  assert (Hext : ext σ σ') by (by eapply processFollowers_from_ext).
  assert (Hnd : no_dangling σ partitions).
  { apply well_formed_no_dangling; [|done].
    eapply processFollowers_from_well_formed; [exact Hrun0|].
    by apply no_trees_well_formed. }
  split; [by apply shape_ext|].
  intros Hapart. apply key_strings_ext; [done|done|].
  eapply processFollowers_from_untouched; [exact Hrun|exact Hapart|].
  by intros a _.
Qed.

End OldTrees.

Section OffsetOrder.
Context `{Sorter} {CbState : Type}.


End OffsetOrder.

Section KeysInPlace.
Context `{Sorter} {CbState : Type}.

(** C10.  [sortedPartitionKeys] mutates its argument.  It returns the slice
    it was given; for an empty key list the string is "" and the store is
    untouched; for a non-empty one the elements that the slice shows are
    sorted in its backing array, so the caller's slice shows the same keys
    in ascending order, and the string is these keys joined by "|".
    Consequently handling a joining follower's partition leaves the arrays
    as [sortedPartitionKeys(partition.Keys)] leaves them, and registering a
    table in [followLeader] leaves the store as
    [sortedPartitionKeys(table.PartitionBy)] leaves it: both key lists are
    reordered in place. *)
Theorem sortedPartitionKeys_mutates_argument σ partitionKeys :
  (off partitionKeys + len partitionKeys
     <= length (arrays σ !!! arr partitionKeys))%nat ->
  (arr partitionKeys < length (arrays σ))%nat ->
  exists joined σ',
    sortedPartitionKeys partitionKeys σ = Some ((joined, partitionKeys), σ') /\
    (len partitionKeys = 0%nat -> joined = "" /\ σ' = σ) /\
    (len partitionKeys <> 0%nat ->
       contents σ' partitionKeys ≡ₚ contents σ partitionKeys /\
       ascending String.ltb (contents σ' partitionKeys) /\
       joined = String.concat "|" (contents σ' partitionKeys) /\
       σ' = with_arrays
              (fun h => <[arr partitionKeys :=
                            set_window partitionKeys (contents σ' partitionKeys)
                              (arrays σ !!! arr partitionKeys)]> h) σ) /\
    (forall getTable strings_ToLower (f : follower CbState) id partitions partition,
       Keys partition = partitionKeys ->
       exists σ2,
         joinPartition getTable strings_ToLower f id partitions partition σ
           = Some (tt, σ2) /\
         arrays σ2 = arrays σ') /\
    (forall subscriber st,
       PartitionBy (two_t subscriber) = partitionKeys ->
       exists st', addSubscriber subscriber st σ = Some (st', σ')).
Proof.
  intros Hin Harr.
  destruct (sortedPartitionKeys_sorts σ partitionKeys Hin Harr)
    as (joined & σ' & Hs & Hz & Hnz).
  exists joined, σ'. repeat (split; [done|]). split.
  - intros getTable lower f id partitions partition <-.
    destruct (joinPartition_arrays getTable lower f id partitions partition σ)
      as (r & σ1 & σ2 & Hs' & Hj & Ha).
    exists σ2. split; [done|]. congruence.
  - intros subscriber st <-.
    destruct (addSubscriber_arrays subscriber st σ) as (r & σ1 & st' & Hs' & Ha & _).
    exists st'. congruence.
Qed.

End KeysInPlace.

Section Partitioned.
Context {sorter : Sorter} {CbState : Type}.
Context {Hasher : Type} {hash32 : Hash32 Hasher} {hash32_laws : Hash32Laws Hasher}.
Variable getTable : string -> option table.
Variable strings_ToLower : string -> string.
Variable walOpens : string -> option Offset -> bool.
Variable ByteMap_get : list Byte.byte -> string -> option (list Byte.byte).
Variable parseDims : list Byte.byte -> option (list Byte.byte).
Variable numPartitions : Z.

(** A worker reads nothing of the offsets of the specs. *)
Lemma mapPartitionRequest_same_tree σ σ' (h : Hasher) req :
  same_tree σ σ' ->
  mapPartitionRequest ByteMap_get parseDims numPartitions σ' h req
  = mapPartitionRequest ByteMap_get parseDims numPartitions σ h req.
Proof.
  destruct σ, σ'. unfold same_tree. simpl. intros (-> & -> & -> & -> & _). reflexivity.
Qed.

(** The [pid]s of a result that a worker sends. *)
Lemma mapped_pids σ (h h' : Hasher) req result :
  0 < numPartitions ->
  mapPartitionRequest ByteMap_get parseDims numPartitions σ h req = Some (h', result) ->
  exists dims whereResults,
    parseDims (data (req_entry req)) = Some dims /\
    entry result = req_entry req /\
    memo_of σ dims (req_partitions req) whereResults /\
    forall k ps,
      (partMaps σ !!! req_partitions req) !! k = Some ps ->
      exists pr,
        partitions result !! k = Some pr /\
        pid pr = digest (digested ByteMap_get dims
                           (contents σ (keys (partSpecs σ !!! ps))))
                 mod numPartitions /\
        0 <= pid pr < numPartitions /\
        answers σ (tables (partSpecs σ !!! ps)) (pid pr) whereResults (wherePassed pr).
Proof.
  intros Hpos Hm.
  destruct (mapPartitionRequest_post _ _ _ _ _ _ _ _ Hm)
    as (dims & C & Hdims & Hentry & Hmemo & Hparts).
  exists dims, C. repeat (split; [done|]). intros k ps Hk.
  specialize (Hparts k). rewrite Hk in Hparts.
  destruct Hparts as (pr & h0 & h1 & Hpr & Hpf & Hans).
  exists pr. split; [done|].
  destruct (partitionFor_mod ByteMap_get numPartitions h0 dims
              (contents σ (keys (partSpecs σ !!! ps))) Hpos) as (h2 & Hpf2).
  rewrite Hpf2 in Hpf. injection Hpf as _ Hpid. rewrite <- Hpid.
  split; [done|]. split; [apply Z.mod_pos_bound; lia|]. by rewrite Hpid.
Qed.

(** The state in which the dispatcher handles a result that was mapped from
    its tree some results earlier. *)
Lemma mapped_then_handled m es rs (d d1 : dispatcher CbState) σ0 σ σ1
    (h h' : Hasher) req result :
  0 < numPartitions -> no_trees σ0 -> joins es < 2 ^ 63 -> Forall open_event es ->
  processFollowers_from getTable strings_ToLower walOpens numPartitions es
    (start numPartitions m) σ0 = Done (d, σ) ->
  streams d !! stream (req_entry req) = Some (req_partitions req) ->
  mapPartitionRequest ByteMap_get parseDims numPartitions σ h req = Some (h', result) ->
  processFollowers_from getTable strings_ToLower walOpens numPartitions (Result <$> rs)
    d σ = Done (d1, σ1) ->
  registered d1 σ1 /\ ready numPartitions d1 /\ same_tree σ σ1 /\
  streams d1 = streams d /\
  forall tree k,
    streams d1 !! stream (entry result) = Some tree ->
    is_Some ((partMaps σ1 !!! tree) !! k) ->
    exists pr, partitions result !! k = Some pr /\ 0 <= pid pr < numPartitions.
Proof.
  intros Hpos Hstart Hlt Hopen Hrun Htree Hm Hrs.
  destruct (processFollowers_from_registered _ _ _ _ _ _ _ _ _ Hrun
              (registered_start _ _ _ Hstart)) as (Hreg & Hnext); [simpl; lia|].
  simpl in Hnext.
  pose proof (processFollowers_from_ready _ _ _ _ _ _ _ _ _ Hrun Hopen
                (ready_start _ _)) as Hready.
  destruct (processFollowers_from_registered _ _ _ _ _ _ _ _ _ Hrs Hreg) as (Hreg1 & _).
  { rewrite joins_results. lia. }
  pose proof (processFollowers_from_ready _ _ _ _ _ _ _ _ _ Hrs (open_results rs) Hready)
    as Hready1.
  destruct (results_same_tree _ _ _ _ σ _ _ _ _ _ Hrs) as (Hsame & Hstreams).
  { by repeat split. }
  repeat (split; [done|]).
  destruct (mapped_pids _ _ _ _ _ Hpos Hm) as (dims & C & _ & Hentry & _ & Hpids).
  intros tree k. rewrite Hstreams, Hentry, Htree. intros [= <-] [ps Hps].
  destruct Hsame as (_ & Hpm & _). rewrite Hpm in Hps.
  destruct (Hpids k ps Hps) as (pr & Hpr & _ & Hrange & _). by exists pr.
Qed.

(** The dispatcher has started without trees and taken the events [es],
    whose followers come with their queue open; a reader has sent a request
    with the tree that the dispatcher holds for the stream, a worker has
    sent a result for it, and the dispatcher has processed the results [rs]
    since.  Then processing this result does not panic: every key of the
    tree is in the result and no follower is looked up that is not
    registered, also when followers have joined with partition numbers that
    are no index of [stats].  It completes when each follower has room in
    its queue, and waits on a queue otherwise. *)
Theorem mapped_result_is_handled m es rs (d d1 : dispatcher CbState) σ0 σ σ1
    (h h' : Hasher) req result :
  0 < numPartitions -> no_trees σ0 -> joins es < 2 ^ 63 -> Forall open_event es ->
  processFollowers_from getTable strings_ToLower walOpens numPartitions es
    (start numPartitions m) σ0 = Done (d, σ) ->
  streams d !! stream (req_entry req) = Some (req_partitions req) ->
  mapPartitionRequest ByteMap_get parseDims numPartitions σ h req = Some (h', result) ->
  processFollowers_from getTable strings_ToLower walOpens numPartitions (Result <$> rs)
    d σ = Done (d1, σ1) ->
  (handleResult result d1 σ1 = Blocked \/
   exists d' σ', handleResult result d1 σ1 = Done (d', σ')) /\
  ((forall id f, d_followers d1 !! id = Some f ->
      (length (buf (entries f)) < cap (entries f))%nat) ->
   exists d' σ', handleResult result d1 σ1 = Done (d', σ')).
Proof.
  intros Hpos Hstart Hlt Hopen Hrun Htree Hm Hrs.
  destruct (mapped_then_handled _ _ _ _ _ _ _ _ _ _ _ _ Hpos Hstart Hlt Hopen Hrun Htree
              Hm Hrs) as (Hreg & Hready & _ & _ & Hkeys).
  split.
  - by eapply handleResult_completes.
  - intros Hroom. by eapply handleResult_done.
Qed.

(** In the same situation, who is sent the entry.  A follower to whose
    queue the processing of the result sends something is sent the entry of
    the request, once, and was not marked failed when the processing began;
    its partition number is the hash, modulo [NumPartitions], of the values
    that the entry has for the keys of a partition of the tree, and a table
    of this partition has passed: the answer recorded for it is true, which
    is the value, on the entry, of the predicate of a table of the tree with
    the same [whereString].  (A follower that its reader marks failed
    between the guard and the check in [submit] is sent nothing: its queue
    is closed.) *)
Theorem delivered_entry_hashes_to_partition m es rs (d d1 d' : dispatcher CbState)
    σ0 σ σ1 σ' (h h' : Hasher) req result id f f' :
  0 < numPartitions -> no_trees σ0 -> joins es < 2 ^ 63 -> Forall open_event es ->
  processFollowers_from getTable strings_ToLower walOpens numPartitions es
    (start numPartitions m) σ0 = Done (d, σ) ->
  streams d !! stream (req_entry req) = Some (req_partitions req) ->
  mapPartitionRequest ByteMap_get parseDims numPartitions σ h req = Some (h', result) ->
  processFollowers_from getTable strings_ToLower walOpens numPartitions (Result <$> rs)
    d σ = Done (d1, σ1) ->
  handleResult result d1 σ1 = Done (d', σ') ->
  d_followers d1 !! id = Some f -> d_followers d' !! id = Some f' ->
  buf (entries f') <> buf (entries f) ->
  failed f = false /\
  buf (entries f') = buf (entries f) ++ [req_entry req] /\
  exists dims k ps t ts ts',
    parseDims (data (req_entry req)) = Some dims /\
    (partMaps σ !!! req_partitions req) !! k = Some ps /\
    PartitionNumber (follow f)
    = digest (digested ByteMap_get dims (contents σ (keys (partSpecs σ !!! ps))))
      mod numPartitions /\
    tables (partSpecs σ !!! ps) !! t = Some ts /\
    in_tree σ (req_partitions req) ts' /\
    whereString (tableSpecs σ !!! ts') = whereString (tableSpecs σ !!! ts) /\
    evalWhere (where_ (tableSpecs σ !!! ts')) dims = Some true.
Proof.
  intros Hpos Hstart Hlt Hopen Hrun Htree Hm Hrs Hr Hf Hf' Hne.
  destruct (mapped_then_handled _ _ _ _ _ _ _ _ _ _ _ _ Hpos Hstart Hlt Hopen Hrun Htree
              Hm Hrs) as ([Hn Ho] & _ & Hsame & Hstreams & _).
  destruct (handleResult_sent _ _ _ _ _ _ _ Hr Hf)
    as (f1 & Hf1 & [->|(included & σ2 & Hw & Hin & Hnf & Hsub)]); [congruence|].
  assert (f1 = f') as -> by congruence.
  destruct (mapped_pids _ _ _ _ _ Hpos Hm) as (dims & C & Hdims & Hentry & Hmemo & Hpids).
  split; [done|]. split; [rewrite <- Hentry; by apply submit_sends|].
  destruct (included_registered _ _ _ _ _ _ Hw Ho Hin)
    as (f0 & tree & k & ps & pr & t & ts & Hf0 & Hs & Hk & Hpr & Hpn & Ht & Hpassed).
  assert (f0 = f) as -> by congruence.
  rewrite Hstreams, Hentry, Htree in Hs. injection Hs as <-.
  destruct Hsame as (_ & Hpm & Hps & _). rewrite Hpm in Hk. rewrite Hps in Ht.
  destruct (Hpids k ps Hk) as (pr' & Hpr' & Hpid & _ & Hans).
  assert (pr' = pr) as -> by congruence.
  specialize (Hans t). rewrite Ht in Hans.
  destruct (length _ =? 0)%nat; [congruence|].
  destruct Hans as (b & Hb & Hc). assert (b = true) as -> by congruence.
  destruct (Hmemo _ _ Hc) as (ts' & Hin' & Hws & Hev).
  exists dims, k, ps, t, ts, ts'. rewrite Hpn. done.
Qed.

End Partitioned.

Section Joining.
Context {sorter : Sorter} {CbState : Type}.
Variable getTable : string -> option table.
Variable strings_ToLower : string -> string.
Variable walOpens : string -> option Offset -> bool.
Variable numPartitions : Z.

(** The dispatcher numbers the followers in the order in which they join.
    After the events [es] from the start, [nextFollowerID] is the number of
    followers that have joined; the [i]-th of them is registered under the
    number [i] and nothing else is registered; a registered follower has its
    number as [followerId], and the [Follow] request and the callback of the
    follower that joined.  No follower is ever removed, failed or not. *)
Theorem followers_numbered_in_join_order m es (d : dispatcher CbState) σ0 σ :
  Z.of_nat (length (joined es)) < 2 ^ 63 ->
  processFollowers_from getTable strings_ToLower walOpens numPartitions es
    (start numPartitions m) σ0 = Done (d, σ) ->
  nextFollowerID d = Z.of_nat (length (joined es)) /\
  forall id,
    match d_followers d !! id with
    | None => ~ (1 <= id <= Z.of_nat (length (joined es)))
    | Some f =>
        1 <= id /\
        exists g,
          joined es !! Z.to_nat (id - 1) = Some g /\
          follow f = follow g /\ followerId f = id /\ cb f = cb g
    end.
Proof.
  intros Hlt Hrun.
  destruct (processFollowers_from_enrolled _ _ _ _ [] _ _ _ _ _ Hrun
              (enrolled_start _ _)) as (Hnext & Hfs); [done|].
  simpl in *. split; [done|]. intros id. specialize (Hfs id).
  destruct (d_followers d !! id) as [f|]; [|done].
  destruct Hfs as (Hpos & g & c & Hg & -> & Hcl). split; [done|]. by exists g.
Qed.

(** The offset that the loop over the specs of a stream's tree computes for
    [followWAL], when no spec of the tree has a nil offset: it is the least
    offset of the specs of the tree, whatever the order in which the maps are
    ranged over, and nil exactly when the tree has no spec.  (With a spec
    whose offset is nil the result depends on the order of the visit, see
    [earliest_after_nil_spec] below.) *)
Theorem earliestInTree_least σ tree :
  (forall spec,
     spec_in_tree σ tree spec ->
     spec_offset (followSpecs σ !!! spec) <> nil_Offset) ->
  match earliestInTree σ (Some tree) with
  | None => forall spec, ~ spec_in_tree σ tree spec
  | Some earliestOffset =>
      (exists spec,
         spec_in_tree σ tree spec /\
         spec_offset (followSpecs σ !!! spec) = earliestOffset) /\
      forall spec,
        spec_in_tree σ tree spec ->
        After earliestOffset (spec_offset (followSpecs σ !!! spec)) = false
  end.
Proof.
  intros Hset.
  pose proof (least_earliestInTree σ tree Hset) as Hl. unfold least in Hl.
  destruct (earliestInTree σ (Some tree)) as [e|].
  - destruct Hl as ([?|Hwit] & _ & Hall); [done|]. split; [done|].
    intros spec Hs. specialize (Hall spec Hs). unfold After. apply Z.ltb_ge. lia.
  - by destruct Hl.
Qed.

(** A join for one stream.  The dispatcher has started without trees and
    taken the events [es]; then followers join that all follow the stream
    [s], which can be opened.  Handling the join completes; it makes a new
    requests channel, which is open; it starts the reader of [s] on the tree
    that the dispatcher now holds for [s] and on the new channel; it closes
    the requests channel that was current before; and it leaves the readers
    of the other streams as they were, so a reader that was started on the
    channel that was current before now holds a closed channel. *)
Theorem join_restarts_reader m es (d : dispatcher CbState) σ0 σ f extra s :
  no_trees σ0 ->
  processFollowers_from getTable strings_ToLower walOpens numPartitions es
    (start numPartitions m) σ0 = Done (d, σ) ->
  Forall (fun g => Stream (follow g) = s) (f :: extra) ->
  (forall o, walOpens s o = true) ->
  exists d' σ' new tree,
    handle getTable strings_ToLower walOpens numPartitions (Joined f extra) d σ
      = Done (d', σ') /\
    requests d' = Some new /\ pipelines d' !! new = Some false /\
    streams d' !! s = Some tree /\
    (exists offset,
       stopWALReaders d' !! s = Some (mkWalReader offset (Some tree) (Some new))) /\
    (forall r, requests d = Some r -> pipelines d' !! r = Some true) /\
    (forall s', s' <> s -> stopWALReaders d' !! s' = stopWALReaders d !! s') /\
    (forall s' reader r,
       s' <> s -> stopWALReaders d !! s' = Some reader ->
       requests d = Some r -> wr_requests reader = Some r ->
       stopWALReaders d' !! s' = Some reader /\ pipelines d' !! r = Some true).
Proof.
  intros Hstart Hrun Hs Hopens.
  assert (Hwf : well_formed σ).
  { eapply processFollowers_from_well_formed; [exact Hrun|].
    by apply no_trees_well_formed. }
  destruct (processFollowers_from_piped _ _ _ _ _ _ _ _ _ Hrun
              (no_trees_well_formed _ Hstart) (piped_start _ _)) as (Hp & _).
  destruct (handleFollowerJoined_one_stream getTable strings_ToLower walOpens f extra d σ s
              Hwf Hp Hs Hopens)
    as (d' & σ' & Hh & Hreq & Hpipes & Hreaders).
  destruct (handleFollowerJoined_streams _ _ _ _ _ _ _ _ _ Hh f) as [tree Htree];
    [by left|].
  apply Forall_cons in Hs as [Hsf _]. rewrite Hsf in Htree.
  assert (Hclosed : forall r, requests d = Some r -> pipelines d' !! r = Some true).
  { intros r Hr. unfold piped in Hp. rewrite Hr in Hp, Hpipes. destruct Hp as (_ & Hlen).
    rewrite Hpipes. apply list_lookup_insert_eq. rewrite length_app. simpl. lia. }
  assert (Hstay : forall s', s' <> s ->
            stopWALReaders d' !! s' = stopWALReaders d !! s').
  { intros s' Hne. rewrite Hreaders. by apply lookup_insert_ne. }
  exists d', σ', (length (pipelines d)), tree. simpl. rewrite Hh.
  split; [done|]. split; [done|]. split.
  { rewrite Hpipes. unfold piped in Hp. destruct (requests d) as [r|].
    - destruct Hp as (_ & Hlen). rewrite list_lookup_insert_ne by lia.
      rewrite lookup_app_r by lia. by rewrite Nat.sub_diag.
    - rewrite lookup_app_r by lia. by rewrite Nat.sub_diag. }
  split; [done|]. split.
  { rewrite Hreaders, lookup_insert_eq, Htree. by eexists. }
  split; [done|]. split; [done|].
  intros s' reader r Hne Hreader Hr _. split; [|by apply Hclosed].
  by rewrite Hstay.
Qed.

(** A join for two streams.  When at least one follower has joined before,
    and followers of two different streams join together (the second is
    found waiting by [extraFollowersLoop]), both streams being such that they
    can be opened, the dispatcher panics: the loop over [newlyJoinedStreams]
    closes [oldRequests] once for each stream.  Each of these followers
    joining alone is handled without a panic. *)
Theorem join_of_two_streams_panics m es (d : dispatcher CbState) σ0 σ f extra g1 g2 :
  no_trees σ0 ->
  processFollowers_from getTable strings_ToLower walOpens numPartitions es
    (start numPartitions m) σ0 = Done (d, σ) ->
  0 < joins es ->
  g1 ∈ f :: extra -> g2 ∈ f :: extra ->
  Stream (follow g1) <> Stream (follow g2) ->
  (forall o, walOpens (Stream (follow g1)) o = true) ->
  (forall o, walOpens (Stream (follow g2)) o = true) ->
  handle getTable strings_ToLower walOpens numPartitions (Joined f extra) d σ = Panic /\
  (exists r, handle getTable strings_ToLower walOpens numPartitions (Joined g1 []) d σ
             = Done r) /\
  (exists r, handle getTable strings_ToLower walOpens numPartitions (Joined g2 []) d σ
             = Done r).
Proof.
  intros Hstart Hrun Hjoins Hg1 Hg2 Hne Ho1 Ho2.
  assert (Hwf : well_formed σ).
  { eapply processFollowers_from_well_formed; [exact Hrun|].
    by apply no_trees_well_formed. }
  destruct (processFollowers_from_piped _ _ _ _ _ _ _ _ _ Hrun
              (no_trees_well_formed _ Hstart) (piped_start _ _)) as (Hp & Hreq).
  destruct Hreq as [old Hold]; [by right|].
  assert (Halone : forall g, (forall o, walOpens (Stream (follow g)) o = true) ->
            exists r, handle getTable strings_ToLower walOpens numPartitions
                        (Joined g []) d σ = Done r).
  { intros g Ho.
    destruct (handleFollowerJoined_one_stream getTable strings_ToLower walOpens g [] d σ
                (Stream (follow g)) Hwf Hp)
      as (d' & σ' & Hh & _); [by repeat constructor|done|].
    simpl. rewrite Hh. by eexists. }
  split; [|by auto]. simpl.
  destruct (handleFollowerJoined_joined getTable strings_ToLower walOpens f extra d σ Hwf)
    as (d3 & σ3 & -> & Hnew & _).
  rewrite Hold.
  rewrite (restart_twice _ old _ d3 σ3 (Stream (follow g1)) (Stream (follow g2)));
    try done.
  - apply list_elem_of_fmap. exists (Stream (follow g1), true). split; [done|].
    apply elem_of_map_to_list. rewrite Hnew, joined_streams_lookup.
    rewrite decide_True; [done|]. apply list_elem_of_fmap. by exists g1.
  - apply list_elem_of_fmap. exists (Stream (follow g2), true). split; [done|].
    apply elem_of_map_to_list. rewrite Hnew, joined_streams_lookup.
    rewrite decide_True; [done|]. apply list_elem_of_fmap. by exists g2.
Qed.

End Joining.

(** ** The client side: [doFollowLeader]

    The callback that [doFollowLeader] hands to [db.opts.Follow] closes over
    the channel [cancel], the slice [offsets] and the channels [ins], one
    for each table.  The channels [ins] are blocking: a send is a hand-over
    to the [processInserts] of the table, and what the callback hands over
    is listed with the index of the table. *)
Record walRead := mkWalRead {
  read_data : list Byte.byte;
  read_offset : Offset
}.

(** The body of [for i, in := range ins]; [offsets[i]] panics when the slice
    is shorter than [ins]. *)
Definition forward_to (data : list Byte.byte) (newOffset : Offset)
    (acc : list (nat * walRead) * list Offset) (i : nat)
    : option (list (nat * walRead) * list Offset) :=
  match acc.2 !! i with
  | None => None
  | Some priorOffset =>
      if After newOffset priorOffset
      then Some (acc.1 ++ [(i, mkWalRead data newOffset)], <[i := newOffset]> acc.2)
      else Some acc
  end.

(** What a call returns: [errCanceled], or nil after the hand-overs. *)
Inductive cb_result :=
| Canceled
| Forwarded (sent : list (nat * walRead)).

(** The callback, for [numTables] tables; a receive from [cancel] takes a
    value that is buffered, and succeeds on a closed channel. *)
Definition callback (numTables : nat) (data : list Byte.byte) (newOffset : Offset)
    (st : chan bool * list Offset) : option (cb_result * (chan bool * list Offset)) :=
  match buf st.1 with
  | _ :: rest => Some (Canceled, (mkChan rest (cap st.1) (closed st.1), st.2))
  | [] =>
      if closed st.1 then Some (Canceled, st)
      else
        match fold_option (forward_to data newOffset) (seq 0 numTables) ([], st.2) with
        | None => None
        | Some (sent, offsets) => Some (Forwarded sent, (st.1, offsets))
        end
  end.

(** The calls that [db.opts.Follow] makes, one for each read; the function
    of cmd/zeno goes on calling after an error, on a new connection. *)
Fixpoint callbacks (numTables : nat) (reads : list (list Byte.byte * Offset))
    (st : chan bool * list Offset) : option (list cb_result * (chan bool * list Offset)) :=
  match reads with
  | [] => Some ([], st)
  | (data, newOffset) :: reads =>
      match callback numTables data newOffset st with
      | None => None
      | Some (r, st) =>
          match callbacks numTables reads st with
          | None => None
          | Some (rs, st) => Some (r :: rs, st)
          end
      end
  end.

(** [makeFollow]: the earliest of [offsets] (the iteration for [i == 0] sets
    [earliestOffset], so [After] is not called on nil there), moved up to the
    offset of [MaxFollowAge] ago when [MaxFollowAge > 0].  Modelled from the
    spec: nil is the sentinel "none", the smallest offset, which any offset
    is [After]. *)
Definition earliestOf (offsets : list Offset) : option Offset :=
  match offsets with
  | [] => None
  | offset :: rest =>
      Some (fold_left
              (fun earliestOffset offset =>
                 if After earliestOffset offset then offset else earliestOffset)
              rest offset)
  end.

Definition makeFollow (stream : string) (partition : Z) (partitions : gmap string Partition)
    (MaxFollowAge : Z) (earliestAllowedOffset : Offset) (offsets : list Offset)
    : string * option Offset * Z * gmap string Partition :=
  let earliestOffset := earliestOf offsets in
  let earliestOffset :=
    if 0 <? MaxFollowAge then
      match earliestOffset with
      | None => Some earliestAllowedOffset
      | Some e => if After earliestAllowedOffset e then Some earliestAllowedOffset
                  else Some e
      end
    else earliestOffset in
  (stream, earliestOffset, partition, partitions).

(** What table [i] is handed, of a list of hand-overs and of the results of
    a run of calls. *)
Definition handed (i : nat) (sent : list (nat * walRead)) : list walRead :=
  omap (fun s => if decide (s.1 = i) then Some s.2 else None) sent.

Definition received (i : nat) (rs : list cb_result) : list walRead :=
  mjoin ((fun r => match r with
                   | Canceled => []
                   | Forwarded sent => handed i sent
                   end) <$> rs).

(** What a table at offset [prior] takes of a list of reads when it is on
    its own: each read whose offset is after that of the last one taken. *)
Fixpoint taken (prior : Offset) (reads : list (list Byte.byte * Offset)) : list walRead :=
  match reads with
  | [] => []
  | (data, newOffset) :: reads =>
      if After newOffset prior then mkWalRead data newOffset :: taken newOffset reads
      else taken prior reads
  end.

Fixpoint offset_after (prior : Offset) (reads : list (list Byte.byte * Offset)) : Offset :=
  match reads with
  | [] => prior
  | (data, newOffset) :: reads =>
      offset_after (if After newOffset prior then newOffset else prior) reads
  end.

Lemma handed_cons i j r sent :
  handed i ((j, r) :: sent) = if decide (j = i) then r :: handed i sent else handed i sent.
Proof. unfold handed. csimpl. by case_decide. Qed.

Lemma received_Forwarded i sent rs :
  received i (Forwarded sent :: rs) = handed i sent ++ received i rs.
Proof. reflexivity. Qed.

Lemma received_Canceled i rs : received i (Canceled :: rs) = received i rs.
Proof. reflexivity. Qed.

(** The loop over the tables from [a] on. *)
Lemma forward_loop data o m a sent offs :
  (a + m <= length offs)%nat ->
  exists sent' offs',
    fold_option (forward_to data o) (seq a m) (sent, offs) = Some (sent ++ sent', offs') /\
    length offs' = length offs /\
    (forall i prior, offs !! i = Some prior ->
       offs' !! i = Some (if decide (a <= i < a + m)%nat
                          then (if After o prior then o else prior) else prior) /\
       handed i sent' = if decide (a <= i < a + m)%nat
                        then (if After o prior then [mkWalRead data o] else [])
                        else []).
Proof.
  revert a sent offs. induction m as [|m IH]; intros a sent offs Hlen.
  - exists [], offs. simpl. rewrite app_nil_r. split; [done|]. split; [done|].
    intros i prior Hi. rewrite !decide_False by lia. done.
  - simpl. unfold forward_to at 1. simpl.
    destruct (offs !! a) as [pa|] eqn:Ha; [|apply lookup_ge_None in Ha; lia].
    destruct (After o pa) eqn:Hafter.
    + destruct (IH (S a) (sent ++ [(a, mkWalRead data o)]) (<[a := o]> offs))
        as (sent' & offs' & Hf & Hl & Hall); [rewrite length_insert; lia|].
      exists ((a, mkWalRead data o) :: sent'), offs'.
      rewrite Hf, <- app_assoc. split; [done|]. rewrite Hl, length_insert. split; [done|].
      intros i prior Hi. destruct (decide (i = a)) as [->|Hne].
      * assert (prior = pa) as -> by congruence.
        destruct (Hall a o) as (Ho & Hh); [apply list_lookup_insert_eq; lia|].
        rewrite decide_False in Ho by lia. rewrite decide_False in Hh by lia.
        rewrite !decide_True by lia.
        rewrite Ho, Hafter. split; [done|].
        rewrite handed_cons. rewrite (decide_True (P := a = a)) by done. by rewrite Hh.
      * destruct (Hall i prior) as (Ho & Hh); [by rewrite list_lookup_insert_ne|].
        rewrite Ho, handed_cons. rewrite (decide_False (P := a = i)) by lia.
        rewrite Hh. split; repeat case_decide; try done; lia.
    + destruct (IH (S a) sent offs) as (sent' & offs' & Hf & Hl & Hall); [lia|].
      exists sent', offs'. split; [done|]. split; [done|].
      intros i prior Hi. destruct (Hall i prior Hi) as (Ho & Hh).
      rewrite Ho, Hh. destruct (decide (i = a)) as [->|Hne].
      * assert (prior = pa) as -> by congruence. rewrite Hafter.
        split; repeat case_decide; try done; lia.
      * split; repeat case_decide; try done; lia.
Qed.

(** One call without cancellation. *)
Lemma callback_forwards n data o cancel offsets :
  buf cancel = [] -> closed cancel = false -> length offsets = n ->
  exists sent offsets',
    callback n data o (cancel, offsets) = Some (Forwarded sent, (cancel, offsets')) /\
    length offsets' = n /\
    forall i prior, offsets !! i = Some prior ->
      offsets' !! i = Some (if After o prior then o else prior) /\
      handed i sent = if After o prior then [mkWalRead data o] else [].
Proof.
  intros Hbuf Hopen Hlen. unfold callback. simpl. rewrite Hbuf, Hopen.
  destruct (forward_loop data o n 0 [] offsets) as (sent & offs' & Hf & Hl & Hall); [lia|].
  simpl in Hf. rewrite Hf. exists sent, offs'. split; [done|]. split; [lia|].
  intros i prior Hi. destruct (Hall i prior Hi) as (Ho & Hh).
  assert (i < n)%nat by (subst n; by eapply lookup_lt_Some).
  rewrite decide_True in Ho by lia. rewrite decide_True in Hh by lia. done.
Qed.

(** A run of calls without cancellation: each table takes what it would
    take on its own. *)
Lemma callbacks_forward n reads cancel offsets :
  buf cancel = [] -> closed cancel = false -> length offsets = n ->
  exists rs offsets',
    callbacks n reads (cancel, offsets) = Some (rs, (cancel, offsets')) /\
    length offsets' = n /\
    forall i prior, offsets !! i = Some prior ->
      offsets' !! i = Some (offset_after prior reads) /\
      received i rs = taken prior reads.
Proof.
  intros Hbuf Hopen. revert offsets. induction reads as [|[data o] reads IH];
    intros offsets Hlen.
  - exists [], offsets. simpl. split; [done|]. split; [done|]. by intros i prior ->.
  - destruct (callback_forwards n data o cancel offsets Hbuf Hopen Hlen)
      as (sent & offs1 & Hc & Hl1 & Hall1).
    destruct (IH offs1 Hl1) as (rs & offs' & Hcs & Hl & Hall).
    exists (Forwarded sent :: rs), offs'. simpl. rewrite Hc, Hcs.
    split; [done|]. split; [done|].
    intros i prior Hi. destruct (Hall1 i prior Hi) as (Ho1 & Hh1).
    destruct (Hall i _ Ho1) as (Ho & Hr). rewrite Ho. split; [done|].
    rewrite received_Forwarded, Hh1, Hr. simpl. by destruct (After o prior).
Qed.

Lemma taken_after prior reads :
  Forall (fun r => After (read_offset r) prior = true) (taken prior reads) /\
  StronglySorted (fun a b => After (read_offset b) (read_offset a) = true)
    (taken prior reads).
Proof.
  revert prior. induction reads as [|[data o] reads IH]; intros prior; simpl.
  - split; constructor.
  - destruct (After o prior) eqn:Hafter; [|apply IH].
    destruct (IH o) as (Hall & Hsorted). split.
    + constructor; [done|]. eapply Forall_impl; [exact Hall|].
      intros r. unfold After in *. simpl. rewrite !Z.ltb_lt in *. lia.
    + by constructor.
Qed.

Lemma taken_sublist prior reads :
  taken prior reads `sublist_of` (fun r => mkWalRead r.1 r.2) <$> reads.
Proof.
  revert prior. induction reads as [|[data o] reads IH]; intros prior; simpl; [done|].
  destruct (After o prior); [by apply sublist_skip|by apply sublist_cons].
Qed.

Lemma filter_ext_elem {A} (P1 P2 : A -> Prop) `{forall x, Decision (P1 x)}
    `{forall x, Decision (P2 x)} (l : list A) :
  (forall x, x ∈ l -> P1 x <-> P2 x) -> filter P1 l = filter P2 l.
Proof.
  induction l as [|x l IH]; intros Hl; [done|].
  rewrite !filter_cons. rewrite IH by (intros y Hy; apply Hl; by right).
  destruct (decide (P1 x)) as [H1|H1], (decide (P2 x)) as [H2|H2]; try done.
  - destruct H2. apply Hl; [by left|done].
  - destruct H1. apply Hl; [by left|done].
Qed.

Lemma taken_increasing prior reads :
  StronglySorted (fun a b => After b.2 a.2 = true) reads ->
  taken prior reads
  = filter (fun r => After (read_offset r) prior = true)
      ((fun r => mkWalRead r.1 r.2) <$> reads).
Proof.
  revert prior. induction reads as [|[data o] reads IH]; intros prior Hs; [done|].
  apply StronglySorted_inv in Hs as [Hs Hall]. simpl. rewrite filter_cons. simpl.
  destruct (After o prior) eqn:Hafter.
  - rewrite decide_True by done. f_equal. rewrite (IH o Hs).
    apply filter_ext_elem.
    intros r (x & -> & Hx)%list_elem_of_fmap. rewrite Forall_forall in Hall.
    specialize (Hall x Hx). unfold After in *. simpl in *.
    rewrite !Z.ltb_lt in *. split; [lia|]. intros. lia.
  - rewrite decide_False by done. by apply IH.
Qed.

Lemma offset_after_last prior reads :
  offset_after prior reads = default prior (read_offset <$> last (taken prior reads)).
Proof.
  revert prior. induction reads as [|[data o] reads IH]; intros prior; simpl; [done|].
  destruct (After o prior); [|apply IH]. rewrite IH.
  by destruct (taken o reads) as [|r l] using rev_ind; [|rewrite app_comm_cons, !last_snoc].
Qed.

(** What the callback hands to the tables.  Over a run of calls without
    cancellation, with one offset for each table, no call panics and each
    table is handed, in the order of the reads, some of the reads, each
    once: their offsets are after the offset that the table had and strictly
    increasing, and the offset of the table ends as that of the last one
    handed.  When the offsets of the reads are strictly increasing (as the
    leader sends them), the table is handed exactly the reads after the
    offset that it had: none twice and none left out, whatever the other
    tables take. *)
Theorem callback_hands_each_table_its_reads n reads cancel offsets :
  buf cancel = [] -> closed cancel = false -> length offsets = n ->
  exists rs offsets',
    callbacks n reads (cancel, offsets) = Some (rs, (cancel, offsets')) /\
    length offsets' = n /\
    forall i prior, offsets !! i = Some prior ->
      received i rs `sublist_of` ((fun r => mkWalRead r.1 r.2) <$> reads) /\
      Forall (fun r => After (read_offset r) prior = true) (received i rs) /\
      StronglySorted (fun a b => After (read_offset b) (read_offset a) = true)
        (received i rs) /\
      offsets' !! i = Some (default prior (read_offset <$> last (received i rs))) /\
      (StronglySorted (fun a b => After b.2 a.2 = true) reads ->
       received i rs
       = filter (fun r => After (read_offset r) prior = true)
           ((fun r => mkWalRead r.1 r.2) <$> reads)).
Proof.
  intros Hbuf Hopen Hlen.
  destruct (callbacks_forward n reads cancel offsets Hbuf Hopen Hlen)
    as (rs & offsets' & Hrun & Hl & Hall).
  exists rs, offsets'. split; [done|]. split; [done|].
  intros i prior Hi. destruct (Hall i prior Hi) as (Ho & ->).
  split; [apply taken_sublist|]. split; [apply taken_after|].
  split; [apply taken_after|]. split; [by rewrite <- offset_after_last|].
  apply taken_increasing.
Qed.

(** Cancellation.  A value on [cancel] makes one call return [errCanceled]
    without a hand-over and is consumed by it: with the values [tokens] on
    the channel, the first calls, one for each value, are cancelled, and the
    calls after them proceed as if nothing had been cancelled. *)
Theorem callback_cancel_stops_one_call n reads tokens capacity offsets :
  callbacks n reads (mkChan tokens capacity false, offsets)
  = match callbacks n (drop (length tokens) reads)
            (mkChan (drop (length reads) tokens) capacity false, offsets) with
    | Some (rs, st) =>
        Some (replicate (min (length tokens) (length reads)) Canceled ++ rs, st)
    | None => None
    end.
Proof.
  revert tokens. induction reads as [|[data o] reads IH]; intros tokens.
  - rewrite drop_nil. simpl. by rewrite drop_0, Nat.min_0_r.
  - destruct tokens as [|t tokens].
    + simpl length. rewrite drop_0, drop_nil. simpl replicate.
      destruct (callbacks n ((data, o) :: reads) _) as [[rs st]|]; done.
    + simpl. rewrite IH.
      destruct (callbacks n (drop (length tokens) reads) _) as [[rs st]|]; done.
Qed.

Lemma earliestOf_least o rest :
  let e := fold_left (fun earliestOffset offset =>
                        if After earliestOffset offset then offset else earliestOffset)
             rest o in
  e ∈ o :: rest /\ forall x, x ∈ o :: rest -> After e x = false.
Proof.
  revert o. induction rest as [|y rest IH]; intros o; simpl.
  - split; [by left|]. intros x Hx. apply list_elem_of_singleton in Hx as ->.
    unfold After. apply Z.ltb_irrefl.
  - destruct (IH (if After o y then y else o)) as (Hin & Hall). split.
    + apply elem_of_cons in Hin as [->|Hin]; [|by do 2 right].
      destruct (After o y); [right; by left|by left].
    + intros x Hx. unfold After in *.
      assert (Hm : After (fold_left
                  (fun earliestOffset offset =>
                     if After earliestOffset offset then offset else earliestOffset)
                  rest (if After o y then y else o)) (if After o y then y else o) = false)
        by (apply Hall; by left).
      unfold After in Hm. rewrite Z.ltb_ge in *.
      apply elem_of_cons in Hx as [Hx|Hx].
      * subst x. destruct (Z.ltb_spec y o); lia.
      * apply elem_of_cons in Hx as [Hx|Hx].
        -- subst x. destruct (Z.ltb_spec y o); lia.
        -- specialize (Hall x (list_elem_of_further _ _ _ Hx)). by rewrite Z.ltb_ge in Hall.
Qed.

(** The offset that [makeFollow] asks for.  With at least one table, it is
    the earliest of the offsets of the tables: the offset of a table that
    no table is before; and with [MaxFollowAge > 0] it is
    [earliestAllowedOffset] instead when that is after it, so that then the
    reads between the offset of a table and [earliestAllowedOffset] are not
    asked for. *)
Theorem makeFollow_asks_from_earliest stream partition partitions MaxFollowAge
    earliestAllowedOffset offsets :
  offsets <> [] ->
  exists earliest,
    earliest ∈ offsets /\
    (forall offset, offset ∈ offsets -> After earliest offset = false) /\
    makeFollow stream partition partitions MaxFollowAge earliestAllowedOffset offsets
    = (stream,
       Some (if (0 <? MaxFollowAge) && After earliestAllowedOffset earliest
             then earliestAllowedOffset else earliest),
       partition, partitions).
Proof.
  destruct offsets as [|o rest]; [done|]. intros _.
  destruct (earliestOf_least o rest) as (Hin & Hall).
  eexists. split; [exact Hin|]. split; [exact Hall|].
  unfold makeFollow, earliestOf. destruct (0 <? MaxFollowAge); simpl; [|done].
  by destruct (After earliestAllowedOffset _).
Qed.

Section Reporting.
Context {sorter : Sorter} {CbState : Type}.
Variable getTable : string -> option table.
Variable strings_ToLower : string -> string.
Variable walOpens : string -> option Offset -> bool.
Variable numPartitions : Z.

(** Dispatcher and metrics composed.  After any events from the start, a
    tick completes; it resets [stats] to one zero for each partition, leaves
    the followers, the leader record and the partition records as they are,
    and for each registered follower the metrics then hold a record under
    its id with the partition number for which it joined and, as [Queued],
    the number of entries in its queue; the records of other ids stay as
    they are. *)
Theorem tick_reports_queues m es (d : dispatcher CbState) σ0 σ :
  joins es < 2 ^ 63 ->
  processFollowers_from getTable strings_ToLower walOpens numPartitions es
    (start numPartitions m) σ0 = Done (d, σ) ->
  exists d',
    handle getTable strings_ToLower walOpens numPartitions Tick d σ = Done (d', σ) /\
    stats d' = replicate (Z.to_nat numPartitions) 0 /\
    d_followers d' = d_followers d /\
    metrics.leaderStats (d_metrics d') = metrics.leaderStats (d_metrics d) /\
    metrics.partitionStats (d_metrics d') = metrics.partitionStats (d_metrics d) /\
    (forall id f, d_followers d !! id = Some f ->
       exists rec,
         metrics.followerStats (d_metrics d') !! id = Some rec /\
         metrics.Partition rec = PartitionNumber (follow f) /\
         metrics.Queued rec = Z.of_nat (length (buf (entries f)))) /\
    (forall id, d_followers d !! id = None ->
       metrics.followerStats (d_metrics d') !! id
       = metrics.followerStats (d_metrics d) !! id).
Proof.
  intros Hlt Hrun.
  destruct (processFollowers_from_numbered _ _ _ _ _ _ _ _ _ Hrun (numbered_start _ _))
    as (Hn & _); [simpl; lia|].
  pose proof (processFollowers_from_reported _ _ _ _ _ _ _ _ _ Hrun (reported_start _ _))
    as Hrep.
  destruct (handleTick_reports numPartitions d Hn Hrep) as (Hst & (Hl & Hp & _) & Hq).
  exists (handleTick numPartitions d). repeat (split; [done|]).
  intros id Hid. simpl. apply (report_other (map_to_list (d_followers d)).*2).
  intros (f & -> & Hf)%list_elem_of_fmap.
  apply list_elem_of_fmap in Hf as ([k g] & -> & Hk). apply elem_of_map_to_list in Hk.
  destruct Hn as (_ & _ & Hids). simpl in Hid. rewrite (Hids k g Hk) in Hid. congruence.
Qed.

End Reporting.

(** ** The client side: the subscribers of [followLeader] *)
Section Subscribers.
Context {sorter : Sorter}.

(** The loop [waitForTables] over the subscribers that arrive before the
    timer fires, and the registration of a subscriber in the second loop,
    which appends to [tables] and [offsets] and leaves [partitions]. *)
Definition waitForTables (subscribers : list tableWithOffset) (st : leaderFollow)
    : M leaderFollow :=
  fold_M (fun st subscriber => addSubscriber subscriber st) subscribers st.

Definition laterSubscriber (st : leaderFollow) (subscriber : tableWithOffset)
    : leaderFollow :=
  mkLeaderFollow (fl_tables st ++ [two_t subscriber]) (fl_offsets st ++ [two_o subscriber])
    (fl_partitions st).

(** The tables that the partitions of the [Follow] request name. *)
Definition requested (partitions : gmap string Partition) : list PartitionTable :=
  mjoin (Tables <$> (map_to_list partitions).*2).

Definition request_for (subscriber : tableWithOffset) : PartitionTable :=
  mkPartitionTable (Name (two_t subscriber)) (two_o subscriber).

Lemma requested_insert partitions k keys pt :
  let partition := default (mkPartition keys []) (partitions !! k) in
  requested (<[k := mkPartition (Keys partition) (Tables partition ++ [pt])]> partitions)
  ≡ₚ requested partitions ++ [pt].
Proof.
  unfold requested. destruct (partitions !! k) as [p|] eqn:Hk; simpl.
  - rewrite <- insert_delete_eq.
    rewrite map_to_list_insert by apply lookup_delete_eq.
    rewrite <- (map_to_list_delete partitions k p Hk). csimpl.
    rewrite <- !app_assoc. apply Permutation_app_head, Permutation_app_comm.
  - rewrite map_to_list_insert by done. csimpl. apply Permutation_cons_append.
Qed.

Lemma waitForTables_run subscribers st σ :
  exists st' σ',
    waitForTables subscribers st σ = Some (st', σ') /\
    fl_tables st' = fl_tables st ++ (two_t <$> subscribers) /\
    fl_offsets st' = fl_offsets st ++ (two_o <$> subscribers) /\
    requested (fl_partitions st')
    ≡ₚ requested (fl_partitions st) ++ (request_for <$> subscribers).
Proof.
  revert st σ. induction subscribers as [|s subscribers IH]; intros st σ.
  - exists st, σ. simpl. by rewrite !app_nil_r.
  - destruct (sortedPartitionKeys_total (PartitionBy (two_t s)) σ) as (k & σ1 & Hs).
    unfold waitForTables. simpl. unfold mbind at 1, M_bind at 1.
    unfold addSubscriber at 1. unfold mbind at 1, M_bind at 1. rewrite Hs.
    unfold mret, M_ret at 1.
    match goal with
    | |- context [fold_M _ subscribers ?st1 σ1] =>
        destruct (IH st1 σ1) as (st' & σ' & Hrun & Ht & Ho & Hp)
    end.
    exists st', σ'. unfold waitForTables in Hrun. rewrite Hrun. split; [done|].
    simpl in Ht, Ho, Hp. rewrite Ht, Ho, <- !app_assoc. split; [done|]. split; [done|].
    rewrite Hp, requested_insert, <- app_assoc. done.
Qed.

(** The subscribers of [followLeader].  With the subscribers [early]
    arriving during the wait and the subscribers [late] after it, the wait
    does not panic; [tables] and [offsets] list all of them in the order of
    their arrival, table by table, so they have the same length; and the
    partitions of the [Follow] request name exactly the tables of [early],
    each once with its offset: a table that subscribes after the wait is
    handed reads but is never named in a request to the leader. *)
Theorem late_subscribers_are_not_requested early late σ :
  exists st σ',
    waitForTables early (mkLeaderFollow [] [] ∅) σ = Some (st, σ') /\
    fl_tables (foldl laterSubscriber st late) = two_t <$> (early ++ late) /\
    fl_offsets (foldl laterSubscriber st late) = two_o <$> (early ++ late) /\
    length (fl_offsets (foldl laterSubscriber st late))
    = length (fl_tables (foldl laterSubscriber st late)) /\
    requested (fl_partitions (foldl laterSubscriber st late))
    ≡ₚ request_for <$> early.
Proof.
  destruct (waitForTables_run early (mkLeaderFollow [] [] ∅) σ)
    as (st & σ' & Hrun & Ht & Ho & Hp).
  exists st, σ'. split; [done|]. simpl in Ht, Ho, Hp.
  assert (Hlate : forall late st,
            fl_tables (foldl laterSubscriber st late) = fl_tables st ++ (two_t <$> late) /\
            fl_offsets (foldl laterSubscriber st late)
            = fl_offsets st ++ (two_o <$> late) /\
            fl_partitions (foldl laterSubscriber st late) = fl_partitions st).
  { clear. induction late as [|s late IH]; intros st; simpl.
    - by rewrite !app_nil_r.
    - destruct (IH (laterSubscriber st s)) as (-> & -> & ->). simpl.
      by rewrite <- !app_assoc. }
  destruct (Hlate late st) as (Ht' & Ho' & Hp').
  rewrite Ht', Ho', Hp', Ht, Ho, !fmap_app. split; [done|]. split; [done|].
  split; [by rewrite !length_app, !length_fmap|]. rewrite Hp. done.
Qed.

End Subscribers.

(** *** A leader to evaluate on

    One table "t" without predicate.  Follower A asks for stream "inbound",
    follower B for stream "other", both for partition 1, table "t" from
    offset 3 and the keys ["b"; "a"], which are in array 0 and array 1 of the
    store. *)
#[local] Existing Instance insertion_Sorter.

Definition only_t (name : string) : option table :=
  if String.eqb name "t" then Some (mkTable "t" (mkSlice 0 0 0) None) else None.

Definition request (stream : string) (array : nat) : Follow :=
  mkFollow stream 0 1 {[ "b|a" := mkPartition (mkSlice array 0 2) [mkPartitionTable "t" 3] ]}.

Definition joiner (stream : string) (array : nat) : follower nat :=
  mkFollower (request stream array) 0 fifth_fails (mkChan [] 8 false) 0.

Definition two_arrays : Store := mkStore [["b"; "a"]; ["b"; "a"]] [] [] [] [].

Definition result_at (o : Offset) (passed : bool) : partitionsResult :=
  mkPartitionsResult (entry_at o)
    {[ "a|b" := mkPartitionResult 1 {[ "t" := passed ]} ]}.

Definition keys_ba : slice := mkSlice 0 0 2.

Example sortedPartitionKeys_ba :
  sortedPartitionKeys (H := insertion_Sorter) keys_ba two_arrays
  = Some (("a|b", keys_ba), mkStore [["a"; "b"]; ["b"; "a"]] [] [] [] []).
Proof. reflexivity. Qed.

Lemma sortedPartitionKeys_mutates_argument_witness :
  exists joined σ',
    sortedPartitionKeys (H := insertion_Sorter) keys_ba two_arrays
      = Some ((joined, keys_ba), σ') /\
    (len keys_ba = 0%nat -> joined = "" /\ σ' = two_arrays) /\
    (len keys_ba <> 0%nat ->
       contents σ' keys_ba ≡ₚ contents two_arrays keys_ba /\
       ascending String.ltb (contents σ' keys_ba) /\
       joined = String.concat "|" (contents σ' keys_ba) /\
       σ' = with_arrays
              (fun h => <[arr keys_ba :=
                            set_window keys_ba (contents σ' keys_ba)
                              (arrays two_arrays !!! arr keys_ba)]> h) two_arrays) /\
    (forall getTable strings_ToLower (f : follower nat) id partitions partition,
       Keys partition = keys_ba ->
       exists σ2,
         joinPartition getTable strings_ToLower f id partitions partition two_arrays
           = Some (tt, σ2) /\
         arrays σ2 = arrays σ') /\
    (forall subscriber st,
       PartitionBy (two_t subscriber) = keys_ba ->
       exists st', addSubscriber subscriber st two_arrays = Some (st', σ')).
Proof.
  apply (sortedPartitionKeys_mutates_argument (H := insertion_Sorter) two_arrays keys_ba).
  - simpl. lia.
  - simpl. lia.
Defined.

(** The keys ["a"; "b"] listed in this order, in the middle of an array. *)
Definition keys_ab : slice := mkSlice 0 1 2.
Definition padded_array : Store := mkStore [["x"; "a"; "b"]] [] [] [] [].

Lemma sortedPartitionKeys_canonical_witness :
  exists joined σ1' σ2',
    sortedPartitionKeys (H := insertion_Sorter) keys_ba two_arrays
      = Some ((joined, keys_ba), σ1') /\
    sortedPartitionKeys (H := insertion_Sorter) keys_ab padded_array
      = Some ((joined, keys_ab), σ2') /\
    contents σ1' keys_ba = contents σ2' keys_ab.
Proof.
  apply (sortedPartitionKeys_canonical (H := insertion_Sorter)
           two_arrays padded_array keys_ba keys_ab).
  - simpl. lia.
  - simpl. lia.
  - simpl. lia.
  - simpl. lia.
  - vm_compute. apply perm_swap.
Defined.

Definition leader_step (e : event nat) (d : dispatcher nat) (σ : Store)
    : outcome (dispatcher nat * Store) :=
  handle (H := insertion_Sorter) only_t (fun s => s) (fun _ _ => true) 4 e d σ.

(** The state in which a completed step leaves the leader. *)
Definition done_state {A} (o : outcome A) (otherwise : A) : A :=
  match o with
  | Done a => a
  | _ => otherwise
  end.

Definition leader_run (es : list (event nat)) (d : dispatcher nat) (σ : Store)
    : outcome (dispatcher nat * Store) :=
  processFollowers_from only_t (fun s => s) (fun _ _ => true) 4 es d σ.

(** Follower A has joined on "inbound". *)
Definition joined_A : dispatcher nat * Store :=
  done_state (leader_step (Joined (joiner "inbound" 0) []) (start 4 metrics.reset) two_arrays)
    (start 4 metrics.reset, two_arrays).

(** An entry for the map worker: after a header of 12 bytes (timestamp and
    length) come the dimension bytes, here one byte, which is the value of
    the key "a" and hashes to partition 1 of 4. *)
Definition after_header (data : list Byte.byte) : option (list Byte.byte) :=
  if (12 <=? length data)%nat then Some (drop 12 data) else None.

Definition value_of_a (dims : list Byte.byte) (key : string) : option (list Byte.byte) :=
  if String.eqb key "a" then Some dims else None.

Definition entry_five (o : Offset) : walEntry :=
  mkWalEntry "inbound" (replicate 12 Byte.x00 ++ [Byte.x05]) o.

Definition mapped_five : list Byte.byte * partitionsResult :=
  default ([], mkPartitionsResult (entry_five 5) ∅)
    (mapPartitionRequest value_of_a after_header 4 joined_A.2 []
       (mkPartitionRequest 0 (entry_five 5))).

Example mapped_five_result :
  mapped_five.2
  = mkPartitionsResult (entry_five 5)
      {[ "a|b" := mkPartitionResult 1 {[ "t" := true ]} ]}.
Proof. vm_compute. reflexivity. Qed.

Lemma mapPartitionRequest_result_witness :
  exists dims,
    after_header (data (req_entry (mkPartitionRequest 0 (entry_five 5)))) = Some dims /\
    entry mapped_five.2 = req_entry (mkPartitionRequest 0 (entry_five 5)) /\
    forall k,
      match (partMaps joined_A.2 !!! req_partitions (mkPartitionRequest 0 (entry_five 5)))
              !! k with
      | None => partitions mapped_five.2 !! k = None
      | Some ps =>
          exists pr,
            partitions mapped_five.2 !! k = Some pr /\
            pid pr = digest (digested value_of_a dims
                               (contents joined_A.2 (keys (partSpecs joined_A.2 !!! ps))))
                     mod 4 /\
            0 <= pid pr < 4 /\
            forall t,
              match tables (partSpecs joined_A.2 !!! ps) !! t with
              | None => wherePassed pr !! t = None
              | Some ts =>
                  followers_on joined_A.2 ts (pid pr) = [] <-> wherePassed pr !! t = None
              end
      end.
Proof.
  apply (mapPartitionRequest_result value_of_a after_header 4 joined_A.2 []
           (mkPartitionRequest 0 (entry_five 5)) mapped_five.1 mapped_five.2).
  - lia.
  - vm_compute. reflexivity.
Defined.

Lemma mapPartitionRequest_memoizes_witness :
  exists dims,
    after_header (data (req_entry (mkPartitionRequest 0 (entry_five 5)))) = Some dims /\
    forall k ps pr t ts b,
      (partMaps joined_A.2 !!! req_partitions (mkPartitionRequest 0 (entry_five 5))) !! k
        = Some ps ->
      partitions mapped_five.2 !! k = Some pr ->
      tables (partSpecs joined_A.2 !!! ps) !! t = Some ts ->
      wherePassed pr !! t = Some b ->
      (exists ts',
         in_tree joined_A.2 (req_partitions (mkPartitionRequest 0 (entry_five 5))) ts' /\
         whereString (tableSpecs joined_A.2 !!! ts')
           = whereString (tableSpecs joined_A.2 !!! ts) /\
         evalWhere (where_ (tableSpecs joined_A.2 !!! ts')) dims = Some b) /\
      (forall k' ps' pr' t' ts' b',
         (partMaps joined_A.2 !!! req_partitions (mkPartitionRequest 0 (entry_five 5))) !! k'
           = Some ps' ->
         partitions mapped_five.2 !! k' = Some pr' ->
         tables (partSpecs joined_A.2 !!! ps') !! t' = Some ts' ->
         wherePassed pr' !! t' = Some b' ->
         whereString (tableSpecs joined_A.2 !!! ts')
           = whereString (tableSpecs joined_A.2 !!! ts) ->
         b' = b) /\
      ((forall ts',
          in_tree joined_A.2 (req_partitions (mkPartitionRequest 0 (entry_five 5))) ts' ->
          whereString (tableSpecs joined_A.2 !!! ts')
            = whereString (tableSpecs joined_A.2 !!! ts) ->
          evalWhere (where_ (tableSpecs joined_A.2 !!! ts')) dims
          = evalWhere (where_ (tableSpecs joined_A.2 !!! ts)) dims) ->
       evalWhere (where_ (tableSpecs joined_A.2 !!! ts)) dims = Some b).
Proof.
  apply (mapPartitionRequest_memoizes value_of_a after_header 4 joined_A.2 []
           (mkPartitionRequest 0 (entry_five 5)) mapped_five.1 mapped_five.2).
  vm_compute. reflexivity.
Defined.

Lemma mapPartitionRequest_sends_witness :
  (4 <> 0 ->
   exists h' result,
     mapPartitionRequest value_of_a after_header 4 joined_A.2 ([] : list Byte.byte)
       (mkPartitionRequest 0 (entry_five 5)) = Some (h', result)) /\
  (4 = 0 ->
   partMaps joined_A.2 !!! req_partitions (mkPartitionRequest 0 (entry_five 5)) <> ∅ ->
   mapPartitionRequest value_of_a after_header 4 joined_A.2 ([] : list Byte.byte)
     (mkPartitionRequest 0 (entry_five 5)) = None).
Proof.
  apply (mapPartitionRequest_sends value_of_a after_header 4 joined_A.2 []
           (mkPartitionRequest 0 (entry_five 5)) [Byte.x05]).
  - reflexivity.
  - intros ts (k & ps & t & Hk & Ht). vm_compute in Hk.
    destruct ts as [|ts]; [by eexists|].
    exists true. vm_compute. reflexivity.
Defined.

Definition arrived_on_mapped : list partitionsResult :=
  [result_at 5 true; result_at 4 true; result_at 7 true].

Definition after_results : dispatcher nat * Store :=
  done_state
    (leader_run (Result <$> results (reducePartitionRequests [2; 1]%nat arrived_on_mapped))
       joined_A.1 joined_A.2)
    joined_A.

(** The queue of follower A after these results. *)
Example delivered_in_order :
  (fun f => buf (entries f)) <$> d_followers after_results.1 !! 1
  = Some [entry_at 4; entry_at 5; entry_at 7].
Proof. vm_compute. reflexivity. Qed.

(** The three entries are received in two turns, an idle turn and a third
    turn, on a machine with 3 CPUs: they are queued as batches of 2 and 1. *)
Definition three_polls : list (option partitionRequest) :=
  [Some (mkPartitionRequest 0 (entry_at 4)); Some (mkPartitionRequest 0 (entry_at 5));
   None; Some (mkPartitionRequest 0 (entry_at 7))].

Example three_polls_queued :
  sent_queued (enqueuePartitionRequests (parallelism_for 3) three_polls) = [2; 1].
Proof. reflexivity. Qed.

Lemma pipeline_forwards_every_result_witness :
  results (reducePartitionRequests
             (Z.to_nat <$> sent_queued (enqueuePartitionRequests (parallelism_for 3)
                                          three_polls))
             arrived_on_mapped) ≡ₚ arrived_on_mapped /\
  drained (reducePartitionRequests
             (Z.to_nat <$> sent_queued (enqueuePartitionRequests (parallelism_for 3)
                                          three_polls))
             arrived_on_mapped)
  = length (sent_queued (enqueuePartitionRequests (parallelism_for 3) three_polls)) /\
  results_closed (reducePartitionRequests
                    (Z.to_nat <$> sent_queued (enqueuePartitionRequests (parallelism_for 3)
                                                 three_polls))
                    arrived_on_mapped) = true.
Proof.
  apply (pipeline_forwards_every_result (H := insertion_Sorter) 3 three_polls
           arrived_on_mapped).
  reflexivity.
Defined.

(** The result for the entry at offset 4 is processed, then the result that
    the worker sent for [entry_five 5]. *)
Definition after_four : dispatcher nat * Store :=
  done_state (leader_run [Result (result_at 4 true)] joined_A.1 joined_A.2) joined_A.

Definition after_five : dispatcher nat * Store :=
  done_state (handleResult mapped_five.2 after_four.1 after_four.2) after_four.

Definition session_of (d : dispatcher nat) (id : Z) : follower nat :=
  default (joiner "inbound" 0) (d_followers d !! id).

Lemma mapped_result_is_handled_witness :
  (handleResult mapped_five.2 after_four.1 after_four.2 = Blocked \/
   exists d' σ', handleResult mapped_five.2 after_four.1 after_four.2 = Done (d', σ')) /\
  ((forall id f, d_followers after_four.1 !! id = Some f ->
      (length (buf (entries f)) < cap (entries f))%nat) ->
   exists d' σ', handleResult mapped_five.2 after_four.1 after_four.2 = Done (d', σ')).
Proof.
  apply (mapped_result_is_handled only_t (fun s => s) (fun _ _ => true)
           value_of_a after_header 4 metrics.reset
           [Joined (joiner "inbound" 0) []] [result_at 4 true]
           joined_A.1 after_four.1 two_arrays joined_A.2 after_four.2
           [] mapped_five.1 (mkPartitionRequest 0 (entry_five 5)) mapped_five.2).
  - lia.
  - by repeat split.
  - vm_compute. reflexivity.
  - repeat constructor.
  - vm_compute. reflexivity.
  - vm_compute. reflexivity.
  - vm_compute. reflexivity.
  - vm_compute. reflexivity.
Defined.

Lemma delivered_entry_hashes_to_partition_witness :
  failed (session_of after_four.1 1) = false /\
  buf (entries (session_of after_five.1 1))
  = buf (entries (session_of after_four.1 1)) ++ [entry_five 5] /\
  exists dims k ps t ts ts',
    after_header (data (entry_five 5)) = Some dims /\
    (partMaps joined_A.2 !!! 0%nat) !! k = Some ps /\
    PartitionNumber (follow (session_of after_four.1 1))
    = digest (digested value_of_a dims
                (contents joined_A.2 (keys (partSpecs joined_A.2 !!! ps))))
      mod 4 /\
    tables (partSpecs joined_A.2 !!! ps) !! t = Some ts /\
    in_tree joined_A.2 0 ts' /\
    whereString (tableSpecs joined_A.2 !!! ts')
    = whereString (tableSpecs joined_A.2 !!! ts) /\
    evalWhere (where_ (tableSpecs joined_A.2 !!! ts')) dims = Some true.
Proof.
  apply (delivered_entry_hashes_to_partition only_t (fun s => s) (fun _ _ => true)
           value_of_a after_header 4 metrics.reset
           [Joined (joiner "inbound" 0) []] [result_at 4 true]
           joined_A.1 after_four.1 after_five.1 two_arrays joined_A.2 after_four.2
           after_five.2 [] mapped_five.1 (mkPartitionRequest 0 (entry_five 5))
           mapped_five.2 1).
  - lia.
  - by repeat split.
  - vm_compute. reflexivity.
  - repeat constructor.
  - vm_compute. reflexivity.
  - vm_compute. reflexivity.
  - vm_compute. reflexivity.
  - vm_compute. reflexivity.
  - vm_compute. reflexivity.
  - vm_compute. reflexivity.
  - vm_compute. reflexivity.
  - intros Heq. apply (f_equal (@length walEntry)) in Heq.
    vm_compute in Heq. discriminate Heq.
Defined.

(** After follower A, follower B joins on "other". *)
Definition A_then_B : list (event nat) :=
  [Joined (joiner "inbound" 0) []; Joined (joiner "other" 1) []].

Definition joined_A_B : dispatcher nat * Store :=
  done_state (leader_run A_then_B (start 4 metrics.reset) two_arrays)
    (start 4 metrics.reset, two_arrays).

Lemma followers_numbered_in_join_order_witness :
  nextFollowerID joined_A_B.1 = Z.of_nat (length (joined A_then_B)) /\
  forall id,
    match d_followers joined_A_B.1 !! id with
    | None => ~ (1 <= id <= Z.of_nat (length (joined A_then_B)))
    | Some f =>
        1 <= id /\
        exists g,
          joined A_then_B !! Z.to_nat (id - 1) = Some g /\
          follow f = follow g /\ followerId f = id /\ cb f = cb g
    end.
Proof.
  apply (followers_numbered_in_join_order only_t (fun s => s) (fun _ _ => true) 4
           metrics.reset A_then_B joined_A_B.1 two_arrays joined_A_B.2).
  - vm_compute. reflexivity.
  - vm_compute. reflexivity.
Defined.

Lemma join_restarts_reader_witness :
  exists d' σ' new tree,
    leader_step (Joined (joiner "other" 1) []) joined_A.1 joined_A.2 = Done (d', σ') /\
    requests d' = Some new /\ pipelines d' !! new = Some false /\
    streams d' !! "other" = Some tree /\
    (exists offset,
       stopWALReaders d' !! "other"
       = Some (mkWalReader offset (Some tree) (Some new))) /\
    (forall r, requests joined_A.1 = Some r -> pipelines d' !! r = Some true) /\
    (forall s', s' <> "other" ->
       stopWALReaders d' !! s' = stopWALReaders joined_A.1 !! s') /\
    (forall s' reader r,
       s' <> "other" -> stopWALReaders joined_A.1 !! s' = Some reader ->
       requests joined_A.1 = Some r -> wr_requests reader = Some r ->
       stopWALReaders d' !! s' = Some reader /\ pipelines d' !! r = Some true).
Proof.
  apply (join_restarts_reader only_t (fun s => s) (fun _ _ => true) 4 metrics.reset
           [Joined (joiner "inbound" 0) []] joined_A.1 two_arrays joined_A.2
           (joiner "other" 1) [] "other").
  - by repeat split.
  - vm_compute. reflexivity.
  - repeat constructor.
  - intros o. reflexivity.
Defined.

(** The reader of "inbound" was started on channel 0, which the join of
    follower B has closed; the reader is still the one registered. *)
Example reader_of_inbound_on_closed_channel :
  wr_requests <$> stopWALReaders joined_A_B.1 !! "inbound" = Some (Some 0%nat) /\
  pipelines joined_A_B.1 = [true; false] /\
  requests joined_A_B.1 = Some 1%nat.
Proof. vm_compute. done. Qed.

(** Followers that join on "inbound" with the table "t" at the given
    offsets, one after the other: their specs are in one list, in the order
    of the joins. *)
Definition joiner_from (o : Offset) : follower nat :=
  mkFollower
    (mkFollow "inbound" 0 1
       {[ "b|a" := mkPartition (mkSlice 0 0 2) [mkPartitionTable "t" o] ]})
    0 fifth_fails (mkChan [] 8 false) 0.

Definition joined_from (offsets : list Offset) : dispatcher nat * Store :=
  done_state
    (leader_run ((fun o => Joined (joiner_from o) []) <$> offsets)
       (start 4 metrics.reset) two_arrays)
    (start 4 metrics.reset, two_arrays).

(** Joins at the offsets 7 and 3: the reader of the last join starts at 3. *)
Example earliest_of_two_joins :
  leader_run ((fun o => Joined (joiner_from o) []) <$> [7; 3])
    (start 4 metrics.reset) two_arrays = Done (joined_from [7; 3]) /\
  streams (joined_from [7; 3]).1 !! "inbound" = Some 1%nat /\
  tree_specs (joined_from [7; 3]).2 1 = [0; 1]%nat /\
  followSpecs (joined_from [7; 3]).2 = [mkFollowSpec 1 7; mkFollowSpec 2 3] /\
  wr_offset <$> stopWALReaders (joined_from [7; 3]).1 !! "inbound" = Some (Some 3).
Proof. vm_compute. done. Qed.

Lemma earliestInTree_least_witness :
  (forall spec,
     spec_in_tree (joined_from [7; 3]).2 1 spec ->
     spec_offset (followSpecs (joined_from [7; 3]).2 !!! spec) <> nil_Offset) /\
  match earliestInTree (joined_from [7; 3]).2 (Some 1%nat) with
  | None => forall spec, ~ spec_in_tree (joined_from [7; 3]).2 1 spec
  | Some earliestOffset =>
      (exists spec,
         spec_in_tree (joined_from [7; 3]).2 1 spec /\
         spec_offset (followSpecs (joined_from [7; 3]).2 !!! spec) = earliestOffset) /\
      forall spec,
        spec_in_tree (joined_from [7; 3]).2 1 spec ->
        After earliestOffset (spec_offset (followSpecs (joined_from [7; 3]).2 !!! spec))
        = false
  end.
Proof.
  assert (Hset : forall spec,
            spec_in_tree (joined_from [7; 3]).2 1 spec ->
            spec_offset (followSpecs (joined_from [7; 3]).2 !!! spec) <> nil_Offset).
  { intros spec Hs. pose proof (proj1 (spec_in_tree_specs _ _ _) Hs) as Hin.
    vm_compute in Hin.
    apply elem_of_cons in Hin as [Hin|Hin]; [subst spec; vm_compute; discriminate|].
    apply elem_of_cons in Hin as [Hin|Hin]; [subst spec; vm_compute; discriminate|].
    apply elem_of_nil in Hin. destruct Hin. }
  split; [exact Hset|].
  exact (earliestInTree_least (joined_from [7; 3]).2 1 Hset).
Defined.

(** A follower that joins without an offset for its table has a spec whose
    offset is nil.  Joins at 5, at nil and at 7 leave the specs in that
    order in one list: at the nil spec the variable of the loop is nil again,
    and it ends as 7, which is the offset at which the reader of the last
    join starts, after the offsets of the two other specs.  When the
    follower without an offset joins last, the reader starts at nil. *)
Example earliest_after_nil_spec :
  followSpecs (joined_from [5; nil_Offset; 7]).2
    = [mkFollowSpec 1 5; mkFollowSpec 2 nil_Offset; mkFollowSpec 3 7] /\
  tree_specs (joined_from [5; nil_Offset; 7]).2 2 = [0; 1; 2]%nat /\
  earliestInTree (joined_from [5; nil_Offset; 7]).2 (Some 2%nat) = Some 7 /\
  wr_offset <$> stopWALReaders (joined_from [5; nil_Offset; 7]).1 !! "inbound"
    = Some (Some 7) /\
  earliestInTree (joined_from [5; 7; nil_Offset]).2 (Some 2%nat) = None /\
  wr_offset <$> stopWALReaders (joined_from [5; 7; nil_Offset]).1 !! "inbound"
    = Some None.
Proof. vm_compute. done. Qed.

Lemma join_of_two_streams_panics_witness :
  leader_step (Joined (joiner "other" 1) [joiner "third" 1]) joined_A.1 joined_A.2
    = Panic /\
  (exists r, leader_step (Joined (joiner "other" 1) []) joined_A.1 joined_A.2 = Done r) /\
  (exists r, leader_step (Joined (joiner "third" 1) []) joined_A.1 joined_A.2 = Done r).
Proof.
  apply (join_of_two_streams_panics only_t (fun s => s) (fun _ _ => true) 4 metrics.reset
           [Joined (joiner "inbound" 0) []] joined_A.1 two_arrays joined_A.2
           (joiner "other" 1) [joiner "third" 1] (joiner "other" 1) (joiner "third" 1)).
  - by repeat split.
  - vm_compute. reflexivity.
  - vm_compute. reflexivity.
  - apply list_elem_of_here.
  - apply list_elem_of_further, list_elem_of_here.
  - discriminate.
  - intros o. reflexivity.
  - intros o. reflexivity.
Defined.

(** A follower with two tables, at offsets 3 and 5, is sent the reads at
    offsets 4, 6 and 6 again. *)
Definition three_reads : list (list Byte.byte * Offset) :=
  [([Byte.x01], 4); ([Byte.x02], 6); ([Byte.x02], 6)].

Definition not_cancelled : chan bool := mkChan [] 100 false.

Example callbacks_three_reads :
  callbacks 2 three_reads (not_cancelled, [3; 5])
  = Some ([Forwarded [(0%nat, mkWalRead [Byte.x01] 4)];
           Forwarded [(0%nat, mkWalRead [Byte.x02] 6); (1%nat, mkWalRead [Byte.x02] 6)];
           Forwarded []],
          (not_cancelled, [6; 6])).
Proof. reflexivity. Qed.

Lemma callback_hands_each_table_its_reads_witness :
  exists rs offsets',
    callbacks 2 three_reads (not_cancelled, [3; 5])
      = Some (rs, (not_cancelled, offsets')) /\
    length offsets' = 2%nat /\
    forall i prior, [3; 5] !! i = Some prior ->
      received i rs `sublist_of` ((fun r => mkWalRead r.1 r.2) <$> three_reads) /\
      Forall (fun r => After (read_offset r) prior = true) (received i rs) /\
      StronglySorted (fun a b => After (read_offset b) (read_offset a) = true)
        (received i rs) /\
      offsets' !! i = Some (default prior (read_offset <$> last (received i rs))) /\
      (StronglySorted (fun a b => After b.2 a.2 = true) three_reads ->
       received i rs
       = filter (fun r => After (read_offset r) prior = true)
           ((fun r => mkWalRead r.1 r.2) <$> three_reads)).
Proof.
  apply (callback_hands_each_table_its_reads 2 three_reads not_cancelled [3; 5]).
  - reflexivity.
  - reflexivity.
  - reflexivity.
Defined.

Lemma makeFollow_asks_from_earliest_witness :
  exists earliest,
    earliest ∈ [6; 4; 9] /\
    (forall offset, offset ∈ [6; 4; 9] -> After earliest offset = false) /\
    makeFollow "inbound" 1 ∅ 60 5 [6; 4; 9]
    = ("inbound",
       Some (if (0 <? 60) && After 5 earliest then 5 else earliest),
       1, ∅).
Proof.
  apply (makeFollow_asks_from_earliest "inbound" 1 ∅ 60 5 [6; 4; 9]).
  discriminate.
Defined.

(** Follower A joins and the three results are processed; then a tick. *)
Definition A_then_results : list (event nat) :=
  Joined (joiner "inbound" 0) []
  :: (Result <$> results (reducePartitionRequests [2; 1]%nat arrived_on_mapped)).

Example queued_after_tick :
  metrics.Queued <$>
    metrics.followerStats
      (d_metrics (done_state (leader_step Tick after_results.1 after_results.2)
                    after_results).1) !! 1
  = Some 3.
Proof. vm_compute. reflexivity. Qed.

Lemma tick_reports_queues_witness :
  exists d',
    leader_step Tick after_results.1 after_results.2 = Done (d', after_results.2) /\
    stats d' = replicate (Z.to_nat 4) 0 /\
    d_followers d' = d_followers after_results.1 /\
    metrics.leaderStats (d_metrics d') = metrics.leaderStats (d_metrics after_results.1) /\
    metrics.partitionStats (d_metrics d')
    = metrics.partitionStats (d_metrics after_results.1) /\
    (forall id f, d_followers after_results.1 !! id = Some f ->
       exists rec,
         metrics.followerStats (d_metrics d') !! id = Some rec /\
         metrics.Partition rec = PartitionNumber (follow f) /\
         metrics.Queued rec = Z.of_nat (length (buf (entries f)))) /\
    (forall id, d_followers after_results.1 !! id = None ->
       metrics.followerStats (d_metrics d') !! id
       = metrics.followerStats (d_metrics after_results.1) !! id).
Proof.
  apply (tick_reports_queues only_t (fun s => s) (fun _ _ => true) 4 metrics.reset
           A_then_results after_results.1 two_arrays after_results.2).
  - vm_compute. reflexivity.
  - vm_compute. reflexivity.
Defined.

(** Then follower B joins on "inbound" too, and a result for the entry at
    offset 5 of "inbound", which the reader that this join starts has sent,
    is processed. *)
Definition B_then_result : list (event nat) :=
  [Joined (joiner "inbound" 1) []; Result (result_at 5 true)].

Definition joined_B : dispatcher nat * Store :=
  done_state (leader_step (Joined (joiner "inbound" 1) []) joined_A.1 joined_A.2) joined_A.

Definition after_B_and_result : dispatcher nat * Store :=
  done_state (leader_run B_then_result joined_A.1 joined_A.2) joined_A.

(** Without a second join: the result for the entry at offset 5 is
    processed when follower A has joined. *)
Definition after_result : dispatcher nat * Store :=
  done_state (leader_step (Result (result_at 5 true)) joined_A.1 joined_A.2) joined_A.

(** C5 (the claim as stated fails).  The leader starts without trees and
    follower A joins on "inbound": the reader of "inbound" is started with
    tree 0, where the spec of follower A has offset 3.

    First run: the reader sends the entry at offset 5 and its result is
    processed.  The reader is still the one that holds tree 0, and the spec
    that it sees through tree 0 has offset 5.

    Second run: follower B joins on "inbound".  The dispatcher copies tree
    0 to tree 1 and starts a reader with tree 1, where the specs of A and B
    have offset 3; tree 0 stays with the requests that the first reader has
    sent.  The new reader sends the entry at offset 5 and its result is
    processed: the specs seen through tree 1, which the running reader
    holds, have offset 5, and so has the spec of follower A seen through
    tree 0. *)
Lemma old_tree_offset_advances :
  leader_run [Joined (joiner "inbound" 0) []] (start 4 metrics.reset) two_arrays
    = Done joined_A /\
  no_dangling joined_A.2 0 /\
  wr_partitions <$> stopWALReaders joined_A.1 !! "inbound" = Some (Some 0%nat) /\
  specs_seen joined_A.2 0 "a|b" "t" 1 = Some [mkFollowSpec 1 3] /\
  (leader_run [Result (result_at 5 true)] joined_A.1 joined_A.2 = Done after_result /\
   wr_partitions <$> stopWALReaders after_result.1 !! "inbound" = Some (Some 0%nat) /\
   specs_seen after_result.2 0 "a|b" "t" 1 = Some [mkFollowSpec 1 5] /\
   view after_result.2 0 <> view joined_A.2 0) /\
  (leader_run [Joined (joiner "inbound" 1) []] joined_A.1 joined_A.2 = Done joined_B /\
   leader_run [Result (result_at 5 true)] joined_B.1 joined_B.2
     = Done after_B_and_result /\
   leader_run B_then_result joined_A.1 joined_A.2 = Done after_B_and_result /\
   streams joined_B.1 !! "inbound" = Some 1%nat /\
   wr_partitions <$> stopWALReaders joined_B.1 !! "inbound" = Some (Some 1%nat) /\
   wr_partitions <$> stopWALReaders after_B_and_result.1 !! "inbound"
     = Some (Some 1%nat) /\
   specs_seen joined_B.2 1 "a|b" "t" 1 = Some [mkFollowSpec 1 3; mkFollowSpec 2 3] /\
   specs_seen after_B_and_result.2 1 "a|b" "t" 1
     = Some [mkFollowSpec 1 5; mkFollowSpec 2 5] /\
   specs_seen joined_B.2 0 "a|b" "t" 1 = Some [mkFollowSpec 1 3] /\
   specs_seen after_B_and_result.2 0 "a|b" "t" 1 = Some [mkFollowSpec 1 5] /\
   view after_B_and_result.2 1 <> view joined_B.2 1 /\
   view after_B_and_result.2 0 <> view joined_B.2 0).
Proof.
  assert (Hdiff : forall σ σ' partitions,
            specs_seen σ' partitions "a|b" "t" 1 <> specs_seen σ partitions "a|b" "t" 1 ->
            view σ' partitions <> view σ partitions).
  { intros σ σ' partitions Hne Heq. apply Hne. unfold specs_seen. by rewrite Heq. }
  split; [vm_compute; reflexivity|].
  split; [apply (@bool_decide_unpack _ (no_dangling_dec _ _)); vm_compute; exact I|].
  split; [vm_compute; reflexivity|].
  split; [vm_compute; reflexivity|].
  split.
  - repeat (split; [vm_compute; reflexivity|]).
    apply Hdiff. vm_compute. discriminate.
  - repeat (split; [vm_compute; reflexivity|]).
    split; apply Hdiff; vm_compute; discriminate.
Qed.

Lemma old_tree_keeps_shape_witness :
  shape after_B_and_result.2 0 = shape joined_A.2 0 /\
  ((forall e a, e ∈ B_then_result -> a ∈ sorted_by e -> ~ key_array joined_A.2 0 a) ->
   key_strings after_B_and_result.2 0 = key_strings joined_A.2 0).
Proof.
  apply (old_tree_keeps_shape only_t (fun s => s) (fun _ _ => true) 4 metrics.reset
           [Joined (joiner "inbound" 0) []] B_then_result
           joined_A.1 after_B_and_result.1 two_arrays).
  - by repeat split.
  - vm_compute. reflexivity.
  - vm_compute. lia.
  - vm_compute. reflexivity.
Defined.

(** Follower B has its keys in array 1 and the key slice of tree 0 is in
    array 0: tree 0 shows the same key strings after the run. *)
Example old_tree_keeps_keys :
  sorted_by (Joined (joiner "inbound" 1) []) = [1%nat] /\
  key_strings joined_A.2 0 = {[ "a|b" := ["a"; "b"] ]} /\
  key_strings after_B_and_result.2 0 = {[ "a|b" := ["a"; "b"] ]}.
Proof. vm_compute. done. Qed.

(** The key strings of a tree that a later join sorts.  The keys ["a"; "c"]
    of follower A are the first two elements of an array of three and those
    of follower C, ["c"; "b"], the last two: when follower C has joined,
    tree 0 still has the partition "a|c", whose key slice now shows
    ["a"; "b"]. *)
Definition shared_array : Store := mkStore [["a"; "c"; "b"]] [] [] [] [].

Definition joiner_at (offset : nat) : follower nat :=
  mkFollower
    (mkFollow "inbound" 0 1
       {[ "k" := mkPartition (mkSlice 0 offset 2) [mkPartitionTable "t" 3] ]})
    0 fifth_fails (mkChan [] 8 false) 0.

Definition joined_on_shared : dispatcher nat * Store :=
  done_state (leader_step (Joined (joiner_at 0) []) (start 4 metrics.reset) shared_array)
    (start 4 metrics.reset, shared_array).

Definition rejoined_on_shared : dispatcher nat * Store :=
  done_state (leader_step (Joined (joiner_at 1) []) joined_on_shared.1 joined_on_shared.2)
    joined_on_shared.

Example old_tree_keys_resorted :
  leader_run [Joined (joiner_at 0) []] (start 4 metrics.reset) shared_array
    = Done joined_on_shared /\
  leader_run [Joined (joiner_at 1) []] joined_on_shared.1 joined_on_shared.2
    = Done rejoined_on_shared /\
  sorted_by (Joined (joiner_at 1) []) = [0%nat] /\
  key_strings joined_on_shared.2 0 = {[ "a|c" := ["a"; "c"] ]} /\
  key_strings rejoined_on_shared.2 0 = {[ "a|c" := ["a"; "b"] ]} /\
  shape rejoined_on_shared.2 0 = shape joined_on_shared.2 0.
Proof. vm_compute. done. Qed.

(** A result whose predicate failed includes nobody and advances the spec. *)
Example walkResult_predicate_failed :
  (fun r => (r.1, followSpecs r.2)) <$>
    walkResult (result_at 5 false) joined_A.1 joined_A.2
  = Some ([], [mkFollowSpec 1 5]).
Proof. vm_compute. reflexivity. Qed.

Lemma walkResult_advances_and_includes_witness :
  exists included σ',
    walkResult (result_at 5 true) joined_A.1 joined_A.2 = Some (included, σ') /\
    σ' = with_followSpecs (fun _ => followSpecs σ') joined_A.2 /\
    (forall spec,
       followSpecs σ' !! spec
       = (if decide (spec ∈ specs_of [(true, [0%nat])])
          then advance (offset (entry (result_at 5 true)))
          else fun sp => sp) <$> followSpecs joined_A.2 !! spec) /\
    (forall passed specs spec sp,
       (passed, specs) ∈ [(true, [0%nat])] -> spec ∈ specs ->
       followSpecs joined_A.2 !! spec = Some sp ->
       followSpecs σ' !! spec
       = Some (if After (offset (entry (result_at 5 true))) (spec_offset sp)
               then mkFollowSpec (followerID sp) (offset (entry (result_at 5 true)))
               else sp)) /\
    included `sublist_of`
      included_by joined_A.2 (offset (entry (result_at 5 true))) [(true, [0%nat])] /\
    (NoDup (specs_of [(true, [0%nat])]) ->
     included
     = included_by joined_A.2 (offset (entry (result_at 5 true))) [(true, [0%nat])]).
Proof.
  apply (walkResult_advances_and_includes joined_A.2 joined_A.1 (result_at 5 true)
           [(true, [0%nat])]).
  vm_compute. reflexivity.
Defined.



End zenodb.
